(** * bdep: dependency graph, scheduling, incremental decision and executor

    A shallow embedding of the TypeScript sources of bdep
    ([core/graph.ts], [core/workspace.ts], [core/builder.ts],
    [utils/mtime.ts]) together with the properties its specification
    states about them.

    The first half of the file holds the embedding (definitions only), the
    second half the lemmas and theorems. *)

From Stdlib Require Import String Ascii Bool Arith ZArith QArith Lia.
From Stdlib Require Import DecimalString.
From Stdlib Require Import List Permutation.
From Stdlib Require Import Relations.Relation_Operators Relations.Relation_Definitions.
From Stdlib Require Import Relations.Operators_Properties ListDec.
Import ListNotations.

Local Close Scope Q_scope.
Local Open Scope string_scope.
Local Open Scope list_scope.

(** ** JavaScript containers

    [Map] and [Set] iterate in insertion order, and the result of
    [topologicalSort] depends on that order, so both are modelled as lists:
    a [Set<string>] as a duplicate-free list of its members in insertion
    order, a [Map<string, V>] as an association list with unique keys. *)

Module JsSet.

Definition t := list string.

(** [new Set()] *)
Definition empty : t := [].

(** [s.has(x)]; also [array.includes(x)]. *)
Definition has (s : t) (x : string) : bool := existsb (String.eqb x) s.

(** [s.add(x)]: a member keeps its position, a new element goes last. *)
Definition add (x : string) (s : t) : t := if has s x then s else (s ++ [x])%list.

(** [s.size] *)
Definition size (s : t) : nat := length s.

End JsSet.

Module JsMap.

Definition t (V : Type) := list (string * V).

(** [new Map()] *)
Definition empty {V : Type} : t V := [].

(** [m.get(k)], [None] standing for [undefined]. *)
Fixpoint get {V : Type} (k : string) (m : t V) : option V :=
  match m with
  | [] => None
  | (k', v) :: m' => if String.eqb k' k then Some v else get k m'
  end.

(** [m.has(k)] *)
Definition has {V : Type} (m : t V) (k : string) : bool :=
  match get k m with Some _ => true | None => false end.

(** [m.set(k, v)]: an existing key keeps its position and gets the new
    value, a new key goes last. *)
Fixpoint set {V : Type} (k : string) (v : V) (m : t V) : t V :=
  match m with
  | [] => [(k, v)]
  | (k', v') :: m' =>
      if String.eqb k' k then (k, v) :: m' else (k', v') :: set k v m'
  end.

(** [[...m.keys()]] *)
Definition keys {V : Type} (m : t V) : list string := map fst m.

(** [[...m.values()]] *)
Definition values {V : Type} (m : t V) : list V := map snd m.

(** [m.size] *)
Definition size {V : Type} (m : t V) : nat := length m.

(** The representation invariant of a [Map]: no key occurs twice. *)
Definition wf {V : Type} (m : t V) : Prop := NoDup (keys m).

End JsMap.

(** ** Errors and completions

    The sources signal failure by [throw new Error(message)]; the errors are
    told apart by their message.  [TypeError] is what a property access on
    [undefined] raises (behind a non-null assertion [!]), [RangeError]
    what [String.prototype.repeat] raises for a negative count.  [OutOfFuel] is
    not an error of the program: the [while] loops and the recursion are
    modelled with a step budget, and the last section of the file shows
    that the budget is never exhausted. *)

Inductive JsError : Type :=
| CircularDependency (remaining : list string)
| CouldNotMakeProgress
| BuildFailed (name : string)
| TypeError
| RangeError
| OutOfFuel.

Fixpoint join (sep : string) (l : list string) : string :=
  match l with
  | [] => EmptyString
  | [x] => x
  | x :: rest => x ++ sep ++ join sep rest
  end.

(** The text of [err.message]. *)
Definition message (e : JsError) : string :=
  match e with
  | CircularDependency remaining =>
      "Circular dependency detected involving: " ++ join ", " remaining
  | CouldNotMakeProgress =>
      "Could not make progress - possible circular dependency"
  | BuildFailed name => "Build failed for " ++ name
  | TypeError => "TypeError"
  | RangeError => "RangeError"
  | OutOfFuel => "OutOfFuel"
  end.

Inductive Completion (A : Type) : Type :=
| Return (a : A)
| Throw (e : JsError).

Arguments Return {A} a.
Arguments Throw {A} e.

Definition bind {A B : Type} (c : Completion A) (k : A -> Completion B)
  : Completion B :=
  match c with
  | Return a => k a
  | Throw e => Throw e
  end.

Notation "x <- c ;; k" := (bind c (fun x => k))
  (at level 61, c at next level, right associativity).

(** [for (const x of l) body], the body threading the mutable state. *)
Fixpoint forM {A S : Type} (l : list A) (body : A -> S -> Completion S) (s : S)
  : Completion S :=
  match l with
  | [] => Return s
  | x :: rest => s' <- body x s ;; forM rest body s'
  end.

(** A JavaScript number that is either an integer or [NaN].  The only
    numbers the graph code computes are set sizes and their decrements;
    [undefined - 1] is [NaN]. *)
Inductive number : Type :=
| Num (z : Z)
| NaN.

Definition number_is_zero (n : number) : bool :=
  match n with
  | Num z => Z.eqb z 0
  | NaN => false
  end.

(** ** core/workspace.ts: package records *)

(** A value of a [dependencies] object as [JSON.parse] yields it. *)
Inductive JsonValue : Type :=
| JString (s : string)
| JOther.

(** The fields of [PackageJsonData] the code reads.  An absent
    [dependencies] object spreads to nothing, so it is the empty list. *)
Record PackageJsonData : Type := mkPackageJson {
  pj_name : option string;
  scripts_build : option string;
  dependencies : list (string * JsonValue);
  devDependencies : list (string * JsonValue)
}.

Record PackageInfo : Type := mkPackage {
  name : string;
  path : string;
  packageJson : PackageJsonData;
  workspaceDeps : list string
}.

(** ** core/graph.ts *)

Record DependencyGraph : Type := mkGraph {
  nodes : JsMap.t PackageInfo;
  edges : JsMap.t JsSet.t;        (* package -> packages it depends on *)
  reverseEdges : JsMap.t JsSet.t  (* package -> packages that depend on it *)
}.

(** [m.get(k)!.add(x)]: the set stored under [k] is mutated in place; on a
    missing key the call is made on [undefined]. *)
Definition add_to (k x : string) (m : JsMap.t JsSet.t)
  : Completion (JsMap.t JsSet.t) :=
  match JsMap.get k m with
  | Some s => Return (JsMap.set k (JsSet.add x s) m)
  | None => Throw TypeError
  end.

(** The first loop of [buildDependencyGraph]: every package gets an empty
    set in both adjacency maps. *)
Definition init_adjacency (packages : JsMap.t PackageInfo)
  : JsMap.t JsSet.t * JsMap.t JsSet.t :=
  fold_left
    (fun (st : JsMap.t JsSet.t * JsMap.t JsSet.t) (entry : string * PackageInfo) =>
       (JsMap.set (fst entry) JsSet.empty (fst st),
        JsMap.set (fst entry) JsSet.empty (snd st)))
    packages (JsMap.empty, JsMap.empty).

(** The body of the inner loop: one declared dependency [dep] of [name]. *)
Definition add_dependency (packages : JsMap.t PackageInfo) (name dep : string)
  (st : JsMap.t JsSet.t * JsMap.t JsSet.t)
  : Completion (JsMap.t JsSet.t * JsMap.t JsSet.t) :=
  if JsMap.has packages dep then
    e <- add_to name dep (fst st) ;;
    r <- add_to dep name (snd st) ;;
    Return (e, r)
  else Return st.

Definition buildDependencyGraph (packages : JsMap.t PackageInfo)
  : Completion DependencyGraph :=
  let nodes := packages in
  st <- forM packages
          (fun entry st =>
             forM (workspaceDeps (snd entry))
                  (add_dependency packages (fst entry)) st)
          (init_adjacency packages) ;;
  Return (mkGraph nodes (fst st) (snd st)).

(** [graph.edges.get(pkg) || new Set()] and
    [graph.reverseEdges.get(current) || []]. *)
Definition adjacent (m : JsMap.t JsSet.t) (k : string) : JsSet.t :=
  match JsMap.get k m with
  | Some s => s
  | None => []
  end.

(** The first loop of [topologicalSort]:
    [inDegree.set(name, graph.edges.get(name)!.size)]. *)
Definition init_inDegree (graph : DependencyGraph)
  : Completion (JsMap.t number) :=
  forM (nodes graph)
       (fun entry inDegree =>
          match JsMap.get (fst entry) (edges graph) with
          | Some deps =>
              Return (JsMap.set (fst entry)
                                (Num (Z.of_nat (JsSet.size deps))) inDegree)
          | None => Throw TypeError
          end)
       JsMap.empty.

(** The second loop: the names of degree zero, in map order. *)
Definition init_queue (inDegree : JsMap.t number) : list string :=
  map fst (filter (fun entry => number_is_zero (snd entry)) inDegree).

(** The [for (const dependent of ...)] loop inside the [while]. *)
Fixpoint relax (dependents : list string)
  (inDegree : JsMap.t number) (queue : list string)
  : JsMap.t number * list string :=
  match dependents with
  | [] => (inDegree, queue)
  | dependent :: rest =>
      let newDegree :=
        match JsMap.get dependent inDegree with
        | Some (Num d) => Num (d - 1)
        | _ => NaN
        end in
      let inDegree' := JsMap.set dependent newDegree inDegree in
      let queue' :=
        if number_is_zero newDegree then queue ++ [dependent] else queue in
      relax rest inDegree' queue'
  end.

(** The [while (queue.length > 0)] loop; it ends with the final [result]. *)
Fixpoint kahn (fuel : nat) (graph : DependencyGraph)
  (inDegree : JsMap.t number) (queue result : list string)
  : option (list string) :=
  match queue with
  | [] => Some result
  | current :: queue' =>
      match fuel with
      | O => None
      | S fuel' =>
          let result' := result ++ [current] in
          let st := relax (adjacent (reverseEdges graph) current)
                          inDegree queue' in
          kahn fuel' graph (fst st) (snd st) result'
      end
  end.

(** The value of [result] when the [while] loop of [topologicalSort] ends
    (the partial ordering, when the graph has a cycle). *)
Definition kahn_result (graph : DependencyGraph) : Completion (list string) :=
  inDegree <- init_inDegree graph ;;
  match kahn (JsMap.size (nodes graph)) graph inDegree
             (init_queue inDegree) [] with
  | Some result => Return result
  | None => Throw OutOfFuel
  end.

Definition topologicalSort (graph : DependencyGraph)
  : Completion (list string) :=
  result <- kahn_result graph ;;
  if negb (Nat.eqb (length result) (JsMap.size (nodes graph))) then
    let remaining :=
      filter (fun n => negb (JsSet.has result n)) (JsMap.keys (nodes graph)) in
    Throw (CircularDependency remaining)
  else Return result.

(** One pass of the [for (const pkg of sortedPackages)] loop of
    [getBuildLayers]; [assigned] does not change during the pass. *)
Definition scan_layer (sortedPackages : list string) (graph : DependencyGraph)
  (assigned : JsSet.t) : list string :=
  filter
    (fun pkg =>
       negb (JsSet.has assigned pkg)
       && forallb (fun dep => JsSet.has assigned dep)
                  (adjacent (edges graph) pkg))
    sortedPackages.

(** The [while (assigned.size < sortedPackages.length)] loop. *)
Fixpoint layering (fuel : nat) (sortedPackages : list string)
  (graph : DependencyGraph) (layers : list (list string)) (assigned : JsSet.t)
  : Completion (list (list string)) :=
  if Nat.ltb (JsSet.size assigned) (length sortedPackages) then
    match fuel with
    | O => Throw OutOfFuel
    | S fuel' =>
        let layer := scan_layer sortedPackages graph assigned in
        match layer with
        | [] => Throw CouldNotMakeProgress
        | _ :: _ =>
            let assigned' := fold_left (fun s pkg => JsSet.add pkg s) layer assigned in
            layering fuel' sortedPackages graph (layers ++ [layer]) assigned'
        end
    end
  else Return layers.

Definition getBuildLayers (sortedPackages : list string) (graph : DependencyGraph)
  : Completion (list (list string)) :=
  layering (length sortedPackages) sortedPackages graph [] JsSet.empty.

(** ** Vocabulary of the specification of the graph functions *)

(** [a] depends on [b]: a forward edge of the graph. *)
Definition depends_on (graph : DependencyGraph) (a b : string) : Prop :=
  In b (adjacent (edges graph) a).

(** The invariant of the data model: the three maps have the same keys, the
    adjacency maps are transposes of each other and mention only nodes. *)
Record graph_wf (graph : DependencyGraph) : Prop := mkGraphWf {
  wf_nodes : JsMap.wf (nodes graph);
  wf_edges_keys : JsMap.keys (edges graph) = JsMap.keys (nodes graph);
  wf_reverse_keys : JsMap.keys (reverseEdges graph) = JsMap.keys (nodes graph);
  wf_edges_nodup : forall n, NoDup (adjacent (edges graph) n);
  wf_reverse_nodup : forall n, NoDup (adjacent (reverseEdges graph) n);
  wf_transpose : forall a b,
      In b (adjacent (edges graph) a) <-> In a (adjacent (reverseEdges graph) b);
  wf_closed : forall a b,
      In b (adjacent (edges graph) a) -> In b (JsMap.keys (nodes graph))
}.

(** A dependency cycle: a node that reaches itself along forward edges. *)
Definition on_cycle (graph : DependencyGraph) (n : string) : Prop :=
  clos_trans string (depends_on graph) n n.

Definition acyclic (graph : DependencyGraph) : Prop :=
  forall n, ~ on_cycle graph n.

(** [n] is stuck: it is on a cycle or depends, directly or not, on a node
    that is. *)
Definition reaches_cycle (graph : DependencyGraph) (n : string) : Prop :=
  exists m, clos_refl_trans string (depends_on graph) n m /\ on_cycle graph m.

(** [order] lists every node once, each after all nodes it depends on. *)
Definition topological_order (graph : DependencyGraph) (order : list string)
  : Prop :=
  NoDup order
  /\ (forall n, In n order <-> In n (JsMap.keys (nodes graph)))
  /\ (forall before n after,
         order = before ++ n :: after ->
         forall d, depends_on graph n d -> In d before).

(** The index of the layer that holds [pkg]. *)
Fixpoint layer_index (layers : list (list string)) (pkg : string) : option nat :=
  match layers with
  | [] => None
  | layer :: rest =>
      if JsSet.has layer pkg then Some O
      else option_map S (layer_index rest pkg)
  end.

(** The number of layers that hold [pkg]. *)
Definition layer_count (layers : list (list string)) (pkg : string) : nat :=
  length (filter (fun layer => JsSet.has layer pkg) layers).

(** [1 + max] of the layer indices of [deps], [0] for no dependency; [None]
    when some dependency is in no layer. *)
Fixpoint expected_layer (layers : list (list string)) (deps : list string)
  : option nat :=
  match deps with
  | [] => Some O
  | d :: rest =>
      match layer_index layers d, expected_layer layers rest with
      | Some i, Some j => Some (Nat.max (S i) j)
      | _, _ => None
      end
  end.

(** The state of the second loop of [buildDependencyGraph]: both maps are
    keyed by [K] and hold exactly the pairs of [P], forwards and backwards. *)
Definition adjacency_inv (K : list string) (P : string -> string -> Prop)
  (st : JsMap.t JsSet.t * JsMap.t JsSet.t) : Prop :=
  JsMap.keys (fst st) = K
  /\ JsMap.keys (snd st) = K
  /\ (forall a b, In b (adjacent (fst st) a) <-> P a b)
  /\ (forall a b, In a (adjacent (snd st) b) <-> P a b)
  /\ (forall n, NoDup (adjacent (fst st) n))
  /\ (forall n, NoDup (adjacent (snd st) n)).

(** [a] declares [b], and [b] is a package of the set. *)
Definition declared_in (packages : JsMap.t PackageInfo) (a b : string) : Prop :=
  exists pkg, JsMap.get a packages = Some pkg
              /\ In b (workspaceDeps pkg)
              /\ In b (JsMap.keys packages).

(** The measure that bounds the number of iterations of the [while] loop
    of [topologicalSort]: the names waiting in the queue and the entries
    whose count is still positive. *)
Definition is_positive (n : number) : bool :=
  match n with
  | Num z => Z.ltb 0 z
  | NaN => false
  end.

Definition positive_entries (inDegree : JsMap.t number) : nat :=
  length (filter (fun entry => is_positive (snd entry)) inDegree).

Definition potential (inDegree : JsMap.t number) (queue : list string) : nat :=
  length queue + positive_entries inDegree.

(** The dependencies of [n] that [result] does not hold yet. *)
Definition pending (graph : DependencyGraph) (result : list string) (n : string)
  : list string :=
  filter (fun d => negb (JsSet.has result d)) (adjacent (edges graph) n).

(** The integer stored for [n], [0] when there is none. *)
Definition degree_of (inDegree : JsMap.t number) (n : string) : Z :=
  match JsMap.get n inDegree with
  | Some (Num d) => d
  | _ => 0%Z
  end.

(** The invariant of the [while] loop of [topologicalSort]. *)
Record kahn_inv (graph : DependencyGraph) (inDegree : JsMap.t number)
  (queue result : list string) : Prop := mkKahnInv {
  ki_keys : JsMap.keys inDegree = JsMap.keys (nodes graph);
  ki_degree : forall n,
      In n (JsMap.keys (nodes graph)) ->
      JsMap.get n inDegree
      = Some (Num (Z.of_nat (length (pending graph result n))));
  ki_nodup : NoDup (result ++ queue);
  ki_ready : forall n,
      In n (result ++ queue)
      <-> In n (JsMap.keys (nodes graph)) /\ pending graph result n = [];
  ki_order : forall before n after,
      result = before ++ n :: after ->
      forall d, depends_on graph n d -> In d before
}.

(** Consecutive elements of [l] are linked by forward edges. *)
Fixpoint is_path (graph : DependencyGraph) (l : list string) : Prop :=
  match l with
  | a :: (b :: _) as rest => depends_on graph a b /\ is_path graph rest
  | _ => True
  end.

(** A decision procedure for [topological_order]. *)
Fixpoint ordered_from (graph : DependencyGraph) (seen order : list string)
  : bool :=
  match order with
  | [] => true
  | n :: rest =>
      negb (JsSet.has seen n)
      && forallb (JsSet.has seen) (adjacent (edges graph) n)
      && ordered_from graph (seen ++ [n]) rest
  end.

Definition is_topological_order (graph : DependencyGraph) (order : list string)
  : bool :=
  ordered_from graph [] order
  && forallb (JsSet.has order) (JsMap.keys (nodes graph))
  && forallb (JsSet.has (JsMap.keys (nodes graph))) order.

(** ** Sample inputs, after core/graph.test.ts *)

Definition createPackage (name : string) (workspaceDeps : list string)
  : PackageInfo :=
  mkPackage name ("/packages/" ++ name)%string
            (mkPackageJson (Some name) (Some "tsc") [] [])
            workspaceDeps.

Definition packages_of (l : list (string * list string)) : JsMap.t PackageInfo :=
  map (fun entry => (fst entry, createPackage (fst entry) (snd entry))) l.

(** The graph of a package set, the empty graph standing in for the
    (impossible) failure of the construction. *)
Definition graph_of (packages : JsMap.t PackageInfo) : DependencyGraph :=
  match buildDependencyGraph packages with
  | Return graph => graph
  | Throw _ => mkGraph [] [] []
  end.

(** "handles complex dependency graph" *)
Definition complex_packages : JsMap.t PackageInfo :=
  packages_of [("core", []); ("utils", []); ("lib-a", ["core"]);
               ("lib-b", ["core"; "utils"]); ("app", ["lib-a"; "lib-b"])].

(** "throws on circular dependency" *)
Definition circular_packages : JsMap.t PackageInfo :=
  packages_of [("pkg-a", ["pkg-b"]); ("pkg-b", ["pkg-a"])].

(** A cycle with a package that depends on it and one that does not. *)
Definition stuck_packages : JsMap.t PackageInfo :=
  packages_of [("a", ["b"]); ("b", ["c"]); ("c", ["b"]); ("d", [])].


(** index.ts: the action of the command between [collectDependencies] and
    [buildAll]. *)
Definition schedule (packages : JsMap.t PackageInfo)
  : Completion (list (list string)) :=
  graph <- buildDependencyGraph packages ;;
  sorted <- topologicalSort graph ;;
  getBuildLayers sorted graph.

(** The invariant of the [while] loop of [getBuildLayers]. *)
Record layering_inv (sortedPackages : list string) (graph : DependencyGraph)
  (layers : list (list string)) (assigned : JsSet.t) : Prop := mkLayeringInv {
  li_nodup : NoDup assigned;
  li_incl : incl assigned sortedPackages;
  li_members : forall p, In p assigned <-> In p (concat layers);
  li_disjoint : NoDup (concat layers);
  li_nonempty : forall layer, In layer layers -> layer <> [];
  li_index : forall p i,
      layer_index layers p = Some i ->
      expected_layer layers (adjacent (edges graph) p) = Some i;
  li_waiting : forall p j,
      In p sortedPackages -> ~ In p assigned ->
      expected_layer layers (adjacent (edges graph) p) = Some j ->
      length layers <= j
}.

(** ** core/workspace.ts: collecting the dependencies of a package *)

(** The value of a decimal digit. *)
Definition digit_value (c : ascii) : option N :=
  let code := N_of_ascii c in
  if (N.leb 48 code && N.leb code 57)%bool then Some (code - 48)%N else None.

(** The number that a string of decimal digits denotes. *)
Fixpoint decimal_value (s : string) (acc : N) : option N :=
  match s with
  | EmptyString => Some acc
  | String c rest =>
      match digit_value c with
      | Some d => decimal_value rest (10 * acc + d)%N
      | None => None
      end
  end.

(** A property key that is an array index: the canonical decimal form of
    an integer below 2^32 - 1, that is [0] or digits of which the first
    is not [0]. *)
Definition array_index (key : string) : option N :=
  match key with
  | EmptyString => None
  | String c rest =>
      if (Ascii.eqb c "0" && negb (String.eqb rest EmptyString))%bool
      then None
      else
        match decimal_value key 0 with
        | Some n => if N.ltb n 4294967295 then Some n else None
        | None => None
        end
  end.

(** A property with an array index goes to its place among properties
    sorted by index. *)
Fixpoint insert_indexed {V : Type} (n : N) (entry : string * V)
  (sorted : list (N * (string * V))) : list (N * (string * V)) :=
  match sorted with
  | [] => [(n, entry)]
  | (m, e) :: rest =>
      if N.leb n m then (n, entry) :: sorted
      else (m, e) :: insert_indexed n entry rest
  end.

(** The order in which the own properties of an object are enumerated
    (by a spread, by [Object.entries]), [created] listing them in the
    order in which they were created: the array indices in ascending
    order, then the other keys in the order of their creation. *)
Definition own_properties {V : Type} (created : JsMap.t V) : JsMap.t V :=
  map snd
      (fold_right (fun entry sorted =>
                     match array_index (fst entry) with
                     | Some n => insert_indexed n entry sorted
                     | None => sorted
                     end)
                  [] created)
  ++ filter (fun entry => match array_index (fst entry) with
                          | Some _ => false
                          | None => true
                          end)
            created.

(** [{ ...a, ...b }]: the properties of [a] are created, then those of
    [b]; a key of [b] that [a] has keeps its place and takes the value of
    [b]. *)
Definition spread (a b : list (string * JsonValue)) : JsMap.t JsonValue :=
  own_properties
    (fold_left (fun m entry => JsMap.set (fst entry) (snd entry) m) (a ++ b)
               JsMap.empty).

(** [typeof version === "string" && version.startsWith("workspace:")] *)
Definition is_workspace_version (version : JsonValue) : bool :=
  match version with
  | JString s => String.prefix "workspace:" s
  | JOther => false
  end.

Definition extractWorkspaceDependencies (packageJson : PackageJsonData)
  : list string :=
  let allDeps :=
    spread (dependencies packageJson) (devDependencies packageJson) in
  map fst (filter (fun entry => is_workspace_version (snd entry)) allDeps).

(** The two collections [collectRecursive] closes over. *)
Record CollectState : Type := mkCollect {
  visited : JsSet.t;
  result : JsMap.t PackageInfo
}.

(** The inner function [collectRecursive] of [collectDependencies]; [fuel]
    bounds the depth of the recursion. *)
Fixpoint collectRecursive (fuel : nat) (allPackages : JsMap.t PackageInfo)
  (depName : string) (st : CollectState) : Completion CollectState :=
  match fuel with
  | O => Throw OutOfFuel
  | S fuel' =>
      if JsSet.has (visited st) depName then Return st
      else
        let visited' := JsSet.add depName (visited st) in
        match JsMap.get depName allPackages with
        | None => Return (mkCollect visited' (result st))
        | Some pkg =>
            forM (workspaceDeps pkg)
                 (collectRecursive fuel' allPackages)
                 (mkCollect visited' (JsMap.set depName pkg (result st)))
        end
  end.

(** [collectDependencies(cwd)].  The two reads of the file system are
    inputs here: [packageJson] is what [parsePackageJson(cwd)] returned and
    [allPackages] what [discoverAllWorkspacePackages(workspaceRoot)]
    returned.  The source also computes [currentName] (the name of the
    starting package) and never uses it. *)
Definition collectDependencies (packageJson : PackageJsonData)
  (allPackages : JsMap.t PackageInfo) : Completion (JsMap.t PackageInfo) :=
  let workspaceDeps := extractWorkspaceDependencies packageJson in
  if Nat.eqb (length workspaceDeps) 0 then Return JsMap.empty
  else
    st <- forM workspaceDeps
               (collectRecursive (S (JsMap.size allPackages)) allPackages)
               (mkCollect JsSet.empty JsMap.empty) ;;
    Return (result st).

(** [a] is a workspace member that declares the workspace dependency [b]. *)
Definition declares (allPackages : JsMap.t PackageInfo) (a b : string) : Prop :=
  exists pkg, JsMap.get a allPackages = Some pkg /\ In b (workspaceDeps pkg).

(** [n] is in the transitive closure of the dependencies [deps]. *)
Definition in_closure (allPackages : JsMap.t PackageInfo) (deps : list string)
  (n : string) : Prop :=
  exists d, In d deps /\ clos_refl_trans string (declares allPackages) d n.

(** The workspace members [visited] does not hold yet. *)
Definition unvisited (allPackages : JsMap.t PackageInfo) (visited : JsSet.t)
  : list string :=
  filter (fun k => negb (JsSet.has visited k)) (JsMap.keys allPackages).

(** [result] holds exactly the visited workspace members. *)
Record collect_inv (allPackages : JsMap.t PackageInfo) (st : CollectState)
  : Prop := mkCollectInv {
  ci_wf : JsMap.wf (result st);
  ci_keys : forall n, In n (JsMap.keys (result st))
                      <-> In n (visited st) /\ In n (JsMap.keys allPackages);
  ci_values : forall n pkg, JsMap.get n (result st) = Some pkg ->
                            JsMap.get n allPackages = Some pkg
}.

(** What one call (or one loop over a list of names [roots]) adds to the
    state: the newly visited names are reachable from [roots], and all the
    dependencies they declare are visited. *)
Record collect_step (allPackages : JsMap.t PackageInfo) (roots : list string)
  (st st' : CollectState) : Prop := mkCollectStep {
  cs_inv : collect_inv allPackages st';
  cs_grows : incl (visited st) (visited st');
  cs_roots : incl roots (visited st');
  cs_sound : forall x, In x (visited st') -> ~ In x (visited st) ->
                       in_closure allPackages roots x;
  cs_closed : forall x y, In x (visited st') -> ~ In x (visited st) ->
                          declares allPackages x y -> In y (visited st')
}.

(** The claim that the starting package is never collected. *)
Definition never_collects_start : Prop :=
  forall (packageJson : PackageJsonData) (allPackages : JsMap.t PackageInfo)
         (currentName : string) (pkg : PackageInfo)
         (collected : JsMap.t PackageInfo),
    JsMap.wf allPackages ->
    pj_name packageJson = Some currentName ->
    JsMap.get currentName allPackages = Some pkg ->
    workspaceDeps pkg = extractWorkspaceDependencies packageJson ->
    collectDependencies packageJson allPackages = Return collected ->
    ~ In currentName (JsMap.keys collected).

(** Sample workspaces, after core/workspace.test.ts. *)
Definition manifest (name : string) (deps : list string) : PackageJsonData :=
  mkPackageJson (Some name) None
                (map (fun d => (d, JString "workspace:*")) deps) [].

Definition member (name : string) (deps : list string) : string * PackageInfo :=
  (name, mkPackage name ("/repo/packages/" ++ name)%string
                   (manifest name deps) deps).

(** "deduplicates diamond dependencies", with one more member that [app]
    does not depend on. *)
Definition diamond_workspace : JsMap.t PackageInfo :=
  [member "root" []; member "app" ["lib-a"; "lib-b"]; member "docs" [];
   member "lib-a" ["shared"]; member "lib-b" ["shared"]; member "shared" []].

(** Two members that depend on each other. *)
Definition cyclic_workspace : JsMap.t PackageInfo :=
  [member "app" ["core"]; member "core" ["app"]].

(** ** utils/mtime.ts *)

(** A snapshot of the part of the file system a call looks at.  A
    modification time is [stat.mtimeMs], a finite double: the code only
    compares such times, with each other and with zero, so they are taken
    as rationals.  [None] is a [stat] that throws; an unreadable directory
    is one whose [readdir] throws; [Other] is an entry that is neither a
    file nor a directory. *)
#[local] Set Warnings "-register-all".

Inductive FsNode : Type :=
| File (mtime : option Q)
| Dir (readable : bool) (entries : list (string * FsNode))
| Other.

Definition EXCLUDE_DIRS : list string :=
  ["node_modules"; "dist"; ".next"; "build"; ".git"; "coverage"].

(** [path.join(dir, name)] *)
Definition join_path (dir name : string) : string :=
  (dir ++ "/" ++ name)%string.

(** [walkDir(dir, exclude)], [node] being what is at [dir]: the paths of
    the files below [dir], each with the result of its later [stat]. *)
Fixpoint walkDir (dir : string) (node : FsNode) (exclude : list string)
  {struct node} : list (string * option Q) :=
  match node with
  | Dir true entries =>
      (fix walk (entries : list (string * FsNode)) : list (string * option Q) :=
         match entries with
         | [] => []
         | (name, child) :: rest =>
             if JsSet.has exclude name then walk rest
             else
               match child with
               | Dir _ _ => walkDir (join_path dir name) child exclude ++ walk rest
               | File mtime => (join_path dir name, mtime) :: walk rest
               | Other => walk rest
               end
         end) entries
  | _ => []
  end.

(** [a > b] on numbers. *)
Definition Qgt_bool (a b : Q) : bool := negb (Qle_bool a b).

(** [getMtime(filePath)]: the time [walkDir] has attached to the path,
    [None] when [fs.stat] throws. *)
Definition getMtime (file : string * option Q) : option Q := snd file.

(** The loop of [getNewestMtime]; a failing [stat] is skipped. *)
Definition newest_step (newest : Q) (file : string * option Q) : Q :=
  match getMtime file with
  | Some mtime => if Qgt_bool mtime newest then mtime else newest
  | None => newest
  end.

Definition getNewestMtime (dir : string) (node : FsNode) (exclude : list string)
  : Q :=
  let files := walkDir dir node exclude in
  if Nat.eqb (length files) 0 then 0%Q
  else fold_left newest_step files 0%Q.

(** The loop of [getOldestMtime]; [None] is [Infinity]. *)
Definition oldest_step (oldest : option Q) (file : string * option Q)
  : option Q :=
  match getMtime file with
  | Some mtime =>
      match oldest with
      | None => Some mtime
      | Some o => if Qgt_bool o mtime then Some mtime else Some o
      end
  | None => oldest
  end.

Definition getOldestMtime (dir : string) (node : FsNode) : Q :=
  let files := walkDir dir node [] in
  if Nat.eqb (length files) 0 then 0%Q
  else
    match fold_left oldest_step files None with
    | None => 0%Q
    | Some oldest => oldest
    end.

(** What [fs.access(path.join(pkgPath, name))] finds. *)
Definition lookup (node : FsNode) (name : string) : option FsNode :=
  match node with
  | Dir _ entries => JsMap.get name entries
  | _ => None
  end.

(** [needsBuild(pkgPath)], [pkg] being what is at [pkgPath]; [true] is
    "stale", [false] is "fresh". *)
Definition needsBuild (pkgPath : string) (pkg : FsNode) : bool :=
  let distPath := join_path pkgPath "dist" in
  match lookup pkg "dist" with
  | None => true (* No dist -> needs build *)
  | Some dist =>
      let newestSource := getNewestMtime pkgPath pkg EXCLUDE_DIRS in
      let oldestDist := getOldestMtime distPath dist in
      if Qeq_bool oldestDist 0 then true (* Empty dist -> needs build *)
      else if Qeq_bool newestSource 0 then false (* No sources -> skip *)
      else Qgt_bool newestSource oldestDist
  end.

(** The source files of a package and the files of its output directory,
    as [needsBuild] lists them. *)
Definition source_files (pkgPath : string) (pkg : FsNode)
  : list (string * option Q) :=
  walkDir pkgPath pkg EXCLUDE_DIRS.

Definition output_files (pkgPath : string) (dist : FsNode)
  : list (string * option Q) :=
  walkDir (join_path pkgPath "dist") dist [].

(** Every file has a readable, strictly positive modification time. *)
Definition all_positive (files : list (string * option Q)) : Prop :=
  forall file, In file files -> exists m, snd file = Some m /\ (0 < m)%Q.

(** [m] is the largest (smallest) modification time of [files]. *)
Definition is_newest (files : list (string * option Q)) (m : Q) : Prop :=
  In (Some m) (map snd files)
  /\ forall x, In (Some x) (map snd files) -> (x <= m)%Q.

Definition is_oldest (files : list (string * option Q)) (m : Q) : Prop :=
  In (Some m) (map snd files)
  /\ forall x, In (Some x) (map snd files) -> (m <= x)%Q.

(** The claim that a package without source files is fresh whatever its
    output location holds. *)
Definition no_sources_always_fresh : Prop :=
  forall (pkgPath : string) (pkg dist : FsNode),
    lookup pkg "dist" = Some dist ->
    source_files pkgPath pkg = [] ->
    needsBuild pkgPath pkg = false.

(** The claim that, with sources and outputs present, the decision is the
    comparison of the newest source with the oldest output. *)
Definition decision_is_comparison : Prop :=
  forall (pkgPath : string) (pkg dist : FsNode) (s o : Q),
    lookup pkg "dist" = Some dist ->
    is_newest (source_files pkgPath pkg) s ->
    is_oldest (output_files pkgPath dist) o ->
    (needsBuild pkgPath pkg = true <-> (o < s)%Q).

(** Sample packages. *)
Definition package_dir (sources outputs : list (string * Q)) : FsNode :=
  Dir true
      (map (fun f => (fst f, File (Some (snd f)))) sources
       ++ [("node_modules", Dir true [("dep.js", File (Some 9999%Q))]);
           ("dist", Dir true (map (fun f => (fst f, File (Some (snd f)))) outputs))]).

(** A package whose only source file and only output file both carry the
    modification time 0 (the epoch), and one whose files predate the epoch,
    the source being the newer of the two. *)
Definition epoch_package : FsNode :=
  package_dir [("index.ts", 0%Q)] [("index.js", 0%Q)].

Definition pre_epoch_package : FsNode :=
  package_dir [("index.ts", (-1)%Q)] [("index.js", (-2)%Q)].

(** The output directory of a sample package. *)
Definition dist_of (pkg : FsNode) : FsNode :=
  match lookup pkg "dist" with
  | Some dist => dist
  | None => Other
  end.

(** ** core/builder.ts *)

(** [force?: boolean] ([undefined] is falsy) and [parallel?: number]. *)
Record BuildOptions : Type := mkOptions {
  force : bool;
  parallel : option number
}.

Inductive BuildStatus : Type := built | skipped | unchanged.

Record BuildResult : Type := mkResult {
  result_name : string;
  status : BuildStatus
}.

(** The two collaborators of [buildPackage], as they answer during one run:
    [needs p] is the value of [needsBuild(p)], and [succeeds p] tells
    whether [runCommand("bun run build", p)] resolves. *)
Record Environment : Type := mkEnv {
  needs : string -> bool;
  succeeds : string -> bool
}.

(** [pkg.packageJson.scripts?.build] is truthy: present and not empty. *)
Definition has_build_script (pkg : PackageInfo) : bool :=
  match scripts_build (packageJson pkg) with
  | Some script => negb (String.eqb script EmptyString)
  | None => false
  end.

(** What the promise of [buildPackage(pkg, options)] settles with. *)
Definition buildPackage (env : Environment) (pkg : PackageInfo)
  (options : BuildOptions) : Completion BuildResult :=
  if negb (has_build_script pkg) then
    Return (mkResult (name pkg) skipped)
  else if negb (force options) && negb (needs env (path pkg)) then
    Return (mkResult (name pkg) unchanged)
  else if succeeds env (path pkg) then
    Return (mkResult (name pkg) built)
  else Throw (BuildFailed (name pkg)).

(** *** Promises and the event loop

    JavaScript runs one piece of code at a time.  The main function runs
    until it awaits a promise that is not settled; then the completion of
    some pending operation (a file-system check, a child process) is
    delivered, the promise chains that hang on it run, and the main
    function resumes if what it awaits got settled.  The order in which the
    pending operations complete is the choice of the environment: a
    [schedule] lists, completion after completion, the position in
    [executing] of the task whose pending operation completes next.

    The model follows the promise semantics of the language; the policy of
    the host for rejections nobody handles is left aside. *)

(** The state of the promise [fn(item).then(...)] of one item. *)
Inductive Promise : Type :=
| Checking   (* awaiting [needsBuild] *)
| Building   (* awaiting [runCommand]: the build invocation is in flight *)
| Settled (c : Completion BuildResult).

Record Task : Type := mkTask {
  task_pkg : PackageInfo;
  task_state : Promise
}.

(** What an [await] yields; [Pending] when the schedule holds no further
    completion that would settle the awaited promise. *)
Inductive Settlement (A : Type) : Type :=
| Resolved (a : A)
| Rejected (e : JsError)
| Pending.

Arguments Resolved {A} a.
Arguments Rejected {A} e.
Arguments Pending {A}.

(** The variables of [runWithConcurrency]; [peak] is not a variable of the
    program: it records the largest number of build invocations that were
    in flight at the same time. *)
Record Run : Type := mkRun {
  executing : list Task;
  results : list BuildResult;
  peak : nat
}.

Definition is_building (t : Task) : bool :=
  match task_state t with
  | Building => true
  | _ => false
  end.

(** The number of build invocations in flight. *)
Definition in_flight (tasks : list Task) : nat :=
  length (filter is_building tasks).

(** [fn(item)] runs [buildPackage] up to its first [await]. *)
Definition start (env : Environment) (options : BuildOptions)
  (pkg : PackageInfo) : Task :=
  mkTask pkg
         (if negb (has_build_script pkg) then
            Settled (buildPackage env pkg options)
          else if force options then Building
          else Checking).

(** The pending operation of a task completes. *)
Definition advance (env : Environment) (options : BuildOptions) (t : Task)
  : Task :=
  match task_state t with
  | Checking =>
      if needs env (path (task_pkg t)) then mkTask (task_pkg t) Building
      else mkTask (task_pkg t)
                  (Settled (buildPackage env (task_pkg t) options))
  | Building =>
      mkTask (task_pkg t) (Settled (buildPackage env (task_pkg t) options))
  | Settled _ => t
  end.

Fixpoint advance_nth (env : Environment) (options : BuildOptions) (i : nat)
  (tasks : list Task) : list Task :=
  match tasks, i with
  | [], _ => []
  | t :: rest, O => advance env options t :: rest
  | t :: rest, S i' => t :: advance_nth env options i' rest
  end.

(** The value a promise has just been fulfilled with, for
    [results.push(result)]. *)
Definition newly_fulfilled (before after : Task) : list BuildResult :=
  match task_state before, task_state after with
  | Settled _, _ => []
  | _, Settled (Return r) => [r]
  | _, _ => []
  end.

Fixpoint pushed (before after : list Task) : list BuildResult :=
  match before, after with
  | b :: before', a :: after' => newly_fulfilled b a ++ pushed before' after'
  | _, _ => []
  end.

(** One completion is delivered. *)
Definition deliver (env : Environment) (options : BuildOptions) (i : nat)
  (run : Run) : Run :=
  let tasks := advance_nth env options i (executing run) in
  mkRun tasks
        (results run ++ pushed (executing run) tasks)
        (Nat.max (peak run) (in_flight tasks)).

(** [const p = fn(item).then(...); executing.push(p)] *)
Definition launch (env : Environment) (options : BuildOptions)
  (item : PackageInfo) (run : Run) : Run :=
  let task := start env options item in
  let tasks := executing run ++ [task] in
  mkRun tasks
        (results run
         ++ match task_state task with
            | Settled (Return r) => [r]
            | _ => []
            end)
        (Nat.max (peak run) (in_flight tasks)).

(** The first settled promise of an array, in array order. *)
Fixpoint first_settled (tasks : list Task) : option (Completion BuildResult) :=
  match tasks with
  | [] => None
  | t :: rest =>
      match task_state t with
      | Settled c => Some c
      | _ => first_settled rest
      end
  end.

(** The first rejected promise of an array, in array order. *)
Fixpoint first_rejected (tasks : list Task) : option JsError :=
  match tasks with
  | [] => None
  | t :: rest =>
      match task_state t with
      | Settled (Throw e) => Some e
      | _ => first_rejected rest
      end
  end.

Definition is_settled (t : Task) : bool :=
  match task_state t with
  | Settled _ => true
  | _ => false
  end.

(** [await Promise.race(executing)]: a promise that is settled already
    decides at once, the first in array order; otherwise completions are
    delivered until one settles a promise. *)
Fixpoint await_race (env : Environment) (options : BuildOptions)
  (schedule : list nat) (run : Run) {struct schedule}
  : Settlement unit * list nat * Run :=
  match first_settled (executing run) with
  | Some (Return _) => (Resolved tt, schedule, run)
  | Some (Throw e) => (Rejected e, schedule, run)
  | None =>
      match schedule with
      | [] => (Pending, [], run)
      | i :: rest => await_race env options rest (deliver env options i run)
      end
  end.

(** [await Promise.all(executing)]: rejected as soon as one promise is,
    resolved once all are fulfilled. *)
Fixpoint await_all (env : Environment) (options : BuildOptions)
  (schedule : list nat) (run : Run) {struct schedule}
  : Settlement unit * list nat * Run :=
  match first_rejected (executing run) with
  | Some e => (Rejected e, schedule, run)
  | None =>
      if forallb is_settled (executing run) then (Resolved tt, schedule, run)
      else
        match schedule with
        | [] => (Pending, [], run)
        | i :: rest => await_all env options rest (deliver env options i run)
        end
  end.

(** What the callbacks of [executing.filter] touch: the [resolved]
    variables of the calls made so far, and the reactions registered with
    [then], each naming the variable it sets once it runs.  A reaction runs
    as a job of its own, after the code that registered it has run to its
    next [await]. *)
Record Reactions : Type := mkReactions {
  resolved_flags : list bool;
  reactions : list nat
}.

(** The callback of [executing.filter]:
    [let resolved = false; e.then(() => { resolved = true; }); return !resolved;] *)
Definition still_executing (e : Task) (rs : Reactions) : bool * Reactions :=
  (* let resolved = false; *)
  let resolved := length (resolved_flags rs) in
  let rs1 := mkReactions (resolved_flags rs ++ [false]) (reactions rs) in
  (* e.then(() => { resolved = true; }); *)
  let rs2 := mkReactions (resolved_flags rs1) (reactions rs1 ++ [resolved]) in
  (* return !resolved; *)
  (negb (nth resolved (resolved_flags rs2) false), rs2).

(** [executing.filter(callback)] *)
Fixpoint filter_executing (tasks : list Task) (rs : Reactions)
  : list Task * Reactions :=
  match tasks with
  | [] => ([], rs)
  | e :: rest =>
      let (keep, rs1) := still_executing e rs in
      let (kept, rs2) := filter_executing rest rs1 in
      (if keep then e :: kept else kept, rs2)
  end.

(** [executing.length >= limit] *)
Definition at_limit (len : nat) (limit : number) : bool :=
  match limit with
  | Num z => Z.leb z (Z.of_nat len)
  | NaN => false
  end.

(** The [for (const item of items)] loop of [runWithConcurrency] and the
    final [await Promise.all(executing)]. *)
Fixpoint run_items (env : Environment) (options : BuildOptions)
  (limit : number) (items : list PackageInfo) (schedule : list nat) (run : Run)
  : Settlement unit * list nat * Run :=
  match items with
  | [] => await_all env options schedule run
  | item :: rest =>
      let run1 := launch env options item run in
      if at_limit (length (executing run1)) limit then
        match await_race env options schedule run1 with
        | (Resolved _, schedule', run2) =>
            let kept := fst (filter_executing (executing run2)
                                              (mkReactions [] [])) in
            (* executing.splice(0, executing.length, ...kept) *)
            let run3 := mkRun kept (results run2) (peak run2) in
            run_items env options limit rest schedule' run3
        | other => other
        end
      else run_items env options limit rest schedule run1
  end.

Definition runWithConcurrency (env : Environment) (options : BuildOptions)
  (items : list PackageInfo) (limit : number) (schedule : list nat)
  : Settlement unit * list nat * Run :=
  run_items env options limit items schedule (mkRun [] [] 0).

(** [layer.map((name) => packages.get(name)!)]; the filter that follows
    reads [p.packageJson] of every element, so one unknown name makes it
    throw. *)
Fixpoint layer_packages (packages : JsMap.t PackageInfo) (layer : list string)
  : option (list PackageInfo) :=
  match layer with
  | [] => Some []
  | name :: rest =>
      match JsMap.get name packages, layer_packages packages rest with
      | Some pkg, Some pkgs => Some (pkg :: pkgs)
      | _, _ => None
      end
  end.

(** [options.parallel ?? os.cpus().length] *)
Definition concurrency (options : BuildOptions) (cpus : nat) : number :=
  match parallel options with
  | Some n => n
  | None => Num (Z.of_nat cpus)
  end.

(** The [for] loop of [buildAll] from one layer on.  [trace] is not a
    variable of the program: it keeps the final state of
    [runWithConcurrency] for each layer that was run.  The callback that
    [buildAll] hands to [runWithConcurrency] is taken here as a call of
    [buildPackage]; the module [Builder] below follows the callback as a
    whole, with the counter and the progress bar of [buildAll]. *)
Fixpoint build_layers (env : Environment) (options : BuildOptions) (cpus : nat)
  (packages : JsMap.t PackageInfo) (layers : list (list string))
  (schedule : list nat) (trace : list Run) : Settlement unit * list Run :=
  match layers with
  | [] => (Resolved tt, trace)
  | layer :: rest =>
      match layer_packages packages layer with
      | None => (Rejected TypeError, trace)
      | Some pkgs =>
          let buildable := filter has_build_script pkgs in
          if Nat.eqb (length buildable) 0 then
            build_layers env options cpus packages rest schedule trace
          else
            match runWithConcurrency env options buildable
                                     (concurrency options cpus) schedule with
            | (Resolved _, schedule', run) =>
                build_layers env options cpus packages rest schedule'
                             (trace ++ [run])
            | (Rejected e, _, run) => (Rejected e, trace ++ [run])
            | (Pending, _, run) => (Pending, trace ++ [run])
            end
      end
  end.

(** [buildAll(layers, packages, options)]: what its promise settles with,
    [void] when it resolves. *)
Definition buildAll (env : Environment) (options : BuildOptions) (cpus : nat)
  (layers : list (list string)) (packages : JsMap.t PackageInfo)
  (schedule : list nat) : Settlement unit :=
  fst (build_layers env options cpus packages layers schedule []).

(** The tasks that were started during a run of [buildAll]. *)
Definition buildAll_tasks (env : Environment) (options : BuildOptions)
  (cpus : nat) (layers : list (list string)) (packages : JsMap.t PackageInfo)
  (schedule : list nat) : list Task :=
  concat (map executing
              (snd (build_layers env options cpus packages layers schedule []))).

(** The largest number of build invocations in flight during a run. *)
Definition buildAll_peak (env : Environment) (options : BuildOptions)
  (cpus : nat) (layers : list (list string)) (packages : JsMap.t PackageInfo)
  (schedule : list nat) : nat :=
  fold_left Nat.max
            (map peak (snd (build_layers env options cpus packages layers
                                         schedule [])))
            0.

(** Every settled promise holds what [buildPackage] yields for its
    package. *)
Definition tasks_ok (env : Environment) (options : BuildOptions)
  (tasks : list Task) : Prop :=
  forall t c, In t tasks -> task_state t = Settled c ->
              c = buildPackage env (task_pkg t) options.

(** What an [await] leaves behind: the same packages in [executing], in
    the same order; a rejection comes from a rejected promise of
    [executing]. *)
Definition await_post (env : Environment) (options : BuildOptions) (run : Run)
  (out : Settlement unit * list nat * Run) : Prop :=
  map task_pkg (executing (snd out)) = map task_pkg (executing run)
  /\ tasks_ok env options (executing (snd out))
  /\ forall e, fst (fst out) = Rejected e ->
               exists t, In t (executing (snd out))
                         /\ task_state t = Settled (Throw e).

(** The claim that what [buildAll] settles with tells which packages were
    attempted. *)
Definition report_tells_attempts : Prop :=
  exists attempted : Settlement unit -> string -> bool,
    forall env options cpus layers packages schedule n,
      attempted (buildAll env options cpus layers packages schedule) n = true
      <-> In n (map (fun t => name (task_pkg t))
                    (buildAll_tasks env options cpus layers packages schedule)).

(** Sample runs. *)
Definition all_succeed : Environment :=
  mkEnv (fun _ => true) (fun _ => true).

Definition nothing_changed : Environment :=
  mkEnv (fun _ => false) (fun _ => true).

(** Every build succeeds but the one of package [a]. *)
Definition a_fails : Environment :=
  mkEnv (fun _ => true) (fun p => negb (String.eqb p "/packages/a")).

Definition four_packages : JsMap.t PackageInfo :=
  packages_of [("a", []); ("b", []); ("c", []); ("d", [])].

(** ** More vocabulary for core/graph.ts *)

(** [n] has no dependency in the graph. *)
Definition is_root (graph : DependencyGraph) (n : string) : bool :=
  Nat.eqb (JsSet.size (adjacent (edges graph) n)) 0.

(** What the [while] loop of [getBuildLayers] keeps on every input, sorted
    or not: [assigned] is a set of listed packages, the layers hold every
    occurrence of the assigned packages and nothing else, no layer is
    empty, and a dependency sits in a strictly earlier layer. *)
Record layering_sound (sortedPackages : list string) (graph : DependencyGraph)
  (layers : list (list string)) (assigned : JsSet.t) : Prop := mkLayeringSound {
  ls_nodup : NoDup assigned;
  ls_incl : incl assigned sortedPackages;
  ls_count : forall p,
      count_occ string_dec (concat layers) p
      = if JsSet.has assigned p then count_occ string_dec sortedPackages p
        else 0;
  ls_nonempty : forall layer, In layer layers -> layer <> [];
  ls_before : forall p d i,
      layer_index layers p = Some i ->
      depends_on graph p d ->
      exists j, layer_index layers d = Some j /\ j < i
}.

(** ** More vocabulary for utils/mtime.ts *)

(** The tree without the entries, at any depth, that carry one of the
    names of [exclude]. *)
Fixpoint prune (exclude : list string) (node : FsNode) {struct node} : FsNode :=
  match node with
  | Dir readable entries =>
      Dir readable
          ((fix keep (entries : list (string * FsNode))
              : list (string * FsNode) :=
              match entries with
              | [] => []
              | (name, child) :: rest =>
                  if JsSet.has exclude name then keep rest
                  else (name, prune exclude child) :: keep rest
              end) entries)
  | _ => node
  end.

(** The modification times that could be read. *)
Definition readable_times (files : list (string * option Q)) : list Q :=
  flat_map (fun file => match snd file with
                        | Some m => [m]
                        | None => []
                        end) files.

(** A package with a dependency tree, a build cache and a nested output
    directory next to its sources. *)
Definition busy_package (cache : Q) : FsNode :=
  Dir true
      [("src", Dir true [("index.ts", File (Some 10%Q));
                         ("dist", Dir true [("old.js", File (Some cache))])]);
       ("node_modules", Dir true [("dep.js", File (Some cache))]);
       ("coverage", File (Some cache));
       ("dist", Dir true [("index.js", File (Some 20%Q))])].

(** ** More vocabulary for core/builder.ts *)

(** The tasks of a list of runs. *)
Definition tasks_of (trace : list Run) : list Task :=
  concat (map executing trace).

(** Among [tasks], the promise of package [q] is fulfilled. *)
Definition fulfilled_in (env : Environment) (options : BuildOptions)
  (tasks : list Task) (q : PackageInfo) : Prop :=
  exists t r,
    In t tasks /\ task_pkg t = q
    /\ task_state t = Settled (Return r)
    /\ buildPackage env q options = Return r.

(** Every package with a build script that [layer] names is fulfilled. *)
Definition layer_done (env : Environment) (options : BuildOptions)
  (packages : JsMap.t PackageInfo) (tasks : list Task) (layer : list string)
  : Prop :=
  exists pkgs,
    layer_packages packages layer = Some pkgs
    /\ forall q, In q pkgs -> has_build_script q = true ->
                 fulfilled_in env options tasks q.

(** The results the fulfilled promises of [tasks] hold. *)
Definition fulfilled_results (tasks : list Task) : list BuildResult :=
  flat_map (fun t => match task_state t with
                     | Settled (Return r) => [r]
                     | _ => []
                     end) tasks.

(** [items.reduce((run, item) => launch(item))]: every item started, no
    completion delivered. *)
Definition launch_all_items (env : Environment) (options : BuildOptions)
  (items : list PackageInfo) (run : Run) : Run :=
  fold_left (fun run item => launch env options item run) items run.

(** Every build succeeds but the one of package [c]. *)
Definition c_fails : Environment :=
  mkEnv (fun _ => true) (fun p => negb (String.eqb p "/packages/c")).

(** ** The file system, as core/workspace.ts and utils/pm.ts look at it *)

(** A path is absolute and normalised, as [process.cwd()] gives it: it is
    the list of its segments, the last one first, so that the parent
    directory is the tail and the root of the file system is the empty
    list.  [path.dirname] of the root is the root, [path.basename] of the
    root is the empty string. *)
Definition Path : Type := list string.

Definition path_dirname (p : Path) : Path := tl p.

Definition path_basename (p : Path) : string := hd EmptyString p.

Definition path_join (p : Path) (name : string) : Path := name :: p.

Definition path_eqb (p q : Path) : bool :=
  if list_eq_dec string_dec p q then true else false.

(** The path as a string, for the [path] field of a [PackageInfo]. *)
Definition path_string (p : Path) : string :=
  match p with
  | [] => "/"
  | _ => fold_left (fun s segment => (s ++ "/" ++ segment)%string) (rev p)
                   EmptyString
  end.

(** [workspaces?: string[] | { packages: string[] }]; an object may lack
    its [packages]. *)
Inductive Workspaces : Type :=
| WsArray (patterns : list string)
| WsObject (packages : option (list string)).

(** What [JSON.parse] yields for a [package.json], as the interfaces
    [PackageJsonData] and [PackageJsonInfo] (utils/pm.ts) describe it: the
    fields that [PackageJsonData] already has here, the [workspaces]
    field, and the [packageManager] field when it is a string.  A file
    whose content is not a JSON object is taken as one that cannot be
    read. *)
Record PackageJsonFile : Type := mkFile {
  file_data : PackageJsonData;
  file_workspaces : option Workspaces;
  file_packageManager : option string
}.

(** [packageJson.workspaces] is truthy: an array and an object always
    are. *)
Definition has_workspaces (file : PackageJsonFile) : bool :=
  match file_workspaces file with
  | Some _ => true
  | None => false
  end.

(** A directory tree as [readdir] with file types shows it; the content
    of a file is what reading and parsing it as a [package.json] gives,
    [None] when that throws. *)
Inductive DirTree : Type :=
| TFile (content : option PackageJsonFile)
| TDir (readable : bool) (entries : list (string * DirTree))
| TOther.

(** The answers of the file system during one run: whether [fs.access]
    resolves, what reading and parsing [package.json] in a directory
    gives, [fs.realpath], [stat.isDirectory()] ([None] when the call
    throws), the matches of [glob] for a pattern in a directory, and the
    tree below a directory. *)
Record FileSystem : Type := mkFs {
  fs_access : Path -> bool;
  fs_package_json : Path -> option PackageJsonFile;
  fs_realpath : Path -> option Path;
  fs_is_directory : Path -> option bool;
  fs_glob : string -> Path -> list Path;
  fs_tree : Path -> DirTree
}.

(** ** core/workspace.ts: the workspace root *)

Definition getWorkspacePatterns (packageJson : PackageJsonFile) : list string :=
  match file_workspaces packageJson with
  | None => []
  | Some (WsArray patterns) => patterns
  | Some (WsObject (Some packages)) => packages
  | Some (WsObject None) => []
  end.

(** The [while (currentPath !== path.dirname(currentPath))] loop of
    [findWorkspaceRoot]: [None] when it ends without a [return]. *)
Fixpoint find_workspaces (fs : FileSystem) (currentPath : Path) : option Path :=
  match currentPath with
  | [] => None
  | _ :: parent =>
      match fs_package_json fs currentPath with
      | Some packageJson =>
          if has_workspaces packageJson then Some currentPath
          else find_workspaces fs parent
      | None => find_workspaces fs parent
      end
  end.

Definition findWorkspaceRoot (fs : FileSystem) (startPath : Path) : Path :=
  match find_workspaces fs startPath with
  | Some currentPath => currentPath
  | None => startPath
  end.

(** [a] is [p] or a directory above it. *)
Definition is_above (a p : Path) : Prop := exists below, p = below ++ a.

(** ** utils/pm.ts *)

Module Pm.

(** The first loop of [findWorkspaceRoot]: a [pnpm-workspace.yaml], or a
    [package.json] with a [workspaces] field. *)
Fixpoint find_workspace_marker (fs : FileSystem) (currentPath : Path)
  : option Path :=
  match currentPath with
  | [] => None
  | _ :: parent =>
      if fs_access fs (path_join currentPath "pnpm-workspace.yaml")
      then Some currentPath
      else
        match fs_package_json fs currentPath with
        | Some packageInfo =>
            if has_workspaces packageInfo then Some currentPath
            else find_workspace_marker fs parent
        | None => find_workspace_marker fs parent
        end
  end.

(** The second loop: a [.git]. *)
Fixpoint find_git (fs : FileSystem) (currentPath : Path) : option Path :=
  match currentPath with
  | [] => None
  | _ :: parent =>
      if fs_access fs (path_join currentPath ".git") then Some currentPath
      else find_git fs parent
  end.

Definition findWorkspaceRoot (fs : FileSystem) (startPath : Path) : Path :=
  match find_workspace_marker fs startPath with
  | Some currentPath => currentPath
  | None =>
      match find_git fs startPath with
      | Some currentPath => currentPath
      | None => startPath
      end
  end.

Definition SKIP_DIRS : list string :=
  ["node_modules"; ".git"; ".next"; "dist"; "build"].

(** [findPackageJsonFiles(dir)], [node] being what is at [dir]: the paths
    of the files named [package.json], each with what reading it will
    give. *)
Fixpoint findPackageJsonFiles (dir : Path) (node : DirTree) {struct node}
  : list (Path * option PackageJsonFile) :=
  match node with
  | TDir true entries =>
      (fix walk (entries : list (string * DirTree))
         : list (Path * option PackageJsonFile) :=
         match entries with
         | [] => []
         | (name, child) :: rest =>
             match child with
             | TFile content =>
                 if String.eqb name "package.json"
                 then (path_join dir name, content) :: walk rest
                 else walk rest
             | TDir _ _ =>
                 if negb (JsSet.has SKIP_DIRS name)
                 then findPackageJsonFiles (path_join dir name) child ++ walk rest
                 else walk rest
             | TOther => walk rest
             end
         end) entries
  | _ => []
  end.

(** [Object.values(allDeps).some(version => ...)] *)
Definition hasWorkspaceProtocol (packageInfo : PackageJsonFile) : bool :=
  existsb is_workspace_version
          (JsMap.values (spread (dependencies (file_data packageInfo))
                                (devDependencies (file_data packageInfo)))).

Definition checkForWorkspaceDependencies (workspaceRoot : Path)
  (node : DirTree) : bool :=
  existsb (fun found => match snd found with
                        | Some packageInfo => hasWorkspaceProtocol packageInfo
                        | None => false
                        end)
          (findPackageJsonFiles workspaceRoot node).

Definition lockFiles : list (string * string) :=
  [("bun.lockb", "bun"); ("bun.lock", "bun"); ("pnpm-lock.yaml", "pnpm");
   ("yarn.lock", "yarn"); ("package-lock.json", "npm")].

Definition workspaceLockFiles : list (string * string) :=
  filter (fun lock => String.eqb (snd lock) "bun" || String.eqb (snd lock) "pnpm")
         lockFiles.

(** [for (const { file, manager } of files)]: the manager of the first
    lock file that exists in [workspaceRoot]. *)
Fixpoint first_lock (fs : FileSystem) (workspaceRoot : Path)
  (files : list (string * string)) : option string :=
  match files with
  | [] => None
  | (file, manager) :: rest =>
      if fs_access fs (path_join workspaceRoot file) then Some manager
      else first_lock fs workspaceRoot rest
  end.

(** [s.split('@')[0]] *)
Fixpoint before_at (s : string) : string :=
  match s with
  | EmptyString => EmptyString
  | String c rest =>
      if Ascii.eqb c "@"%char then EmptyString else String c (before_at rest)
  end.

Definition detectPackageManager (fs : FileSystem) (packagePath : Path)
  : string :=
  let workspaceRoot := findWorkspaceRoot fs packagePath in
  let hasWorkspaceDeps :=
    checkForWorkspaceDependencies workspaceRoot (fs_tree fs workspaceRoot) in
  if hasWorkspaceDeps then
    match first_lock fs workspaceRoot workspaceLockFiles with
    | Some manager => manager
    | None => "pnpm"
    end
  else
    match first_lock fs workspaceRoot lockFiles with
    | Some manager => manager
    | None =>
        match fs_package_json fs workspaceRoot with
        | Some packageInfo =>
            match file_packageManager packageInfo with
            | Some packageManager =>
                let manager := before_at packageManager in
                if JsSet.has ["npm"; "yarn"; "pnpm"; "bun"] manager
                then manager else "npm"
            | None => "npm"
            end
        | None => "npm"
        end
    end.

(** [runInstall(pm, cwd)]: the command line handed to [runCommand]. *)
Definition install_command (pm : string) : string := (pm ++ " install")%string.

End Pm.

(** A repository [/repo] with a package [/repo/packages/app]. *)
Definition repo_fs (root_workspaces : bool) (yaml git : bool)
  (locks : list string) (packageManager : option string) : FileSystem :=
  mkFs (fun p => match p with
                 | [name; "repo"] =>
                     (String.eqb name "pnpm-workspace.yaml" && yaml)
                     || (String.eqb name ".git" && git)
                     || JsSet.has locks name
                 | _ => false
                 end)
       (fun p => match p with
                 | ["repo"] =>
                     Some (mkFile (mkPackageJson (Some "root") None [] [])
                                  (if root_workspaces
                                   then Some (WsArray ["packages/*"]) else None)
                                  packageManager)
                 | ["app"; "packages"; "repo"] =>
                     Some (mkFile (manifest "app" ["core"]) None None)
                 | _ => None
                 end)
       (fun p => Some p)
       (fun p => Some true)
       (fun _ _ => [])
       (fun p => match p with
                 | ["repo"] =>
                     TDir true
                       [("package.json",
                         TFile (Some (mkFile (mkPackageJson (Some "root") None [] [])
                                             None packageManager)));
                        ("node_modules",
                         TDir true
                           [("package.json",
                             TFile (Some (mkFile (manifest "dep" ["x"]) None None)))]);
                        ("packages",
                         TDir true
                           [("app",
                             TDir true
                               [("package.json",
                                 TFile (Some (mkFile (manifest "app" ["core"])
                                                     None None)))])])]
                 | _ => TOther
                 end).

(** The [package.json] of directory [p] can be read and has a
    [workspaces] field. *)
Definition declares_workspaces (fs : FileSystem) (p : Path) : bool :=
  match fs_package_json fs p with
  | Some packageJson => has_workspaces packageJson
  | None => false
  end.

(** Directory [p] holds a [pnpm-workspace.yaml] or a [package.json] with a
    [workspaces] field. *)
Definition has_workspace_marker (fs : FileSystem) (p : Path) : bool :=
  fs_access fs (path_join p "pnpm-workspace.yaml") || declares_workspaces fs p.

(** No directory from [p] up to, and without, the root of the file system
    satisfies [found]. *)
Definition nowhere_above (found : Path -> bool) (p : Path) : Prop :=
  forall a, is_above a p -> a <> [] -> found a = false.

(** Directory [r] is the first one from [p] upwards, the root of the file
    system left out, that satisfies [found]. *)
Definition nearest_above (found : Path -> bool) (p r : Path) : Prop :=
  r <> [] /\ found r = true
  /\ exists below,
      p = below ++ r
      /\ forall b1 b2, below = b1 ++ b2 -> b2 <> [] -> found (b2 ++ r) = false.

(** ** utils/progress.ts *)

(** What the module sends out. *)
Inductive Output : Type :=
| StdoutWrite (text : string)     (* process.stdout.write *)
| ConsoleLog (text : string)
| ConsoleError (text : string).

(** The variables of the module.  [intervals] is not a variable of the
    program: it holds the handles of the intervals that are set in the
    host, so that the effect of [setInterval] and [clearInterval] can be
    told; [setInterval] returns a handle that was never used before. *)
Record Progress : Type := mkProgress {
  useTTY : bool;
  spinnerIndex : nat;
  spinnerInterval : option nat;
  currentMessage : string;
  intervals : list nat;
  next_handle : nat
}.

Definition spinnerFrames : list string :=
  ["⠋"; "⠙"; "⠹"; "⠸"; "⠼"; "⠴"; "⠦"; "⠧"; "⠇"; "⠏"].

(** The escape sequence that returns to the start of the line and erases
    it: a carriage return, then ESC [ K. *)
Definition ERASE_LINE : string :=
  String (ascii_of_nat 13) (String (ascii_of_nat 27) "[K").

(** The module when it is loaded; [tty] is [process.stdout.isTTY ?? false]. *)
Definition progress_init (tty : bool) : Progress :=
  mkProgress tty 0 None EmptyString [] 0.

Definition setStdinMode (enabled : bool) (st : Progress)
  : Progress * list Output :=
  if enabled then
    (mkProgress false (spinnerIndex st) (spinnerInterval st)
                (currentMessage st) (intervals st) (next_handle st), [])
  else (st, []).

(** [spinnerFrames[spinnerIndex]] is [undefined] outside the array, which
    a template literal prints as such. *)
Definition render (st : Progress) : Progress * list Output :=
  if negb (useTTY st) then (st, [])
  else
    let frame := nth (spinnerIndex st) spinnerFrames "undefined" in
    (mkProgress (useTTY st)
                (Nat.modulo (spinnerIndex st + 1) (length spinnerFrames))
                (spinnerInterval st) (currentMessage st)
                (intervals st) (next_handle st),
     [StdoutWrite (ERASE_LINE ++ frame ++ " " ++ currentMessage st)%string]).

Definition startSpinner (st : Progress) : Progress * list Output :=
  match negb (useTTY st), spinnerInterval st with
  | false, None =>
      (* spinnerInterval = setInterval(render, 80) *)
      (mkProgress (useTTY st) (spinnerIndex st) (Some (next_handle st))
                  (currentMessage st)
                  (intervals st ++ [next_handle st]) (S (next_handle st)), [])
  | _, _ => (st, [])
  end.

Definition stopSpinner (st : Progress) : Progress * list Output :=
  match spinnerInterval st with
  | Some handle =>
      (* clearInterval(spinnerInterval); spinnerInterval = null *)
      (mkProgress (useTTY st) (spinnerIndex st) None (currentMessage st)
                  (filter (fun h => negb (Nat.eqb h handle)) (intervals st))
                  (next_handle st), [])
  | None => (st, [])
  end.

Definition clearLine (st : Progress) : Progress * list Output :=
  if useTTY st then (st, [StdoutWrite ERASE_LINE]) else (st, []).

(** One call after the other, the outputs in order. *)
Definition and_then (f g : Progress -> Progress * list Output) (st : Progress)
  : Progress * list Output :=
  let (st1, out1) := f st in
  let (st2, out2) := g st1 in
  (st2, out1 ++ out2).

Definition writeProgress (msg : string) (st : Progress)
  : Progress * list Output :=
  let st1 := mkProgress (useTTY st) (spinnerIndex st) (spinnerInterval st)
                        msg (intervals st) (next_handle st) in
  if useTTY st1 then and_then startSpinner render st1
  else (st1, [ConsoleLog msg]).

Definition writeDone (st : Progress) : Progress * list Output :=
  and_then stopSpinner
           (fun st1 =>
              if useTTY st1
              then and_then clearLine (fun st2 => (st2, [ConsoleLog "✓ Done"])) st1
              else (st1, [ConsoleLog "Done"]))
           st.

Definition writeError (msg : string) (st : Progress)
  : Progress * list Output :=
  and_then stopSpinner
           (fun st1 =>
              and_then (fun st2 => if useTTY st2 then clearLine st2 else (st2, []))
                       (fun st2 => (st2, [ConsoleError msg])) st1)
           st.

Definition isTTY (st : Progress) : bool := useTTY st.

(** What can happen to the module: a call of one of its exported
    functions, or the host firing the interval with a given handle. *)
Inductive ProgressEvent : Type :=
| CallSetStdinMode (enabled : bool)
| CallClearLine
| CallWriteProgress (msg : string)
| CallWriteDone
| CallWriteError (msg : string)
| IntervalFires (handle : nat).

Definition progress_step (event : ProgressEvent) (st : Progress)
  : Progress * list Output :=
  match event with
  | CallSetStdinMode enabled => setStdinMode enabled st
  | CallClearLine => clearLine st
  | CallWriteProgress msg => writeProgress msg st
  | CallWriteDone => writeDone st
  | CallWriteError msg => writeError msg st
  | IntervalFires handle =>
      if existsb (Nat.eqb handle) (intervals st) then render st else (st, [])
  end.

Fixpoint progress_run (events : list ProgressEvent) (st : Progress)
  : Progress * list Output :=
  match events with
  | [] => (st, [])
  | event :: rest => and_then (progress_step event) (progress_run rest) st
  end.

(** What the module keeps true of its variables: the frame index is
    within the array, and the host holds the interval of
    [spinnerInterval] and no other. *)
Definition progress_ok (st : Progress) : Prop :=
  spinnerIndex st < length spinnerFrames
  /\ intervals st = match spinnerInterval st with
                    | Some handle => [handle]
                    | None => []
                    end.

(** What an event prints when there is no terminal. *)
Definition plain_output (event : ProgressEvent) : list Output :=
  match event with
  | CallWriteProgress msg => [ConsoleLog msg]
  | CallWriteDone => [ConsoleLog "Done"]
  | CallWriteError msg => [ConsoleError msg]
  | _ => []
  end.

Definition is_stdout_write (o : Output) : bool :=
  match o with
  | StdoutWrite _ => true
  | _ => false
  end.

(** A text that the module writes to the terminal: the erase sequence,
    alone or followed by a frame of the spinner and a message. *)
Definition terminal_text (text : string) : Prop :=
  text = ERASE_LINE
  \/ exists frame msg,
      In frame spinnerFrames
      /\ text = (ERASE_LINE ++ frame ++ " " ++ msg)%string.

Definition output_ok (out : list Output) : Prop :=
  forall text, In (StdoutWrite text) out -> terminal_text text.

(** ** core/workspace.ts: discovering the packages of the workspace *)

(** What a promise of this part settles with: a value, a rejection by a
    call of the file system that throws outside a [try], or (not an
    outcome of the program) the end of the budget that bounds the depth
    of the recursion. *)
Inductive Discovery (A : Type) : Type :=
| Found (a : A)
| FsError
| DepthExceeded.

Arguments Found {A} a.
Arguments FsError {A}.
Arguments DepthExceeded {A}.

(** [for (const x of l) await body(x)] *)
Fixpoint for_each {A S : Type} (l : list A) (body : A -> S -> Discovery S)
  (s : S) : Discovery S :=
  match l with
  | [] => Found s
  | x :: rest =>
      match body x s with
      | Found s' => for_each rest body s'
      | FsError => FsError
      | DepthExceeded => DepthExceeded
      end
  end.

(** The two collections [processDirectory] closes over: [packages], and
    the real paths in [visited]. *)
Record Discovered : Type := mkDiscovered {
  found_packages : JsMap.t PackageInfo;
  seen : list Path
}.

(** [packageJson.name || path.basename(dirPath)] *)
Definition package_name (packageJson : PackageJsonData) (dirPath : Path)
  : string :=
  match pj_name packageJson with
  | Some n => if String.eqb n EmptyString then path_basename dirPath else n
  | None => path_basename dirPath
  end.

(** The record that [processDirectory] stores for a directory. *)
Definition package_info (packageJson : PackageJsonData) (dirPath : Path)
  : PackageInfo :=
  mkPackage (package_name packageJson dirPath) (path_string dirPath)
            packageJson (extractWorkspaceDependencies packageJson).

(** The inner function [processDirectory] of
    [discoverAllWorkspacePackages]; [fuel] bounds the depth of the
    recursion. *)
Fixpoint processDirectory (fuel : nat) (fs : FileSystem) (dirPath : Path)
  (st : Discovered) : Discovery Discovered :=
  match fuel with
  | O => DepthExceeded
  | S fuel' =>
      match fs_realpath fs dirPath with
      | None => FsError
      | Some realPath =>
          if existsb (path_eqb realPath) (seen st) then Found st
          else
            let visited := seen st ++ [realPath] in
            match fs_package_json fs dirPath with
            | None => Found (mkDiscovered (found_packages st) visited)
            | Some packageJson =>
                let info := package_info (file_data packageJson) dirPath in
                let packages := JsMap.set (name info) info (found_packages st) in
                for_each (getWorkspacePatterns packageJson)
                  (fun pattern =>
                     for_each (fs_glob fs pattern dirPath)
                       (fun found st =>
                          match fs_is_directory fs found with
                          | None => FsError
                          | Some true => processDirectory fuel' fs found st
                          | Some false => Found st
                          end))
                  (mkDiscovered packages visited)
            end
      end
  end.

Definition discoverAllWorkspacePackages (fuel : nat) (fs : FileSystem)
  (rootPath : Path) : Discovery (JsMap.t PackageInfo) :=
  match processDirectory fuel fs rootPath (mkDiscovered JsMap.empty []) with
  | Found st => Found (found_packages st)
  | FsError => FsError
  | DepthExceeded => DepthExceeded
  end.

(** [collectDependencies(cwd)] as exported, reading the file system; the
    collection itself is [collectDependencies] above. *)
Definition collectDependencies_at (fuel : nat) (fs : FileSystem) (cwd : Path)
  : Discovery (Completion (JsMap.t PackageInfo)) :=
  match fs_package_json fs cwd with
  | None => FsError
  | Some packageJson =>
      if Nat.eqb (length (extractWorkspaceDependencies (file_data packageJson))) 0
      then Found (Return JsMap.empty)
      else
        let workspaceRoot := findWorkspaceRoot fs cwd in
        match discoverAllWorkspacePackages fuel fs workspaceRoot with
        | Found allPackages =>
            Found (collectDependencies (file_data packageJson) allPackages)
        | FsError => FsError
        | DepthExceeded => DepthExceeded
        end
  end.

(** Every entry of the map is the record of a directory whose
    [package.json] could be read, under the name of that record. *)
Definition discovered_ok (fs : FileSystem) (packages : JsMap.t PackageInfo)
  : Prop :=
  JsMap.wf packages
  /\ forall key pkg,
      JsMap.get key packages = Some pkg ->
      name pkg = key
      /\ workspaceDeps pkg = extractWorkspaceDependencies (packageJson pkg)
      /\ exists dirPath packageJson,
          fs_package_json fs dirPath = Some packageJson
          /\ pkg = package_info (file_data packageJson) dirPath.

(** What one call of [processDirectory] does to the two collections. *)
Definition discover_step (fs : FileSystem) (st st' : Discovered) : Prop :=
  discovered_ok fs (found_packages st')
  /\ incl (seen st) (seen st')
  /\ incl (JsMap.keys (found_packages st)) (JsMap.keys (found_packages st')).

(** The real paths of [universe] that [visited] does not hold yet. *)
Definition unseen (universe visited : list Path) : list Path :=
  filter (fun p => negb (existsb (path_eqb p) visited)) universe.

(** A path that [processDirectory] may be called with or may examine: the
    root, or a match of [glob]. *)
Definition candidate (fs : FileSystem) (rootPath p : Path) : Prop :=
  p = rootPath \/ exists pattern cwd, In p (fs_glob fs pattern cwd).

(** On the candidates [realpath] and [stat] do not throw, and their real
    paths are among [universe]. *)
Definition fs_tame (fs : FileSystem) (rootPath : Path) (universe : list Path)
  : Prop :=
  forall p, candidate fs rootPath p ->
            (exists real, fs_realpath fs p = Some real /\ In real universe)
            /\ fs_is_directory fs p <> None.

(** A workspace of three packages: the root and two members, one of
    which is reached through two patterns; the second member has no name
    of its own. *)
Definition monorepo_fs : FileSystem :=
  mkFs (fun _ => false)
       (fun p =>
          if path_eqb p ["repo"] then
            Some (mkFile (mkPackageJson (Some "root") None [] [])
                         (Some (WsArray ["packages/*"; "packages/core"])) None)
          else if path_eqb p ["app"; "packages"; "repo"] then
            Some (mkFile (manifest "app" ["core"]) None None)
          else if path_eqb p ["core"; "packages"; "repo"] then
            Some (mkFile (mkPackageJson None (Some "tsc") [] []) None None)
          else None)
       (fun p => Some p)
       (fun p => Some (negb (path_eqb p ["README.md"; "packages"; "repo"])))
       (fun pattern cwd =>
          if path_eqb cwd ["repo"] then
            if String.eqb pattern "packages/*"
            then [["app"; "packages"; "repo"]; ["core"; "packages"; "repo"];
                  ["README.md"; "packages"; "repo"]]
            else if String.eqb pattern "packages/core"
                 then [["core"; "packages"; "repo"]]
                 else []
          else [])
       (fun _ => TOther).

Definition monorepo_universe : list Path :=
  [["repo"]; ["app"; "packages"; "repo"]; ["core"; "packages"; "repo"];
   ["README.md"; "packages"; "repo"]].

(** ** core/builder.ts: the callback of buildAll

    The definitions of [runWithConcurrency] and [buildAll] above follow
    the promises of [buildPackage]: they are what [buildAll] does when the
    rest of the callback that it hands to [runWithConcurrency] goes
    through.  That callback also counts the packages that are done and, on
    a terminal, draws a progress bar, and drawing the bar throws once more
    packages are done than [packages] holds with a build script.  The
    module [Builder] follows the callback as a whole, with the counter
    [completed] of [buildAll]; the text that is written to the console is
    left aside. *)

Module Builder.

(** [String(n)] for a natural number. *)
Definition decimal (n : nat) : string :=
  NilEmpty.string_of_uint (Nat.to_uint n).

(** [progressBar(completed, total, current)].  [String.prototype.repeat]
    throws a [RangeError] for a negative count. *)
Definition progressBar (completed total : nat) (current : list string)
  : Completion string :=
  let filled := String.concat EmptyString (repeat "■" completed) in
  if Nat.ltb total completed then Throw RangeError
  else
    let empty := String.concat EmptyString (repeat "□" (total - completed)) in
    let label := match current with
                 | [] => EmptyString
                 | _ => join ", " current
                 end in
    Return (filled ++ empty ++ " " ++ decimal completed ++ "/"
            ++ decimal total ++ " " ++ label)%string.

(** The variables of [runWithConcurrency] and the counter [completed] of
    [buildAll], which the callback increments. *)
Record Build : Type := mkBuild {
  build_run : Run;
  build_completed : nat
}.

(** What [buildAll] does when a layer begins: on a terminal
    [writeProgress(progressBar(completed, total, names))], otherwise a
    line on the console. *)
Definition announce (tty : bool) (completed total : nat) (names : list string)
  : Completion unit :=
  if tty then
    match progressBar completed total names with
    | Return _ => Return tt
    | Throw e => Throw e
    end
  else Return tt.

Section Callback.

(** What the callback closes over: [options], the constants [tty] and
    [total] of [buildAll], and the [names] of the layer; [env] tells how
    the collaborators of [buildPackage] answer. *)
Variable env : Environment.
Variable options : BuildOptions.
Variable tty : bool.
Variable total : nat.
Variable names : list string.

(** The callback from the point where [await buildPackage(pkg, options)]
    has settled with [settled]: what the promise of the callback settles
    with, and the new value of [completed].  When [buildPackage] rejects,
    so does the callback, at the [await]. *)
Definition callback (settled : Completion BuildResult) (completed : nat)
  : Completion BuildResult * nat :=
  match settled with
  | Throw e => (Throw e, completed)
  | Return result =>
      (* completed++ *)
      let completed := S completed in
      if tty then
        let remaining :=
          filter (fun n => negb (String.eqb n (result_name result))) names in
        (* writeProgress(progressBar(completed, total, remaining)) *)
        match progressBar completed total remaining with
        | Return _ => (Return result, completed)
        | Throw e => (Throw e, completed)
        end
      else (Return result, completed)
  end.

Definition settle (pkg : PackageInfo) (settled : Completion BuildResult)
  (completed : nat) : Task * nat :=
  let (c, completed') := callback settled completed in
  (mkTask pkg (Settled c), completed').

(** [fn(item)] runs the callback, and [buildPackage] in it, up to the
    first [await] on a pending operation. *)
Definition start (pkg : PackageInfo) (completed : nat) : Task * nat :=
  if negb (has_build_script pkg) then
    settle pkg (buildPackage env pkg options) completed
  else if force options then (mkTask pkg Building, completed)
  else (mkTask pkg Checking, completed).

(** The pending operation of a task completes. *)
Definition advance (t : Task) (completed : nat) : Task * nat :=
  match task_state t with
  | Checking =>
      if needs env (path (task_pkg t))
      then (mkTask (task_pkg t) Building, completed)
      else settle (task_pkg t) (buildPackage env (task_pkg t) options)
                  completed
  | Building =>
      settle (task_pkg t) (buildPackage env (task_pkg t) options) completed
  | Settled _ => (t, completed)
  end.

Fixpoint advance_nth (i : nat) (tasks : list Task) (completed : nat)
  : list Task * nat :=
  match tasks, i with
  | [], _ => ([], completed)
  | t :: rest, O =>
      let (t', completed') := advance t completed in (t' :: rest, completed')
  | t :: rest, S i' =>
      let (rest', completed') := advance_nth i' rest completed in
      (t :: rest', completed')
  end.

(** One completion is delivered. *)
Definition deliver (i : nat) (b : Build) : Build :=
  let (tasks, completed') :=
    advance_nth i (executing (build_run b)) (build_completed b) in
  mkBuild (mkRun tasks
                 (results (build_run b)
                  ++ pushed (executing (build_run b)) tasks)
                 (Nat.max (peak (build_run b)) (in_flight tasks)))
          completed'.

(** [const p = fn(item).then(...); executing.push(p)] *)
Definition launch (item : PackageInfo) (b : Build) : Build :=
  let (task, completed') := start item (build_completed b) in
  let tasks := executing (build_run b) ++ [task] in
  mkBuild (mkRun tasks
                 (results (build_run b)
                  ++ match task_state task with
                     | Settled (Return r) => [r]
                     | _ => []
                     end)
                 (Nat.max (peak (build_run b)) (in_flight tasks)))
          completed'.

(** [await Promise.race(executing)] *)
Fixpoint await_race (schedule : list nat) (b : Build) {struct schedule}
  : Settlement unit * list nat * Build :=
  match first_settled (executing (build_run b)) with
  | Some (Return _) => (Resolved tt, schedule, b)
  | Some (Throw e) => (Rejected e, schedule, b)
  | None =>
      match schedule with
      | [] => (Pending, [], b)
      | i :: rest => await_race rest (deliver i b)
      end
  end.

(** [await Promise.all(executing)] *)
Fixpoint await_all (schedule : list nat) (b : Build) {struct schedule}
  : Settlement unit * list nat * Build :=
  match first_rejected (executing (build_run b)) with
  | Some e => (Rejected e, schedule, b)
  | None =>
      if forallb is_settled (executing (build_run b))
      then (Resolved tt, schedule, b)
      else
        match schedule with
        | [] => (Pending, [], b)
        | i :: rest => await_all rest (deliver i b)
        end
  end.

(** The [for (const item of items)] loop of [runWithConcurrency] and the
    final [await Promise.all(executing)]. *)
Fixpoint run_items (limit : number) (items : list PackageInfo)
  (schedule : list nat) (b : Build) : Settlement unit * list nat * Build :=
  match items with
  | [] => await_all schedule b
  | item :: rest =>
      let b1 := launch item b in
      if at_limit (length (executing (build_run b1))) limit then
        match await_race schedule b1 with
        | (Resolved _, schedule', b2) =>
            let kept := fst (filter_executing (executing (build_run b2))
                                              (mkReactions [] [])) in
            (* executing.splice(0, executing.length, ...kept) *)
            let b3 := mkBuild (mkRun kept (results (build_run b2))
                                     (peak (build_run b2)))
                              (build_completed b2) in
            run_items limit rest schedule' b3
        | other => other
        end
      else run_items limit rest schedule b1
  end.

(** [runWithConcurrency(items, limit, callback)], entered when the counter
    of [buildAll] is [completed]. *)
Definition runWithConcurrency (items : list PackageInfo) (limit : number)
  (schedule : list nat) (completed : nat)
  : Settlement unit * list nat * Build :=
  run_items limit items schedule (mkBuild (mkRun [] [] 0) completed).

End Callback.

(** The [for] loop of [buildAll] from one layer on, [completed] being the
    counter when the layer is entered. *)
Fixpoint build_layers (env : Environment) (options : BuildOptions) (cpus : nat)
  (tty : bool) (total : nat) (packages : JsMap.t PackageInfo)
  (layers : list (list string)) (schedule : list nat) (completed : nat)
  (trace : list Run) : Settlement unit * list Run :=
  match layers with
  | [] => (Resolved tt, trace)
  | layer :: rest =>
      match layer_packages packages layer with
      | None => (Rejected TypeError, trace)
      | Some pkgs =>
          let buildable := filter has_build_script pkgs in
          if Nat.eqb (length buildable) 0 then
            build_layers env options cpus tty total packages rest schedule
                         completed trace
          else
            let names := map name buildable in
            match announce tty completed total names with
            | Throw e => (Rejected e, trace)
            | Return _ =>
                match runWithConcurrency env options tty total names buildable
                                         (concurrency options cpus) schedule
                                         completed with
                | (Resolved _, schedule', b) =>
                    build_layers env options cpus tty total packages rest
                                 schedule' (build_completed b)
                                 (trace ++ [build_run b])
                | (Rejected e, _, b) => (Rejected e, trace ++ [build_run b])
                | (Pending, _, b) => (Pending, trace ++ [build_run b])
                end
            end
      end
  end.

(** [allBuildable.length] *)
Definition total_buildable (packages : JsMap.t PackageInfo) : nat :=
  length (filter has_build_script (JsMap.values packages)).

(** [buildAll(layers, packages, options)], [tty] being what [isTTY()]
    answers: what its promise settles with. *)
Definition buildAll (tty : bool) (env : Environment) (options : BuildOptions)
  (cpus : nat) (layers : list (list string)) (packages : JsMap.t PackageInfo)
  (schedule : list nat) : Settlement unit :=
  fst (build_layers env options cpus tty (total_buildable packages) packages
                    layers schedule 0 []).

(** The tasks that were started during a run of [buildAll]. *)
Definition buildAll_tasks (tty : bool) (env : Environment)
  (options : BuildOptions) (cpus : nat) (layers : list (list string))
  (packages : JsMap.t PackageInfo) (schedule : list nat) : list Task :=
  concat (map executing
              (snd (build_layers env options cpus tty (total_buildable packages)
                                 packages layers schedule 0 []))).

End Builder.

(** What holds of a task that [buildAll] started, as long as the counter
    [completed] is at most [bound]: a build invocation is in flight only
    for a package that is stale or forced, a staleness check is pending
    only when the build is not forced, and a settled promise holds what
    [buildPackage] yields for its package, unless the progress bar threw
    after [buildPackage] was fulfilled. *)
Definition started_ok (env : Environment) (options : BuildOptions)
  (tty : bool) (total bound : nat) (t : Task) : Prop :=
  (task_state t = Building ->
   force options = true \/ needs env (path (task_pkg t)) = true)
  /\ (task_state t = Checking -> force options = false)
  /\ (forall c, task_state t = Settled c ->
                c = buildPackage env (task_pkg t) options
                \/ (c = Throw RangeError /\ tty = true /\ total < bound
                    /\ exists r,
                        buildPackage env (task_pkg t) options = Return r)).

(** What a call of [runWithConcurrency] keeps true, [base] being the
    counter when it was entered: the counter has grown by no more than
    the number of settled promises. *)
Definition build_inv (env : Environment) (options : BuildOptions)
  (tty : bool) (total base : nat) (b : Builder.Build) : Prop :=
  Forall (started_ok env options tty total (Builder.build_completed b))
         (executing (Builder.build_run b))
  /\ Builder.build_completed b
     <= base + length (filter is_settled (executing (Builder.build_run b))).

(** The promises that are not settled yet. *)
Definition pending_count (tasks : list Task) : nat :=
  length (filter (fun t => negb (is_settled t)) tasks).

(** The progress bar cannot throw as long as the counter stays within
    [bound]: there is no terminal, or [bound] is within [total]. *)
Definition never_throws (tty : bool) (total bound : nat) : Prop :=
  tty = false \/ bound <= total.

(** The pending operations that a task still has to see complete before
    its promise is settled, at most: the staleness check and the build. *)
Definition steps_left (t : Task) : nat :=
  match task_state t with
  | Checking => 2
  | Building => 1
  | Settled _ => 0
  end.

Definition work_left (tasks : list Task) : nat :=
  list_sum (map steps_left tasks).

(** The position of the first promise that is not settled. *)
Fixpoint first_pending (tasks : list Task) : option nat :=
  match tasks with
  | [] => None
  | t :: rest =>
      if is_settled t then option_map S (first_pending rest) else Some 0
  end.

(** The package that [name] stands for, if it has a build script. *)
Definition buildable_of (packages : JsMap.t PackageInfo) (name : string)
  : list PackageInfo :=
  match JsMap.get name packages with
  | Some pkg => if has_build_script pkg then [pkg] else []
  | None => []
  end.

(** The packages with a build script that [layers] name, one for each
    occurrence of a name. *)
Definition named_buildable (packages : JsMap.t PackageInfo)
  (layers : list (list string)) : list PackageInfo :=
  flat_map (buildable_of packages) (concat layers).

(** A workspace of two packages with a build script. *)
Definition two_packages : JsMap.t PackageInfo :=
  packages_of [("a", []); ("b", [])].
(** * Properties *)

(** ** Containers *)

Lemma JsSet_has_In (s : JsSet.t) (x : string) :
  JsSet.has s x = true <-> In x s.
Proof.
  unfold JsSet.has. rewrite existsb_exists. split.
  - intros [y [Hy Heq]]. apply String.eqb_eq in Heq. now subst.
  - intro H. exists x. split; [assumption | apply String.eqb_refl].
Qed.

Lemma JsSet_has_not_In (s : JsSet.t) (x : string) :
  JsSet.has s x = false <-> ~ In x s.
Proof.
  rewrite <- JsSet_has_In. destruct (JsSet.has s x); split; congruence.
Qed.

Lemma JsSet_add_In (x y : string) (s : JsSet.t) :
  In y (JsSet.add x s) <-> y = x \/ In y s.
Proof.
  unfold JsSet.add. destruct (JsSet.has s x) eqn:E.
  - apply JsSet_has_In in E. split; [now right | intros [-> | H]; assumption].
  - rewrite in_app_iff. simpl. split.
    + intros [H | [H | []]]; [now right | now left].
    + intros [-> | H]; [right; now left | now left].
Qed.

Lemma JsSet_add_NoDup (x : string) (s : JsSet.t) :
  NoDup s -> NoDup (JsSet.add x s).
Proof.
  intro H. unfold JsSet.add. destruct (JsSet.has s x) eqn:E; [assumption |].
  apply JsSet_has_not_In in E.
  apply NoDup_app; [assumption | repeat constructor; intros [] | ].
  intros a Ha [<- | []]. contradiction.
Qed.

Lemma JsSet_add_all_In (l : list string) (s : JsSet.t) (y : string) :
  In y (fold_left (fun s pkg => JsSet.add pkg s) l s) <-> In y s \/ In y l.
Proof.
  revert s. induction l as [| x l IH]; intro s; simpl.
  - tauto.
  - rewrite IH, JsSet_add_In. intuition congruence.
Qed.

Lemma JsSet_add_all_NoDup (l : list string) (s : JsSet.t) :
  NoDup s -> NoDup (fold_left (fun s pkg => JsSet.add pkg s) l s).
Proof.
  revert s. induction l as [| x l IH]; intros s H; simpl; [assumption |].
  apply IH. now apply JsSet_add_NoDup.
Qed.

Section JsMapFacts.

Context {V : Type}.
Implicit Types (m : JsMap.t V) (k : string) (v : V).

Lemma JsMap_get_set_same k v m : JsMap.get k (JsMap.set k v m) = Some v.
Proof.
  induction m as [| [k' v'] m IH]; simpl.
  - now rewrite String.eqb_refl.
  - destruct (String.eqb k' k) eqn:E; simpl.
    + now rewrite String.eqb_refl.
    + now rewrite E.
Qed.

Lemma JsMap_get_set_other k k' v m :
  k <> k' -> JsMap.get k' (JsMap.set k v m) = JsMap.get k' m.
Proof.
  intro Hne. induction m as [| [k0 v0] m IH]; simpl.
  - apply String.eqb_neq in Hne. now rewrite Hne.
  - destruct (String.eqb k0 k) eqn:E; simpl.
    + apply String.eqb_eq in E. subst k0.
      apply String.eqb_neq in Hne. now rewrite Hne.
    + now rewrite IH.
Qed.

Lemma JsMap_get_In_keys k v m : JsMap.get k m = Some v -> In k (JsMap.keys m).
Proof.
  induction m as [| [k0 v0] m IH]; simpl; [discriminate |].
  destruct (String.eqb k0 k) eqn:E.
  - apply String.eqb_eq in E. now left.
  - intro H. right. now apply IH.
Qed.

Lemma JsMap_In_keys_get k m :
  In k (JsMap.keys m) -> exists v, JsMap.get k m = Some v.
Proof.
  induction m as [| [k0 v0] m IH]; simpl; [contradiction |].
  intros [-> | H].
  - rewrite String.eqb_refl. now exists v0.
  - destruct (String.eqb k0 k); [now exists v0 | now apply IH].
Qed.

Lemma JsMap_get_None k m : JsMap.get k m = None <-> ~ In k (JsMap.keys m).
Proof.
  split.
  - intros H Hin. apply JsMap_In_keys_get in Hin as [v Hv]. congruence.
  - intro H. destruct (JsMap.get k m) eqn:E; [| reflexivity].
    apply JsMap_get_In_keys in E. contradiction.
Qed.

Lemma JsMap_has_In_keys k m : JsMap.has m k = true <-> In k (JsMap.keys m).
Proof.
  unfold JsMap.has. split.
  - destruct (JsMap.get k m) eqn:E; [| discriminate].
    intros _. now apply JsMap_get_In_keys in E.
  - intro H. apply JsMap_In_keys_get in H as [v ->]. reflexivity.
Qed.

Lemma JsMap_keys_set_In k v m :
  In k (JsMap.keys m) -> JsMap.keys (JsMap.set k v m) = JsMap.keys m.
Proof.
  induction m as [| [k0 v0] m IH]; simpl; [contradiction |].
  destruct (String.eqb k0 k) eqn:E; simpl.
  - apply String.eqb_eq in E. now subst.
  - intros [-> | H]; [now rewrite String.eqb_refl in E |].
    f_equal. now apply IH.
Qed.

Lemma JsMap_set_fresh k v m :
  ~ In k (JsMap.keys m) -> JsMap.set k v m = m ++ [(k, v)].
Proof.
  induction m as [| [k0 v0] m IH]; simpl; [reflexivity |].
  intro H. destruct (String.eqb k0 k) eqn:E.
  - apply String.eqb_eq in E. subst. tauto.
  - rewrite IH; tauto.
Qed.

Lemma JsMap_get_In k v m : JsMap.get k m = Some v -> In (k, v) m.
Proof.
  induction m as [| [k0 v0] m IH]; simpl; [discriminate |].
  destruct (String.eqb k0 k) eqn:E.
  - apply String.eqb_eq in E. intro H. injection H as ->. subst. now left.
  - intro H. right. now apply IH.
Qed.

Lemma JsMap_In_get k v m : JsMap.wf m -> In (k, v) m -> JsMap.get k m = Some v.
Proof.
  unfold JsMap.wf, JsMap.keys.
  induction m as [| [k0 v0] m IH]; simpl; [contradiction |].
  intros Hnd [Heq | Hin].
  - injection Heq as -> ->. now rewrite String.eqb_refl.
  - inversion Hnd as [| ? ? Hnotin Hnd']; subst.
    destruct (String.eqb k0 k) eqn:E.
    + apply String.eqb_eq in E. subst k0. exfalso. apply Hnotin.
      change k with (fst (k, v)). now apply in_map.
    + now apply IH.
Qed.

End JsMapFacts.

Lemma adjacent_set (m : JsMap.t JsSet.t) (k k' : string) (s : JsSet.t) :
  adjacent (JsMap.set k s m) k' = if String.eqb k k' then s else adjacent m k'.
Proof.
  unfold adjacent. destruct (String.eqb k k') eqn:E.
  - apply String.eqb_eq in E. subst. now rewrite JsMap_get_set_same.
  - apply String.eqb_neq in E. now rewrite JsMap_get_set_other.
Qed.

Lemma adjacent_In_keys (m : JsMap.t JsSet.t) (k x : string) :
  In x (adjacent m k) -> In k (JsMap.keys m).
Proof.
  unfold adjacent. destruct (JsMap.get k m) eqn:E; [| contradiction].
  intros _. now apply JsMap_get_In_keys in E.
Qed.

(** ** buildDependencyGraph *)

Lemma add_to_spec (k x : string) (m : JsMap.t JsSet.t) :
  In k (JsMap.keys m) ->
  exists m', add_to k x m = Return m'
             /\ JsMap.keys m' = JsMap.keys m
             /\ forall k', adjacent m' k' =
                           if String.eqb k k' then JsSet.add x (adjacent m k)
                           else adjacent m k'.
Proof.
  intro Hin. destruct (JsMap_In_keys_get _ _ Hin) as [s Hs].
  unfold add_to. rewrite Hs. eexists. split; [reflexivity |]. split.
  - now apply JsMap_keys_set_In.
  - intro k'. rewrite adjacent_set. unfold adjacent at 2. now rewrite Hs.
Qed.

Lemma adjacency_inv_ext K (P Q : string -> string -> Prop) st :
  (forall a b, P a b <-> Q a b) -> adjacency_inv K P st -> adjacency_inv K Q st.
Proof.
  intros HPQ (He & Hr & Hf & Hb & Hn1 & Hn2).
  repeat split; try assumption; intros; try (apply HPQ, Hf; assumption);
    try (apply Hf, HPQ; assumption); try (apply HPQ, Hb; assumption);
    try (apply Hb, HPQ; assumption).
Qed.

Lemma init_adjacency_fold (l : JsMap.t PackageInfo) (e r : JsMap.t JsSet.t) :
  NoDup (JsMap.keys e ++ JsMap.keys l) ->
  JsMap.keys r = JsMap.keys e ->
  fold_left
    (fun (st : JsMap.t JsSet.t * JsMap.t JsSet.t) (entry : string * PackageInfo) =>
       (JsMap.set (fst entry) JsSet.empty (fst st),
        JsMap.set (fst entry) JsSet.empty (snd st)))
    l (e, r)
  = (e ++ map (fun entry => (fst entry, JsSet.empty)) l,
     r ++ map (fun entry => (fst entry, JsSet.empty)) l).
Proof.
  revert e r. induction l as [| [k p] l IH]; intros e r Hnd Hkeys; simpl.
  - now rewrite !app_nil_r.
  - assert (Hfresh : ~ In k (JsMap.keys e)).
    { intro Hin. apply NoDup_app_remove_r in Hnd as Hnd'.
      simpl in Hnd. apply NoDup_remove_2 in Hnd. apply Hnd.
      apply in_or_app. now left. }
    rewrite (JsMap_set_fresh k JsSet.empty e Hfresh).
    rewrite (JsMap_set_fresh k JsSet.empty r) by now rewrite Hkeys.
    rewrite IH.
    + now rewrite <- !app_assoc.
    + unfold JsMap.keys in *. rewrite map_app. simpl.
      rewrite <- app_assoc. exact Hnd.
    + unfold JsMap.keys in *. rewrite !map_app. now rewrite Hkeys.
Qed.

Lemma init_adjacency_spec (packages : JsMap.t PackageInfo) :
  JsMap.wf packages ->
  init_adjacency packages
  = (map (fun entry => (fst entry, JsSet.empty)) packages,
     map (fun entry => (fst entry, JsSet.empty)) packages).
Proof.
  intro Hwf. unfold init_adjacency.
  now rewrite init_adjacency_fold.
Qed.

Lemma adjacent_init (l : JsMap.t PackageInfo) (k : string) :
  adjacent (map (fun entry => (fst entry, JsSet.empty)) l) k = [].
Proof.
  unfold adjacent. induction l as [| [k0 p] l IH]; simpl; [reflexivity |].
  destruct (String.eqb k0 k); [reflexivity | exact IH].
Qed.

Lemma init_adjacency_inv (packages : JsMap.t PackageInfo) :
  JsMap.wf packages ->
  adjacency_inv (JsMap.keys packages) (fun _ _ => False)
                (init_adjacency packages).
Proof.
  intro Hwf. rewrite init_adjacency_spec by assumption.
  unfold adjacency_inv, JsMap.keys. simpl. rewrite map_map. simpl.
  repeat split; try reflexivity; intros;
    rewrite ?adjacent_init in *; try contradiction; constructor.
Qed.

Lemma add_dependency_inv (packages : JsMap.t PackageInfo) K P st n d :
  K = JsMap.keys packages ->
  In n K ->
  adjacency_inv K P st ->
  exists st', add_dependency packages n d st = Return st'
              /\ adjacency_inv K (fun a b => P a b \/ (a = n /\ b = d /\ In d K)) st'.
Proof.
  intros HK Hn Hinv. unfold add_dependency.
  destruct (JsMap.has packages d) eqn:Hhas.
  - apply JsMap_has_In_keys in Hhas. rewrite <- HK in Hhas.
    destruct Hinv as (He & Hr & Hf & Hb & Hn1 & Hn2).
    destruct (add_to_spec n d (fst st)) as (e' & -> & Hke & Hadj_e);
      [now rewrite He |].
    destruct (add_to_spec d n (snd st)) as (r' & -> & Hkr & Hadj_r);
      [now rewrite Hr |].
    simpl. eexists; split; [reflexivity |].
    unfold adjacency_inv; simpl. repeat split.
    + congruence.
    + congruence.
    + rewrite Hadj_e. destruct (String.eqb n a) eqn:E.
      * apply String.eqb_eq in E. subst a. rewrite JsSet_add_In, Hf.
        intros [-> | H]; [right; tauto | now left].
      * rewrite Hf. now left.
    + rewrite Hadj_e. intros [H | (-> & -> & _)].
      * destruct (String.eqb n a) eqn:E.
        -- apply String.eqb_eq in E. subst a. rewrite JsSet_add_In, Hf. now right.
        -- now rewrite Hf.
      * rewrite String.eqb_refl, JsSet_add_In. now left.
    + rewrite Hadj_r. destruct (String.eqb d b) eqn:E.
      * apply String.eqb_eq in E. subst b. rewrite JsSet_add_In, Hb.
        intros [-> | H]; [right; tauto | now left].
      * rewrite Hb. now left.
    + rewrite Hadj_r. intros [H | (-> & -> & _)].
      * destruct (String.eqb d b) eqn:E.
        -- apply String.eqb_eq in E. subst b. rewrite JsSet_add_In, Hb. now right.
        -- now rewrite Hb.
      * rewrite String.eqb_refl, JsSet_add_In. now left.
    + intro k. rewrite Hadj_e. destruct (String.eqb n k); [| apply Hn1].
      apply JsSet_add_NoDup, Hn1.
    + intro k. rewrite Hadj_r. destruct (String.eqb d k); [| apply Hn2].
      apply JsSet_add_NoDup, Hn2.
  - exists st. split; [reflexivity |].
    apply adjacency_inv_ext with (P := P); [| assumption].
    intros a b. split; [now left |].
    intros [H | (_ & _ & Hd)]; [assumption |].
    exfalso. rewrite HK in Hd. apply JsMap_has_In_keys in Hd. congruence.
Qed.

Lemma add_dependencies_inv (packages : JsMap.t PackageInfo) K n deps :
  K = JsMap.keys packages ->
  In n K ->
  forall P st,
    adjacency_inv K P st ->
    exists st', forM deps (add_dependency packages n) st = Return st'
                /\ adjacency_inv K
                     (fun a b => P a b \/ (a = n /\ In b deps /\ In b K)) st'.
Proof.
  intros HK Hn. induction deps as [| d deps IH]; intros P st Hinv; simpl.
  - exists st. split; [reflexivity |].
    apply adjacency_inv_ext with (P := P); [| assumption].
    intros; tauto.
  - destruct (add_dependency_inv packages K P st n d HK Hn Hinv)
      as (st1 & -> & Hinv1).
    simpl. destruct (IH _ _ Hinv1) as (st2 & -> & Hinv2).
    exists st2. split; [reflexivity |].
    eapply adjacency_inv_ext; [| exact Hinv2].
    intros a b. simpl. split.
    + intros [[H | (-> & -> & Hd)] | (-> & Hb & HbK)]; tauto.
    + intros [H | (-> & [-> | Hb] & HbK)]; tauto.
Qed.

Lemma add_all_dependencies_inv (packages : JsMap.t PackageInfo) K entries :
  K = JsMap.keys packages ->
  (forall entry, In entry entries -> In (fst entry) K) ->
  forall P st,
    adjacency_inv K P st ->
    exists st',
      forM entries
           (fun entry st =>
              forM (workspaceDeps (snd entry))
                   (add_dependency packages (fst entry)) st) st = Return st'
      /\ adjacency_inv K
           (fun a b => P a b
                       \/ exists pkg, In (a, pkg) entries
                                      /\ In b (workspaceDeps pkg) /\ In b K) st'.
Proof.
  intros HK. induction entries as [| [n pkg] entries IH]; intros Hkeys P st Hinv; simpl.
  - exists st. split; [reflexivity |].
    apply adjacency_inv_ext with (P := P); [| assumption].
    intros a b. split; [now left | intros [H | (? & [] & _)]; assumption].
  - destruct (add_dependencies_inv packages K n (workspaceDeps pkg) HK
                (Hkeys (n, pkg) (or_introl eq_refl)) P st Hinv)
      as (st1 & -> & Hinv1).
    simpl. destruct (IH (fun e H => Hkeys e (or_intror H)) _ _ Hinv1)
      as (st2 & -> & Hinv2).
    exists st2. split; [reflexivity |].
    eapply adjacency_inv_ext; [| exact Hinv2].
    intros a b. simpl. split.
    + intros [[H | (-> & Hb & HbK)] | (p & Hp & Hb & HbK)].
      * now left.
      * right. exists pkg. tauto.
      * right. exists p. tauto.
    + intros [H | (p & [Heq | Hp] & Hb & HbK)].
      * now left; left.
      * injection Heq as -> ->. left; right. tauto.
      * right. exists p. tauto.
Qed.

(** [buildDependencyGraph] has no failure mode, and its adjacency maps hold
    exactly the declared in-set dependencies. *)
Lemma buildDependencyGraph_spec (packages : JsMap.t PackageInfo) :
  JsMap.wf packages ->
  exists graph,
    buildDependencyGraph packages = Return graph
    /\ nodes graph = packages
    /\ adjacency_inv (JsMap.keys packages) (declared_in packages)
                     (edges graph, reverseEdges graph).
Proof.
  intro Hwf. unfold buildDependencyGraph.
  destruct (add_all_dependencies_inv packages (JsMap.keys packages) packages
              eq_refl
              (fun e H => in_map fst packages e H)
              _ _ (init_adjacency_inv packages Hwf))
    as (st & -> & Hinv).
  simpl. eexists. split; [reflexivity |]. split; [reflexivity |]. simpl.
  destruct st as [e r]. simpl.
  eapply adjacency_inv_ext; [| exact Hinv].
  intros a b. unfold declared_in. split.
  - intros [[] | (pkg & Hin & Hb & HbK)].
    exists pkg. split; [now apply JsMap_In_get | tauto].
  - intros (pkg & Hget & Hb & HbK). right. exists pkg.
    split; [now apply JsMap_get_In | tauto].
Qed.

Lemma buildDependencyGraph_wf (packages : JsMap.t PackageInfo) graph :
  JsMap.wf packages ->
  buildDependencyGraph packages = Return graph ->
  graph_wf graph.
Proof.
  intros Hwf Hbuild.
  destruct (buildDependencyGraph_spec packages Hwf)
    as (g & Hg & Hnodes & He & Hr & Hf & Hb & Hn1 & Hn2).
  rewrite Hbuild in Hg. injection Hg as <-. simpl in *.
  constructor; rewrite ?Hnodes; try assumption.
  - intros a b. now rewrite Hf, Hb.
  - intros a b Hab. apply Hf in Hab. destruct Hab as (pkg & _ & _ & H). exact H.
Qed.

(** ** topologicalSort: the loop and its invariant *)

Lemma JsSet_has_cons (x y : string) (s : JsSet.t) :
  JsSet.has (y :: s) x = String.eqb x y || JsSet.has s x.
Proof. reflexivity. Qed.

Lemma JsSet_has_snoc (x y : string) (s : JsSet.t) :
  JsSet.has (s ++ [y]) x = JsSet.has s x || String.eqb x y.
Proof.
  unfold JsSet.has. rewrite existsb_app. simpl. now rewrite orb_false_r.
Qed.

Lemma degree_of_set_other (inDegree : JsMap.t number) k k' v :
  k <> k' -> degree_of (JsMap.set k v inDegree) k' = degree_of inDegree k'.
Proof.
  intro H. unfold degree_of. now rewrite JsMap_get_set_other.
Qed.

Lemma relax_spec (dependents : list string) :
  forall (inDegree : JsMap.t number) (queue : list string),
    NoDup dependents ->
    (forall n, In n dependents -> exists d, JsMap.get n inDegree = Some (Num d)) ->
    JsMap.keys (fst (relax dependents inDegree queue)) = JsMap.keys inDegree
    /\ (forall n,
           JsMap.get n (fst (relax dependents inDegree queue))
           = if JsSet.has dependents n
             then Some (Num (degree_of inDegree n - 1))
             else JsMap.get n inDegree)
    /\ snd (relax dependents inDegree queue)
       = queue ++ filter (fun n => Z.eqb (degree_of inDegree n - 1) 0) dependents.
Proof.
  induction dependents as [| d rest IH]; intros inDegree queue Hnd Hnum.
  - simpl. repeat split; [now rewrite app_nil_r].
  - inversion Hnd as [| ? ? Hd Hrest]; subst.
    destruct (Hnum d (or_introl eq_refl)) as [c Hc].
    cbn [relax]. rewrite Hc.
    set (inDegree' := JsMap.set d (Num (c - 1)) inDegree).
    set (queue' := if number_is_zero (Num (c - 1)) then queue ++ [d] else queue).
    assert (Hother : forall n, In n rest -> n <> d) by (intros n Hn ->; contradiction).
    destruct (IH inDegree' queue' Hrest) as (Hk & Hget & Hq).
    { intros n Hn. unfold inDegree'. rewrite JsMap_get_set_other.
      - apply Hnum. now right.
      - intro Heq. now apply (Hother n Hn). }
    split; [| split].
    + rewrite Hk. unfold inDegree'. apply JsMap_keys_set_In.
      now apply JsMap_get_In_keys in Hc.
    + intro n. rewrite Hget, JsSet_has_cons.
      destruct (String.eqb_spec n d) as [-> | Hne]; simpl.
      * assert (Hfalse : JsSet.has rest d = false) by now apply JsSet_has_not_In.
        rewrite Hfalse. unfold inDegree'. rewrite JsMap_get_set_same.
        unfold degree_of. now rewrite Hc.
      * unfold inDegree'. rewrite degree_of_set_other by congruence.
        now rewrite JsMap_get_set_other by congruence.
    + rewrite Hq. unfold queue'. cbn [filter number_is_zero].
      assert (Hd0 : degree_of inDegree d = c) by (unfold degree_of; now rewrite Hc).
      rewrite Hd0.
      rewrite (filter_ext_in
                 (fun n => Z.eqb (degree_of inDegree' n - 1) 0)
                 (fun n => Z.eqb (degree_of inDegree n - 1) 0)).
      * destruct (Z.eqb (c - 1) 0); [now rewrite <- app_assoc | reflexivity].
      * intros n Hn. unfold inDegree'. rewrite degree_of_set_other; [reflexivity |].
        intro Heq. now apply (Hother n Hn).
Qed.

Lemma filter_drop_absent (f : string -> bool) (c : string) (l : list string) :
  ~ In c l ->
  filter (fun d => f d && negb (String.eqb d c)) l = filter f l.
Proof.
  intro H. apply filter_ext_in. intros d Hd.
  destruct (String.eqb_spec d c) as [-> | _]; [contradiction |].
  now rewrite andb_true_r.
Qed.

Lemma filter_drop_present (f : string -> bool) (c : string) (l : list string) :
  NoDup l -> In c l -> f c = true ->
  length (filter f l)
  = S (length (filter (fun d => f d && negb (String.eqb d c)) l)).
Proof.
  intros Hnd Hin Hf. induction Hnd as [| x l Hx Hnd IH]; [contradiction |].
  destruct Hin as [-> | Hin].
  - cbn [filter]. rewrite Hf, String.eqb_refl. cbn [negb andb length].
    now rewrite filter_drop_absent.
  - cbn [filter]. destruct (String.eqb_spec x c) as [-> | Hne]; [contradiction |].
    rewrite andb_true_r. destruct (f x); cbn [length]; now rewrite IH.
Qed.

Lemma pending_nil_iff (graph : DependencyGraph) result n :
  pending graph result n = []
  <-> forall d, depends_on graph n d -> In d result.
Proof.
  unfold pending, depends_on. split.
  - intros H d Hd. destruct (JsSet.has result d) eqn:E; [now apply JsSet_has_In |].
    assert (Hin : In d (filter (fun d => negb (JsSet.has result d))
                               (adjacent (edges graph) n))).
    { apply filter_In. now rewrite E. }
    rewrite H in Hin. contradiction.
  - intro H. induction (adjacent (edges graph) n) as [| x l IH]; [reflexivity |].
    cbn [filter]. assert (Hx : JsSet.has result x = true).
    { apply JsSet_has_In, H. now left. }
    rewrite Hx. cbn [negb]. apply IH. intros d Hd. apply H. now right.
Qed.

Lemma pending_empty_result (graph : DependencyGraph) n :
  pending graph [] n = adjacent (edges graph) n.
Proof.
  unfold pending.
  rewrite (filter_ext _ (fun _ => true)) by reflexivity.
  induction (adjacent (edges graph) n) as [| x l IH]; simpl; congruence.
Qed.

Lemma pending_snoc (graph : DependencyGraph) result c n :
  pending graph (result ++ [c]) n
  = filter (fun d => negb (JsSet.has result d) && negb (String.eqb d c))
           (adjacent (edges graph) n).
Proof.
  unfold pending. apply filter_ext. intro d.
  now rewrite JsSet_has_snoc, negb_orb.
Qed.

Lemma pending_snoc_absent (graph : DependencyGraph) result c n :
  ~ depends_on graph n c ->
  pending graph (result ++ [c]) n = pending graph result n.
Proof.
  intro H. rewrite pending_snoc. now apply filter_drop_absent.
Qed.

Lemma pending_snoc_present (graph : DependencyGraph) result c n :
  NoDup (adjacent (edges graph) n) ->
  depends_on graph n c -> ~ In c result ->
  length (pending graph result n)
  = S (length (pending graph (result ++ [c]) n)).
Proof.
  intros Hnd Hdep Hnot. rewrite pending_snoc. unfold pending.
  apply filter_drop_present; try assumption.
  apply JsSet_has_not_In in Hnot. now rewrite Hnot.
Qed.

Lemma pending_snoc_nil (graph : DependencyGraph) result c n :
  pending graph result n = [] -> pending graph (result ++ [c]) n = [].
Proof.
  rewrite !pending_nil_iff. intros H d Hd. apply in_or_app. left. now apply H.
Qed.

Lemma snoc_eq_app {A : Type} (l before after : list A) (x n : A) :
  l ++ [x] = before ++ n :: after ->
  (after = [] /\ l = before /\ x = n)
  \/ (exists after', after = after' ++ [x] /\ l = before ++ n :: after').
Proof.
  intro H. induction after as [| y after' _] using rev_ind.
  - left. apply app_inj_tail in H as [-> ->]. auto.
  - right. exists after'.
    rewrite app_comm_cons, app_assoc in H.
    apply app_inj_tail in H as [-> ->]. auto.
Qed.

Section KahnLoop.

Variable graph : DependencyGraph.
Hypothesis Hwf : graph_wf graph.

Let K := JsMap.keys (nodes graph).

Lemma depends_on_node a b : depends_on graph a b -> In a K /\ In b K.
Proof.
  intro H. split.
  - unfold K. rewrite <- (wf_edges_keys graph Hwf).
    eapply adjacent_In_keys. exact H.
  - eapply wf_closed; eassumption.
Qed.

Lemma kahn_inv_step inDegree current queue result :
  kahn_inv graph inDegree (current :: queue) result ->
  kahn_inv graph
           (fst (relax (adjacent (reverseEdges graph) current) inDegree queue))
           (snd (relax (adjacent (reverseEdges graph) current) inDegree queue))
           (result ++ [current]).
Proof.
  intros [Hkeys Hdeg Hnd Hready Horder].
  set (R := adjacent (reverseEdges graph) current).
  assert (HR : forall n, In n R <-> depends_on graph n current).
  { intro n. unfold R, depends_on. symmetry. apply (wf_transpose graph Hwf). }
  assert (Hcur : ~ In current result).
  { intro Hin. apply NoDup_remove_2 in Hnd. apply Hnd.
    apply in_or_app. now left. }
  assert (Hdegree : forall n, In n K ->
            degree_of inDegree n = Z.of_nat (length (pending graph result n))).
  { intros n Hn. unfold degree_of. now rewrite (Hdeg n Hn). }
  assert (Hblocked : forall n, depends_on graph n current ->
            ~ In n (result ++ current :: queue)).
  { intros n Hn Hin. apply Hready in Hin as [_ Hp].
    rewrite pending_nil_iff in Hp. apply Hcur. now apply Hp. }
  destruct (relax_spec R inDegree queue) as (Hk & Hget & Hq).
  { apply (wf_reverse_nodup graph Hwf). }
  { intros n Hn. apply HR in Hn. apply depends_on_node in Hn as [Hn _].
    rewrite (Hdeg n Hn). eauto. }
  fold R. constructor.
  - now rewrite Hk.
  - intros n Hn. rewrite Hget.
    destruct (JsSet.has R n) eqn:E.
    + apply JsSet_has_In, HR in E. rewrite (Hdegree n Hn).
      rewrite (pending_snoc_present graph result current n);
        try assumption; [| apply (wf_edges_nodup graph Hwf)].
      do 2 f_equal. lia.
    + apply JsSet_has_not_In in E. rewrite HR in E.
      rewrite pending_snoc_absent by assumption. now apply Hdeg.
  - rewrite Hq, app_assoc, <- (app_assoc result). simpl.
    apply NoDup_app; [assumption | |].
    + apply NoDup_filter, (wf_reverse_nodup graph Hwf).
    + intros a Ha Hfilter. apply filter_In in Hfilter as [HaR _].
      apply HR in HaR. now apply (Hblocked a).
  - intro n. rewrite Hq, app_assoc, <- (app_assoc result). simpl.
    rewrite in_app_iff, filter_In, Hready. split.
    + intros [[Hn Hp] | [HnR Hz]].
      * split; [assumption | now apply pending_snoc_nil].
      * apply HR in HnR. destruct (depends_on_node _ _ HnR) as [Hn _].
        split; [assumption |].
        rewrite (Hdegree n Hn) in Hz.
        rewrite (pending_snoc_present graph result current n) in Hz;
          try assumption; [| apply (wf_edges_nodup graph Hwf)].
        apply Z.eqb_eq in Hz. apply length_zero_iff_nil. lia.
    + intros [Hn Hp].
      destruct (in_dec string_dec current (adjacent (edges graph) n)) as [Hdep | Hdep].
      * right. split; [now apply HR |].
        rewrite (Hdegree n Hn).
        rewrite (pending_snoc_present graph result current n);
          try assumption; [| apply (wf_edges_nodup graph Hwf)].
        rewrite Hp. reflexivity.
      * left. split; [assumption |].
        now rewrite <- (pending_snoc_absent graph result current n).
  - intros before n after Heq d Hd.
    apply snoc_eq_app in Heq as [(-> & -> & ->) | (after' & -> & ->)].
    + assert (Hin : In n (before ++ n :: queue)) by apply in_elt.
      apply Hready in Hin as [_ Hp]. rewrite pending_nil_iff in Hp.
      now apply Hp.
    + eapply Horder; [reflexivity | exact Hd].
Qed.

Lemma kahn_loop_ends fuel :
  forall inDegree queue result,
    kahn_inv graph inDegree queue result ->
    length K <= fuel + length result ->
    exists final inDegree',
      kahn fuel graph inDegree queue result = Some final
      /\ kahn_inv graph inDegree' [] final.
Proof.
  induction fuel as [| fuel IH]; intros inDegree queue result Hinv Hfuel.
  - destruct queue as [| current queue].
    + exists result, inDegree. now split.
    + exfalso.
      assert (Hle : length (result ++ current :: queue) <= length K).
      { apply NoDup_incl_length; [apply (ki_nodup _ _ _ _ Hinv) |].
        intros n Hn. now apply (ki_ready _ _ _ _ Hinv) in Hn. }
      rewrite length_app in Hle. simpl in Hle, Hfuel. lia.
  - destruct queue as [| current queue].
    + exists result, inDegree. now split.
    + cbn [kahn]. apply IH.
      * now apply kahn_inv_step.
      * rewrite length_app. simpl. lia.
Qed.

Lemma get_map_entries {A : Type} (f : string -> number) (l : JsMap.t A) n :
  In n (JsMap.keys l) ->
  JsMap.get n (map (fun entry => (fst entry, f (fst entry))) l) = Some (f n).
Proof.
  induction l as [| [k v] l IH]; simpl; [contradiction |].
  destruct (String.eqb_spec k n) as [-> | Hne]; [reflexivity |].
  intros [Heq | Hin]; [contradiction | now apply IH].
Qed.

Lemma init_inDegree_fold (l : JsMap.t PackageInfo) (acc : JsMap.t number) :
  NoDup (JsMap.keys acc ++ JsMap.keys l) ->
  (forall n, In n (JsMap.keys l) -> In n (JsMap.keys (edges graph))) ->
  forM l
       (fun entry inDegree =>
          match JsMap.get (fst entry) (edges graph) with
          | Some deps =>
              Return (JsMap.set (fst entry)
                                (Num (Z.of_nat (JsSet.size deps))) inDegree)
          | None => Throw TypeError
          end) acc
  = Return (acc ++ map (fun entry =>
                          (fst entry,
                           Num (Z.of_nat (length (adjacent (edges graph) (fst entry))))))
                       l).
Proof.
  revert acc. induction l as [| [k p] l IH]; intros acc Hnd Hin; simpl.
  - now rewrite app_nil_r.
  - destruct (JsMap_In_keys_get k (edges graph)) as [deps Hdeps].
    { apply Hin. now left. }
    rewrite Hdeps. simpl.
    assert (Hfresh : ~ In k (JsMap.keys acc)).
    { intro Hk. simpl in Hnd. apply NoDup_remove_2 in Hnd. apply Hnd.
      apply in_or_app. now left. }
    rewrite (JsMap_set_fresh k _ acc Hfresh).
    rewrite IH.
    + rewrite <- app_assoc. simpl. unfold adjacent. now rewrite Hdeps.
    + unfold JsMap.keys in *. rewrite map_app. simpl.
      now rewrite <- app_assoc.
    + intros n Hn. apply Hin. now right.
Qed.

Lemma init_inDegree_spec :
  init_inDegree graph
  = Return (map (fun entry =>
                   (fst entry,
                    Num (Z.of_nat (length (adjacent (edges graph) (fst entry))))))
                (nodes graph)).
Proof.
  unfold init_inDegree. rewrite init_inDegree_fold; [reflexivity | |].
  - apply (wf_nodes graph Hwf).
  - intros n Hn. now rewrite (wf_edges_keys graph Hwf).
Qed.

Lemma init_queue_spec {A : Type} (f : string -> number) (l : JsMap.t A) :
  init_queue (map (fun entry => (fst entry, f (fst entry))) l)
  = filter (fun n => number_is_zero (f n)) (JsMap.keys l).
Proof.
  unfold init_queue.
  induction l as [| [k v] l IH]; simpl; [reflexivity |].
  destruct (number_is_zero (f k)); simpl; now rewrite IH.
Qed.

Lemma kahn_inv_init :
  kahn_inv graph
    (map (fun entry =>
            (fst entry,
             Num (Z.of_nat (length (adjacent (edges graph) (fst entry))))))
         (nodes graph))
    (init_queue
       (map (fun entry =>
               (fst entry,
                Num (Z.of_nat (length (adjacent (edges graph) (fst entry))))))
            (nodes graph)))
    [].
Proof.
  rewrite (init_queue_spec
             (fun n => Num (Z.of_nat (length (adjacent (edges graph) n))))).
  constructor.
  - unfold JsMap.keys. rewrite map_map. reflexivity.
  - intros n Hn. rewrite pending_empty_result.
    now apply (get_map_entries
                 (fun n => Num (Z.of_nat (length (adjacent (edges graph) n))))).
  - simpl. apply NoDup_filter, (wf_nodes graph Hwf).
  - intro n. simpl. rewrite filter_In, pending_empty_result. simpl.
    rewrite Z.eqb_eq. split; intros [Hn Hz]; (split; [assumption |]).
    + apply length_zero_iff_nil. lia.
    + now rewrite Hz.
  - intros before n after Heq. destruct before; discriminate.
Qed.

(** The loop ends within its budget and yields a duplicate-free list of
    nodes, closed under dependencies, each after the ones it depends on. *)
Lemma kahn_result_spec :
  exists final,
    kahn_result graph = Return final
    /\ NoDup final
    /\ (forall n, In n final
                  <-> In n K /\ forall d, depends_on graph n d -> In d final)
    /\ (forall before n after,
           final = before ++ n :: after ->
           forall d, depends_on graph n d -> In d before).
Proof.
  unfold kahn_result. rewrite init_inDegree_spec. simpl.
  destruct (kahn_loop_ends (JsMap.size (nodes graph)) _ _ _ kahn_inv_init)
    as (final & inDegree' & Hrun & [_ _ Hnd Hready Horder]).
  { unfold K, JsMap.keys, JsMap.size. rewrite length_map. lia. }
  rewrite Hrun. exists final. split; [reflexivity |].
  rewrite app_nil_r in *. split; [assumption |]. split; [| assumption].
  intro n. rewrite Hready. now rewrite pending_nil_iff.
Qed.

End KahnLoop.

(** ** topologicalSort: orderings and cycles *)

Lemma is_path_tail (graph : DependencyGraph) a l :
  is_path graph (a :: l) -> is_path graph l.
Proof. destruct l; simpl; tauto. Qed.

Lemma is_path_app_r (graph : DependencyGraph) l1 l2 :
  is_path graph (l1 ++ l2) -> is_path graph l2.
Proof.
  induction l1 as [| a l1 IH]; [trivial |].
  intro H. apply IH. eapply is_path_tail. exact H.
Qed.

Lemma is_path_reaches (graph : DependencyGraph) l :
  forall x y, is_path graph (x :: l) -> In y l ->
              clos_trans string (depends_on graph) x y.
Proof.
  induction l as [| z l IH]; intros x y Hpath Hin; [contradiction |].
  destruct Hpath as [Hstep Hrest]. destruct Hin as [-> | Hin].
  - now apply t_step.
  - eapply t_trans; [apply t_step; exact Hstep | now apply IH].
Qed.

Lemma clos_trans_first_step (graph : DependencyGraph) a b :
  clos_trans string (depends_on graph) a b -> exists c, depends_on graph a c.
Proof.
  induction 1 as [a b H | a b c _ IH _ _]; [now exists b | exact IH].
Qed.

Lemma string_decidable_eq : ListDec.decidable_eq string.
Proof.
  intros x y. destruct (string_dec x y); [now left | now right].
Qed.

Section Walk.

Variable graph : DependencyGraph.
Variable stuck : string -> Prop.
Variable K : list string.
Hypothesis stuck_node : forall n, stuck n -> In n K.
Hypothesis stuck_next :
  forall n, stuck n -> exists d, depends_on graph n d /\ stuck d.

Lemma stuck_walk (k : nat) :
  forall n, stuck n ->
            exists p, length p = k /\ is_path graph (n :: p)
                      /\ forall x, In x p -> stuck x.
Proof.
  induction k as [| k IH]; intros n Hn.
  - exists []. simpl. repeat split. intros x [].
  - destruct (stuck_next n Hn) as (d & Hd & Hsd).
    destruct (IH d Hsd) as (p & Hlen & Hpath & Hall).
    exists (d :: p). simpl. repeat split.
    + now rewrite Hlen.
    + assumption.
    + exact Hpath.
    + intros x [<- | Hx]; [assumption | now apply Hall].
Qed.

(** A walk that is longer than the node list repeats a node. *)
Lemma stuck_reaches_cycle n : stuck n -> reaches_cycle graph n.
Proof.
  intro Hn. destruct (stuck_walk (length K) n Hn) as (p & Hlen & Hpath & Hall).
  assert (Hdup : ~ NoDup (n :: p)).
  { intro Hnd. apply NoDup_incl_length with (l' := K) in Hnd.
    - simpl in Hnd. lia.
    - intros x [<- | Hx]; apply stuck_node; [assumption | now apply Hall]. }
  apply (ListDec.not_NoDup string_decidable_eq) in Hdup
    as (a & l1 & l2 & l3 & Heq).
  rewrite Heq in Hpath. exists a. split.
  - destruct l1 as [| n' l1].
    + injection Heq as ->. apply rt_refl.
    + injection Heq as -> _. apply clos_t_clos_rt.
      eapply is_path_reaches; [exact Hpath | apply in_elt].
  - apply is_path_app_r in Hpath.
    eapply is_path_reaches; [exact Hpath | apply in_elt].
Qed.

End Walk.

Section OrderFacts.

Variable graph : DependencyGraph.
Variable order : list string.
Hypothesis order_nodup : NoDup order.
Hypothesis order_before :
  forall before n after,
    order = before ++ n :: after ->
    forall d, depends_on graph n d -> In d before.

Lemma order_before_trans m x :
  clos_trans string (depends_on graph) m x ->
  forall before after, order = before ++ m :: after -> In x before.
Proof.
  induction 1 as [m x Hstep | m y x _ IH1 _ IH2]; intros before after Heq.
  - eapply order_before; eassumption.
  - specialize (IH1 before after Heq).
    apply in_split in IH1 as (b1 & b2 & ->).
    rewrite <- app_assoc in Heq. simpl in Heq.
    apply in_or_app. left. eapply IH2. exact Heq.
Qed.

Lemma cycle_not_ordered m : on_cycle graph m -> ~ In m order.
Proof.
  intros Hcycle Hin. apply in_split in Hin as (before & after & Heq).
  pose proof (order_before_trans m m Hcycle before after Heq) as Hb.
  rewrite Heq in order_nodup. apply NoDup_remove_2 in order_nodup.
  apply order_nodup. apply in_or_app. now left.
Qed.

Lemma ordered_closed n d : In n order -> depends_on graph n d -> In d order.
Proof.
  intros Hin Hd. apply in_split in Hin as (before & after & Heq).
  rewrite Heq. apply in_or_app. left. eapply order_before; eassumption.
Qed.

Lemma ordered_reach n m :
  clos_refl_trans string (depends_on graph) n m -> In n order -> In m order.
Proof.
  induction 1 as [n m Hstep | n | n y m _ IH1 _ IH2]; intro Hin.
  - eapply ordered_closed; eassumption.
  - assumption.
  - auto.
Qed.

Lemma reaches_cycle_not_ordered n : reaches_cycle graph n -> ~ In n order.
Proof.
  intros (m & Hreach & Hcycle) Hin.
  apply (cycle_not_ordered m Hcycle). eapply ordered_reach; eassumption.
Qed.

End OrderFacts.

Lemma topological_order_acyclic (graph : DependencyGraph) order :
  graph_wf graph -> topological_order graph order -> acyclic graph.
Proof.
  intros Hwf (Hnd & Hall & Hbefore) n Hcycle.
  apply (cycle_not_ordered graph order Hnd Hbefore n Hcycle).
  apply Hall. destruct (clos_trans_first_step graph n n Hcycle) as [c Hc].
  now apply (depends_on_node graph Hwf n c).
Qed.

Lemma ordered_from_NoDup (graph : DependencyGraph) order :
  forall seen, NoDup seen -> ordered_from graph seen order = true ->
               NoDup (seen ++ order).
Proof.
  induction order as [| n rest IH]; intros seen Hseen H.
  - now rewrite app_nil_r.
  - cbn [ordered_from] in H.
    apply andb_true_iff in H as [H Hrest]. apply andb_true_iff in H as [Hn _].
    apply negb_true_iff, JsSet_has_not_In in Hn.
    specialize (IH (seen ++ [n])). rewrite <- app_assoc in IH. apply IH.
    + apply NoDup_app; [assumption | repeat constructor; intros [] |].
      intros a Ha [<- | []]. contradiction.
    + exact Hrest.
Qed.

Lemma ordered_from_before (graph : DependencyGraph) order :
  forall seen, ordered_from graph seen order = true ->
    forall before n after,
      order = before ++ n :: after ->
      forall d, depends_on graph n d -> In d (seen ++ before).
Proof.
  induction order as [| x rest IH]; intros seen H before n after Heq d Hd.
  - destruct before; discriminate.
  - cbn [ordered_from] in H.
    apply andb_true_iff in H as [H Hrest]. apply andb_true_iff in H as [_ Hdeps].
    destruct before as [| b before]; simpl in Heq; injection Heq as <- ->.
    + rewrite app_nil_r. rewrite forallb_forall in Hdeps.
      apply JsSet_has_In. now apply Hdeps.
    + specialize (IH (seen ++ [x]) Hrest before n after eq_refl d Hd).
      now rewrite <- app_assoc in IH.
Qed.

Lemma is_topological_order_sound (graph : DependencyGraph) order :
  is_topological_order graph order = true -> topological_order graph order.
Proof.
  unfold is_topological_order. intro H.
  apply andb_true_iff in H as [H Hsub]. apply andb_true_iff in H as [Hord Hall].
  rewrite forallb_forall in Hsub, Hall.
  split; [| split].
  - apply (ordered_from_NoDup graph order [] (NoDup_nil _) Hord).
  - intro n. split; intro Hn.
    + apply JsSet_has_In. now apply Hsub.
    + apply JsSet_has_In. now apply Hall.
  - intros before n after Heq d Hd.
    apply (ordered_from_before graph order [] Hord before n after Heq d Hd).
Qed.

Lemma remaining_In (partial K : list string) n :
  In n (filter (fun n => negb (JsSet.has partial n)) K)
  <-> In n K /\ ~ In n partial.
Proof.
  rewrite filter_In, negb_true_iff, JsSet_has_not_In. tauto.
Qed.

Lemma on_cycle_node (graph : DependencyGraph) n :
  graph_wf graph -> on_cycle graph n -> In n (JsMap.keys (nodes graph)).
Proof.
  intros Hwf Hcycle. destruct (clos_trans_first_step graph n n Hcycle) as [c Hc].
  now apply (depends_on_node graph Hwf n c).
Qed.

(** The nodes Kahn's loop leaves out are exactly the ones that reach a
    cycle. *)
Lemma kahn_result_complete (graph : DependencyGraph) :
  graph_wf graph ->
  exists partial,
    kahn_result graph = Return partial
    /\ NoDup partial
    /\ incl partial (JsMap.keys (nodes graph))
    /\ (forall before n after,
           partial = before ++ n :: after ->
           forall d, depends_on graph n d -> In d before)
    /\ (forall n, In n (JsMap.keys (nodes graph)) ->
                  ~ In n partial <-> reaches_cycle graph n).
Proof.
  intro Hwf.
  destruct (kahn_result_spec graph Hwf) as (partial & Hrun & Hnd & Hiff & Horder).
  exists partial. repeat split; try assumption.
  - intros n Hn. now apply Hiff in Hn.
  - intro Hnot.
    apply (stuck_reaches_cycle graph
             (fun n => In n (JsMap.keys (nodes graph)) /\ ~ In n partial)
             (JsMap.keys (nodes graph))); [tauto | | tauto].
    intros m [Hm Hmnot].
    destruct (pending graph partial m) as [| d rest] eqn:Hp.
    + exfalso. apply Hmnot, Hiff. split; [assumption |].
      now apply pending_nil_iff.
    + assert (Hd : In d (pending graph partial m)) by (rewrite Hp; now left).
      apply filter_In in Hd as [Hd Hdnot].
      apply negb_true_iff, JsSet_has_not_In in Hdnot.
      exists d. repeat split; try assumption.
      now apply (depends_on_node graph Hwf m d).
  - now apply reaches_cycle_not_ordered.
Qed.

Lemma topologicalSort_unfold (graph : DependencyGraph) partial :
  kahn_result graph = Return partial ->
  topologicalSort graph
  = if negb (Nat.eqb (length partial) (JsMap.size (nodes graph)))
    then Throw (CircularDependency
                  (filter (fun n => negb (JsSet.has partial n))
                          (JsMap.keys (nodes graph))))
    else Return partial.
Proof. intro H. unfold topologicalSort. now rewrite H. Qed.

Lemma topologicalSort_sound (graph : DependencyGraph) order :
  graph_wf graph ->
  topologicalSort graph = Return order ->
  topological_order graph order.
Proof.
  intros Hwf Hsort.
  destruct (kahn_result_complete graph Hwf)
    as (partial & Hrun & Hnd & Hincl & Horder & Hstuck).
  rewrite (topologicalSort_unfold graph partial Hrun) in Hsort.
  destruct (Nat.eqb (length partial) (JsMap.size (nodes graph))) eqn:Hlen;
    [| discriminate].
  injection Hsort as <-. apply Nat.eqb_eq in Hlen.
  split; [assumption |]. split; [| assumption].
  intro n. split; [apply Hincl |].
  apply NoDup_length_incl; try assumption.
  unfold JsMap.size, JsMap.keys in *. rewrite length_map. lia.
Qed.

(** On an acyclic graph Kahn's loop orders every node. *)
Lemma topologicalSort_acyclic (graph : DependencyGraph) :
  graph_wf graph -> acyclic graph ->
  exists order,
    topologicalSort graph = Return order /\ topological_order graph order.
Proof.
  intros Hwf Hacyclic.
  destruct (kahn_result_complete graph Hwf)
    as (partial & Hrun & Hnd & Hincl & Horder & Hstuck).
  pose proof (topologicalSort_unfold graph partial Hrun) as Hsort.
  exists partial.
  assert (Hall : incl (JsMap.keys (nodes graph)) partial).
  { intros n Hn. destruct (in_dec string_dec n partial) as [Hin | Hnot];
      [assumption |].
    apply (Hstuck n Hn) in Hnot as (m & _ & Hcycle).
    now apply Hacyclic in Hcycle. }
  assert (Hlen : length partial = JsMap.size (nodes graph)).
  { unfold JsMap.size. rewrite <- (length_map fst (nodes graph)).
    apply Nat.le_antisymm; apply NoDup_incl_length; try assumption.
    apply (wf_nodes graph Hwf). }
  apply Nat.eqb_eq in Hlen. rewrite Hlen in Hsort. simpl in Hsort.
  split; [assumption |].
  split; [assumption |]. split; [| assumption].
  intro n. split; [apply Hincl | apply Hall].
Qed.

(** A graph whose edges all go down a rank has no cycle. *)
Lemma rank_acyclic (graph : DependencyGraph) (rank : string -> nat) :
  (forall a b, depends_on graph a b -> rank b < rank a) -> acyclic graph.
Proof.
  intros Hrank n Hcycle.
  assert (Hlt : forall a b, clos_trans string (depends_on graph) a b ->
                            rank b < rank a).
  { intros a b H. induction H as [a b H | a b c _ IH1 _ IH2].
    - now apply Hrank.
    - lia. }
  specialize (Hlt n n Hcycle). lia.
Qed.

(** C1. For every acyclic dependency graph [topologicalSort] returns a
    linear ordering of all the nodes in which every node comes after all the
    nodes it depends on; for every graph with a cycle it throws the
    circular-dependency error, whose names are exactly the nodes missing
    from the partial ordering, that is the nodes that could not be ordered
    because they lie on a cycle or depend on one. *)
Theorem topologicalSort_correct (graph : DependencyGraph) :
  graph_wf graph ->
  (acyclic graph ->
   exists order,
     topologicalSort graph = Return order
     /\ topological_order graph order)
  /\ ((exists n, on_cycle graph n) ->
      exists partial remaining,
        kahn_result graph = Return partial
        /\ topologicalSort graph = Throw (CircularDependency remaining)
        /\ remaining <> []
        /\ (forall n, In n remaining
                      <-> In n (JsMap.keys (nodes graph)) /\ ~ In n partial)
        /\ (forall n, In n remaining
                      <-> In n (JsMap.keys (nodes graph)) /\ reaches_cycle graph n)
        /\ message (CircularDependency remaining)
           = ("Circular dependency detected involving: "
                ++ join ", " remaining)%string).
Proof.
  intro Hwf.
  destruct (kahn_result_complete graph Hwf)
    as (partial & Hrun & Hnd & Hincl & Horder & Hstuck).
  pose proof (topologicalSort_unfold graph partial Hrun) as Hsort.
  split.
  - intro Hacyclic. now apply topologicalSort_acyclic.
  - intros [m Hcycle].
    pose proof (on_cycle_node graph m Hwf Hcycle) as Hm.
    assert (Hmnot : ~ In m partial).
    { apply (Hstuck m Hm). exists m. split; [apply rt_refl | assumption]. }
    assert (Hlen : Nat.eqb (length partial) (JsMap.size (nodes graph)) = false).
    { apply Nat.eqb_neq. intro Hlen. apply Hmnot.
      apply (NoDup_length_incl (l' := JsMap.keys (nodes graph)) Hnd);
        [| assumption | assumption].
      unfold JsMap.size, JsMap.keys in *. rewrite length_map. lia. }
    rewrite Hlen in Hsort. simpl in Hsort.
    eexists partial, _. split; [assumption |]. split; [exact Hsort |].
    split; [| split; [| split]].
    + intro Hnil.
      assert (Hin : In m (filter (fun n => negb (JsSet.has partial n))
                                 (JsMap.keys (nodes graph))))
        by now apply remaining_In.
      rewrite Hnil in Hin. contradiction.
    + intro n. apply remaining_In.
    + intro n. rewrite remaining_In. split; intros [Hn H]; (split; [assumption |]);
        now apply (Hstuck n Hn).
    + reflexivity.
Qed.

Lemma graph_of_build (packages : JsMap.t PackageInfo) :
  JsMap.wf packages ->
  buildDependencyGraph packages = Return (graph_of packages).
Proof.
  intro Hwf. unfold graph_of.
  destruct (buildDependencyGraph_spec packages Hwf) as (graph & -> & _).
  reflexivity.
Qed.

Lemma graph_of_wf (packages : JsMap.t PackageInfo) :
  JsMap.wf packages -> graph_wf (graph_of packages).
Proof.
  intro Hwf. apply (buildDependencyGraph_wf packages); [assumption |].
  now apply graph_of_build.
Qed.

Lemma is_topological_order_acyclic (graph : DependencyGraph) order :
  graph_wf graph -> is_topological_order graph order = true -> acyclic graph.
Proof.
  intros Hwf H. apply (topological_order_acyclic graph order Hwf).
  now apply is_topological_order_sound.
Qed.

Ltac solve_wf :=
  unfold JsMap.wf; simpl; repeat constructor; simpl; intuition discriminate.

Lemma complex_packages_wf : JsMap.wf complex_packages.
Proof. solve_wf. Qed.

Lemma circular_packages_wf : JsMap.wf circular_packages.
Proof. solve_wf. Qed.

Lemma stuck_packages_wf : JsMap.wf stuck_packages.
Proof. solve_wf. Qed.

Lemma topologicalSort_correct_witness :
  graph_wf (graph_of complex_packages)
  /\ acyclic (graph_of complex_packages)
  /\ (exists order,
         topologicalSort (graph_of complex_packages) = Return order
         /\ topological_order (graph_of complex_packages) order)
  /\ graph_wf (graph_of stuck_packages)
  /\ (exists n, on_cycle (graph_of stuck_packages) n)
  /\ topologicalSort (graph_of stuck_packages)
     = Throw (CircularDependency ["a"; "b"; "c"]).
Proof.
  pose proof (graph_of_wf complex_packages complex_packages_wf) as Hwf1.
  pose proof (graph_of_wf stuck_packages stuck_packages_wf) as Hwf2.
  assert (Hacyclic : acyclic (graph_of complex_packages)).
  { apply (is_topological_order_acyclic _
             ["core"; "utils"; "lib-a"; "lib-b"; "app"] Hwf1).
    vm_compute. reflexivity. }
  assert (Hcycle : exists n, on_cycle (graph_of stuck_packages) n).
  { exists "b". apply t_trans with "c"; apply t_step; vm_compute; tauto. }
  destruct (topologicalSort_correct (graph_of complex_packages) Hwf1) as [Hsorted _].
  destruct (topologicalSort_correct (graph_of stuck_packages) Hwf2) as [_ Hthrown].
  destruct (Hthrown Hcycle) as (partial & remaining & _ & Hthrow & _).
  split; [exact Hwf1 |]. split; [exact Hacyclic |].
  split; [exact (Hsorted Hacyclic) |].
  split; [exact Hwf2 |]. split; [exact Hcycle |].
  vm_compute. reflexivity.
Defined.

(** C7. [buildDependencyGraph] never fails; it adds the forward edge from a
    package to a declared dependency exactly when that name is a key of the
    input set; the forward and reverse adjacency maps are transposes of each
    other and are keyed like the node map; every name in a value set of
    either map is a key of the node map; the empty input gives the empty
    graph. *)
Theorem buildDependencyGraph_invariants (packages : JsMap.t PackageInfo) :
  JsMap.wf packages ->
  (exists graph,
      buildDependencyGraph packages = Return graph
      /\ nodes graph = packages
      /\ JsMap.keys (edges graph) = JsMap.keys packages
      /\ JsMap.keys (reverseEdges graph) = JsMap.keys packages
      /\ (forall a b,
             In b (adjacent (edges graph) a)
             <-> exists pkg, JsMap.get a packages = Some pkg
                             /\ In b (workspaceDeps pkg)
                             /\ JsMap.has packages b = true)
      /\ (forall a b,
             In b (adjacent (edges graph) a)
             <-> In a (adjacent (reverseEdges graph) b))
      /\ (forall a b,
             In b (adjacent (edges graph) a) ->
             In b (JsMap.keys (nodes graph)))
      /\ (forall a b,
             In a (adjacent (reverseEdges graph) b) ->
             In a (JsMap.keys (nodes graph))))
  /\ buildDependencyGraph JsMap.empty = Return (mkGraph [] [] []).
Proof.
  intro Hwf. split; [| reflexivity].
  destruct (buildDependencyGraph_spec packages Hwf)
    as (graph & Hbuild & Hnodes & He & Hr & Hf & Hb & _ & _).
  simpl in *. exists graph. rewrite Hnodes. repeat split; try assumption.
  - intro H. apply Hf in H as (pkg & Hget & Hdep & Hkey).
    exists pkg. repeat split; try assumption. now apply JsMap_has_In_keys.
  - intros (pkg & Hget & Hdep & Hkey). apply Hf. exists pkg.
    repeat split; try assumption. now apply JsMap_has_In_keys.
  - intro H. now apply Hb, Hf.
  - intro H. now apply Hf, Hb.
  - intros a b H. apply Hf in H as (pkg & _ & _ & Hkey). exact Hkey.
  - intros a b H. apply Hb in H as (pkg & Hget & _).
    now apply JsMap_get_In_keys in Hget.
Qed.

Lemma buildDependencyGraph_invariants_witness :
  JsMap.wf complex_packages
  /\ buildDependencyGraph complex_packages
     = Return
         (mkGraph complex_packages
            [("core", []); ("utils", []); ("lib-a", ["core"]);
             ("lib-b", ["core"; "utils"]); ("app", ["lib-a"; "lib-b"])]
            [("core", ["lib-a"; "lib-b"]); ("utils", ["lib-b"]);
             ("lib-a", ["app"]); ("lib-b", ["app"]); ("app", [])])
  /\ (forall a b,
         In b (adjacent (edges (graph_of complex_packages)) a)
         <-> In a (adjacent (reverseEdges (graph_of complex_packages)) b)).
Proof.
  split; [exact complex_packages_wf |]. split; [reflexivity |].
  destruct (buildDependencyGraph_invariants complex_packages complex_packages_wf)
    as [(graph & Hbuild & _ & _ & _ & _ & Htranspose & _) _].
  unfold graph_of. rewrite Hbuild. exact Htranspose.
Defined.

(** ** getBuildLayers *)

Lemma layer_index_Some (layers : list (list string)) p :
  forall i, layer_index layers p = Some i ->
            In p (concat layers) /\ i < length layers.
Proof.
  induction layers as [| layer layers IH]; intros i H; simpl in *; [discriminate |].
  destruct (JsSet.has layer p) eqn:E.
  - injection H as <-. apply JsSet_has_In in E. split; [| lia].
    apply in_or_app. now left.
  - destruct (layer_index layers p) as [k |]; [| discriminate].
    injection H as <-. destruct (IH k eq_refl) as [Hin Hlt].
    split; [apply in_or_app; now right | lia].
Qed.

Lemma layer_index_In (layers : list (list string)) p :
  In p (concat layers) -> exists i, layer_index layers p = Some i.
Proof.
  induction layers as [| layer layers IH]; simpl; [contradiction |].
  intro H. destruct (JsSet.has layer p) eqn:E; [now exists 0 |].
  apply JsSet_has_not_In in E. apply in_app_or in H as [H | H]; [contradiction |].
  destruct (IH H) as [i ->]. now exists (S i).
Qed.

Lemma layer_index_None (layers : list (list string)) p :
  ~ In p (concat layers) -> layer_index layers p = None.
Proof.
  intro H. destruct (layer_index layers p) as [i |] eqn:E; [| reflexivity].
  apply layer_index_Some in E as [Hin _]. contradiction.
Qed.

Lemma layer_index_snoc (layers : list (list string)) layer p :
  layer_index (layers ++ [layer]) p
  = match layer_index layers p with
    | Some i => Some i
    | None => if JsSet.has layer p then Some (length layers) else None
    end.
Proof.
  induction layers as [| l layers IH]; simpl.
  - now destruct (JsSet.has layer p).
  - destruct (JsSet.has l p); [reflexivity |].
    rewrite IH. destruct (layer_index layers p); [reflexivity |].
    now destruct (JsSet.has layer p).
Qed.

Lemma expected_layer_Some (layers : list (list string)) deps :
  forall j, expected_layer layers deps = Some j ->
            forall d, In d deps ->
                      exists i, layer_index layers d = Some i /\ i < j.
Proof.
  induction deps as [| x deps IH]; intros j H d Hd; [contradiction |].
  cbn [expected_layer] in H.
  destruct (layer_index layers x) as [i |] eqn:Ex; [| discriminate].
  destruct (expected_layer layers deps) as [k |] eqn:Ek; [| discriminate].
  assert (Hj : Nat.max (S i) k = j) by (injection H; trivial).
  clear H. subst j.
  pose proof (Nat.le_max_l (S i) k). pose proof (Nat.le_max_r (S i) k).
  destruct Hd as [<- | Hd].
  - exists i. split; [assumption | lia].
  - destruct (IH k eq_refl d Hd) as (i' & Hi' & Hlt).
    exists i'. split; [assumption | lia].
Qed.

Lemma expected_layer_defined (layers : list (list string)) deps :
  (forall d, In d deps -> In d (concat layers)) ->
  exists j, expected_layer layers deps = Some j /\ j <= length layers.
Proof.
  induction deps as [| x deps IH]; intro H; cbn [expected_layer].
  - exists 0. split; [reflexivity | lia].
  - destruct (layer_index_In layers x (H x (or_introl eq_refl))) as [i Hi].
    destruct (IH (fun d Hd => H d (or_intror Hd))) as (k & -> & Hk).
    rewrite Hi. apply layer_index_Some in Hi as [_ Hlt].
    eexists. split; [reflexivity | apply Nat.max_lub; lia].
Qed.

Lemma expected_layer_snoc (layers : list (list string)) layer deps :
  (forall d, In d deps -> In d (concat layers)) ->
  expected_layer (layers ++ [layer]) deps = expected_layer layers deps.
Proof.
  induction deps as [| x deps IH]; intro H; cbn [expected_layer]; [reflexivity |].
  rewrite IH by (intros d Hd; apply H; now right).
  rewrite layer_index_snoc.
  destruct (layer_index_In layers x (H x (or_introl eq_refl))) as [i ->].
  reflexivity.
Qed.

Lemma expected_layer_zero (layers : list (list string)) deps :
  expected_layer layers deps = Some 0 -> deps = [].
Proof.
  destruct deps as [| x deps]; [reflexivity |]. cbn [expected_layer].
  destruct (layer_index layers x); [| discriminate].
  destruct (expected_layer layers deps); [| discriminate].
  intro H. assert (Hj : Nat.max (S n) n0 = 0) by (injection H; trivial).
  pose proof (Nat.le_max_l (S n) n0). lia.
Qed.

Lemma layer_count_unique (layers : list (list string)) p :
  NoDup (concat layers) -> In p (concat layers) -> layer_count layers p = 1.
Proof.
  unfold layer_count.
  induction layers as [| layer layers IH]; simpl; [contradiction |].
  intros Hnd Hin. destruct (JsSet.has layer p) eqn:E.
  - apply JsSet_has_In in E. simpl. f_equal.
    apply length_zero_iff_nil.
    destruct (filter (fun l => JsSet.has l p) layers) as [| l rest] eqn:Hf;
      [reflexivity | exfalso].
    assert (Hl : In l (filter (fun l => JsSet.has l p) layers))
      by (rewrite Hf; now left).
    apply filter_In in Hl as [Hl Hp]. apply JsSet_has_In in Hp.
    assert (Hc : In p (concat layers)).
    { apply in_concat. now exists l. }
    clear - Hnd E Hc. induction layer as [| x layer IHl]; [contradiction |].
    simpl in Hnd. inversion Hnd as [| ? ? Hx Hnd']; subst.
    destruct E as [-> | E]; [| now apply IHl].
    apply Hx. apply in_or_app. now right.
  - apply JsSet_has_not_In in E.
    apply in_app_or in Hin as [Hin | Hin]; [contradiction |].
    apply IH; [| assumption]. now apply NoDup_app_remove_l in Hnd.
Qed.

Lemma layer_count_absent (layers : list (list string)) p :
  ~ In p (concat layers) -> layer_count layers p = 0.
Proof.
  unfold layer_count. intro H. apply length_zero_iff_nil.
  destruct (filter (fun l => JsSet.has l p) layers) as [| l rest] eqn:Hf;
    [reflexivity | exfalso].
  assert (Hl : In l (filter (fun l => JsSet.has l p) layers))
    by (rewrite Hf; now left).
  apply filter_In in Hl as [Hl Hp]. apply JsSet_has_In in Hp.
  apply H, in_concat. now exists l.
Qed.

Lemma scan_layer_In (sortedPackages : list string) (graph : DependencyGraph)
  (assigned : JsSet.t) p :
  In p (scan_layer sortedPackages graph assigned)
  <-> In p sortedPackages
      /\ ~ In p assigned
      /\ forall d, depends_on graph p d -> In d assigned.
Proof.
  unfold scan_layer, depends_on.
  rewrite filter_In, andb_true_iff, negb_true_iff, JsSet_has_not_In,
    forallb_forall.
  split; intros (H1 & H2 & H3); repeat split; try assumption;
    intros d Hd; apply JsSet_has_In; now apply H3.
Qed.

Lemma forallb_false_exists {A : Type} (f : A -> bool) (l : list A) :
  forallb f l = false -> exists x, In x l /\ f x = false.
Proof.
  induction l as [| x l IH]; simpl; [discriminate |].
  destruct (f x) eqn:E.
  - intro H. destruct (IH H) as (y & Hy & Hfy). exists y. tauto.
  - intros _. exists x. tauto.
Qed.

Lemma first_failing {A : Type} (f : A -> bool) (l : list A) :
  forallb f l = true
  \/ exists before x after,
      l = before ++ x :: after /\ f x = false /\ forallb f before = true.
Proof.
  induction l as [| y l IH]; simpl; [now left |].
  destruct (f y) eqn:E.
  - destruct IH as [-> | (before & x & after & -> & Hx & Hb)]; [now left |].
    right. exists (y :: before), x, after. simpl. rewrite E. auto.
  - right. exists [], y, l. auto.
Qed.

Section Layering.

Variable graph : DependencyGraph.
Variable sortedPackages : list string.
Hypothesis sorted_nodup : NoDup sortedPackages.
Hypothesis sorted_before :
  forall before n after,
    sortedPackages = before ++ n :: after ->
    forall d, depends_on graph n d -> In d before.

(** Every pass makes progress: the first package that is not assigned yet
    has all its dependencies before it, hence assigned. *)
Lemma scan_layer_progress (assigned : JsSet.t) :
  incl assigned sortedPackages ->
  JsSet.size assigned < length sortedPackages ->
  scan_layer sortedPackages graph assigned <> [].
Proof.
  intros Hincl Hsize Hnil.
  destruct (first_failing (JsSet.has assigned) sortedPackages)
    as [Hall | (before & p & after & Heq & Hp & Hbefore)].
  - rewrite forallb_forall in Hall.
    assert (Hle : length sortedPackages <= length assigned).
    { apply NoDup_incl_length; [assumption |].
      intros x Hx. apply JsSet_has_In. now apply Hall. }
    unfold JsSet.size in Hsize. lia.
  - assert (Hin : In p (scan_layer sortedPackages graph assigned)).
    { apply scan_layer_In. split; [rewrite Heq; apply in_elt |].
      split; [now apply JsSet_has_not_In |].
      intros d Hd. rewrite forallb_forall in Hbefore.
      apply JsSet_has_In, Hbefore. eapply sorted_before; eassumption. }
    rewrite Hnil in Hin. contradiction.
Qed.

Lemma layering_inv_init : layering_inv sortedPackages graph [] JsSet.empty.
Proof.
  constructor; simpl; try tauto.
  - constructor.
  - intros x [].
  - constructor.
  - discriminate.
  - intros; lia.
Qed.

Lemma layering_inv_step layers assigned :
  layering_inv sortedPackages graph layers assigned ->
  scan_layer sortedPackages graph assigned <> [] ->
  layering_inv sortedPackages graph
    (layers ++ [scan_layer sortedPackages graph assigned])
    (fold_left (fun s pkg => JsSet.add pkg s)
               (scan_layer sortedPackages graph assigned) assigned).
Proof.
  intros [Hnd Hincl Hmem Hdisj Hne Hidx Hwait] Hprogress.
  set (layer := scan_layer sortedPackages graph assigned) in *.
  assert (Hlayer : forall p, In p layer
                             <-> In p sortedPackages /\ ~ In p assigned
                                 /\ forall d, depends_on graph p d -> In d assigned)
    by (intro p; apply scan_layer_In).
  assert (Hconcat : forall p, In p (concat (layers ++ [layer]))
                              <-> In p (concat layers) \/ In p layer).
  { intro p. rewrite concat_app, in_app_iff. simpl. now rewrite app_nil_r. }
  constructor.
  - now apply JsSet_add_all_NoDup.
  - intros p Hp. apply JsSet_add_all_In in Hp as [Hp | Hp]; [now apply Hincl |].
    now apply Hlayer in Hp.
  - intro p. now rewrite JsSet_add_all_In, Hconcat, Hmem.
  - rewrite concat_app. simpl. rewrite app_nil_r.
    apply NoDup_app; [assumption | now apply NoDup_filter |].
    intros p Hp Hpl. apply Hmem in Hp. apply Hlayer in Hpl. tauto.
  - intros l Hl. apply in_app_or in Hl as [Hl | [<- | []]]; [now apply Hne | assumption].
  - intros p i Hi. rewrite layer_index_snoc in Hi.
    destruct (layer_index layers p) as [i' |] eqn:Eold.
    + injection Hi as <-. pose proof (Hidx p i' Eold) as Hexp.
      rewrite expected_layer_snoc; [assumption |].
      intros d Hd. destruct (expected_layer_Some _ _ _ Hexp d Hd) as (k & Hk & _).
      now apply layer_index_Some in Hk.
    + destruct (JsSet.has layer p) eqn:Ein; [| discriminate].
      injection Hi as <-. apply JsSet_has_In, Hlayer in Ein as (Hs & Hna & Hdeps).
      assert (Hall : forall d, In d (adjacent (edges graph) p) -> In d (concat layers)).
      { intros d Hd. apply Hmem. now apply Hdeps. }
      rewrite expected_layer_snoc by assumption.
      destruct (expected_layer_defined layers _ Hall) as (j & Hj & Hle).
      rewrite Hj. f_equal. pose proof (Hwait p j Hs Hna Hj). lia.
  - intros p j Hs Hna Hexp. rewrite JsSet_add_all_In in Hna.
    assert (Hnl : ~ In p layer) by tauto.
    assert (Hnold : ~ In p assigned) by tauto.
    rewrite length_app. simpl.
    unfold layer, scan_layer in Hnl. rewrite filter_In in Hnl.
    destruct (forallb (fun dep => JsSet.has assigned dep)
                      (adjacent (edges graph) p)) eqn:Eall.
    + exfalso. apply Hnl. split; [assumption |].
      apply JsSet_has_not_In in Hnold. now rewrite Hnold.
    + apply forallb_false_exists in Eall as (d & Hd & Hdna).
      apply JsSet_has_not_In in Hdna.
      destruct (expected_layer_Some _ _ _ Hexp d Hd) as (k & Hk & Hlt).
      rewrite layer_index_snoc in Hk.
      rewrite (layer_index_None layers d) in Hk by (now rewrite <- Hmem).
      destruct (JsSet.has layer d); [| discriminate].
      injection Hk as <-. lia.
Qed.

Lemma layering_ends fuel :
  forall layers assigned,
    layering_inv sortedPackages graph layers assigned ->
    length sortedPackages <= fuel + length assigned ->
    exists layers' assigned',
      layering fuel sortedPackages graph layers assigned = Return layers'
      /\ layering_inv sortedPackages graph layers' assigned'
      /\ length sortedPackages <= length assigned'.
Proof.
  induction fuel as [| fuel IH]; intros layers assigned Hinv Hfuel.
  - exists layers, assigned. simpl.
    destruct (Nat.ltb_spec (JsSet.size assigned) (length sortedPackages)) as [Hlt | Hge].
    + unfold JsSet.size in Hlt. lia.
    + auto.
  - cbn [layering].
    destruct (Nat.ltb_spec (JsSet.size assigned) (length sortedPackages)) as [Hlt | Hge].
    + pose proof (scan_layer_progress assigned (li_incl _ _ _ _ Hinv) Hlt) as Hprog.
      pose proof (layering_inv_step layers assigned Hinv Hprog) as Hstep.
      destruct (scan_layer sortedPackages graph assigned) as [| p layer] eqn:Elayer;
        [contradiction |].
      apply IH; [assumption |].
      assert (Hgrow : length assigned
                      < length (fold_left (fun s pkg => JsSet.add pkg s)
                                          (p :: layer) assigned)).
      { assert (Hp : In p (scan_layer sortedPackages graph assigned))
          by (rewrite Elayer; now left).
        apply scan_layer_In in Hp as (_ & Hpna & _).
        assert (Hle : length (p :: assigned)
                      <= length (fold_left (fun s pkg => JsSet.add pkg s)
                                           (p :: layer) assigned)).
        { apply NoDup_incl_length.
          - constructor; [assumption | apply (li_nodup _ _ _ _ Hinv)].
          - intros x [<- | Hx]; apply JsSet_add_all_In; [right; now left | now left]. }
        cbn [length] in Hle. lia. }
      lia.
    + exists layers, assigned. unfold JsSet.size in Hge. auto.
Qed.

(** [getBuildLayers] returns, and its result satisfies the loop invariant
    with every package of the ordering assigned. *)
Lemma getBuildLayers_spec :
  exists layers assigned,
    getBuildLayers sortedPackages graph = Return layers
    /\ layering_inv sortedPackages graph layers assigned
    /\ forall p, In p sortedPackages -> In p (concat layers).
Proof.
  destruct (layering_ends (length sortedPackages) [] JsSet.empty
              layering_inv_init) as (layers & assigned & Hrun & Hinv & Hlen).
  { simpl. lia. }
  exists layers, assigned. split; [exact Hrun |]. split; [exact Hinv |].
  intros p Hp. apply (li_members _ _ _ _ Hinv).
  apply (NoDup_length_incl (l' := sortedPackages) (li_nodup _ _ _ _ Hinv));
    [assumption | apply (li_incl _ _ _ _ Hinv) | assumption].
Qed.

End Layering.

Lemma layer_index_zero (layers : list (list string)) p :
  layer_index layers p = Some 0 <-> In p (nth 0 layers []).
Proof.
  destruct layers as [| layer layers]; simpl.
  - split; [discriminate | contradiction].
  - rewrite <- JsSet_has_In. destruct (JsSet.has layer p).
    + tauto.
    + destruct (layer_index layers p); simpl; split; discriminate.
Qed.

(** C2. Given a topological ordering of the graph, [getBuildLayers] puts
    every package in exactly one layer; the index of that layer is one more
    than the largest layer index of the package's direct dependencies, and
    zero when it has none; so the first layer holds exactly the packages
    without dependencies, and every dependency of a package of layer [i] is
    in a layer [j < i]. *)
Theorem getBuildLayers_layer_index (graph : DependencyGraph)
  (sortedPackages : list string) :
  topological_order graph sortedPackages ->
  exists layers,
    getBuildLayers sortedPackages graph = Return layers
    /\ (forall p, In p (JsMap.keys (nodes graph)) -> layer_count layers p = 1)
    /\ (forall p, ~ In p (JsMap.keys (nodes graph)) -> layer_count layers p = 0)
    /\ (forall p, In p (JsMap.keys (nodes graph)) ->
                  exists i,
                    layer_index layers p = Some i
                    /\ expected_layer layers (adjacent (edges graph) p) = Some i)
    /\ (forall p, In p (nth 0 layers [])
                  <-> In p (JsMap.keys (nodes graph))
                      /\ adjacent (edges graph) p = [])
    /\ (forall p d i,
           layer_index layers p = Some i ->
           depends_on graph p d ->
           exists j, layer_index layers d = Some j /\ j < i).
Proof.
  intros (Hnd & Hall & Hbefore).
  destruct (getBuildLayers_spec graph sortedPackages Hnd Hbefore)
    as (layers & assigned & Hrun & Hinv & Hcover).
  destruct Hinv as [Hand Hincl Hmem Hdisj Hne Hidx Hwait].
  assert (Hindex : forall p, In p (JsMap.keys (nodes graph)) ->
            exists i, layer_index layers p = Some i
                      /\ expected_layer layers (adjacent (edges graph) p) = Some i).
  { intros p Hp. apply Hall, Hcover, layer_index_In in Hp as [i Hi].
    exists i. split; [assumption | now apply Hidx]. }
  exists layers. split; [exact Hrun |].
  split; [| split; [| split; [| split]]].
  - intros p Hp. apply layer_count_unique; [assumption |]. now apply Hcover, Hall.
  - intros p Hp. apply layer_count_absent. intro Hin. apply Hp, Hall, Hincl.
    now apply Hmem.
  - exact Hindex.
  - intro p. rewrite <- layer_index_zero. split.
    + intro Hi. split.
      * apply layer_index_Some in Hi as [Hin _]. now apply Hall, Hincl, Hmem.
      * apply Hidx in Hi. now apply expected_layer_zero in Hi.
    + intros [Hp Hnone]. destruct (Hindex p Hp) as (i & Hi & Hexp).
      rewrite Hnone in Hexp. simpl in Hexp. congruence.
  - intros p d i Hi Hd. apply Hidx in Hi.
    exact (expected_layer_Some _ _ _ Hi d Hd).
Qed.

Lemma complex_sorted :
  topological_order (graph_of complex_packages)
                    ["core"; "utils"; "lib-a"; "lib-b"; "app"].
Proof. apply is_topological_order_sound. vm_compute. reflexivity. Qed.

Lemma getBuildLayers_layer_index_witness :
  topological_order (graph_of complex_packages)
                    ["core"; "utils"; "lib-a"; "lib-b"; "app"]
  /\ getBuildLayers ["core"; "utils"; "lib-a"; "lib-b"; "app"]
                    (graph_of complex_packages)
     = Return [["core"; "utils"]; ["lib-a"; "lib-b"]; ["app"]]
  /\ exists layers,
      getBuildLayers ["core"; "utils"; "lib-a"; "lib-b"; "app"]
                     (graph_of complex_packages) = Return layers
      /\ forall p, In p (nth 0 layers [])
                   <-> In p (JsMap.keys (nodes (graph_of complex_packages)))
                       /\ adjacent (edges (graph_of complex_packages)) p = [].
Proof.
  split; [exact complex_sorted |]. split; [vm_compute; reflexivity |].
  destruct (getBuildLayers_layer_index (graph_of complex_packages)
              ["core"; "utils"; "lib-a"; "lib-b"; "app"] complex_sorted)
    as (layers & Hrun & _ & _ & _ & Hzero & _).
  exists layers. split; [exact Hrun | exact Hzero].
Defined.

(** C9. When the ordering passed to [getBuildLayers] is a topological
    order of the graph, every scan pass assigns at least one package, so
    the no-progress branch is never taken: the function returns, and every
    layer it returns is non-empty. *)
Theorem getBuildLayers_makes_progress (graph : DependencyGraph)
  (sortedPackages : list string) :
  topological_order graph sortedPackages ->
  (forall assigned,
      incl assigned sortedPackages ->
      JsSet.size assigned < length sortedPackages ->
      scan_layer sortedPackages graph assigned <> [])
  /\ (exists layers,
         getBuildLayers sortedPackages graph = Return layers
         /\ forall layer, In layer layers -> layer <> [])
  /\ getBuildLayers sortedPackages graph <> Throw CouldNotMakeProgress.
Proof.
  intros (Hnd & Hall & Hbefore).
  destruct (getBuildLayers_spec graph sortedPackages Hnd Hbefore)
    as (layers & assigned & Hrun & Hinv & _).
  split; [| split].
  - intros assigned'. now apply scan_layer_progress.
  - exists layers. split; [exact Hrun | apply (li_nonempty _ _ _ _ Hinv)].
  - rewrite Hrun. discriminate.
Qed.

Lemma diamond_sorted :
  topological_order (graph_of (packages_of [("B", ["D"]); ("D", []); ("C", ["D"])]))
                    ["D"; "B"; "C"].
Proof. apply is_topological_order_sound. vm_compute. reflexivity. Qed.

Lemma getBuildLayers_makes_progress_witness :
  topological_order (graph_of (packages_of [("B", ["D"]); ("D", []); ("C", ["D"])]))
                    ["D"; "B"; "C"]
  /\ scan_layer ["D"; "B"; "C"]
                (graph_of (packages_of [("B", ["D"]); ("D", []); ("C", ["D"])]))
                ["D"] <> []
  /\ getBuildLayers ["D"; "B"; "C"]
                    (graph_of (packages_of [("B", ["D"]); ("D", []); ("C", ["D"])]))
     <> Throw CouldNotMakeProgress.
Proof.
  split; [exact diamond_sorted |].
  destruct (getBuildLayers_makes_progress _ _ diamond_sorted) as (Hscan & _ & Hok).
  split; [| exact Hok].
  apply Hscan.
  - intros x [<- | []]. now left.
  - simpl. lia.
Defined.

(** ** collectDependencies *)

Lemma filter_length_le {A : Type} (f g : A -> bool) (l : list A) :
  (forall x, In x l -> f x = true -> g x = true) ->
  length (filter f l) <= length (filter g l).
Proof.
  induction l as [| x l IH]; intro H; simpl; [lia |].
  assert (IH' : length (filter f l) <= length (filter g l))
    by (apply IH; intros y Hy; apply H; now right).
  destruct (f x) eqn:Ef.
  - rewrite (H x (or_introl eq_refl) Ef). simpl. lia.
  - destruct (g x); simpl; lia.
Qed.

Lemma unvisited_mono (allPackages : JsMap.t PackageInfo) (v v' : JsSet.t) :
  incl v v' ->
  length (unvisited allPackages v') <= length (unvisited allPackages v).
Proof.
  intro Hincl. apply filter_length_le. intros x _.
  rewrite !negb_true_iff, !JsSet_has_not_In. intros Hx Hv. apply Hx. now apply Hincl.
Qed.

Lemma unvisited_add (allPackages : JsMap.t PackageInfo) (v : JsSet.t) n :
  JsMap.wf allPackages ->
  In n (JsMap.keys allPackages) -> ~ In n v ->
  length (unvisited allPackages (JsSet.add n v))
  < length (unvisited allPackages v).
Proof.
  intros Hwf Hn Hnv. unfold unvisited.
  rewrite (filter_drop_present (fun k => negb (JsSet.has v k)) n
             (JsMap.keys allPackages) Hwf Hn)
    by (apply negb_true_iff; now apply JsSet_has_not_In).
  assert (Heq : filter (fun k => negb (JsSet.has (JsSet.add n v) k))
                       (JsMap.keys allPackages)
                = filter (fun d => negb (JsSet.has v d) && negb (String.eqb d n))
                         (JsMap.keys allPackages)).
  { apply filter_ext. intro k. unfold JsSet.add.
    apply JsSet_has_not_In in Hnv. rewrite Hnv.
    now rewrite JsSet_has_snoc, negb_orb. }
  rewrite Heq. lia.
Qed.

Lemma in_closure_incl (allPackages : JsMap.t PackageInfo) roots roots' x :
  incl roots roots' ->
  in_closure allPackages roots x -> in_closure allPackages roots' x.
Proof.
  intros Hincl (d & Hd & Hreach). exists d. split; [now apply Hincl | assumption].
Qed.

Lemma closed_reach (allPackages : JsMap.t PackageInfo) (V : list string) :
  (forall x y, In x V -> declares allPackages x y -> In y V) ->
  forall d n, clos_refl_trans string (declares allPackages) d n ->
              In d V -> In n V.
Proof.
  intros Hclosed d n Hreach.
  induction Hreach as [d n Hstep | d | d m n _ IH1 _ IH2]; intro Hd.
  - eapply Hclosed; eassumption.
  - assumption.
  - auto.
Qed.

Section Collect.

Variable allPackages : JsMap.t PackageInfo.
Hypothesis all_wf : JsMap.wf allPackages.

Lemma collect_step_refl roots st :
  collect_inv allPackages st ->
  incl roots (visited st) ->
  collect_step allPackages roots st st.
Proof.
  intros Hinv Hroots. constructor; try assumption.
  - apply incl_refl.
  - intros x Hx Hnx. contradiction.
  - intros x y Hx Hnx. contradiction.
Qed.

Lemma collect_step_cons d ds st st1 st2 :
  collect_step allPackages [d] st st1 ->
  collect_step allPackages ds st1 st2 ->
  collect_step allPackages (d :: ds) st st2.
Proof.
  intros [_ Hg1 Hr1 Hs1 Hc1] [Hinv2 Hg2 Hr2 Hs2 Hc2]. constructor.
  - assumption.
  - intros x Hx. now apply Hg2, Hg1.
  - intros x [<- | Hx]; [apply Hg2, Hr1; now left | now apply Hr2].
  - intros x Hx Hnx. destruct (in_dec string_dec x (visited st1)) as [H1 | H1].
    + apply (in_closure_incl allPackages [d]); [| now apply Hs1].
      intros y [<- | []]. now left.
    + apply (in_closure_incl allPackages ds); [| now apply Hs2].
      intros y Hy. now right.
  - intros x y Hx Hnx Hxy.
    destruct (in_dec string_dec x (visited st1)) as [H1 | H1].
    + apply Hg2. now apply (Hc1 x y).
    + now apply (Hc2 x y).
Qed.

Lemma collect_list_step (fuel : nat) :
  (forall n st,
      collect_inv allPackages st ->
      length (unvisited allPackages (visited st)) < fuel ->
      exists st', collectRecursive fuel allPackages n st = Return st'
                  /\ collect_step allPackages [n] st st') ->
  forall ds st,
    collect_inv allPackages st ->
    length (unvisited allPackages (visited st)) < fuel ->
    exists st', forM ds (collectRecursive fuel allPackages) st = Return st'
                /\ collect_step allPackages ds st st'.
Proof.
  intros Hone. induction ds as [| d ds IH]; intros st Hinv Hfuel; simpl.
  - exists st. split; [reflexivity |].
    apply collect_step_refl; [assumption | intros x []].
  - destruct (Hone d st Hinv Hfuel) as (st1 & -> & Hstep1). simpl.
    destruct (IH st1 (cs_inv _ _ _ _ Hstep1)) as (st2 & -> & Hstep2).
    + pose proof (unvisited_mono allPackages _ _ (cs_grows _ _ _ _ Hstep1)). lia.
    + exists st2. split; [reflexivity |].
      eapply collect_step_cons; eassumption.
Qed.

Lemma collect_inv_visit st n :
  collect_inv allPackages st ->
  ~ In n (visited st) ->
  JsMap.get n allPackages = None ->
  collect_inv allPackages (mkCollect (JsSet.add n (visited st)) (result st)).
Proof.
  intros [Hwf Hkeys Hvals] Hn Hnone. constructor; simpl; try assumption.
  intro x. rewrite Hkeys, JsSet_add_In. apply JsMap_get_None in Hnone.
  split; [tauto |]. intros [[-> | Hx] Hall]; tauto.
Qed.

Lemma collect_inv_record st n pkg :
  collect_inv allPackages st ->
  ~ In n (visited st) ->
  JsMap.get n allPackages = Some pkg ->
  collect_inv allPackages
    (mkCollect (JsSet.add n (visited st)) (JsMap.set n pkg (result st))).
Proof.
  intros [Hwf Hkeys Hvals] Hn Hsome.
  assert (Hfresh : ~ In n (JsMap.keys (result st))).
  { intro H. apply Hkeys in H. tauto. }
  pose proof (JsMap_get_In_keys _ _ _ Hsome) as Hnall.
  constructor; simpl.
  - unfold JsMap.wf, JsMap.keys in *. rewrite JsMap_set_fresh by assumption.
    rewrite map_app. simpl. apply NoDup_app; [assumption | repeat constructor; intros [] |].
    intros a Ha [<- | []]. contradiction.
  - intro x. rewrite JsMap_set_fresh by assumption.
    unfold JsMap.keys in *. rewrite map_app, in_app_iff, Hkeys, JsSet_add_In. simpl.
    split.
    + intros [[Hx Hall] | [<- | []]]; tauto.
    + intros [[-> | Hx] Hall]; tauto.
  - intros x p. destruct (string_dec n x) as [<- | Hne].
    + rewrite JsMap_get_set_same. congruence.
    + rewrite JsMap_get_set_other by assumption. apply Hvals.
Qed.

(** One call of [collectRecursive] returns when its budget exceeds the
    number of workspace members not visited yet. *)
Lemma collectRecursive_step (fuel : nat) :
  forall n st,
    collect_inv allPackages st ->
    length (unvisited allPackages (visited st)) < fuel ->
    exists st', collectRecursive fuel allPackages n st = Return st'
                /\ collect_step allPackages [n] st st'.
Proof.
  induction fuel as [| fuel IH]; intros n st Hinv Hfuel; [lia |].
  cbn [collectRecursive].
  destruct (JsSet.has (visited st) n) eqn:Hseen.
  - exists st. split; [reflexivity |]. apply JsSet_has_In in Hseen.
    apply collect_step_refl; [assumption |]. intros x [<- | []]. assumption.
  - apply JsSet_has_not_In in Hseen.
    destruct (JsMap.get n allPackages) as [pkg |] eqn:Hget.
    + pose proof (collect_inv_record st n pkg Hinv Hseen Hget) as Hinv2.
      destruct (collect_list_step fuel IH (workspaceDeps pkg) _ Hinv2)
        as (st' & Hrun & [Hinv' Hg Hr Hs Hc]).
      { simpl. pose proof (unvisited_add allPackages (visited st) n all_wf
                             (JsMap_get_In_keys _ _ _ Hget) Hseen). lia. }
      simpl in *. exists st'. split; [exact Hrun |]. constructor.
      * assumption.
      * intros x Hx. apply Hg, JsSet_add_In. now right.
      * intros x [<- | []]. apply Hg, JsSet_add_In. now left.
      * intros x Hx Hnx. destruct (string_dec x n) as [-> | Hne].
        -- exists n. split; [now left | apply rt_refl].
        -- destruct (Hs x Hx) as (d & Hd & Hreach).
           { rewrite JsSet_add_In. tauto. }
           exists n. split; [now left |].
           eapply rt_trans; [apply rt_step | exact Hreach].
           exists pkg. tauto.
      * intros x y Hx Hnx Hxy. destruct (string_dec x n) as [-> | Hne].
        -- destruct Hxy as (pkg' & Hget' & Hy).
           rewrite Hget in Hget'. injection Hget' as <-. now apply Hr.
        -- apply (Hc x y); try assumption. rewrite JsSet_add_In. tauto.
    + exists (mkCollect (JsSet.add n (visited st)) (result st)).
      split; [reflexivity |]. constructor; simpl.
      * now apply collect_inv_visit.
      * intros x Hx. apply JsSet_add_In. now right.
      * intros x [<- | []]. apply JsSet_add_In. now left.
      * intros x Hx Hnx. apply JsSet_add_In in Hx as [-> | Hx]; [| contradiction].
        exists n. split; [now left | apply rt_refl].
      * intros x y Hx Hnx (pkg' & Hget' & _).
        apply JsSet_add_In in Hx as [-> | Hx]; [congruence | contradiction].
Qed.

(** [collectDependencies] returns exactly the workspace members in the
    transitive closure of the declared workspace dependencies. *)
Lemma collectDependencies_closure (packageJson : PackageJsonData) :
  exists collected,
    collectDependencies packageJson allPackages = Return collected
    /\ JsMap.wf collected
    /\ (forall n, In n (JsMap.keys collected)
                  <-> In n (JsMap.keys allPackages)
                      /\ in_closure allPackages
                           (extractWorkspaceDependencies packageJson) n)
    /\ (forall n pkg, JsMap.get n collected = Some pkg ->
                      JsMap.get n allPackages = Some pkg).
Proof.
  unfold collectDependencies.
  destruct (extractWorkspaceDependencies packageJson) as [| d ds] eqn:Hdeps.
  - simpl. exists JsMap.empty. split; [reflexivity |]. split; [constructor |].
    split; [| discriminate].
    intro n. simpl. split; [contradiction | intros [_ (x & [] & _)]].
  - cbn [length Nat.eqb].
    assert (Hinv0 : collect_inv allPackages (mkCollect JsSet.empty JsMap.empty)).
    { constructor; simpl; [constructor | tauto | discriminate]. }
    destruct (collect_list_step (S (JsMap.size allPackages))
                (collectRecursive_step (S (JsMap.size allPackages)))
                (d :: ds) _ Hinv0) as (st' & -> & [Hinv Hg Hr Hs Hc]).
    { simpl. unfold unvisited, JsMap.size.
      rewrite <- (length_map fst allPackages).
      pose proof (filter_length_le (fun k => negb (JsSet.has JsSet.empty k))
                    (fun _ => true) (JsMap.keys allPackages)
                    (fun _ _ _ => eq_refl)) as Hle.
      assert (Hall : filter (fun _ : string => true) (JsMap.keys allPackages)
                     = JsMap.keys allPackages).
      { clear. induction (JsMap.keys allPackages); simpl; congruence. }
      rewrite Hall in Hle. unfold JsMap.keys in *. lia. }
    simpl in *. exists (result st'). split; [reflexivity |].
    destruct Hinv as [Hwf Hkeys Hvals].
    split; [assumption |]. split; [| assumption].
    intro n. rewrite Hkeys. split.
    + intros [Hn Hall]. split; [assumption |]. apply Hs; [assumption | tauto].
    + intros [Hall (r & Hroot & Hreach)]. split; [| assumption].
      apply (closed_reach allPackages (visited st')) with (d := r);
        [| assumption | now apply Hr].
      intros x y Hx Hxy. apply (Hc x y); [assumption | tauto | assumption].
Qed.

End Collect.

Section Diamond.

Variable allPackages : JsMap.t PackageInfo.
Variables b c d : string.
Variables pb pc pd : PackageInfo.
Hypothesis get_b : JsMap.get b allPackages = Some pb.
Hypothesis get_c : JsMap.get c allPackages = Some pc.
Hypothesis get_d : JsMap.get d allPackages = Some pd.
Hypothesis deps_b : workspaceDeps pb = [d].
Hypothesis deps_c : workspaceDeps pc = [d].
Hypothesis deps_d : workspaceDeps pd = [].

Lemma diamond_declares_b y : declares allPackages b y -> y = d.
Proof.
  intros (pkg & Hget & Hy). rewrite get_b in Hget. injection Hget as <-.
  rewrite deps_b in Hy. destruct Hy as [<- | []]. reflexivity.
Qed.

Lemma diamond_declares_c y : declares allPackages c y -> y = d.
Proof.
  intros (pkg & Hget & Hy). rewrite get_c in Hget. injection Hget as <-.
  rewrite deps_c in Hy. destruct Hy as [<- | []]. reflexivity.
Qed.

Lemma diamond_declares_d y : ~ declares allPackages d y.
Proof.
  intros (pkg & Hget & Hy). rewrite get_d in Hget. injection Hget as <-.
  now rewrite deps_d in Hy.
Qed.

Lemma diamond_reach_d n :
  clos_refl_trans string (declares allPackages) d n -> n = d.
Proof.
  intro H. apply clos_rt_rt1n in H. inversion H as [| y z Hstep _]; subst.
  - reflexivity.
  - now apply diamond_declares_d in Hstep.
Qed.

Lemma diamond_reach_b n :
  clos_refl_trans string (declares allPackages) b n -> n = b \/ n = d.
Proof.
  intro H. apply clos_rt_rt1n in H. inversion H as [| y z Hstep Hrest]; subst.
  - now left.
  - right. apply diamond_declares_b in Hstep. subst y.
    apply diamond_reach_d. now apply clos_rt1n_rt.
Qed.

Lemma diamond_reach_c n :
  clos_refl_trans string (declares allPackages) c n -> n = c \/ n = d.
Proof.
  intro H. apply clos_rt_rt1n in H. inversion H as [| y z Hstep Hrest]; subst.
  - now left.
  - right. apply diamond_declares_c in Hstep. subst y.
    apply diamond_reach_d. now apply clos_rt1n_rt.
Qed.

Lemma diamond_closure (roots : list string) n :
  Permutation roots [b; c] ->
  In n (JsMap.keys allPackages) /\ in_closure allPackages roots n
  <-> n = b \/ n = c \/ n = d.
Proof.
  intro Hperm. split.
  - intros [_ (r & Hr & Hreach)].
    apply (Permutation_in _ Hperm) in Hr. destruct Hr as [<- | [<- | []]].
    + apply diamond_reach_b in Hreach. tauto.
    + apply diamond_reach_c in Hreach. tauto.
  - assert (Hb : In b roots)
      by (apply (Permutation_in _ (Permutation_sym Hperm)); now left).
    assert (Hc : In c roots)
      by (apply (Permutation_in _ (Permutation_sym Hperm)); right; now left).
    intros [-> | [-> | ->]].
    + split; [now apply JsMap_get_In_keys in get_b |].
      exists b. split; [assumption | apply rt_refl].
    + split; [now apply JsMap_get_In_keys in get_c |].
      exists c. split; [assumption | apply rt_refl].
    + split; [now apply JsMap_get_In_keys in get_d |].
      exists b. split; [assumption |]. apply rt_step.
      exists pb. rewrite deps_b. split; [assumption | now left].
Qed.

End Diamond.

(** The layers of the diamond: the shared dependency comes strictly before
    the two packages that declare it. *)
Lemma diamond_layers (allPackages collected : JsMap.t PackageInfo)
  (b c d : string) (pb pc pd : PackageInfo) :
  b <> d -> c <> d ->
  JsMap.get b allPackages = Some pb -> workspaceDeps pb = [d] ->
  JsMap.get c allPackages = Some pc -> workspaceDeps pc = [d] ->
  JsMap.get d allPackages = Some pd -> workspaceDeps pd = [] ->
  JsMap.wf collected ->
  (forall n, In n (JsMap.keys collected) <-> n = b \/ n = c \/ n = d) ->
  (forall n pkg, JsMap.get n collected = Some pkg ->
                 JsMap.get n allPackages = Some pkg) ->
  exists graph order layers i j k,
    buildDependencyGraph collected = Return graph
    /\ topologicalSort graph = Return order
    /\ getBuildLayers order graph = Return layers
    /\ layer_index layers d = Some i
    /\ layer_index layers b = Some j
    /\ layer_index layers c = Some k
    /\ i < j /\ i < k.
Proof.
  intros Hbd Hcd Hgb Hdb Hgc Hdc Hgd Hdd Hwf Hkeys Hvals.
  destruct (buildDependencyGraph_spec collected Hwf)
    as (graph & Hbuild & Hnodes & _ & _ & Hf & _).
  pose proof (buildDependencyGraph_wf collected graph Hwf Hbuild) as Hgwf.
  simpl in Hf.
  assert (Hedge : forall x y, depends_on graph x y -> (x = b \/ x = c) /\ y = d).
  { intros x y Hxy. apply Hf in Hxy as (pkg & Hget & Hy & _).
    pose proof (JsMap_get_In_keys _ _ _ Hget) as Hx. apply Hvals in Hget.
    apply Hkeys in Hx as [-> | [-> | ->]].
    - rewrite Hgb in Hget. injection Hget as <-. rewrite Hdb in Hy.
      destruct Hy as [<- | []]. tauto.
    - rewrite Hgc in Hget. injection Hget as <-. rewrite Hdc in Hy.
      destruct Hy as [<- | []]. tauto.
    - rewrite Hgd in Hget. injection Hget as <-. now rewrite Hdd in Hy. }
  assert (Hdepends : forall x px, JsMap.get x allPackages = Some px ->
                                  workspaceDeps px = [d] ->
                                  In x (JsMap.keys collected) ->
                                  depends_on graph x d).
  { intros x px Hgx Hdx Hx. apply Hf.
    destruct (JsMap_In_keys_get _ _ Hx) as [v Hv].
    pose proof (Hvals _ _ Hv) as Hv'. rewrite Hgx in Hv'. injection Hv' as <-.
    exists px. rewrite Hdx. split; [assumption |]. split; [now left |].
    apply Hkeys. tauto. }
  assert (Hacyclic : acyclic graph).
  { apply (rank_acyclic graph (fun n => if String.eqb n d then 0 else 1)).
    intros x y Hxy. destruct (Hedge x y Hxy) as [Hx ->].
    rewrite String.eqb_refl.
    destruct (String.eqb_spec x d) as [-> | _]; [| lia].
    destruct Hx; congruence. }
  destruct (topologicalSort_acyclic graph Hgwf Hacyclic)
    as (order & Hsort & Hnd & Hall & Hbefore).
  destruct (getBuildLayers_spec graph order Hnd Hbefore)
    as (layers & assigned & Hrun & Hinv & Hcover).
  assert (Hindexed : forall n, In n (JsMap.keys collected) ->
                               exists i, layer_index layers n = Some i).
  { intros n Hn. apply layer_index_In, Hcover, Hall. now rewrite Hnodes. }
  destruct (Hindexed d) as [i Hi]; [apply Hkeys; tauto |].
  destruct (Hindexed b) as [j Hj]; [apply Hkeys; tauto |].
  destruct (Hindexed c) as [k Hk]; [apply Hkeys; tauto |].
  assert (Hearlier : forall x m, layer_index layers x = Some m ->
                                 depends_on graph x d -> i < m).
  { intros x m Hm Hxd. apply (li_index _ _ _ _ Hinv) in Hm.
    destruct (expected_layer_Some _ _ _ Hm d Hxd) as (i' & Hi' & Hlt).
    congruence. }
  exists graph, order, layers, i, j, k.
  repeat split; try assumption.
  - apply (Hearlier b j Hj). apply (Hdepends b pb); try assumption.
    apply Hkeys. tauto.
  - apply (Hearlier c k Hk). apply (Hdepends c pc); try assumption.
    apply Hkeys. tauto.
Qed.

(** C8. [collectDependencies] returns the workspace members in the
    transitive closure of the starting package's workspace dependencies,
    each under its own name, and nothing else of the workspace.  For a
    diamond (the start declares [b] and [c], in either order, and both
    declare [d]) the result holds [b], [c] and [d], the shared [d] once,
    and the layers computed from it put [d] strictly before [b] and [c]. *)
Theorem collectDependencies_closure_diamond (allPackages : JsMap.t PackageInfo) :
  JsMap.wf allPackages ->
  (forall packageJson,
      exists collected,
        collectDependencies packageJson allPackages = Return collected
        /\ JsMap.wf collected
        /\ (forall n, In n (JsMap.keys collected)
                      <-> In n (JsMap.keys allPackages)
                          /\ in_closure allPackages
                               (extractWorkspaceDependencies packageJson) n)
        /\ (forall n pkg, JsMap.get n collected = Some pkg ->
                          JsMap.get n allPackages = Some pkg))
  /\ (forall packageJson b c d pb pc pd,
         b <> c -> b <> d -> c <> d ->
         Permutation (extractWorkspaceDependencies packageJson) [b; c] ->
         JsMap.get b allPackages = Some pb -> workspaceDeps pb = [d] ->
         JsMap.get c allPackages = Some pc -> workspaceDeps pc = [d] ->
         JsMap.get d allPackages = Some pd -> workspaceDeps pd = [] ->
         exists collected graph order layers i j k,
           collectDependencies packageJson allPackages = Return collected
           /\ Permutation (JsMap.keys collected) [b; c; d]
           /\ count_occ string_dec (JsMap.keys collected) d = 1
           /\ buildDependencyGraph collected = Return graph
           /\ topologicalSort graph = Return order
           /\ getBuildLayers order graph = Return layers
           /\ layer_index layers d = Some i
           /\ layer_index layers b = Some j
           /\ layer_index layers c = Some k
           /\ i < j /\ i < k).
Proof.
  intro Hall. split.
  - intro packageJson. now apply collectDependencies_closure.
  - intros packageJson b c d pb pc pd Hbc Hbd Hcd Hperm Hgb Hdb Hgc Hdc Hgd Hdd.
    destruct (collectDependencies_closure allPackages Hall packageJson)
      as (collected & Hrun & Hwf & Hkeys & Hvals).
    assert (Hmem : forall n, In n (JsMap.keys collected)
                             <-> n = b \/ n = c \/ n = d).
    { intro n. rewrite Hkeys.
      now apply (diamond_closure allPackages b c d pb pc pd). }
    assert (Hp : Permutation (JsMap.keys collected) [b; c; d]).
    { apply NoDup_Permutation; [exact Hwf | |].
      - repeat constructor; simpl; intuition congruence.
      - intro n. rewrite Hmem. simpl. intuition congruence. }
    destruct (diamond_layers allPackages collected b c d pb pc pd
                Hbd Hcd Hgb Hdb Hgc Hdc Hgd Hdd Hwf Hmem Hvals)
      as (graph & order & layers & i & j & k & Hrest).
    exists collected, graph, order, layers, i, j, k.
    split; [exact Hrun |]. split; [exact Hp |]. split; [| exact Hrest].
    rewrite (Permutation_count_occ string_dec) in Hp. rewrite Hp. simpl.
    destruct (string_dec b d); [contradiction |].
    destruct (string_dec c d); [contradiction |].
    destruct (string_dec d d); [reflexivity | contradiction].
Qed.

Lemma diamond_workspace_wf : JsMap.wf diamond_workspace.
Proof. solve_wf. Qed.

Lemma collectDependencies_closure_diamond_witness :
  JsMap.wf diamond_workspace
  /\ collectDependencies (manifest "app" ["lib-b"; "lib-a"]) diamond_workspace
     = Return [member "lib-b" ["shared"]; member "shared" [];
               member "lib-a" ["shared"]]
  /\ (exists collected graph order layers i j k,
         collectDependencies (manifest "app" ["lib-b"; "lib-a"]) diamond_workspace
         = Return collected
         /\ Permutation (JsMap.keys collected) ["lib-a"; "lib-b"; "shared"]
         /\ count_occ string_dec (JsMap.keys collected) "shared" = 1
         /\ buildDependencyGraph collected = Return graph
         /\ topologicalSort graph = Return order
         /\ getBuildLayers order graph = Return layers
         /\ layer_index layers "shared" = Some i
         /\ layer_index layers "lib-a" = Some j
         /\ layer_index layers "lib-b" = Some k
         /\ i < j /\ i < k).
Proof.
  split; [exact diamond_workspace_wf |]. split; [vm_compute; reflexivity |].
  destruct (collectDependencies_closure_diamond diamond_workspace
              diamond_workspace_wf) as [_ Hdiamond].
  apply (Hdiamond (manifest "app" ["lib-b"; "lib-a"])
                  "lib-a" "lib-b" "shared"
                  (snd (member "lib-a" ["shared"]))
                  (snd (member "lib-b" ["shared"]))
                  (snd (member "shared" [])));
    try discriminate; try reflexivity.
  vm_compute. apply perm_swap.
Defined.

Lemma step_then_reach {A : Type} (R : A -> A -> Prop) (a r n : A) :
  R a r -> clos_refl_trans A R r n -> clos_trans A R a n.
Proof.
  intros Har Hreach. apply clos_rt_rtn1 in Hreach.
  induction Hreach as [| m n Hmn _ IH].
  - now apply t_step.
  - eapply t_trans; [exact IH | now apply t_step].
Qed.

Lemma cycle_first_step {A : Type} (R : A -> A -> Prop) (a n : A) :
  clos_trans A R a n -> exists y, R a y /\ clos_refl_trans A R y n.
Proof.
  intro H. apply clos_trans_t1n in H. destruct H as [y Hay | y z Hay Hrest].
  - exists y. split; [assumption | apply rt_refl].
  - exists y. split; [assumption |].
    apply clos_t1n_trans in Hrest. now apply clos_t_clos_rt.
Qed.

(** The counterexample to C10: a workspace whose two members depend on
    each other; collecting from [app] yields [app] itself. *)
Lemma collectDependencies_collects_start :
  collectDependencies (manifest "app" ["core"]) cyclic_workspace
  = Return [member "core" ["app"]; member "app" ["core"]]
  /\ ~ never_collects_start.
Proof.
  split; [vm_compute; reflexivity |].
  intro H.
  apply (H (manifest "app" ["core"]) cyclic_workspace "app"
           (snd (member "app" ["core"]))
           [member "core" ["app"]; member "app" ["core"]]);
    try reflexivity.
  - solve_wf.
  - simpl. tauto.
Qed.

(** C10, amended.  The mapping returned by [collectDependencies] has the
    starting package as a key exactly when the starting package lies on a
    dependency cycle of the workspace (it is reachable from its own
    declared workspace dependencies); and whenever the starting package
    declares no workspace dependency the result is the empty mapping,
    whatever the other members declare. *)
Theorem collectDependencies_start_on_cycle (packageJson : PackageJsonData)
  (allPackages : JsMap.t PackageInfo) (currentName : string) :
  JsMap.wf allPackages ->
  (forall pkg, JsMap.get currentName allPackages = Some pkg ->
               workspaceDeps pkg = extractWorkspaceDependencies packageJson) ->
  exists collected,
    collectDependencies packageJson allPackages = Return collected
    /\ (In currentName (JsMap.keys collected)
        <-> clos_trans string (declares allPackages) currentName currentName)
    /\ (extractWorkspaceDependencies packageJson = [] ->
        collected = JsMap.empty).
Proof.
  intros Hwf Hmember.
  destruct (collectDependencies_closure allPackages Hwf packageJson)
    as (collected & Hrun & _ & Hkeys & _).
  exists collected. split; [exact Hrun |]. split.
  - rewrite Hkeys. split.
    + intros [Hin (r & Hr & Hreach)].
      destruct (JsMap_In_keys_get _ _ Hin) as [pkg Hget].
      apply (step_then_reach _ currentName r currentName); [| assumption].
      exists pkg. split; [assumption |]. now rewrite (Hmember pkg Hget).
    + intro Hcycle. apply cycle_first_step in Hcycle as (y & (pkg & Hget & Hy) & Hreach).
      split; [now apply JsMap_get_In_keys in Hget |].
      exists y. split; [| assumption]. now rewrite <- (Hmember pkg Hget).
  - intro Hnone. unfold collectDependencies in Hrun. rewrite Hnone in Hrun.
    simpl in Hrun. congruence.
Qed.

Lemma collectDependencies_start_on_cycle_witness :
  JsMap.wf cyclic_workspace
  /\ (forall pkg, JsMap.get "app" cyclic_workspace = Some pkg ->
                  workspaceDeps pkg
                  = extractWorkspaceDependencies (manifest "app" ["core"]))
  /\ clos_trans string (declares cyclic_workspace) "app" "app"
  /\ exists collected,
      collectDependencies (manifest "app" ["core"]) cyclic_workspace
      = Return collected
      /\ In "app" (JsMap.keys collected).
Proof.
  assert (Hwf : JsMap.wf cyclic_workspace) by solve_wf.
  assert (Hmember : forall pkg,
             JsMap.get "app" cyclic_workspace = Some pkg ->
             workspaceDeps pkg
             = extractWorkspaceDependencies (manifest "app" ["core"])).
  { intros pkg Hget. vm_compute in Hget. injection Hget as <-. reflexivity. }
  assert (Hcycle : clos_trans string (declares cyclic_workspace) "app" "app").
  { apply t_trans with "core"; apply t_step; eexists; split;
      try (vm_compute; reflexivity); simpl; tauto. }
  split; [exact Hwf |]. split; [exact Hmember |]. split; [exact Hcycle |].
  destruct (collectDependencies_start_on_cycle (manifest "app" ["core"])
              cyclic_workspace "app" Hwf Hmember)
    as (collected & Hrun & Hiff & _).
  exists collected. split; [exact Hrun | now apply Hiff].
Defined.
(** ** needsBuild *)

Lemma Qgt_bool_iff (a b : Q) : Qgt_bool a b = true <-> (b < a)%Q.
Proof.
  unfold Qgt_bool. rewrite negb_true_iff. split.
  - intro H. apply Qnot_le_lt. intro Hle. apply Qle_bool_iff in Hle. congruence.
  - intro H. destruct (Qle_bool a b) eqn:E; [| reflexivity].
    apply Qle_bool_iff in E. now apply Qlt_not_le in H.
Qed.

Lemma Qgt_bool_false (a b : Q) : Qgt_bool a b = false <-> (a <= b)%Q.
Proof.
  unfold Qgt_bool. rewrite negb_false_iff. apply Qle_bool_iff.
Qed.

Lemma Qeq_bool_positive (a : Q) : (0 < a)%Q -> Qeq_bool a 0 = false.
Proof.
  intro H. destruct (Qeq_bool a 0) eqn:E; [| reflexivity].
  apply Qeq_bool_iff in E. apply Qlt_not_eq in H. exfalso. apply H.
  now symmetry.
Qed.

(** The loop of [getNewestMtime] yields its start value or a listed time,
    whichever is largest. *)
Lemma newest_fold (files : list (string * option Q)) :
  forall acc,
    (acc <= fold_left newest_step files acc)%Q
    /\ (forall x, In (Some x) (map snd files) ->
                  (x <= fold_left newest_step files acc)%Q)
    /\ (fold_left newest_step files acc = acc
        \/ In (Some (fold_left newest_step files acc)) (map snd files)).
Proof.
  induction files as [| file files IH]; intro acc; simpl.
  - split; [apply Qle_refl |]. split; [intros x [] | now left].
  - destruct (IH (newest_step acc file)) as (Hle & Hall & Hin).
    unfold newest_step, getMtime in *. destruct (snd file) as [m |].
    + destruct (Qgt_bool m acc) eqn:E.
      * apply Qgt_bool_iff in E. split; [| split].
        -- eapply Qle_trans; [apply Qlt_le_weak; exact E | exact Hle].
        -- intros x [Hx | Hx]; [injection Hx as <-; exact Hle | now apply Hall].
        -- destruct Hin as [-> | Hin]; right; [now left | now right].
      * apply Qgt_bool_false in E. split; [assumption |]. split.
        -- intros x [Hx | Hx]; [| now apply Hall].
           injection Hx as <-. eapply Qle_trans; eassumption.
        -- destruct Hin as [-> | Hin]; [now left | right; now right].
    + split; [assumption |]. split.
      * intros x [Hx | Hx]; [discriminate | now apply Hall].
      * destruct Hin as [-> | Hin]; [now left | right; now right].
Qed.

(** The loop of [getOldestMtime] yields [Infinity] only when no time was
    read, and otherwise its start value or a listed time, whichever is
    smallest. *)
Lemma oldest_fold (files : list (string * option Q)) :
  forall acc,
    match fold_left oldest_step files acc with
    | None => acc = None /\ forall x, ~ In (Some x) (map snd files)
    | Some o =>
        (forall a, acc = Some a -> (o <= a)%Q)
        /\ (forall x, In (Some x) (map snd files) -> (o <= x)%Q)
        /\ (acc = Some o \/ In (Some o) (map snd files))
    end.
Proof.
  induction files as [| file files IH]; intro acc; simpl.
  - destruct acc as [a |].
    + split; [intros ? H; injection H as <-; apply Qle_refl |].
      split; [intros x [] | now left].
    + split; [reflexivity | intros x []].
  - specialize (IH (oldest_step acc file)).
    destruct (fold_left oldest_step files (oldest_step acc file)) as [o |].
    + destruct IH as (Hacc & Hall & Hin).
      unfold oldest_step, getMtime in *. destruct (snd file) as [m |].
      * destruct acc as [a |].
        -- destruct (Qgt_bool a m) eqn:E.
           ++ apply Qgt_bool_iff in E. split; [| split].
              ** intros a' Ha. injection Ha as <-.
                 eapply Qle_trans; [apply (Hacc m eq_refl) | now apply Qlt_le_weak].
              ** intros x [Hx | Hx]; [injection Hx as <-; now apply Hacc | now apply Hall].
              ** destruct Hin as [Hin | Hin]; right; [left; exact Hin | now right].
           ++ apply Qgt_bool_false in E. split; [| split].
              ** intros a' Ha. injection Ha as <-. now apply Hacc.
              ** intros x [Hx | Hx]; [| now apply Hall].
                 injection Hx as <-. eapply Qle_trans; [now apply Hacc | exact E].
              ** destruct Hin as [Hin | Hin]; [now left | right; now right].
        -- split; [discriminate |]. split.
           ++ intros x [Hx | Hx]; [injection Hx as <-; now apply Hacc | now apply Hall].
           ++ destruct Hin as [Hin | Hin]; right; [left; exact Hin | now right].
      * split; [assumption |]. split.
        -- intros x [Hx | Hx]; [discriminate | now apply Hall].
        -- destruct Hin as [Hin | Hin]; [now left | right; now right].
    + destruct IH as (Hacc & Hnone).
      unfold oldest_step, getMtime in *. destruct (snd file) as [m |].
      * destruct acc as [a |]; [destruct (Qgt_bool a m) |]; discriminate.
      * split; [assumption |]. intros x [Hx | Hx]; [discriminate | now apply (Hnone x)].
Qed.

Lemma positive_time (files : list (string * option Q)) (m : Q) :
  all_positive files -> In (Some m) (map snd files) -> (0 < m)%Q.
Proof.
  intros Hpos Hin. apply in_map_iff in Hin as (file & Hsnd & Hfile).
  destruct (Hpos file Hfile) as (m' & Hm' & Hlt). congruence.
Qed.

Lemma nonempty_positive_time (files : list (string * option Q)) :
  files <> [] -> all_positive files -> exists m, In (Some m) (map snd files).
Proof.
  intros Hne Hpos. destruct files as [| file files]; [contradiction |].
  destruct (Hpos file (or_introl eq_refl)) as (m & Hm & _).
  exists m. simpl. left. assumption.
Qed.

Lemma getNewestMtime_positive (dir : string) (node : FsNode) exclude :
  walkDir dir node exclude <> [] ->
  all_positive (walkDir dir node exclude) ->
  is_newest (walkDir dir node exclude) (getNewestMtime dir node exclude)
  /\ (0 < getNewestMtime dir node exclude)%Q.
Proof.
  intros Hne Hpos. unfold getNewestMtime.
  destruct (walkDir dir node exclude) as [| file files] eqn:Hfiles;
    [contradiction |].
  cbn [length Nat.eqb]. rewrite <- Hfiles in *. clear Hfiles.
  destruct (newest_fold (walkDir dir node exclude) 0%Q) as (_ & Hall & Hin).
  destruct (nonempty_positive_time _ Hne Hpos) as [m Hm].
  assert (Hlt : (0 < fold_left newest_step (walkDir dir node exclude) 0)%Q).
  { eapply Qlt_le_trans; [exact (positive_time _ m Hpos Hm) | now apply Hall]. }
  split; [| assumption]. split; [| assumption].
  destruct Hin as [Heq | Hin]; [| assumption].
  rewrite Heq in Hlt. now apply Qlt_irrefl in Hlt.
Qed.

Lemma getOldestMtime_positive (dir : string) (node : FsNode) :
  walkDir dir node [] <> [] ->
  all_positive (walkDir dir node []) ->
  is_oldest (walkDir dir node []) (getOldestMtime dir node)
  /\ (0 < getOldestMtime dir node)%Q.
Proof.
  intros Hne Hpos. unfold getOldestMtime.
  destruct (walkDir dir node []) as [| file files] eqn:Hfiles;
    [contradiction |].
  cbn [length Nat.eqb]. rewrite <- Hfiles in *. clear Hfiles.
  pose proof (oldest_fold (walkDir dir node []) None) as Hfold.
  destruct (nonempty_positive_time _ Hne Hpos) as [m Hm].
  destruct (fold_left oldest_step (walkDir dir node []) None) as [o |].
  - destruct Hfold as (_ & Hall & [Hin | Hin]); [discriminate |].
    split; [split; assumption |]. exact (positive_time _ o Hpos Hin).
  - destruct Hfold as [_ Hnone]. now apply Hnone in Hm.
Qed.

(** With an output directory, and readable positive times on at least one
    source file and one output file, the decision is the comparison of the
    newest source with the oldest output. *)
Lemma needsBuild_compare (pkgPath : string) (pkg dist : FsNode) (s o : Q) :
  lookup pkg "dist" = Some dist ->
  source_files pkgPath pkg <> [] -> all_positive (source_files pkgPath pkg) ->
  output_files pkgPath dist <> [] -> all_positive (output_files pkgPath dist) ->
  is_newest (source_files pkgPath pkg) s ->
  is_oldest (output_files pkgPath dist) o ->
  (needsBuild pkgPath pkg = true <-> (o < s)%Q).
Proof.
  unfold source_files, output_files.
  intros Hdist Hsrc Hsrcpos Hout Houtpos [Hs Hsmax] [Ho Homin].
  destruct (getNewestMtime_positive _ _ _ Hsrc Hsrcpos) as [[Hn Hnmax] Hnpos].
  destruct (getOldestMtime_positive _ _ Hout Houtpos) as [[Hm Hmmin] Hmpos].
  unfold needsBuild. rewrite Hdist.
  rewrite (Qeq_bool_positive _ Hmpos), (Qeq_bool_positive _ Hnpos).
  rewrite Qgt_bool_iff. split; intro H.
  - eapply Qle_lt_trans; [apply (Homin _ Hm) |].
    eapply Qlt_le_trans; [exact H | apply (Hsmax _ Hn)].
  - eapply Qle_lt_trans; [apply (Hmmin _ Ho) |].
    eapply Qlt_le_trans; [exact H | apply (Hnmax _ Hs)].
Qed.

Lemma needsBuild_no_dist (pkgPath : string) (pkg : FsNode) :
  lookup pkg "dist" = None -> needsBuild pkgPath pkg = true.
Proof. intro H. unfold needsBuild. now rewrite H. Qed.

Ltac solve_extremum :=
  split; [simpl; tauto |];
  intros x [Hx | []]; injection Hx as <-; apply Qle_refl.

(** C3. The first half of the claim holds: without an output directory
    the decision is stale.  The second half fails where a modification time
    meets the value 0 that the code uses for "no file": with a source file
    and an output file both dated 0 the decision is stale although the
    newest source is not after the oldest output, and with files dated
    before the epoch the decision is fresh although the source is newer
    than the output. *)
Theorem needsBuild_zero_sentinel :
  (forall pkgPath pkg,
      lookup pkg "dist" = None -> needsBuild pkgPath pkg = true)
  /\ (lookup epoch_package "dist" = Some (dist_of epoch_package)
      /\ is_newest (source_files "/pkg" epoch_package) 0
      /\ is_oldest (output_files "/pkg" (dist_of epoch_package)) 0
      /\ needsBuild "/pkg" epoch_package = true
      /\ ~ (0 < 0)%Q)
  /\ (lookup pre_epoch_package "dist" = Some (dist_of pre_epoch_package)
      /\ is_newest (source_files "/pkg" pre_epoch_package) (-1)
      /\ is_oldest (output_files "/pkg" (dist_of pre_epoch_package)) (-2)
      /\ needsBuild "/pkg" pre_epoch_package = false
      /\ (-2 < -1)%Q)
  /\ ~ decision_is_comparison.
Proof.
  assert (Hepoch : lookup epoch_package "dist" = Some (dist_of epoch_package)
                   /\ is_newest (source_files "/pkg" epoch_package) 0
                   /\ is_oldest (output_files "/pkg" (dist_of epoch_package)) 0
                   /\ needsBuild "/pkg" epoch_package = true
                   /\ ~ (0 < 0)%Q).
  { split; [reflexivity |]. split; [solve_extremum |]. split; [solve_extremum |].
    split; [vm_compute; reflexivity | apply Qlt_irrefl]. }
  split; [exact needsBuild_no_dist |]. split; [exact Hepoch |]. split.
  - split; [reflexivity |]. split; [solve_extremum |]. split; [solve_extremum |].
    split; [vm_compute; reflexivity | reflexivity].
  - intro Hclaim. destruct Hepoch as (Hdist & Hs & Ho & Hstale & Hnot).
    apply Hnot. now apply (Hclaim "/pkg" epoch_package (dist_of epoch_package) 0%Q 0%Q).
Qed.

Lemma needsBuild_zero_sentinel_witness :
  lookup (Dir true [("index.ts", File (Some 5%Q))]) "dist" = None
  /\ needsBuild "/pkg" (Dir true [("index.ts", File (Some 5%Q))]) = true.
Proof.
  split; [reflexivity |].
  destruct needsBuild_zero_sentinel as [Hnone _].
  exact (Hnone "/pkg" (Dir true [("index.ts", File (Some 5%Q))]) eq_refl).
Defined.

(** The counterexample to C6: a package without source files whose output
    directory exists and is empty is stale. *)
Lemma needsBuild_empty_output_stale :
  lookup (package_dir [] []) "dist" = Some (Dir true [])
  /\ source_files "/pkg" (package_dir [] []) = []
  /\ output_files "/pkg" (Dir true []) = []
  /\ needsBuild "/pkg" (package_dir [] []) = true
  /\ ~ no_sources_always_fresh.
Proof.
  split; [reflexivity |]. split; [reflexivity |]. split; [reflexivity |].
  split; [vm_compute; reflexivity |].
  intro Hclaim.
  specialize (Hclaim "/pkg" (package_dir [] []) (Dir true []) eq_refl eq_refl).
  vm_compute in Hclaim. discriminate.
Qed.

(** C6, amended.  For a package with zero source files (after the
    exclusion of the fixed names) whose output location exists, the
    empty-output rule comes first: the decision is stale when the output
    location contains zero files, and fresh when it contains at least one
    file and the output modification times are readable and positive. *)
Theorem needsBuild_no_sources (pkgPath : string) (pkg dist : FsNode) :
  lookup pkg "dist" = Some dist ->
  source_files pkgPath pkg = [] ->
  (output_files pkgPath dist = [] -> needsBuild pkgPath pkg = true)
  /\ (output_files pkgPath dist <> [] ->
      all_positive (output_files pkgPath dist) ->
      needsBuild pkgPath pkg = false).
Proof.
  unfold source_files, output_files. intros Hdist Hsrc.
  unfold needsBuild. rewrite Hdist. unfold getNewestMtime. rewrite Hsrc.
  cbn [length Nat.eqb]. split.
  - intro Hout. unfold getOldestMtime. rewrite Hout. reflexivity.
  - intros Hout Hpos.
    destruct (getOldestMtime_positive _ _ Hout Hpos) as [_ Hlt].
    rewrite (Qeq_bool_positive _ Hlt). reflexivity.
Qed.

Lemma needsBuild_no_sources_witness :
  lookup (package_dir [] [("index.js", 8%Q)]) "dist"
  = Some (Dir true [("index.js", File (Some 8%Q))])
  /\ source_files "/pkg" (package_dir [] [("index.js", 8%Q)]) = []
  /\ output_files "/pkg" (Dir true [("index.js", File (Some 8%Q))]) <> []
  /\ all_positive (output_files "/pkg" (Dir true [("index.js", File (Some 8%Q))]))
  /\ needsBuild "/pkg" (package_dir [] [("index.js", 8%Q)]) = false.
Proof.
  assert (Hpos : all_positive
                   (output_files "/pkg" (Dir true [("index.js", File (Some 8%Q))]))).
  { intros file [<- | []]. exists 8%Q. split; reflexivity. }
  split; [reflexivity |]. split; [reflexivity |]. split; [discriminate |].
  split; [exact Hpos |].
  destruct (needsBuild_no_sources "/pkg" (package_dir [] [("index.js", 8%Q)])
              (Dir true [("index.js", File (Some 8%Q))]) eq_refl eq_refl)
    as [_ Hfresh].
  apply Hfresh; [discriminate | exact Hpos].
Defined.

(** ** buildPackage, runWithConcurrency and buildAll *)

(** The filter of [runWithConcurrency] removes nothing: each callback
    reads its variable before the reaction that sets it can run. *)
Lemma filter_executing_all (tasks : list Task) :
  forall rs, fst (filter_executing tasks rs) = tasks.
Proof.
  induction tasks as [| e tasks IH]; intro rs; [reflexivity |].
  cbn [filter_executing]. unfold still_executing. cbn [resolved_flags reactions].
  rewrite nth_middle. cbn [negb].
  specialize (IH (mkReactions (resolved_flags rs ++ [false])
                              (reactions rs ++ [length (resolved_flags rs)]))).
  destruct (filter_executing tasks _) as [kept rs2]. simpl in *. now rewrite IH.
Qed.

Lemma advance_pkg env options t : task_pkg (advance env options t) = task_pkg t.
Proof.
  unfold advance. destruct (task_state t); [| reflexivity | reflexivity].
  now destruct (needs env (path (task_pkg t))).
Qed.

Lemma advance_ok env options t c :
  task_state (advance env options t) = Settled c ->
  task_state t = Settled c \/ c = buildPackage env (task_pkg t) options.
Proof.
  unfold advance. destruct (task_state t) eqn:E.
  - destruct (needs env (path (task_pkg t))); simpl; [discriminate |].
    intro H. injection H as <-. now right.
  - simpl. intro H. injection H as <-. now right.
  - rewrite E. now left.
Qed.

Lemma advance_nth_pkgs env options i tasks :
  map task_pkg (advance_nth env options i tasks) = map task_pkg tasks.
Proof.
  revert i. induction tasks as [| t tasks IH]; intro i; [now destruct i |].
  destruct i as [| i]; simpl; [now rewrite advance_pkg | now rewrite IH].
Qed.

Lemma advance_nth_ok env options i tasks :
  tasks_ok env options tasks ->
  tasks_ok env options (advance_nth env options i tasks).
Proof.
  revert i. induction tasks as [| t tasks IH]; intros i Hok; [now destruct i |].
  assert (Hrest : tasks_ok env options tasks)
    by (intros t' c' Hin; apply Hok; now right).
  destruct i as [| i]; simpl.
  - intros t' c' [<- | Hin] Hc; [| now apply Hrest].
    rewrite advance_pkg. apply advance_ok in Hc as [Hc | Hc]; [| assumption].
    apply (Hok t c' (or_introl eq_refl) Hc).
  - intros t' c' [<- | Hin] Hc; [exact (Hok t c' (or_introl eq_refl) Hc) |].
    now apply (IH i Hrest t').
Qed.

Lemma launch_pkgs env options item run :
  map task_pkg (executing (launch env options item run))
  = map task_pkg (executing run) ++ [item].
Proof. simpl. now rewrite map_app. Qed.

Lemma launch_ok env options item run :
  tasks_ok env options (executing run) ->
  tasks_ok env options (executing (launch env options item run)).
Proof.
  intros Hok t c Hin Hc. simpl in Hin. apply in_app_or in Hin as [Hin | [<- | []]].
  - now apply Hok.
  - unfold start in *. simpl in *.
    destruct (negb (has_build_script item)); [congruence |].
    destruct (force options); discriminate.
Qed.

Lemma first_settled_In tasks c :
  first_settled tasks = Some c ->
  exists t, In t tasks /\ task_state t = Settled c.
Proof.
  induction tasks as [| t tasks IH]; simpl; [discriminate |].
  destruct (task_state t) eqn:E.
  - intro H. destruct (IH H) as (t' & Hin & Hc). exists t'. tauto.
  - intro H. destruct (IH H) as (t' & Hin & Hc). exists t'. tauto.
  - intro H. injection H as <-. exists t. tauto.
Qed.

Lemma first_rejected_In tasks e :
  first_rejected tasks = Some e ->
  exists t, In t tasks /\ task_state t = Settled (Throw e).
Proof.
  induction tasks as [| t tasks IH]; simpl; [discriminate |].
  destruct (task_state t) as [| | [r | e']] eqn:E.
  - intro H. destruct (IH H) as (t' & Hin & Hc). exists t'. tauto.
  - intro H. destruct (IH H) as (t' & Hin & Hc). exists t'. tauto.
  - intro H. destruct (IH H) as (t' & Hin & Hc). exists t'. tauto.
  - intro H. injection H as <-. exists t. tauto.
Qed.

Lemma all_fulfilled tasks :
  first_rejected tasks = None ->
  forallb is_settled tasks = true ->
  forall t, In t tasks -> exists r, task_state t = Settled (Return r).
Proof.
  induction tasks as [| t tasks IH]; simpl; [intros _ _ ? [] |].
  unfold is_settled at 1.
  destruct (task_state t) as [| | [r | e]] eqn:E; try discriminate.
  intros Hrej Hall t' [<- | Hin]; [now exists r | now apply IH].
Qed.

Lemma deliver_pkgs env options i run :
  map task_pkg (executing (deliver env options i run))
  = map task_pkg (executing run).
Proof. apply advance_nth_pkgs. Qed.

Lemma await_race_post env options schedule :
  forall run,
    tasks_ok env options (executing run) ->
    await_post env options run (await_race env options schedule run).
Proof.
  induction schedule as [| i schedule IH]; intros run Hok; cbn [await_race];
    destruct (first_settled (executing run)) as [[r | e] |] eqn:E.
  - repeat split; try assumption. discriminate.
  - repeat split; try assumption. simpl. intros e' He'. injection He' as <-.
    now apply first_settled_In.
  - repeat split; try assumption. discriminate.
  - repeat split; try assumption. discriminate.
  - repeat split; try assumption. simpl. intros e' He'. injection He' as <-.
    now apply first_settled_In.
  - destruct (IH (deliver env options i run)) as (Hp & Hok' & Hrej).
    { now apply advance_nth_ok. }
    split; [now rewrite Hp, deliver_pkgs | now split].
Qed.

Lemma await_all_post env options schedule :
  forall run,
    tasks_ok env options (executing run) ->
    await_post env options run (await_all env options schedule run)
    /\ (fst (fst (await_all env options schedule run)) = Resolved tt ->
        forall t, In t (executing (snd (await_all env options schedule run))) ->
                  exists r, task_state t = Settled (Return r)).
Proof.
  induction schedule as [| i schedule IH]; intros run Hok; cbn [await_all];
    destruct (first_rejected (executing run)) as [e |] eqn:E.
  - split; [| discriminate]. repeat split; try assumption.
    simpl. intros e' He'. injection He' as <-. now apply first_rejected_In.
  - destruct (forallb is_settled (executing run)) eqn:Hall.
    + split; [repeat split; try assumption; discriminate |].
      intros _. now apply all_fulfilled.
    + split; [repeat split; try assumption; discriminate | discriminate].
  - split; [| discriminate]. repeat split; try assumption.
    simpl. intros e' He'. injection He' as <-. now apply first_rejected_In.
  - destruct (forallb is_settled (executing run)) eqn:Hall.
    + split; [repeat split; try assumption; discriminate |].
      intros _. now apply all_fulfilled.
    + destruct (IH (deliver env options i run)) as ((Hp & Hok' & Hrej) & Hres).
      { now apply advance_nth_ok. }
      split; [| assumption].
      split; [now rewrite Hp, deliver_pkgs | now split].
Qed.

Lemma run_items_post env options limit items :
  forall schedule run,
    tasks_ok env options (executing run) ->
    tasks_ok env options
             (executing (snd (run_items env options limit items schedule run)))
    /\ (exists started,
           map task_pkg
               (executing (snd (run_items env options limit items schedule run)))
           = map task_pkg (executing run) ++ started
           /\ incl started items
           /\ (fst (fst (run_items env options limit items schedule run))
               = Resolved tt -> started = items))
    /\ (fst (fst (run_items env options limit items schedule run)) = Resolved tt ->
        forall t,
          In t (executing (snd (run_items env options limit items schedule run))) ->
          exists r, task_state t = Settled (Return r))
    /\ (forall e,
           fst (fst (run_items env options limit items schedule run)) = Rejected e ->
           exists t,
             In t (executing (snd (run_items env options limit items schedule run)))
             /\ task_state t = Settled (Throw e)).
Proof.
  induction items as [| item rest IH]; intros schedule run Hok.
  - cbn [run_items].
    destruct (await_all_post env options schedule run Hok)
      as ((Hp & Hok' & Hrej) & Hres).
    split; [assumption |]. split; [| split; assumption].
    exists []. rewrite app_nil_r. split; [assumption |].
    split; [apply incl_refl | reflexivity].
  - cbn [run_items].
    pose proof (launch_ok env options item run Hok) as Hok1.
    pose proof (launch_pkgs env options item run) as Hp1.
    set (run1 := launch env options item run) in *.
    destruct (at_limit (length (executing run1)) limit).
    + destruct (await_race_post env options schedule run1 Hok1)
        as (Hp2 & Hok2 & Hrej2).
      destruct (await_race env options schedule run1) as [[s schedule'] run2].
      cbn [fst snd] in Hp2, Hok2, Hrej2.
      destruct s as [[] | e |].
      * set (run3 := mkRun (fst (filter_executing (executing run2)
                                                  (mkReactions [] [])))
                           (results run2) (peak run2)).
        assert (Hexec : executing run3 = executing run2)
          by apply filter_executing_all.
        destruct (IH schedule' run3) as (Hok' & (started & Hp & Hincl & Hall) & Hres & Hrej).
        { now rewrite Hexec. }
        split; [assumption |]. split; [| split; assumption].
        exists (item :: started). rewrite Hp, Hexec, Hp2, Hp1, <- app_assoc.
        split; [reflexivity |]. split.
        -- intros x [<- | Hx]; [now left | right; now apply Hincl].
        -- intro H. now rewrite (Hall H).
      * simpl. split; [assumption |]. split; [| split; [discriminate | assumption]].
        exists [item]. rewrite Hp2, Hp1. split; [reflexivity |].
        split; [| discriminate]. intros x [<- | []]. now left.
      * simpl. split; [assumption |]. split; [| split; discriminate].
        exists [item]. rewrite Hp2, Hp1. split; [reflexivity |].
        split; [| discriminate]. intros x [<- | []]. now left.
    + destruct (IH schedule run1 Hok1)
        as (Hok' & (started & Hp & Hincl & Hall) & Hres & Hrej).
      split; [assumption |]. split; [| split; assumption].
      exists (item :: started). rewrite Hp, Hp1, <- app_assoc.
      split; [reflexivity |]. split.
      * intros x [<- | Hx]; [now left | right; now apply Hincl].
      * intro H. now rewrite (Hall H).
Qed.

(** [runWithConcurrency] resolves only when every item was fulfilled, and
    rejects with the error of an item that failed. *)
Lemma runWithConcurrency_post env options items limit schedule :
  (fst (fst (runWithConcurrency env options items limit schedule)) = Resolved tt ->
   forall pkg, In pkg items ->
               exists r, buildPackage env pkg options = Return r)
  /\ (forall e,
         fst (fst (runWithConcurrency env options items limit schedule))
         = Rejected e ->
         exists pkg, In pkg items /\ buildPackage env pkg options = Throw e).
Proof.
  unfold runWithConcurrency.
  destruct (run_items_post env options limit items schedule (mkRun [] [] 0))
    as (Hok & (started & Hp & Hincl & Hall) & Hres & Hrej).
  { intros t c []. }
  simpl in Hp. split.
  - intros Hresolved pkg Hpkg. rewrite (Hall Hresolved) in Hp.
    rewrite <- Hp in Hpkg. apply in_map_iff in Hpkg as (t & <- & Ht).
    destruct (Hres Hresolved t Ht) as [r Hr]. exists r.
    symmetry. now apply (Hok t).
  - intros e He. destruct (Hrej e He) as (t & Ht & Hstate).
    exists (task_pkg t). split.
    + apply Hincl. rewrite <- Hp. now apply in_map.
    + symmetry. now apply (Hok t).
Qed.

(** [buildAll] resolves only when every buildable package of every layer
    was fulfilled; it rejects with the error of a buildable package that
    failed, or on a layer that names an unknown package. *)
Lemma build_layers_post env options cpus packages layers :
  forall schedule trace,
    (fst (build_layers env options cpus packages layers schedule trace)
     = Resolved tt ->
     forall layer pkgs pkg,
       In layer layers -> layer_packages packages layer = Some pkgs ->
       In pkg pkgs -> has_build_script pkg = true ->
       exists r, buildPackage env pkg options = Return r)
    /\ (forall e,
           fst (build_layers env options cpus packages layers schedule trace)
           = Rejected e ->
           e = TypeError
           \/ exists layer pkgs pkg,
               In layer layers /\ layer_packages packages layer = Some pkgs
               /\ In pkg pkgs /\ has_build_script pkg = true
               /\ buildPackage env pkg options = Throw e).
Proof.
  induction layers as [| layer rest IH]; intros schedule trace; cbn [build_layers].
  - split; [intros _ ? ? ? [] | discriminate].
  - destruct (layer_packages packages layer) as [pkgs |] eqn:Hpkgs.
    + destruct (Nat.eqb (length (filter has_build_script pkgs)) 0) eqn:Hnone.
      * apply Nat.eqb_eq, length_zero_iff_nil in Hnone.
        destruct (IH schedule trace) as [Hres Hrej]. split.
        -- intros Hresolved l ps pkg [<- | Hl] Hps Hpkg Hbuild.
           ++ rewrite Hpkgs in Hps. injection Hps as <-.
              assert (Hin : In pkg (filter has_build_script pkgs))
                by now apply filter_In.
              rewrite Hnone in Hin. contradiction.
           ++ now apply (Hres Hresolved l ps pkg).
        -- intros e He. destruct (Hrej e He) as [-> | (l & ps & pkg & Hl & Hrest)];
             [now left |].
           right. exists l, ps, pkg. split; [now right | assumption].
      * destruct (runWithConcurrency_post env options
                    (filter has_build_script pkgs)
                    (concurrency options cpus) schedule) as [Hrun Hfail].
        destruct (runWithConcurrency env options (filter has_build_script pkgs)
                                     (concurrency options cpus) schedule)
          as [[s schedule'] run].
        simpl in Hrun, Hfail. destruct s as [[] | e |].
        -- destruct (IH schedule' (trace ++ [run])) as [Hres Hrej]. split.
           ++ intros Hresolved l ps pkg [<- | Hl] Hps Hpkg Hbuild.
              ** rewrite Hpkgs in Hps. injection Hps as <-.
                 apply (Hrun eq_refl). now apply filter_In.
              ** now apply (Hres Hresolved l ps pkg).
           ++ intros e He.
              destruct (Hrej e He) as [-> | (l & ps & pkg & Hl & Hrest)];
                [now left |].
              right. exists l, ps, pkg. split; [now right | assumption].
        -- simpl. split; [discriminate |].
           intros e' He'. injection He' as <-.
           destruct (Hfail e eq_refl) as (pkg & Hpkg & Hthrow).
           apply filter_In in Hpkg as [Hpkg Hbuild].
           right. exists layer, pkgs, pkg. split; [now left | auto].
        -- simpl. split; discriminate.
    + simpl. split; [discriminate |]. intros e He. injection He as <-. now left.
Qed.

Lemma buildPackage_cases (env : Environment) (pkg : PackageInfo)
  (options : BuildOptions) :
  (has_build_script pkg = false
   /\ buildPackage env pkg options = Return (mkResult (name pkg) skipped))
  \/ (has_build_script pkg = true
      /\ force options = false /\ needs env (path pkg) = false
      /\ buildPackage env pkg options = Return (mkResult (name pkg) unchanged))
  \/ (has_build_script pkg = true
      /\ (force options = true \/ needs env (path pkg) = true)
      /\ succeeds env (path pkg) = true
      /\ buildPackage env pkg options = Return (mkResult (name pkg) built))
  \/ (has_build_script pkg = true
      /\ (force options = true \/ needs env (path pkg) = true)
      /\ succeeds env (path pkg) = false
      /\ buildPackage env pkg options = Throw (BuildFailed (name pkg))).
Proof.
  unfold buildPackage.
  destruct (has_build_script pkg); simpl; [| now left].
  right.
  destruct (force options), (needs env (path pkg)), (succeeds env (path pkg));
    simpl; tauto.
Qed.

Lemma first_settled_app tasks more c :
  first_settled tasks = Some c -> first_settled (tasks ++ more) = Some c.
Proof.
  induction tasks as [| t tasks IH]; simpl; [discriminate |].
  destruct (task_state t); auto.
Qed.

Lemma await_all_idle env options run :
  snd (await_all env options [] run) = run.
Proof.
  cbn [await_all]. destruct (first_rejected (executing run)); [reflexivity |].
  now destruct (forallb is_settled (executing run)).
Qed.

(** Once a promise of [executing] is fulfilled, the loop of
    [runWithConcurrency] starts every remaining item without waiting for
    any completion, whatever the limit. *)
Lemma run_items_no_wait env options limit rest :
  forall run r,
    first_settled (executing run) = Some (Return r) ->
    executing (snd (run_items env options limit rest [] run))
    = executing run ++ map (start env options) rest.
Proof.
  induction rest as [| item rest IH]; intros run r Hfirst; cbn [run_items].
  - rewrite await_all_idle. now rewrite app_nil_r.
  - assert (Hfirst1 : first_settled (executing (launch env options item run))
                      = Some (Return r))
      by (simpl; now apply first_settled_app).
    destruct (at_limit (length (executing (launch env options item run))) limit).
    + cbn [await_race]. rewrite Hfirst1.
      rewrite (IH _ r); cbn [executing]; rewrite filter_executing_all.
      * simpl. now rewrite <- app_assoc.
      * exact Hfirst1.
    + rewrite (IH _ r Hfirst1). simpl. now rewrite <- app_assoc.
Qed.

Lemma start_forced env options p :
  force options = true -> has_build_script p = true ->
  start env options p = mkTask p Building.
Proof. intros Hforce Hbuild. unfold start. now rewrite Hbuild, Hforce. Qed.

Lemma started_forced env options (pkgs : list PackageInfo) :
  force options = true ->
  (forall p, In p pkgs -> has_build_script p = true) ->
  first_settled (map (start env options) pkgs) = None
  /\ first_rejected (map (start env options) pkgs) = None
  /\ in_flight (map (start env options) pkgs) = length pkgs.
Proof.
  intros Hforce Hall. induction pkgs as [| p pkgs IH]; [now repeat split |].
  destruct IH as (H1 & H2 & H3); [intros q Hq; apply Hall; now right |].
  unfold in_flight in *. cbn [map first_settled first_rejected filter].
  rewrite (start_forced env options p Hforce (Hall p (or_introl eq_refl))).
  cbn. rewrite H1, H2, H3. auto.
Qed.

Lemma await_all_one env options i run :
  first_rejected (executing run) = None ->
  forallb is_settled (executing run) = false ->
  snd (await_all env options [i] run) = deliver env options i run.
Proof.
  intros Hrej Hall. cbn [await_all]. rewrite Hrej, Hall.
  destruct (first_rejected (executing (deliver env options i run)));
    [reflexivity |].
  now destruct (forallb is_settled (executing (deliver env options i run))).
Qed.

Lemma await_race_one env options i run r :
  first_settled (executing run) = None ->
  first_settled (executing (deliver env options i run)) = Some (Return r) ->
  await_race env options [i] run
  = (Resolved tt, [], deliver env options i run).
Proof.
  intros Hnone Hsome. cbn [await_race]. now rewrite Hnone, Hsome.
Qed.

(** With a forced build of buildable packages, once the build of the first
    package has completed every other package of the layer has been
    started, whatever the limit. *)
Lemma run_items_first_completion env options limit items :
  forall started run first r,
    force options = true ->
    (forall p, In p (started ++ items) -> has_build_script p = true) ->
    executing run = map (start env options) started ->
    hd_error (started ++ items) = Some first ->
    buildPackage env first options = Return r ->
    executing (snd (run_items env options limit items [0] run))
    = mkTask first (Settled (Return r))
      :: map (start env options) (tl (started ++ items)).
Proof.
  induction items as [| item rest IH];
    intros started run first r Hforce Hall Hexec Hfirst Hbuild.
  - rewrite app_nil_r in *. destruct started as [| p started]; [discriminate |].
    injection Hfirst as ->.
    destruct (started_forced env options (first :: started) Hforce Hall)
      as (_ & Hrej & _).
    pose proof (start_forced env options first Hforce
                  (Hall first (or_introl eq_refl))) as Hstart.
    cbn [run_items]. rewrite await_all_one.
    + cbn [deliver executing]. rewrite Hexec. cbn [map]. rewrite Hstart.
      cbn [advance_nth advance task_state task_pkg]. now rewrite Hbuild.
    + now rewrite Hexec.
    + rewrite Hexec. cbn [map]. now rewrite Hstart.
  - cbn [run_items].
    assert (Hexec1 : executing (launch env options item run)
                     = map (start env options) (started ++ [item])).
    { simpl. now rewrite Hexec, map_app. }
    assert (Hall1 : forall p, In p (started ++ [item]) -> has_build_script p = true).
    { intros p Hp. apply Hall. apply in_app_or in Hp as [Hp | [<- | []]];
        apply in_or_app; [now left | right; now left]. }
    assert (Hfirst1 : hd_error (started ++ [item]) = Some first).
    { destruct started; [exact Hfirst | exact Hfirst]. }
    destruct (at_limit (length (executing (launch env options item run))) limit).
    + destruct (started_forced env options (started ++ [item]) Hforce Hall1)
        as (Hnone & _ & _).
      assert (Hdelivered :
                executing (deliver env options 0 (launch env options item run))
                = mkTask first (Settled (Return r))
                  :: map (start env options) (tl (started ++ [item]))).
      { cbn [deliver executing]. rewrite Hexec1.
        destruct (started ++ [item]) as [| p l] eqn:E; [discriminate |].
        injection Hfirst1 as ->. cbn [map tl].
        rewrite (start_forced env options first Hforce
                   (Hall1 first (or_introl eq_refl))).
        cbn [advance_nth advance task_state task_pkg]. now rewrite Hbuild. }
      rewrite (await_race_one env options 0 _ r);
        [| now rewrite Hexec1 | now rewrite Hdelivered].
      rewrite (run_items_no_wait env options limit rest _ r);
        cbn [executing]; rewrite filter_executing_all, Hdelivered.
      * cbn [app]. f_equal. rewrite <- map_app. f_equal.
        destruct started; simpl; [reflexivity | now rewrite <- app_assoc].
      * reflexivity.
    + rewrite (IH (started ++ [item]) _ first r Hforce); try assumption.
      * now rewrite <- app_assoc.
      * now rewrite <- app_assoc.
      * now rewrite <- app_assoc.
Qed.

Lemma runWithConcurrency_first_completion env options limit pkgs first r :
  force options = true ->
  (forall p, In p pkgs -> has_build_script p = true) ->
  hd_error pkgs = Some first ->
  buildPackage env first options = Return r ->
  in_flight (executing (snd (runWithConcurrency env options pkgs limit [0])))
  = length pkgs - 1.
Proof.
  intros Hforce Hall Hfirst Hbuild. unfold runWithConcurrency.
  rewrite (run_items_first_completion env options limit pkgs [] _ first r);
    try assumption; try reflexivity.
  cbn [app]. destruct pkgs as [| p pkgs]; [discriminate |]. cbn [tl length].
  unfold in_flight at 1. cbn [filter is_building task_state].
  destruct (started_forced env options pkgs Hforce) as (_ & _ & Hcount).
  { intros q Hq. apply Hall. now right. }
  fold (in_flight (map (start env options) pkgs)). rewrite Hcount. lia.
Qed.

(** C4. The default of the limit is the number of processing units, and
    the next item is started as soon as a promise settles; but the limit
    does not bound the number of invocations in flight.  [executing] never
    shrinks (the filter keeps every promise), so after the first completion
    [Promise.race] is settled at once on every iteration and every
    remaining item is started: in a forced build of [n] buildable packages,
    [n - 1] invocations are in flight once the first has finished, whatever
    the limit; with a limit of 2 and four packages that is three. *)
Theorem runWithConcurrency_exceeds_limit :
  (forall force cpus,
      concurrency (mkOptions force None) cpus = Num (Z.of_nat cpus))
  /\ (forall tasks rs, fst (filter_executing tasks rs) = tasks)
  /\ (forall env options limit rest run r,
         first_settled (executing run) = Some (Return r) ->
         executing (snd (run_items env options limit rest [] run))
         = executing run ++ map (start env options) rest)
  /\ (forall env options limit pkgs first r,
         force options = true ->
         (forall p, In p pkgs -> has_build_script p = true) ->
         hd_error pkgs = Some first ->
         buildPackage env first options = Return r ->
         in_flight
           (executing (snd (runWithConcurrency env options pkgs limit [0])))
         = length pkgs - 1)
  /\ buildAll all_succeed (mkOptions true (Some (Num 2))) 8
              [["a"; "b"; "c"; "d"]] four_packages [0]
     = Pending
  /\ map (fun t => (name (task_pkg t), task_state t))
         (buildAll_tasks all_succeed (mkOptions true (Some (Num 2))) 8
                         [["a"; "b"; "c"; "d"]] four_packages [0])
     = [("a", Settled (Return (mkResult "a" built)));
        ("b", Building); ("c", Building); ("d", Building)]
  /\ buildAll all_succeed (mkOptions true (Some (Num 2))) 8
              [["a"; "b"; "c"; "d"]] four_packages [0; 1; 2; 3]
     = Resolved tt
  /\ buildAll_peak all_succeed (mkOptions true (Some (Num 2))) 8
                   [["a"; "b"; "c"; "d"]] four_packages [0; 1; 2; 3]
     = 3.
Proof.
  split; [reflexivity |]. split; [exact filter_executing_all |].
  split; [exact run_items_no_wait |].
  split; [exact runWithConcurrency_first_completion |].
  repeat split; vm_compute; reflexivity.
Qed.

Lemma runWithConcurrency_exceeds_limit_witness :
  force (mkOptions true (Some (Num 2))) = true
  /\ (forall p, In p (JsMap.values four_packages) -> has_build_script p = true)
  /\ hd_error (JsMap.values four_packages) = Some (createPackage "a" [])
  /\ buildPackage all_succeed (createPackage "a" [])
                  (mkOptions true (Some (Num 2)))
     = Return (mkResult "a" built)
  /\ in_flight
       (executing
          (snd (runWithConcurrency all_succeed (mkOptions true (Some (Num 2)))
                                   (JsMap.values four_packages) (Num 2) [0])))
     = 3.
Proof.
  assert (Hall : forall p, In p (JsMap.values four_packages) ->
                           has_build_script p = true).
  { intros p [<- | [<- | [<- | [<- | []]]]]; reflexivity. }
  split; [reflexivity |]. split; [exact Hall |]. split; [reflexivity |].
  split; [reflexivity |].
  destruct runWithConcurrency_exceeds_limit as (_ & _ & _ & Hgeneral & _).
  exact (Hgeneral all_succeed (mkOptions true (Some (Num 2))) (Num 2)
                  (JsMap.values four_packages) (createPackage "a" [])
                  (mkResult "a" built) eq_refl Hall eq_refl eq_refl).
Defined.

(** The counterexample to C5.  What [buildAll] settles with is the same
    whether a package was built or found unchanged, and the same whether a
    package was attempted or not: it carries no outcome of any package. *)
Lemma buildAll_settlement_hides_outcomes :
  (buildAll all_succeed (mkOptions false None) 8 [["a"]] four_packages [0; 0]
   = Resolved tt
   /\ buildAll nothing_changed (mkOptions false None) 8 [["a"]] four_packages [0; 0]
      = Resolved tt
   /\ buildPackage all_succeed (createPackage "a" []) (mkOptions false None)
      = Return (mkResult "a" built)
   /\ buildPackage nothing_changed (createPackage "a" []) (mkOptions false None)
      = Return (mkResult "a" unchanged))
  /\ (buildAll a_fails (mkOptions true (Some (Num 2))) 8 [["b"; "a"; "c"]]
               four_packages [0; 1; 2]
      = Rejected (BuildFailed "a")
      /\ map (fun t => (name (task_pkg t), task_state t))
             (buildAll_tasks a_fails (mkOptions true (Some (Num 2))) 8
                             [["b"; "a"; "c"]] four_packages [0; 1; 2])
         = [("b", Settled (Return (mkResult "b" built)));
            ("a", Settled (Throw (BuildFailed "a")));
            ("c", Building)]
      /\ buildAll a_fails (mkOptions true (Some (Num 2))) 8 [["b"; "a"; "c"]]
                  four_packages [1; 0; 2]
         = Rejected (BuildFailed "a")
      /\ map (fun t => (name (task_pkg t), task_state t))
             (buildAll_tasks a_fails (mkOptions true (Some (Num 2))) 8
                             [["b"; "a"; "c"]] four_packages [1; 0; 2])
         = [("b", Building); ("a", Settled (Throw (BuildFailed "a")))])
  /\ ~ report_tells_attempts.
Proof.
  split; [repeat split; vm_compute; reflexivity |].
  split; [repeat split; vm_compute; reflexivity |].
  intros [attempted Hreport].
  pose proof (Hreport a_fails (mkOptions true (Some (Num 2))) 8
                      [["b"; "a"; "c"]] four_packages [0; 1; 2] "c") as H1.
  pose proof (Hreport a_fails (mkOptions true (Some (Num 2))) 8
                      [["b"; "a"; "c"]] four_packages [1; 0; 2] "c") as H2.
  vm_compute in H1, H2.
  assert (Hc : attempted (Rejected (BuildFailed "a")) "c" = true).
  { apply H1. tauto. }
  apply H2 in Hc. destruct Hc as [Hc | [Hc | []]]; discriminate.
Qed.
(** ** The step budgets of the loops are never exhausted *)

Lemma positive_entries_set (inDegree : JsMap.t number) (x : string) (v : number) :
  positive_entries (JsMap.set x v inDegree)
  + (match JsMap.get x inDegree with
     | Some old => if is_positive old then 1 else 0
     | None => 0
     end)
  = positive_entries inDegree + (if is_positive v then 1 else 0).
Proof.
  unfold positive_entries.
  induction inDegree as [| [k old] m IH]; simpl.
  - destruct (is_positive v); reflexivity.
  - destruct (String.eqb k x); simpl.
    + destruct (is_positive v), (is_positive old); simpl; lia.
    + destruct (is_positive old); simpl; lia.
Qed.

Lemma relax_potential (dependents : list string) :
  forall inDegree queue,
    potential (fst (relax dependents inDegree queue))
              (snd (relax dependents inDegree queue))
    = potential inDegree queue.
Proof.
  induction dependents as [| d rest IH]; intros inDegree queue; [reflexivity |].
  cbn [relax]. rewrite IH. unfold potential.
  pose proof (positive_entries_set inDegree d
                (match JsMap.get d inDegree with
                 | Some (Num z) => Num (z - 1)
                 | _ => NaN
                 end)) as Hset.
  destruct (JsMap.get d inDegree) as [[z |] |]; cbn [number_is_zero is_positive] in *.
  - destruct (Z.eqb_spec (z - 1) 0) as [Hz | Hz].
    + rewrite length_app. simpl.
      destruct (Z.ltb_spec 0 (z - 1)); [lia |].
      destruct (Z.ltb_spec 0 z); lia.
    + destruct (Z.ltb_spec 0 (z - 1)); destruct (Z.ltb_spec 0 z); lia.
  - lia.
  - lia.
Qed.

Lemma kahn_within_budget (graph : DependencyGraph) (fuel : nat) :
  forall inDegree queue result,
    potential inDegree queue <= fuel ->
    kahn fuel graph inDegree queue result <> None.
Proof.
  induction fuel as [| fuel IH]; intros inDegree queue result Hfuel.
  - destruct queue; [discriminate |]. unfold potential in Hfuel. simpl in Hfuel. lia.
  - destruct queue as [| current queue]; [discriminate |].
    cbn [kahn]. apply IH. rewrite relax_potential.
    unfold potential in *. simpl in Hfuel. lia.
Qed.

Lemma init_queue_potential (inDegree : JsMap.t number) :
  potential inDegree (init_queue inDegree) <= length inDegree.
Proof.
  unfold potential, positive_entries, init_queue. rewrite length_map.
  induction inDegree as [| [k v] m IH]; simpl; [lia |].
  destruct v as [z |]; simpl.
  - destruct (Z.eqb_spec z 0) as [-> | Hz]; simpl; [lia |].
    destruct (Z.ltb z 0), (Z.ltb 0 z); simpl; lia.
  - lia.
Qed.

Lemma JsMap_set_length {V : Type} (k : string) (v : V) (m : JsMap.t V) :
  length (JsMap.set k v m) <= S (length m).
Proof.
  induction m as [| [k' v'] m IH]; simpl; [lia |].
  destruct (String.eqb k' k); simpl; lia.
Qed.

Lemma init_inDegree_length (graph : DependencyGraph) (l : JsMap.t PackageInfo) :
  forall acc inDegree,
    forM l
         (fun entry inDegree =>
            match JsMap.get (fst entry) (edges graph) with
            | Some deps =>
                Return (JsMap.set (fst entry)
                                  (Num (Z.of_nat (JsSet.size deps))) inDegree)
            | None => Throw TypeError
            end) acc = Return inDegree ->
    length inDegree <= length acc + length l.
Proof.
  induction l as [| entry l IH]; intros acc inDegree H; simpl in H.
  - injection H as <-. simpl. lia.
  - destruct (JsMap.get (fst entry) (edges graph)) as [deps |]; [| discriminate].
    simpl in H. apply IH in H.
    pose proof (JsMap_set_length (fst entry) (Num (Z.of_nat (JsSet.size deps))) acc).
    simpl. lia.
Qed.

(** [topologicalSort] ends within its budget on every graph, well formed
    or not. *)
Lemma topologicalSort_within_budget (graph : DependencyGraph) :
  topologicalSort graph <> Throw OutOfFuel.
Proof.
  unfold topologicalSort, kahn_result.
  destruct (init_inDegree graph) as [inDegree | e] eqn:Hinit.
  - simpl.
    destruct (kahn (JsMap.size (nodes graph)) graph inDegree
                   (init_queue inDegree) []) as [result |] eqn:Hrun.
    + simpl. destruct (negb (Nat.eqb (length result) (JsMap.size (nodes graph))));
        discriminate.
    + exfalso. apply (kahn_within_budget graph _ _ _ _ ) in Hrun; [assumption |].
      unfold init_inDegree in Hinit. apply init_inDegree_length in Hinit.
      pose proof (init_queue_potential inDegree). unfold JsMap.size.
      simpl in Hinit. lia.
  - simpl. unfold init_inDegree in Hinit. intro H. injection H as ->.
    clear - Hinit. revert Hinit. generalize (@JsMap.empty number).
    induction (nodes graph) as [| entry l IH]; intros acc H; simpl in H;
      [discriminate |].
    destruct (JsMap.get (fst entry) (edges graph)); [| discriminate].
    simpl in H. now apply IH in H.
Qed.

Lemma layering_within_budget (graph : DependencyGraph)
  (sortedPackages : list string) (fuel : nat) :
  forall layers assigned,
    NoDup assigned ->
    length sortedPackages <= fuel + length assigned ->
    layering fuel sortedPackages graph layers assigned <> Throw OutOfFuel.
Proof.
  induction fuel as [| fuel IH]; intros layers assigned Hnd Hfuel; cbn [layering].
  - destruct (Nat.ltb_spec (JsSet.size assigned) (length sortedPackages)) as [Hlt | Hge];
      [| discriminate].
    unfold JsSet.size in Hlt. simpl in Hfuel. lia.
  - destruct (Nat.ltb (JsSet.size assigned) (length sortedPackages)); [| discriminate].
    destruct (scan_layer sortedPackages graph assigned) as [| p layer] eqn:Elayer;
      [discriminate |].
    apply IH; [now apply JsSet_add_all_NoDup |].
    assert (Hp : In p (scan_layer sortedPackages graph assigned))
      by (rewrite Elayer; now left).
    apply scan_layer_In in Hp as (_ & Hpna & _).
    assert (Hle : length (p :: assigned)
                  <= length (fold_left (fun s pkg => JsSet.add pkg s)
                                       (p :: layer) assigned)).
    { apply NoDup_incl_length.
      - now constructor.
      - intros x [<- | Hx]; apply JsSet_add_all_In; [right; now left | now left]. }
    cbn [length] in Hle. lia.
Qed.

(** [getBuildLayers] ends within its budget on every input. *)
Lemma getBuildLayers_within_budget (graph : DependencyGraph)
  (sortedPackages : list string) :
  getBuildLayers sortedPackages graph <> Throw OutOfFuel.
Proof.
  apply layering_within_budget; [constructor | simpl; lia].
Qed.

(** [collectDependencies] ends within its budget on every workspace. *)
Lemma collectDependencies_within_budget (packageJson : PackageJsonData)
  (allPackages : JsMap.t PackageInfo) :
  JsMap.wf allPackages ->
  collectDependencies packageJson allPackages <> Throw OutOfFuel.
Proof.
  intro Hwf.
  destruct (collectDependencies_closure allPackages Hwf packageJson)
    as (collected & -> & _).
  discriminate.
Qed.

(** ** The scheduling of a package set, end to end *)

(** A package set whose in-set dependencies have no cycle is always
    scheduled, every package in the layer after its last dependency. *)
Lemma schedule_acyclic (packages : JsMap.t PackageInfo) :
  JsMap.wf packages ->
  acyclic (graph_of packages) ->
  exists layers,
    schedule packages = Return layers
    /\ NoDup (concat layers)
    /\ (forall p, In p (concat layers) <-> In p (JsMap.keys packages))
    /\ (forall p d i,
           layer_index layers p = Some i ->
           declared_in packages p d ->
           exists j, layer_index layers d = Some j /\ j < i).
Proof.
  intros Hwf Hacyclic. unfold schedule.
  destruct (buildDependencyGraph_spec packages Hwf)
    as (graph & Hbuild & Hnodes & _ & _ & Hf & _).
  pose proof (graph_of_build packages Hwf) as Hgraph.
  rewrite Hbuild in Hgraph. injection Hgraph as Hgraph. rewrite <- Hgraph in Hacyclic.
  rewrite Hbuild. simpl in *.
  pose proof (buildDependencyGraph_wf packages graph Hwf Hbuild) as Hgwf.
  destruct (topologicalSort_acyclic graph Hgwf Hacyclic)
    as (order & -> & Hnd & Hall & Hbefore).
  simpl.
  destruct (getBuildLayers_spec graph order Hnd Hbefore)
    as (layers & assigned & -> & Hinv & Hcover).
  exists layers. split; [reflexivity |].
  split; [apply (li_disjoint _ _ _ _ Hinv) |]. split.
  - intro p. rewrite <- Hnodes, <- Hall. split; [| apply Hcover].
    intro Hp. now apply (li_incl _ _ _ _ Hinv), (li_members _ _ _ _ Hinv).
  - intros p d i Hi Hd. apply (li_index _ _ _ _ Hinv) in Hi.
    apply (expected_layer_Some _ _ _ Hi d). now apply Hf.
Qed.

(** "handles complex dependency graph" of core/graph.test.ts. *)
Example schedule_complex :
  schedule complex_packages
  = Return [["core"; "utils"]; ["lib-a"; "lib-b"]; ["app"]].
Proof. vm_compute. reflexivity. Qed.

(** Three independent packages make one layer. *)
Example schedule_independent :
  schedule (packages_of [("pkg-a", []); ("pkg-b", []); ("pkg-c", [])])
  = Return [["pkg-a"; "pkg-b"; "pkg-c"]].
Proof. vm_compute. reflexivity. Qed.

(** Two packages that depend on each other are both named by the error. *)
Example schedule_circular :
  schedule circular_packages = Throw (CircularDependency ["pkg-a"; "pkg-b"])
  /\ message (CircularDependency ["pkg-a"; "pkg-b"])
     = "Circular dependency detected involving: pkg-a, pkg-b".
Proof. split; vm_compute; reflexivity. Qed.

(** A dependency outside the set is dropped. *)
Example schedule_external :
  schedule (packages_of [("pkg-a", ["external-pkg"])]) = Return [["pkg-a"]].
Proof. vm_compute. reflexivity. Qed.
(** ** core/graph.ts: behaviour outside the data-model invariant *)

(** The first loop of [topologicalSort] fails exactly at a node without
    an entry in [edges]. *)
Lemma init_inDegree_loop (graph : DependencyGraph) (l : JsMap.t PackageInfo) :
  forall acc,
    (exists inDegree,
        forM l
             (fun entry inDegree =>
                match JsMap.get (fst entry) (edges graph) with
                | Some deps =>
                    Return (JsMap.set (fst entry)
                                      (Num (Z.of_nat (JsSet.size deps))) inDegree)
                | None => Throw TypeError
                end) acc = Return inDegree
        /\ forall n, In n (JsMap.keys l) -> JsMap.get n (edges graph) <> None)
    \/ (forM l
             (fun entry inDegree =>
                match JsMap.get (fst entry) (edges graph) with
                | Some deps =>
                    Return (JsMap.set (fst entry)
                                      (Num (Z.of_nat (JsSet.size deps))) inDegree)
                | None => Throw TypeError
                end) acc = Throw TypeError
        /\ exists n, In n (JsMap.keys l) /\ JsMap.get n (edges graph) = None).
Proof.
  induction l as [| [k pkg] l IH]; intro acc.
  - left. exists acc. split; [reflexivity | intros n []].
  - cbn [forM fst]. destruct (JsMap.get k (edges graph)) as [deps |] eqn:Ek.
    + cbn [bind].
      destruct (IH (JsMap.set k (Num (Z.of_nat (JsSet.size deps))) acc))
        as [(inDegree & Hrun & Hall) | (Hrun & n & Hn & Hnone)].
      * left. exists inDegree. split; [exact Hrun |].
        intros n Hn. simpl in Hn.
        destruct Hn as [<- | Hn]; [congruence | now apply Hall].
      * right. split; [exact Hrun |]. exists n. split; [now right | exact Hnone].
    + right. split; [reflexivity |]. exists k. split; [now left | exact Ek].
Qed.

(** X1: [topologicalSort] throws a [TypeError] exactly when some node has
    no entry in [edges] (the [!] on [graph.edges.get(name)] is then applied
    to [undefined]); a node without an entry in [reverseEdges] is not an
    error.  With every entry present the outcome is an ordering or the
    circular-dependency error. *)
Theorem topologicalSort_missing_edges (graph : DependencyGraph) :
  (topologicalSort graph = Throw TypeError
   <-> exists n, In n (JsMap.keys (nodes graph))
                 /\ JsMap.get n (edges graph) = None)
  /\ ((forall n, In n (JsMap.keys (nodes graph)) ->
                 JsMap.get n (edges graph) <> None) ->
      (exists order, topologicalSort graph = Return order)
      \/ (exists remaining,
             topologicalSort graph = Throw (CircularDependency remaining))).
Proof.
  pose proof (topologicalSort_within_budget graph) as Hbudget.
  assert (Hcases :
            (exists n, In n (JsMap.keys (nodes graph))
                       /\ JsMap.get n (edges graph) = None)
            /\ topologicalSort graph = Throw TypeError
            \/ (forall n, In n (JsMap.keys (nodes graph)) ->
                          JsMap.get n (edges graph) <> None)
               /\ ((exists order, topologicalSort graph = Return order)
                   \/ (exists remaining,
                          topologicalSort graph
                          = Throw (CircularDependency remaining)))).
  { unfold topologicalSort, kahn_result, init_inDegree in *.
    destruct (init_inDegree_loop graph (nodes graph) JsMap.empty)
      as [(inDegree & Hrun & Hall) | (Hrun & Hmissing)].
    - right. split; [exact Hall |].
      rewrite Hrun in *. cbn [bind] in *.
      destruct (kahn (JsMap.size (nodes graph)) graph inDegree
                     (init_queue inDegree) []) as [result |];
        [| now contradiction Hbudget].
      cbn [bind].
      destruct (negb (Nat.eqb (length result) (JsMap.size (nodes graph))));
        eauto.
    - left. split; [exact Hmissing |]. rewrite Hrun. reflexivity. }
  split.
  - split.
    + intro Hthrow. destruct Hcases as [[Hmissing _] | [_ [[o Ho] | [r Hr]]]];
        [exact Hmissing | congruence | congruence].
    + intros (n & Hn & Hnone).
      destruct Hcases as [[_ Hthrow] | [Hall _]]; [exact Hthrow |].
      now contradiction (Hall n Hn).
  - intro Hall. destruct Hcases as [[(n & Hn & Hnone) _] | [_ Hout]];
      [now contradiction (Hall n Hn) | exact Hout].
Qed.

(** The inner loop of [topologicalSort] only appends to the queue. *)
Lemma relax_appends (dependents : list string) :
  forall inDegree queue,
    exists more, snd (relax dependents inDegree queue) = queue ++ more.
Proof.
  induction dependents as [| d rest IH]; intros inDegree queue; cbn [relax].
  - exists []. now rewrite app_nil_r.
  - match goal with
    | |- context [relax rest ?m ?q] => destruct (IH m q) as [more Hmore]
    end.
    rewrite Hmore.
    match goal with
    | |- context [if ?c then _ else _] => destruct c
    end.
    + exists ([d] ++ more). now rewrite app_assoc.
    + now exists more.
Qed.

(** The [while] loop takes the queue in order: the result starts with
    what was in [result] and in [queue] when the loop was entered. *)
Lemma kahn_fifo (graph : DependencyGraph) (fuel : nat) :
  forall inDegree queue result final,
    kahn fuel graph inDegree queue result = Some final ->
    exists rest, final = result ++ queue ++ rest.
Proof.
  induction fuel as [| fuel IH]; intros inDegree queue result final Hrun.
  - destruct queue; [| discriminate].
    injection Hrun as <-. exists []. now rewrite !app_nil_r.
  - destruct queue as [| current queue'].
    + injection Hrun as <-. exists []. now rewrite !app_nil_r.
    + cbn [kahn] in Hrun. apply IH in Hrun as [rest Hrest].
      destruct (relax_appends (adjacent (reverseEdges graph) current)
                              inDegree queue') as [more Hmore].
      rewrite Hmore in Hrest.
      exists (more ++ rest). rewrite Hrest.
      rewrite <- !app_assoc. reflexivity.
Qed.

(** X2: the ordering [topologicalSort] returns starts with the packages
    that have no dependency, in the insertion order of [graph.nodes]. *)
Theorem topologicalSort_roots_first (graph : DependencyGraph)
  (order : list string) :
  graph_wf graph ->
  topologicalSort graph = Return order ->
  exists rest,
    order = filter (is_root graph) (JsMap.keys (nodes graph)) ++ rest.
Proof.
  intros Hwf Hsort.
  unfold topologicalSort, kahn_result in Hsort.
  rewrite (init_inDegree_spec graph Hwf) in Hsort. cbn [bind] in Hsort.
  rewrite (init_queue_spec
             (fun n => Num (Z.of_nat (length (adjacent (edges graph) n))))
             (nodes graph)) in Hsort.
  destruct (kahn _ graph _ _ []) as [final |] eqn:Hrun; [| discriminate].
  cbn [bind] in Hsort.
  destruct (negb (Nat.eqb (length final) (JsMap.size (nodes graph))));
    [discriminate |].
  injection Hsort as <-.
  apply kahn_fifo in Hrun as [rest Hrest]. cbn [app] in Hrest.
  exists rest. rewrite Hrest. f_equal.
  apply filter_ext. intro n. unfold is_root, JsSet.size, number_is_zero.
  destruct (length (adjacent (edges graph) n)); reflexivity.
Qed.

(** A forest of three roots and two dependents. *)
Lemma topologicalSort_roots_first_witness :
  graph_wf (graph_of complex_packages)
  /\ topologicalSort (graph_of complex_packages)
     = Return ["core"; "utils"; "lib-a"; "lib-b"; "app"]
  /\ exists rest,
      ["core"; "utils"; "lib-a"; "lib-b"; "app"]
      = filter (is_root (graph_of complex_packages))
               (JsMap.keys (nodes (graph_of complex_packages))) ++ rest.
Proof.
  split; [exact (graph_of_wf complex_packages complex_packages_wf) |].
  split; [reflexivity |].
  exact (topologicalSort_roots_first (graph_of complex_packages)
           ["core"; "utils"; "lib-a"; "lib-b"; "app"]
           (graph_of_wf complex_packages complex_packages_wf) eq_refl).
Defined.

(** ** [getBuildLayers] on an arbitrary input *)

Lemma count_occ_filter (f : string -> bool) (l : list string) (p : string) :
  count_occ string_dec (filter f l) p
  = if f p then count_occ string_dec l p else 0.
Proof.
  induction l as [| x l IH]; simpl.
  - now destruct (f p).
  - destruct (f x) eqn:Ex; simpl.
    + destruct (string_dec x p) as [-> | Hne]; rewrite IH.
      * now rewrite Ex.
      * reflexivity.
    + rewrite IH. destruct (string_dec x p) as [-> | Hne]; [| reflexivity].
      now rewrite Ex.
Qed.

Lemma JsSet_has_add_all (l : list string) (s : JsSet.t) (p : string) :
  JsSet.has (fold_left (fun s pkg => JsSet.add pkg s) l s) p
  = JsSet.has s p || JsSet.has l p.
Proof.
  apply eq_true_iff_eq.
  rewrite orb_true_iff, !JsSet_has_In. apply JsSet_add_all_In.
Qed.

Section LayeringAnyInput.

Variable graph : DependencyGraph.
Variable sortedPackages : list string.

Lemma layering_sound_init : layering_sound sortedPackages graph [] JsSet.empty.
Proof.
  constructor; simpl.
  - constructor.
  - intros x [].
  - reflexivity.
  - intros layer [].
  - discriminate.
Qed.

(** An assigned package is in some layer. *)
Lemma layering_sound_member layers assigned p :
  layering_sound sortedPackages graph layers assigned ->
  In p assigned -> In p (concat layers).
Proof.
  intros Hinv Hp.
  apply (count_occ_In string_dec). rewrite (ls_count _ _ _ _ Hinv).
  pose proof Hp as Hhas. apply JsSet_has_In in Hhas. rewrite Hhas.
  apply (count_occ_In string_dec). now apply (ls_incl _ _ _ _ Hinv).
Qed.

Lemma layering_sound_step layers assigned :
  layering_sound sortedPackages graph layers assigned ->
  scan_layer sortedPackages graph assigned <> [] ->
  layering_sound sortedPackages graph
    (layers ++ [scan_layer sortedPackages graph assigned])
    (fold_left (fun s pkg => JsSet.add pkg s)
               (scan_layer sortedPackages graph assigned) assigned).
Proof.
  intros Hinv Hprogress.
  pose proof Hinv as [Hnd Hincl Hcount Hne Hbefore].
  set (layer := scan_layer sortedPackages graph assigned) in *.
  assert (Hlayer : forall p, In p layer
                             <-> In p sortedPackages /\ ~ In p assigned
                                 /\ forall d, depends_on graph p d -> In d assigned)
    by (intro p; apply scan_layer_In).
  constructor.
  - now apply JsSet_add_all_NoDup.
  - intros p Hp. apply JsSet_add_all_In in Hp as [Hp | Hp]; [now apply Hincl |].
    now apply Hlayer in Hp.
  - intro p. rewrite concat_app, count_occ_app. simpl. rewrite app_nil_r.
    rewrite Hcount, JsSet_has_add_all.
    destruct (JsSet.has assigned p) eqn:Eold; cbn [orb].
    + assert (Hnl : ~ In p layer).
      { intro Hp. apply Hlayer in Hp as (_ & Hna & _).
        apply Hna. now apply JsSet_has_In. }
      apply (count_occ_not_In string_dec) in Hnl. rewrite Hnl. lia.
    + destruct (JsSet.has layer p) eqn:Enew.
      * apply JsSet_has_In in Enew. unfold layer, scan_layer in *.
        rewrite count_occ_filter.
        apply filter_In in Enew as [_ ->]. reflexivity.
      * apply JsSet_has_not_In, (count_occ_not_In string_dec) in Enew.
        now rewrite Enew.
  - intros l Hl. apply in_app_or in Hl as [Hl | [<- | []]];
      [now apply Hne | assumption].
  - intros p d i Hi Hd. rewrite layer_index_snoc in Hi.
    destruct (layer_index layers p) as [i' |] eqn:Eold.
    + injection Hi as <-. destruct (Hbefore p d i' Eold Hd) as (j & Hj & Hlt).
      exists j. split; [| exact Hlt]. rewrite layer_index_snoc. now rewrite Hj.
    + destruct (JsSet.has layer p) eqn:Ein; [| discriminate].
      injection Hi as <-. apply JsSet_has_In, Hlayer in Ein as (_ & _ & Hdeps).
      assert (Hin : In d (concat layers))
        by (apply (layering_sound_member layers assigned); auto).
      apply layer_index_In in Hin as [j Hj].
      exists j. split; [rewrite layer_index_snoc; now rewrite Hj |].
      now apply layer_index_Some in Hj.
Qed.

(** When the loop ends normally, every listed package is assigned. *)
Lemma layering_sound_ends fuel :
  forall layers assigned layers',
    layering_sound sortedPackages graph layers assigned ->
    layering fuel sortedPackages graph layers assigned = Return layers' ->
    exists assigned',
      layering_sound sortedPackages graph layers' assigned'
      /\ length sortedPackages <= length assigned'.
Proof.
  induction fuel as [| fuel IH]; intros layers assigned layers' Hinv Hrun;
    cbn [layering] in Hrun;
    destruct (Nat.ltb_spec (JsSet.size assigned) (length sortedPackages))
      as [Hlt | Hge].
  - discriminate.
  - injection Hrun as <-. exists assigned. now split.
  - pose proof (layering_sound_step layers assigned Hinv) as Hstep.
    destruct (scan_layer sortedPackages graph assigned) as [| p layer] eqn:Elayer;
      [discriminate |].
    eapply IH; [| exact Hrun]. apply Hstep. discriminate.
  - injection Hrun as <-. exists assigned. now split.
Qed.

(** The loop knows one error of its own. *)
Lemma layering_throws fuel :
  forall layers assigned e,
    layering fuel sortedPackages graph layers assigned = Throw e ->
    e = CouldNotMakeProgress \/ e = OutOfFuel.
Proof.
  induction fuel as [| fuel IH]; intros layers assigned e Hrun;
    cbn [layering] in Hrun;
    destruct (Nat.ltb (JsSet.size assigned) (length sortedPackages));
    try discriminate.
  - injection Hrun as <-. now right.
  - destruct (scan_layer sortedPackages graph assigned) as [| p layer].
    + injection Hrun as <-. now left.
    + now apply IH in Hrun.
Qed.

(** What a full assignment says about the input. *)
Lemma layering_sound_full layers assigned :
  layering_sound sortedPackages graph layers assigned ->
  length sortedPackages <= length assigned ->
  NoDup sortedPackages
  /\ (forall p, count_occ string_dec (concat layers) p
                = count_occ string_dec sortedPackages p)
  /\ (forall p, In p sortedPackages -> In p (concat layers)).
Proof.
  intros Hinv Hlen.
  pose proof (ls_nodup _ _ _ _ Hinv) as Hnd.
  pose proof (ls_incl _ _ _ _ Hinv) as Hincl.
  assert (Hall : incl sortedPackages assigned)
    by (apply (NoDup_length_incl Hnd); assumption).
  split; [apply (NoDup_incl_NoDup Hnd); assumption |].
  split.
  - intro p. rewrite (ls_count _ _ _ _ Hinv).
    destruct (JsSet.has assigned p) eqn:Ep; [reflexivity |].
    symmetry. apply (count_occ_not_In string_dec).
    intro Hp. apply JsSet_has_not_In in Ep. apply Ep. now apply Hall.
  - intros p Hp. apply (layering_sound_member layers assigned); auto.
Qed.

(** A chain of dependencies leads to ever earlier layers. *)
Lemma layer_index_descends layers assigned a b :
  layering_sound sortedPackages graph layers assigned ->
  clos_trans string (depends_on graph) a b ->
  forall i, layer_index layers a = Some i ->
            exists j, layer_index layers b = Some j /\ j < i.
Proof.
  intros Hinv Hreach.
  induction Hreach as [a b Hstep | a c b _ IH1 _ IH2]; intros i Hi.
  - exact (ls_before _ _ _ _ Hinv a b i Hi Hstep).
  - destruct (IH1 i Hi) as (k & Hk & Hlt).
    destruct (IH2 k Hk) as (j & Hj & Hlt').
    exists j. split; [exact Hj | lia].
Qed.

End LayeringAnyInput.

(** X3: whatever the input, when [getBuildLayers] returns, the list it
    was given had no duplicate, the layers hold exactly its packages, no
    layer is empty, there are no more layers than packages, and every
    dependency of a listed package is listed and sits in a strictly
    earlier layer. *)
Theorem getBuildLayers_sound (graph : DependencyGraph)
  (sortedPackages : list string) (layers : list (list string)) :
  getBuildLayers sortedPackages graph = Return layers ->
  NoDup sortedPackages
  /\ Permutation (concat layers) sortedPackages
  /\ (forall layer, In layer layers -> layer <> [])
  /\ length layers <= length sortedPackages
  /\ (forall p d i,
         layer_index layers p = Some i ->
         depends_on graph p d ->
         In d sortedPackages
         /\ exists j, layer_index layers d = Some j /\ j < i).
Proof.
  intro Hrun. unfold getBuildLayers in Hrun.
  destruct (layering_sound_ends graph sortedPackages _ _ _ _
              (layering_sound_init graph sortedPackages) Hrun)
    as (assigned & Hinv & Hlen).
  destruct (layering_sound_full graph sortedPackages layers assigned Hinv Hlen)
    as (Hnd & Hcount & Hall).
  assert (Hperm : Permutation (concat layers) sortedPackages)
    by (apply (Permutation_count_occ string_dec); exact Hcount).
  split; [exact Hnd |]. split; [exact Hperm |].
  split; [exact (ls_nonempty _ _ _ _ Hinv) |].
  split.
  - rewrite <- (Permutation_length Hperm).
    pose proof (ls_nonempty _ _ _ _ Hinv) as Hne.
    clear - Hne. induction layers as [| l ls IH]; simpl; [lia |].
    rewrite length_app.
    assert (l <> []) by (apply Hne; now left).
    assert (length ls <= length (concat ls))
      by (apply IH; intros l' Hl'; apply Hne; now right).
    destruct l; [contradiction | simpl; lia].
  - intros p d i Hi Hd.
    destruct (ls_before _ _ _ _ Hinv p d i Hi Hd) as (j & Hj & Hlt).
    split; [| now exists j].
    apply (Permutation_in d Hperm). now apply layer_index_Some in Hj.
Qed.

Lemma getBuildLayers_sound_witness :
  getBuildLayers ["utils"; "app"; "core"; "lib-b"; "lib-a"]
                 (graph_of complex_packages)
  = Return [["utils"; "core"]; ["lib-b"; "lib-a"]; ["app"]]
  /\ NoDup ["utils"; "app"; "core"; "lib-b"; "lib-a"]
  /\ Permutation (concat [["utils"; "core"]; ["lib-b"; "lib-a"]; ["app"]])
                 ["utils"; "app"; "core"; "lib-b"; "lib-a"].
Proof.
  split; [reflexivity |].
  destruct (getBuildLayers_sound (graph_of complex_packages)
              ["utils"; "app"; "core"; "lib-b"; "lib-a"]
              [["utils"; "core"]; ["lib-b"; "lib-a"]; ["app"]] eq_refl)
    as (Hnd & Hperm & _).
  split; [exact Hnd | exact Hperm].
Defined.

(** X4: [getBuildLayers] throws "Could not make progress" whenever the
    list it is given names a package twice, names a package one of whose
    dependencies is not listed, or names a package on a dependency
    cycle. *)
Theorem getBuildLayers_could_not_make_progress (graph : DependencyGraph)
  (sortedPackages : list string) :
  ~ NoDup sortedPackages
  \/ (exists p d, In p sortedPackages /\ depends_on graph p d
                  /\ ~ In d sortedPackages)
  \/ (exists p, In p sortedPackages /\ on_cycle graph p) ->
  getBuildLayers sortedPackages graph = Throw CouldNotMakeProgress
  /\ message CouldNotMakeProgress
     = "Could not make progress - possible circular dependency".
Proof.
  intro Hbad. split; [| reflexivity].
  pose proof (getBuildLayers_within_budget graph sortedPackages) as Hbudget.
  unfold getBuildLayers in *.
  destruct (layering (length sortedPackages) sortedPackages graph [] JsSet.empty)
    as [layers | e] eqn:Hrun.
  - exfalso.
    destruct (layering_sound_ends graph sortedPackages _ _ _ _
                (layering_sound_init graph sortedPackages) Hrun)
      as (assigned & Hinv & Hlen).
    destruct (layering_sound_full graph sortedPackages layers assigned Hinv Hlen)
      as (Hnd & Hcount & Hall).
    destruct Hbad as [Hdup | [(p & d & Hp & Hd & Hnd') | (p & Hp & Hcycle)]].
    + now apply Hdup.
    + apply Hall, layer_index_In in Hp as [i Hi].
      destruct (ls_before _ _ _ _ Hinv p d i Hi Hd) as (j & Hj & _).
      apply layer_index_Some in Hj as [Hj _].
      apply Hnd'. apply (count_occ_In string_dec). rewrite <- Hcount.
      now apply (count_occ_In string_dec).
    + apply Hall, layer_index_In in Hp as [i Hi].
      destruct (layer_index_descends graph sortedPackages layers assigned p p
                  Hinv Hcycle i Hi) as (j & Hj & Hlt).
      rewrite Hi in Hj. injection Hj as <-. lia.
  - apply layering_throws in Hrun as [-> | ->]; [reflexivity |].
    now contradiction Hbudget.
Qed.

Lemma getBuildLayers_could_not_make_progress_witness :
  ~ NoDup ["core"; "core"]
  /\ getBuildLayers ["core"; "core"] (graph_of complex_packages)
     = Throw CouldNotMakeProgress
  /\ (exists p d, In p ["lib-a"] /\ depends_on (graph_of complex_packages) p d
                  /\ ~ In d ["lib-a"])
  /\ getBuildLayers ["lib-a"] (graph_of complex_packages)
     = Throw CouldNotMakeProgress.
Proof.
  assert (Hdup : ~ NoDup ["core"; "core"]).
  { intro H. inversion H as [| x l Hnotin _]. apply Hnotin. now left. }
  assert (Hext : exists p d, In p ["lib-a"]
                             /\ depends_on (graph_of complex_packages) p d
                             /\ ~ In d ["lib-a"]).
  { exists "lib-a", "core". split; [now left |]. split; [now left |].
    intros [H | []]. discriminate. }
  split; [exact Hdup |].
  split; [exact (proj1 (getBuildLayers_could_not_make_progress
                          (graph_of complex_packages) ["core"; "core"]
                          (or_introl Hdup))) |].
  split; [exact Hext |].
  exact (proj1 (getBuildLayers_could_not_make_progress
                  (graph_of complex_packages) ["lib-a"]
                  (or_intror (or_introl Hext)))).
Defined.

(** ** index.ts: from the collected packages to the layers *)

(** X5: the scheduling steps of the command ([buildDependencyGraph],
    [topologicalSort], [getBuildLayers]) have two outcomes on a package
    map.  Either they return layers, the dependencies among the packages
    have no cycle, the layers hold every package once and each package
    comes in a later layer than the packages of the map it declares; or
    they throw the circular-dependency error, which names exactly the
    packages that lie on a cycle or depend on one.  "Could not make
    progress" and a [TypeError] never come out of the sequence. *)
Theorem schedule_outcomes (packages : JsMap.t PackageInfo) :
  JsMap.wf packages ->
  (exists layers,
      schedule packages = Return layers
      /\ acyclic (graph_of packages)
      /\ Permutation (concat layers) (JsMap.keys packages)
      /\ (forall p d i,
             layer_index layers p = Some i ->
             declared_in packages p d ->
             exists j, layer_index layers d = Some j /\ j < i))
  \/ (exists remaining,
         schedule packages = Throw (CircularDependency remaining)
         /\ remaining <> []
         /\ (forall n, In n remaining
                       <-> In n (JsMap.keys packages)
                           /\ reaches_cycle (graph_of packages) n)).
Proof.
  intro Hwf.
  pose proof (graph_of_build packages Hwf) as Hbuild.
  pose proof (graph_of_wf packages Hwf) as Hgwf.
  destruct (buildDependencyGraph_spec packages Hwf)
    as (graph & Hbuild' & Hnodes & _).
  rewrite Hbuild in Hbuild'. injection Hbuild' as <-.
  destruct (topologicalSort (graph_of packages)) as [order | e] eqn:Hsort.
  - left.
    pose proof (topologicalSort_sound _ _ Hgwf Hsort) as Horder.
    pose proof (topological_order_acyclic _ _ Hgwf Horder) as Hacyclic.
    destruct (schedule_acyclic packages Hwf Hacyclic)
      as (layers & Hrun & Hnd & Hall & Hbefore).
    exists layers. split; [exact Hrun |]. split; [exact Hacyclic |].
    split; [| exact Hbefore].
    apply NoDup_Permutation; [exact Hnd | exact Hwf | exact Hall].
  - right.
    destruct (kahn_result_complete _ Hgwf)
      as (partial & Hpartial & Hnd & Hincl & _ & Hstuck).
    rewrite (topologicalSort_unfold _ _ Hpartial) in Hsort.
    destruct (Nat.eqb_spec (length partial)
                           (JsMap.size (nodes (graph_of packages))))
      as [Heq | Hne]; cbn [negb] in Hsort; [discriminate |].
    injection Hsort as <-.
    rewrite Hnodes in *.
    set (remaining := filter (fun n => negb (JsSet.has partial n))
                             (JsMap.keys packages)).
    exists remaining. split.
    + unfold schedule. rewrite Hbuild. cbn [bind].
      rewrite (topologicalSort_unfold _ _ Hpartial), Hnodes.
      destruct (Nat.eqb_spec (length partial) (JsMap.size packages));
        [contradiction | reflexivity].
    + split.
      * intro Hnil. apply Hne.
        assert (Hall : incl (JsMap.keys packages) partial).
        { intros n Hn. destruct (in_dec string_dec n partial) as [Hp | Hp];
            [exact Hp |].
          assert (Hr : In n remaining) by (apply remaining_In; now split).
          rewrite Hnil in Hr. contradiction. }
        pose proof (NoDup_incl_length Hwf Hall) as Hle.
        pose proof (NoDup_incl_length Hnd Hincl) as Hge.
        unfold JsMap.size, JsMap.keys in *. rewrite length_map in *. lia.
      * intro n. unfold remaining. rewrite remaining_In. split.
        -- intros [Hn Hp]. split; [exact Hn | now apply Hstuck].
        -- intros [Hn Hr]. split; [exact Hn | now apply Hstuck].
Qed.

Lemma schedule_outcomes_witness :
  JsMap.wf stuck_packages
  /\ schedule stuck_packages = Throw (CircularDependency ["a"; "b"; "c"])
  /\ JsMap.wf complex_packages
  /\ schedule complex_packages
     = Return [["core"; "utils"]; ["lib-a"; "lib-b"]; ["app"]]
  /\ ((exists layers, schedule complex_packages = Return layers)
      \/ (exists remaining,
             schedule complex_packages
             = Throw (CircularDependency remaining))).
Proof.
  split; [exact stuck_packages_wf |]. split; [reflexivity |].
  split; [exact complex_packages_wf |]. split; [reflexivity |].
  destruct (schedule_outcomes complex_packages complex_packages_wf)
    as [(layers & Hrun & _) | (remaining & Hrun & _)].
  - left. now exists layers.
  - right. now exists remaining.
Defined.

(** X6: the graph built from what [collectDependencies] returns has an
    edge for every workspace dependency a collected package declares on a
    workspace member: the collected set is closed, so
    [buildDependencyGraph] drops dependencies on packages outside the
    workspace only. *)
Theorem collected_graph_keeps_dependencies (packageJson : PackageJsonData)
  (allPackages : JsMap.t PackageInfo) :
  JsMap.wf allPackages ->
  exists collected graph,
    collectDependencies packageJson allPackages = Return collected
    /\ buildDependencyGraph collected = Return graph
    /\ forall a b,
        depends_on graph a b
        <-> In a (JsMap.keys collected)
            /\ declares allPackages a b
            /\ In b (JsMap.keys allPackages).
Proof.
  intro Hwf.
  destruct (collectDependencies_closure allPackages Hwf packageJson)
    as (collected & Hrun & Hcwf & Hkeys & Hvalues).
  destruct (buildDependencyGraph_spec collected Hcwf)
    as (graph & Hbuild & _ & _ & _ & Hedges & _).
  exists collected, graph. split; [exact Hrun |]. split; [exact Hbuild |].
  intros a b. unfold depends_on. cbn [fst] in Hedges. rewrite Hedges.
  split.
  - intros (pkg & Hget & Hdep & Hb).
    split; [now apply JsMap_get_In_keys in Hget |].
    split; [exists pkg; split; [now apply Hvalues | exact Hdep] |].
    now apply Hkeys in Hb.
  - intros (Ha & (pkg & Hget & Hdep) & Hb).
    pose proof Ha as Ha'. apply JsMap_In_keys_get in Ha' as [pkg' Hget'].
    pose proof (Hvalues a pkg' Hget') as Hsame.
    rewrite Hget in Hsame. injection Hsame as <-.
    exists pkg. split; [exact Hget' |]. split; [exact Hdep |].
    apply Hkeys. split; [exact Hb |].
    apply Hkeys in Ha as [_ (d & Hd & Hreach)].
    exists d. split; [exact Hd |].
    apply rt_trans with a; [exact Hreach |].
    apply rt_step. exists pkg. now split.
Qed.

Lemma collected_graph_keeps_dependencies_witness :
  JsMap.wf diamond_workspace
  /\ exists collected graph,
      collectDependencies (manifest "app" ["lib-a"; "lib-b"]) diamond_workspace
      = Return collected
      /\ buildDependencyGraph collected = Return graph
      /\ depends_on graph "lib-a" "shared".
Proof.
  split; [exact diamond_workspace_wf |].
  destruct (collected_graph_keeps_dependencies
              (manifest "app" ["lib-a"; "lib-b"]) diamond_workspace
              diamond_workspace_wf)
    as (collected & graph & Hrun & Hbuild & Hedges).
  exists collected, graph. split; [exact Hrun |]. split; [exact Hbuild |].
  apply Hedges.
  assert (Hval : collected
                 = [member "lib-a" ["shared"]; member "shared" [];
                    member "lib-b" ["shared"]]).
  { assert (Hc : collectDependencies (manifest "app" ["lib-a"; "lib-b"])
                                     diamond_workspace
                 = Return [member "lib-a" ["shared"]; member "shared" [];
                           member "lib-b" ["shared"]]) by reflexivity.
    rewrite Hrun in Hc. now injection Hc. }
  subst collected. split; [now left |]. split.
  - exists (snd (member "lib-a" ["shared"])). split; [reflexivity | now left].
  - simpl. tauto.
Defined.

(** ** utils/mtime.ts: the extremes and what the decision looks at *)

Lemma readable_times_In (files : list (string * option Q)) (m : Q) :
  In m (readable_times files) <-> In (Some m) (map snd files).
Proof.
  unfold readable_times. rewrite in_flat_map, in_map_iff. split.
  - intros (file & Hfile & Hm). exists file. split; [| exact Hfile].
    destruct (snd file) as [m' |]; [| contradiction].
    destruct Hm as [<- | []]. reflexivity.
  - intros (file & Hsnd & Hfile). exists file. split; [exact Hfile |].
    rewrite Hsnd. now left.
Qed.

(** X7: [getNewestMtime] returns the largest of 0 and the modification
    times it could read, so it is never negative; [getOldestMtime]
    returns the smallest modification time it could read, and 0 when it
    could read none.  A file whose [stat] fails counts for neither. *)
Theorem mtime_extremes (dir : string) (node : FsNode) (exclude : list string) :
  ((0 <= getNewestMtime dir node exclude)%Q
   /\ (forall m, In m (readable_times (walkDir dir node exclude)) ->
                 (m <= getNewestMtime dir node exclude)%Q)
   /\ (getNewestMtime dir node exclude = 0%Q
       \/ In (getNewestMtime dir node exclude)
             (readable_times (walkDir dir node exclude))))
  /\ ((readable_times (walkDir dir node []) = []
       /\ getOldestMtime dir node = 0%Q)
      \/ (In (getOldestMtime dir node) (readable_times (walkDir dir node []))
          /\ forall m, In m (readable_times (walkDir dir node [])) ->
                       (getOldestMtime dir node <= m)%Q)).
Proof.
  split.
  - unfold getNewestMtime.
    destruct (newest_fold (walkDir dir node exclude) 0%Q) as (Hle & Hall & Hin).
    destruct (walkDir dir node exclude) as [| file files] eqn:Hfiles.
    + cbn [length Nat.eqb]. split; [apply Qle_refl |].
      split; [intros m [] | now left].
    + cbn [length Nat.eqb]. split; [exact Hle |]. split.
      * intros m Hm. apply Hall. now apply readable_times_In.
      * destruct Hin as [Heq | Hin]; [now left | right].
        now apply readable_times_In.
  - unfold getOldestMtime.
    pose proof (oldest_fold (walkDir dir node []) None) as Hfold.
    destruct (walkDir dir node []) as [| file files] eqn:Hfiles.
    + left. split; reflexivity.
    + cbn [length Nat.eqb].
      destruct (fold_left oldest_step (file :: files) None) as [o |].
      * right. destruct Hfold as (_ & Hall & [Hin | Hin]); [discriminate |].
        split; [now apply readable_times_In |].
        intros m Hm. apply Hall. now apply readable_times_In.
      * left. destruct Hfold as [_ Hnone]. split; [| reflexivity].
        destruct (readable_times (file :: files)) as [| m rest] eqn:Htimes;
          [reflexivity |].
        exfalso. apply (Hnone m). apply readable_times_In.
        rewrite Htimes. now left.
Qed.

(** X8: for a package whose source files and output files all have
    readable, positive modification times (at least one of each), the
    decision is "stale" exactly when some source file is strictly newer
    than some output file. *)
Theorem needsBuild_stale_iff_newer_source (pkgPath : string)
  (pkg dist : FsNode) :
  lookup pkg "dist" = Some dist ->
  source_files pkgPath pkg <> [] -> all_positive (source_files pkgPath pkg) ->
  output_files pkgPath dist <> [] -> all_positive (output_files pkgPath dist) ->
  (needsBuild pkgPath pkg = true
   <-> exists s o,
        In s (readable_times (source_files pkgPath pkg))
        /\ In o (readable_times (output_files pkgPath dist))
        /\ (o < s)%Q).
Proof.
  intros Hdist Hsrc Hsrcpos Hout Houtpos.
  destruct (getNewestMtime_positive pkgPath pkg EXCLUDE_DIRS Hsrc Hsrcpos)
    as [Hnewest _].
  destruct (getOldestMtime_positive (join_path pkgPath "dist") dist Hout Houtpos)
    as [Holdest _].
  rewrite (needsBuild_compare pkgPath pkg dist _ _ Hdist Hsrc Hsrcpos Hout Houtpos
             Hnewest Holdest).
  destruct Hnewest as [Hn Hnmax]. destruct Holdest as [Ho Homin].
  split.
  - intro Hlt. exists (getNewestMtime pkgPath pkg EXCLUDE_DIRS),
                      (getOldestMtime (join_path pkgPath "dist") dist).
    split; [now apply readable_times_In |].
    split; [now apply readable_times_In | exact Hlt].
  - intros (s & o & Hs & Ho' & Hlt).
    apply readable_times_In in Hs, Ho'.
    eapply Qle_lt_trans; [apply (Homin _ Ho') |].
    eapply Qlt_le_trans; [exact Hlt | apply (Hnmax _ Hs)].
Qed.

Lemma needsBuild_stale_iff_newer_source_witness :
  needsBuild "/pkg" (package_dir [("a.ts", 3%Q); ("b.ts", 7%Q)]
                                 [("a.js", 5%Q); ("b.js", 9%Q)]) = true
  <-> exists s o,
      In s (readable_times
              (source_files "/pkg"
                 (package_dir [("a.ts", 3%Q); ("b.ts", 7%Q)]
                              [("a.js", 5%Q); ("b.js", 9%Q)])))
      /\ In o (readable_times
                 (output_files "/pkg"
                    (Dir true [("a.js", File (Some 5%Q));
                               ("b.js", File (Some 9%Q))])))
      /\ (o < s)%Q.
Proof.
  apply (needsBuild_stale_iff_newer_source "/pkg"
           (package_dir [("a.ts", 3%Q); ("b.ts", 7%Q)]
                        [("a.js", 5%Q); ("b.js", 9%Q)])
           (Dir true [("a.js", File (Some 5%Q)); ("b.js", File (Some 9%Q))])).
  - reflexivity.
  - discriminate.
  - intros file [<- | [<- | []]]; eexists; (split; [reflexivity | reflexivity]).
  - discriminate.
  - intros file [<- | [<- | []]]; eexists; (split; [reflexivity | reflexivity]).
Defined.

(** Induction on a tree, with the property at hand for every child of a
    directory. *)
Lemma FsNode_tree_ind (P : FsNode -> Prop) :
  (forall mtime, P (File mtime)) ->
  P Other ->
  (forall readable entries,
      Forall (fun entry => P (snd entry)) entries -> P (Dir readable entries)) ->
  forall node, P node.
Proof.
  intros Hfile Hother Hdir. fix IH 1.
  intros [mtime | readable entries |]; [apply Hfile | | apply Hother].
  apply Hdir. induction entries as [| [name child] rest IHrest]; constructor.
  - apply IH.
  - exact IHrest.
Qed.

(** One entry of a readable directory, as the loop of [walkDir] and
    [prune] treat it. *)
Lemma walkDir_entry (dir name : string) (child : FsNode)
  (rest : list (string * FsNode)) (exclude : list string) :
  walkDir dir (Dir true ((name, child) :: rest)) exclude
  = if JsSet.has exclude name then walkDir dir (Dir true rest) exclude
    else match child with
         | Dir _ _ => walkDir (join_path dir name) child exclude
                      ++ walkDir dir (Dir true rest) exclude
         | File mtime => (join_path dir name, mtime)
                         :: walkDir dir (Dir true rest) exclude
         | Other => walkDir dir (Dir true rest) exclude
         end.
Proof. reflexivity. Qed.

Lemma prune_entry (exclude : list string) (readable : bool) (name : string)
  (child : FsNode) (rest : list (string * FsNode)) :
  prune exclude (Dir readable ((name, child) :: rest))
  = match prune exclude (Dir readable rest) with
    | Dir _ kept =>
        Dir readable (if JsSet.has exclude name then kept
                      else (name, prune exclude child) :: kept)
    | other => other
    end.
Proof. cbn [prune]. now destruct (JsSet.has exclude name). Qed.

Lemma prune_dir (exclude : list string) (readable : bool)
  (entries : list (string * FsNode)) :
  exists kept, prune exclude (Dir readable entries) = Dir readable kept.
Proof. cbn [prune]. eauto. Qed.

(** [walkDir] does not see an excluded entry, nor anything below one. *)
Lemma walkDir_prune (exclude : list string) (node : FsNode) :
  forall dir, walkDir dir node exclude = walkDir dir (prune exclude node) exclude.
Proof.
  induction node as [mtime | | readable entries IH] using FsNode_tree_ind;
    intro dir; try reflexivity.
  destruct readable; [| reflexivity].
  induction IH as [| [name child] rest Hchild _ IHrest]; [reflexivity |].
  cbn [snd] in Hchild.
  rewrite walkDir_entry, prune_entry.
  destruct (prune_dir exclude true rest) as [kept Hkept].
  rewrite Hkept in *. rewrite IHrest.
  destruct (JsSet.has exclude name) eqn:Ename; [reflexivity |].
  rewrite walkDir_entry, Ename.
  destruct child as [mtime | readable' entries' |].
  - reflexivity.
  - rewrite (Hchild (join_path dir name)).
    destruct (prune_dir exclude readable' entries') as [kept' ->].
    reflexivity.
  - reflexivity.
Qed.

(** X9: the decision does not depend on what is stored under an entry
    named [node_modules], [.next], [build], [.git] or [coverage], at any
    depth, nor under a [dist] entry other than the output directory of the
    package: two package directories with the same output directory that
    agree once those entries are left out get the same decision. *)
Theorem needsBuild_ignores_excluded (pkgPath : string) (pkg pkg' : FsNode) :
  lookup pkg "dist" = lookup pkg' "dist" ->
  prune EXCLUDE_DIRS pkg = prune EXCLUDE_DIRS pkg' ->
  needsBuild pkgPath pkg = needsBuild pkgPath pkg'.
Proof.
  intros Hdist Hsame. unfold needsBuild, getNewestMtime.
  rewrite (walkDir_prune EXCLUDE_DIRS pkg pkgPath).
  rewrite (walkDir_prune EXCLUDE_DIRS pkg' pkgPath).
  rewrite Hdist, Hsame. reflexivity.
Qed.

Lemma needsBuild_ignores_excluded_witness :
  lookup (busy_package 1) "dist" = lookup (busy_package 99) "dist"
  /\ prune EXCLUDE_DIRS (busy_package 1) = prune EXCLUDE_DIRS (busy_package 99)
  /\ needsBuild "/pkg" (busy_package 1) = needsBuild "/pkg" (busy_package 99)
  /\ needsBuild "/pkg" (busy_package 99) = false.
Proof.
  split; [reflexivity |]. split; [reflexivity |].
  split; [| reflexivity].
  exact (needsBuild_ignores_excluded "/pkg" (busy_package 1) (busy_package 99)
           eq_refl eq_refl).
Defined.

(** ** core/builder.ts: the layers are built one after the other *)

Lemma layer_packages_In (packages : JsMap.t PackageInfo) (layer : list string) :
  forall pkgs,
    layer_packages packages layer = Some pkgs ->
    (forall q, In q pkgs ->
               exists k, In k layer /\ JsMap.get k packages = Some q)
    /\ (forall k, In k layer ->
                  exists q, JsMap.get k packages = Some q /\ In q pkgs).
Proof.
  induction layer as [| n rest IH]; intros pkgs Hpkgs; cbn [layer_packages] in Hpkgs.
  - injection Hpkgs as <-. split; [intros q [] | intros k []].
  - destruct (JsMap.get n packages) as [pkg |] eqn:Hget; [| discriminate].
    destruct (layer_packages packages rest) as [pkgs' |]; [| discriminate].
    injection Hpkgs as <-. destruct (IH pkgs' eq_refl) as [Hfrom Hto]. split.
    + intros q [<- | Hq]; [exists n; split; [now left | exact Hget] |].
      destruct (Hfrom q Hq) as (k & Hk & Hgetk). exists k. split; [now right | exact Hgetk].
    + intros k [<- | Hk]; [exists pkg; split; [exact Hget | now left] |].
      destruct (Hto k Hk) as (q & Hgetk & Hq). exists q. split; [exact Hgetk | now right].
Qed.

Lemma fulfilled_in_incl env options tasks tasks' q :
  incl tasks tasks' ->
  fulfilled_in env options tasks q -> fulfilled_in env options tasks' q.
Proof.
  intros Hincl (t & r & Ht & Hrest). exists t, r. split; [now apply Hincl | exact Hrest].
Qed.

Lemma layer_done_incl env options packages tasks tasks' layer :
  incl tasks tasks' ->
  layer_done env options packages tasks layer ->
  layer_done env options packages tasks' layer.
Proof.
  intros Hincl (pkgs & Hpkgs & Hall). exists pkgs. split; [exact Hpkgs |].
  intros q Hq Hs. eapply fulfilled_in_incl; [exact Hincl | now apply Hall].
Qed.

(** The loop of [buildAll] adds runs to the trace; a task of these runs
    belongs to a layer, and by the time that layer was begun every layer
    before it was done. *)
Lemma build_layers_barrier env options cpus packages layers :
  forall schedule trace,
    exists runs,
      snd (build_layers env options cpus packages layers schedule trace)
      = trace ++ runs
      /\ forall t,
          In t (tasks_of runs) ->
          exists before layer after pkgs,
            layers = before ++ layer :: after
            /\ layer_packages packages layer = Some pkgs
            /\ In (task_pkg t) pkgs
            /\ forall earlier,
                In earlier before ->
                layer_done env options packages (tasks_of runs) earlier.
Proof.
  induction layers as [| layer rest IH]; intros schedule trace;
    cbn [build_layers].
  - exists []. split; [now rewrite app_nil_r | intros t []].
  - destruct (layer_packages packages layer) as [pkgs |] eqn:Hpkgs.
    2: { exists []. split; [now rewrite app_nil_r | intros t []]. }
    destruct (Nat.eqb (length (filter has_build_script pkgs)) 0) eqn:Hnone.
    + apply Nat.eqb_eq, length_zero_iff_nil in Hnone.
      destruct (IH schedule trace) as (runs & Htrace & Htasks).
      exists runs. split; [exact Htrace |].
      intros t Ht.
      destruct (Htasks t Ht) as (before & l & after & ps & -> & Hps & Hin & Hdone).
      exists (layer :: before), l, after, ps.
      split; [reflexivity |]. split; [exact Hps |]. split; [exact Hin |].
      intros earlier [<- | Hearlier]; [| now apply Hdone].
      exists pkgs. split; [exact Hpkgs |]. intros q Hq Hs.
      assert (Hqin : In q (filter has_build_script pkgs)) by now apply filter_In.
      rewrite Hnone in Hqin. contradiction.
    + destruct (run_items_post env options (concurrency options cpus)
                  (filter has_build_script pkgs) schedule (mkRun [] [] 0))
        as (Hok & (started & Hp & Hincl & Hall) & Hres & _).
      { intros t' c []. }
      unfold runWithConcurrency.
      destruct (run_items env options (concurrency options cpus)
                          (filter has_build_script pkgs) schedule (mkRun [] [] 0))
        as [[s schedule'] run].
      cbn [fst snd executing map app] in Hok, Hp, Hall, Hres.
      assert (Hhere : forall t, In t (executing run) ->
                                In (task_pkg t) pkgs).
      { intros t Ht.
        assert (Hpkg : In (task_pkg t) started)
          by (rewrite <- Hp; now apply in_map).
        now apply Hincl, filter_In in Hpkg. }
      assert (Hone : forall t, In t (tasks_of [run]) ->
                exists before l after ps,
                  layer :: rest = before ++ l :: after
                  /\ layer_packages packages l = Some ps
                  /\ In (task_pkg t) ps
                  /\ forall earlier,
                      In earlier before ->
                      layer_done env options packages (tasks_of [run]) earlier).
      { intros t Ht. unfold tasks_of in Ht. simpl in Ht. rewrite app_nil_r in Ht.
        exists [], layer, rest, pkgs. split; [reflexivity |].
        split; [exact Hpkgs |]. split; [now apply Hhere | intros earlier []]. }
      destruct s as [[] | e |].
      * destruct (IH schedule' (trace ++ [run])) as (runs & Htrace & Htasks).
        exists (run :: runs). split.
        { rewrite Htrace, <- app_assoc. reflexivity. }
        intros t Ht. unfold tasks_of in Ht. cbn [map concat] in Ht.
        apply in_app_or in Ht as [Ht | Ht].
        -- exists [], layer, rest, pkgs. split; [reflexivity |].
           split; [exact Hpkgs |]. split; [now apply Hhere | intros earlier []].
        -- destruct (Htasks t Ht)
             as (before & l & after & ps & -> & Hps & Hin & Hdone).
           exists (layer :: before), l, after, ps.
           split; [reflexivity |]. split; [exact Hps |]. split; [exact Hin |].
           intros earlier [<- | Hearlier].
           ++ exists pkgs. split; [exact Hpkgs |]. intros q Hq Hs.
              assert (Hqin : In q (filter has_build_script pkgs))
                by now apply filter_In.
              rewrite <- (Hall eq_refl), <- Hp in Hqin.
              apply in_map_iff in Hqin as (t' & Hpkg' & Ht').
              destruct (Hres eq_refl t' Ht') as [r Hr].
              exists t', r. split.
              { unfold tasks_of. cbn [map concat]. apply in_or_app. now left. }
              split; [exact Hpkg' |]. split; [exact Hr |].
              rewrite <- Hpkg'. symmetry. now apply (Hok t').
           ++ apply layer_done_incl with (tasks := tasks_of runs);
                [| now apply Hdone].
              intros x Hx. unfold tasks_of. cbn [map concat].
              apply in_or_app. now right.
      * exists [run]. split; [reflexivity | exact Hone].
      * exists [run]. split; [reflexivity | exact Hone].
Qed.

(** The barrier, read on the tasks of a whole run. *)
Lemma buildAll_tasks_barrier_split env options cpus layers packages schedule t :
  In t (buildAll_tasks env options cpus layers packages schedule) ->
  exists before layer after pkgs,
    layers = before ++ layer :: after
    /\ layer_packages packages layer = Some pkgs
    /\ In (task_pkg t) pkgs
    /\ forall earlier,
        In earlier before ->
        layer_done env options packages
                   (buildAll_tasks env options cpus layers packages schedule)
                   earlier.
Proof.
  intro Hin. unfold buildAll_tasks in *.
  destruct (build_layers_barrier env options cpus packages layers schedule [])
    as (runs & Htrace & Htasks).
  rewrite Htrace in *. cbn [app] in *.
  exact (Htasks t Hin).
Qed.

(** X11: [buildAll] builds the layers one after the other.  At every
    moment of a run and whatever the order in which the pending
    operations complete, a package that has been started belongs to a
    layer such that every package with a build script of every layer
    before it has already been fulfilled (built or found unchanged). *)
Theorem buildAll_layer_barrier (env : Environment) (options : BuildOptions)
  (cpus : nat) (layers : list (list string)) (packages : JsMap.t PackageInfo)
  (schedule : list nat) (t : Task) :
  In t (buildAll_tasks env options cpus layers packages schedule) ->
  exists before layer after pkgs,
    layers = before ++ layer :: after
    /\ layer_packages packages layer = Some pkgs
    /\ In (task_pkg t) pkgs
    /\ forall earlier pkgs' q,
        In earlier before ->
        layer_packages packages earlier = Some pkgs' ->
        In q pkgs' -> has_build_script q = true ->
        exists r,
          In (mkTask q (Settled (Return r)))
             (buildAll_tasks env options cpus layers packages schedule)
          /\ buildPackage env q options = Return r.
Proof.
  intro Hin.
  destruct (buildAll_tasks_barrier_split env options cpus layers packages
              schedule t Hin)
    as (before & layer & after & pkgs & Hsplit & Hpkgs & Hpkg & Hdone).
  exists before, layer, after, pkgs.
  split; [exact Hsplit |]. split; [exact Hpkgs |]. split; [exact Hpkg |].
  intros earlier pkgs' q Hearlier Hpkgs' Hq Hscript.
  destruct (Hdone earlier Hearlier) as (ps & Hps & Hall).
  rewrite Hpkgs' in Hps. injection Hps as <-.
  destruct (Hall q Hq Hscript) as ([q' state] & r & Ht' & Hq' & Hstate & Hr).
  cbn [task_pkg task_state] in Hq', Hstate. subst q' state.
  exists r. now split.
Qed.

Lemma buildAll_layer_barrier_witness :
  In (mkTask (createPackage "c" []) Building)
     (buildAll_tasks all_succeed (mkOptions true None) 8 [["a"; "b"]; ["c"]]
                     four_packages [0; 1])
  /\ exists before layer after pkgs,
      [["a"; "b"]; ["c"]] = before ++ layer :: after
      /\ layer_packages four_packages layer = Some pkgs
      /\ In (createPackage "c" []) pkgs
      /\ forall earlier pkgs' q,
          In earlier before ->
          layer_packages four_packages earlier = Some pkgs' ->
          In q pkgs' -> has_build_script q = true ->
          exists r,
            In (mkTask q (Settled (Return r)))
               (buildAll_tasks all_succeed (mkOptions true None) 8
                               [["a"; "b"]; ["c"]] four_packages [0; 1])
            /\ buildPackage all_succeed q (mkOptions true None) = Return r.
Proof.
  assert (Hin : In (mkTask (createPackage "c" []) Building)
                   (buildAll_tasks all_succeed (mkOptions true None) 8
                                   [["a"; "b"]; ["c"]] four_packages [0; 1]))
    by (right; right; now left).
  split; [exact Hin |].
  exact (buildAll_layer_barrier all_succeed (mkOptions true None) 8
           [["a"; "b"]; ["c"]] four_packages [0; 1]
           (mkTask (createPackage "c" []) Building) Hin).
Defined.

(** X12: once the build of a package has failed, [buildAll] never
    resolves, and no package of a later layer is ever started: every task
    belongs to the layer of the failed package or to a layer before it. *)
Theorem buildAll_stops_at_failed_layer (env : Environment)
  (options : BuildOptions) (cpus : nat) (packages : JsMap.t PackageInfo)
  (schedule : list nat) (before after : list (list string))
  (failing : list string) (pkgs : list PackageInfo) (q : PackageInfo)
  (e : JsError) :
  layer_packages packages failing = Some pkgs ->
  In q pkgs -> has_build_script q = true ->
  buildPackage env q options = Throw e ->
  buildAll env options cpus (before ++ failing :: after) packages schedule
  <> Resolved tt
  /\ forall t,
      In t (buildAll_tasks env options cpus (before ++ failing :: after)
                           packages schedule) ->
      exists layer ps,
        In layer (before ++ [failing])
        /\ layer_packages packages layer = Some ps
        /\ In (task_pkg t) ps.
Proof.
  intros Hpkgs Hq Hscript Hfail. split.
  - intro Hresolved. unfold buildAll in Hresolved.
    destruct (build_layers_post env options cpus packages
                (before ++ failing :: after) schedule []) as [Hres _].
    destruct (Hres Hresolved failing pkgs q) as [r Hr]; auto using in_elt.
    congruence.
  - intros t Ht.
    destruct (buildAll_tasks_barrier_split env options cpus
                (before ++ failing :: after) packages schedule t Ht)
      as (before_t & layer_t & after_t & ps & Hsplit & Hps & Hin & Hdone).
    exists layer_t, ps. split; [| now split].
    apply app_eq_app in Hsplit as [l [[Hb Ha] | [Hb Ha]]].
    + destruct l as [| x l].
      * cbn [app] in Ha. injection Ha as <- _. apply in_or_app. right. now left.
      * cbn [app] in Ha. injection Ha as <- _. apply in_or_app. left.
        rewrite Hb. apply in_elt.
    + destruct l as [| x l].
      * cbn [app] in Ha. injection Ha as -> _. apply in_or_app. right. now left.
      * exfalso. cbn [app] in Ha. injection Ha as <- _.
        destruct (Hdone failing) as (pkgs' & Hpkgs' & Hall).
        { rewrite Hb. apply in_elt. }
        rewrite Hpkgs in Hpkgs'. injection Hpkgs' as <-.
        destruct (Hall q Hq Hscript) as (t' & r & _ & _ & _ & Hr).
        congruence.
Qed.

Lemma buildAll_stops_at_failed_layer_witness :
  layer_packages four_packages ["c"] = Some [createPackage "c" []]
  /\ buildPackage c_fails (createPackage "c" []) (mkOptions true None)
     = Throw (BuildFailed "c")
  /\ buildAll c_fails (mkOptions true None) 8 ([["a"]] ++ ["c"] :: [["d"]])
              four_packages [0; 0; 0]
     = Rejected (BuildFailed "c")
  /\ forall t,
      In t (buildAll_tasks c_fails (mkOptions true None) 8
                           ([["a"]] ++ ["c"] :: [["d"]]) four_packages [0; 0; 0]) ->
      exists layer ps,
        In layer ([["a"]] ++ [["c"]])
        /\ layer_packages four_packages layer = Some ps
        /\ In (task_pkg t) ps.
Proof.
  split; [reflexivity |]. split; [reflexivity |]. split; [reflexivity |].
  exact (proj2 (buildAll_stops_at_failed_layer c_fails (mkOptions true None) 8
                  four_packages [0; 0; 0] [["a"]] [["d"]] ["c"]
                  [createPackage "c" []] (createPackage "c" [])
                  (BuildFailed "c") eq_refl (or_introl eq_refl) eq_refl eq_refl)).
Defined.

(** ** index.ts: dependencies are built first *)

Lemma layer_index_app_r (before rest : list (list string)) (k : string) :
  ~ In k (concat before) ->
  layer_index (before ++ rest) k
  = option_map (Nat.add (length before)) (layer_index rest k).
Proof.
  induction before as [| l before IH]; intro Hnotin; cbn [app layer_index length].
  - now destruct (layer_index rest k).
  - cbn [concat] in Hnotin.
    assert (Hl : JsSet.has l k = false).
    { apply JsSet_has_not_In. intro H. apply Hnotin, in_or_app. now left. }
    rewrite Hl, IH.
    + now destruct (layer_index rest k).
    + intro H. apply Hnotin, in_or_app. now right.
Qed.

Lemma layer_index_in_prefix (before rest : list (list string)) (d : string) :
  forall j, layer_index (before ++ rest) d = Some j -> j < length before ->
            exists earlier, In earlier before /\ In d earlier.
Proof.
  induction before as [| l before IH]; intros j Hj Hlt; cbn [length] in Hlt;
    [lia |].
  cbn [app layer_index] in Hj. destruct (JsSet.has l d) eqn:Hl.
  - exists l. split; [now left | now apply JsSet_has_In].
  - destruct (layer_index (before ++ rest) d) as [j' |] eqn:Hj';
      [| discriminate].
    injection Hj as <-. destruct (IH j' eq_refl) as (earlier & He & Hd);
      [lia |].
    exists earlier. split; [now right | exact Hd].
Qed.

Lemma NoDup_app_disjoint {A : Type} (l1 l2 : list A) (a : A) :
  NoDup (l1 ++ l2) -> In a l1 -> ~ In a l2.
Proof.
  induction l1 as [| x l1 IH]; intros Hnd Hin; [contradiction |].
  cbn [app] in Hnd. inversion Hnd as [| ? ? Hnotin Hnd']; subst.
  destruct Hin as [-> | Hin]; [| now apply IH].
  intro H. apply Hnotin, in_or_app. now right.
Qed.

(** What [schedule] returns, when it returns. *)
Lemma schedule_returns (packages : JsMap.t PackageInfo)
  (layers : list (list string)) :
  JsMap.wf packages ->
  schedule packages = Return layers ->
  NoDup (concat layers)
  /\ (forall p, In p (concat layers) <-> In p (JsMap.keys packages))
  /\ (forall p d i,
         layer_index layers p = Some i ->
         declared_in packages p d ->
         exists j, layer_index layers d = Some j /\ j < i).
Proof.
  intros Hwf Hrun.
  assert (Hacyclic : acyclic (graph_of packages)).
  { unfold schedule in Hrun. rewrite (graph_of_build packages Hwf) in Hrun.
    cbn [bind] in Hrun.
    destruct (topologicalSort (graph_of packages)) as [order | e] eqn:Hsort;
      [| discriminate].
    apply (topological_order_acyclic _ order (graph_of_wf packages Hwf)).
    now apply topologicalSort_sound; [apply graph_of_wf |]. }
  destruct (schedule_acyclic packages Hwf Hacyclic) as (layers' & Hrun' & Hfacts).
  rewrite Hrun in Hrun'. injection Hrun' as <-. exact Hfacts.
Qed.

(** X13: the command builds dependencies first.  With the layers that the
    scheduling steps compute for a package map, at every moment of
    [buildAll] and whatever the order in which the pending operations
    complete, a package has been started only if every workspace
    dependency it declares that is in the map and has a build script has
    already been fulfilled (built or found unchanged). *)
Theorem buildAll_dependencies_first (env : Environment) (options : BuildOptions)
  (cpus : nat) (packages : JsMap.t PackageInfo) (layers : list (list string))
  (schedule_order : list nat) (t : Task) (d : string) (pd : PackageInfo) :
  JsMap.wf packages ->
  schedule packages = Return layers ->
  In t (buildAll_tasks env options cpus layers packages schedule_order) ->
  In d (workspaceDeps (task_pkg t)) ->
  JsMap.get d packages = Some pd ->
  has_build_script pd = true ->
  exists r,
    In (mkTask pd (Settled (Return r)))
       (buildAll_tasks env options cpus layers packages schedule_order)
    /\ buildPackage env pd options = Return r.
Proof.
  intros Hwf Hlayers Ht Hdep Hd Hscript.
  destruct (schedule_returns packages layers Hwf Hlayers)
    as (Hnd & Hmem & Hbefore).
  destruct (buildAll_tasks_barrier_split env options cpus layers packages
              schedule_order t Ht)
    as (before & layer & after & pkgs & Hsplit & Hpkgs & Hpkg & Hdone).
  (* the key under which the started package was found in its layer *)
  destruct (proj1 (layer_packages_In packages layer pkgs Hpkgs) _ Hpkg)
    as (k & Hk & Hget).
  assert (Hdecl : declared_in packages k d).
  { exists (task_pkg t). split; [exact Hget |]. split; [exact Hdep |].
    now apply JsMap_get_In_keys in Hd. }
  assert (Hindex : layer_index layers k = Some (length before)).
  { rewrite Hsplit. rewrite layer_index_app_r.
    - cbn [layer_index]. apply JsSet_has_In in Hk. rewrite Hk.
      cbn [option_map]. f_equal. lia.
    - intro Hin. rewrite Hsplit, concat_app in Hnd. cbn [concat] in Hnd.
      apply (NoDup_app_disjoint _ _ k Hnd Hin). apply in_or_app. now left. }
  destruct (Hbefore k d _ Hindex Hdecl) as (j & Hj & Hlt).
  rewrite Hsplit in Hj.
  destruct (layer_index_in_prefix before (layer :: after) d j Hj Hlt)
    as (earlier & Hearlier & Hdin).
  destruct (Hdone earlier Hearlier) as (ps & Hps & Hall).
  destruct (proj2 (layer_packages_In packages earlier ps Hps) d Hdin)
    as (pd' & Hgetd & Hpd').
  rewrite Hd in Hgetd. injection Hgetd as <-.
  destruct (Hall pd Hpd' Hscript) as ([q' state] & r & Ht' & Hq' & Hstate & Hr).
  cbn [task_pkg task_state] in Hq', Hstate. subst q' state.
  exists r. now split.
Qed.

Lemma buildAll_dependencies_first_witness :
  JsMap.wf complex_packages
  /\ schedule complex_packages
     = Return [["core"; "utils"]; ["lib-a"; "lib-b"]; ["app"]]
  /\ In (mkTask (createPackage "lib-a" ["core"]) Building)
        (buildAll_tasks all_succeed (mkOptions true None) 8
                        [["core"; "utils"]; ["lib-a"; "lib-b"]; ["app"]]
                        complex_packages [0; 1])
  /\ exists r,
      In (mkTask (createPackage "core" []) (Settled (Return r)))
         (buildAll_tasks all_succeed (mkOptions true None) 8
                         [["core"; "utils"]; ["lib-a"; "lib-b"]; ["app"]]
                         complex_packages [0; 1])
      /\ buildPackage all_succeed (createPackage "core" [])
                      (mkOptions true None) = Return r.
Proof.
  assert (Hin : In (mkTask (createPackage "lib-a" ["core"]) Building)
                   (buildAll_tasks all_succeed (mkOptions true None) 8
                                   [["core"; "utils"]; ["lib-a"; "lib-b"]; ["app"]]
                                   complex_packages [0; 1]))
    by (right; right; now left).
  split; [exact complex_packages_wf |]. split; [reflexivity |].
  split; [exact Hin |].
  exact (buildAll_dependencies_first all_succeed (mkOptions true None) 8
           complex_packages [["core"; "utils"]; ["lib-a"; "lib-b"]; ["app"]]
           [0; 1] (mkTask (createPackage "lib-a" ["core"]) Building)
           "core" (createPackage "core" [])
           complex_packages_wf eq_refl Hin (or_introl eq_refl) eq_refl eq_refl).
Defined.

(** ** runWithConcurrency: what the limit does achieve, and the results *)

Lemma at_limit_mono (k len : nat) (limit : number) :
  k <= len -> at_limit len limit = false -> at_limit k limit = false.
Proof.
  intros Hle. destruct limit as [z |]; cbn [at_limit]; [| reflexivity].
  rewrite !Z.leb_gt. lia.
Qed.

Lemma launch_all_items_executing env options items :
  forall run,
    executing (launch_all_items env options items run)
    = executing run ++ map (start env options) items.
Proof.
  induction items as [| item rest IH]; intro run; cbn [launch_all_items fold_left map].
  - now rewrite app_nil_r.
  - fold (launch_all_items env options rest (launch env options item run)).
    rewrite IH. cbn [launch executing]. now rewrite <- app_assoc.
Qed.

Lemma run_items_below_limit env options limit items :
  forall schedule run,
    at_limit (length (executing run) + length items) limit = false ->
    run_items env options limit items schedule run
    = await_all env options schedule (launch_all_items env options items run).
Proof.
  induction items as [| item rest IH]; intros schedule run Hlimit;
    cbn [run_items launch_all_items fold_left]; [reflexivity |].
  fold (launch_all_items env options rest (launch env options item run)).
  assert (Hlen : length (executing (launch env options item run))
                 = S (length (executing run)))
    by (cbn [launch executing]; rewrite length_app; simpl; lia).
  rewrite (at_limit_mono _ _ limit (Nat.le_refl _)).
  - apply IH. rewrite Hlen. cbn [length] in Hlimit.
    now replace (S (length (executing run)) + length rest)
      with (length (executing run) + S (length rest)) by lia.
  - apply (at_limit_mono _ (length (executing run) + length (item :: rest)));
      [cbn [length]; lia | exact Hlimit].
Qed.

(** X14: with fewer items than the limit, or with a limit that is [NaN]
    (a [--parallel] value that is not a number), [runWithConcurrency]
    starts every item before it looks at any completion, and then only
    waits for all of them. *)
Theorem runWithConcurrency_below_limit (env : Environment)
  (options : BuildOptions) (items : list PackageInfo) (limit : number)
  (schedule : list nat) :
  at_limit (length items) limit = false ->
  runWithConcurrency env options items limit schedule
  = await_all env options schedule
              (launch_all_items env options items (mkRun [] [] 0))
  /\ executing (launch_all_items env options items (mkRun [] [] 0))
     = map (start env options) items.
Proof.
  intro Hlimit. split.
  - unfold runWithConcurrency. now apply run_items_below_limit.
  - now rewrite launch_all_items_executing.
Qed.

Lemma runWithConcurrency_below_limit_witness :
  at_limit (length (JsMap.values four_packages)) NaN = false
  /\ at_limit (length (JsMap.values four_packages)) (Num 8) = false
  /\ map task_state
         (executing
            (snd (runWithConcurrency all_succeed (mkOptions true (Some NaN))
                                     (JsMap.values four_packages) NaN [])))
     = [Building; Building; Building; Building]
  /\ runWithConcurrency all_succeed (mkOptions true (Some NaN))
                        (JsMap.values four_packages) NaN [2]
     = await_all all_succeed (mkOptions true (Some NaN)) [2]
                 (launch_all_items all_succeed (mkOptions true (Some NaN))
                                   (JsMap.values four_packages) (mkRun [] [] 0)).
Proof.
  split; [reflexivity |]. split; [reflexivity |]. split; [reflexivity |].
  exact (proj1 (runWithConcurrency_below_limit all_succeed
                  (mkOptions true (Some NaN)) (JsMap.values four_packages)
                  NaN [2] eq_refl)).
Defined.

(** A settled promise stays settled. *)
Lemma advance_settled env options t :
  is_settled t = true -> is_settled (advance env options t) = true.
Proof.
  unfold is_settled, advance. destruct (task_state t) eqn:E; try discriminate.
  now rewrite E.
Qed.

Lemma advance_nth_settled env options i tasks :
  Exists (fun t => is_settled t = true) tasks ->
  Exists (fun t => is_settled t = true) (advance_nth env options i tasks).
Proof.
  revert i. induction tasks as [| t tasks IH]; intros i Hex; [now destruct i |].
  destruct i as [| i]; cbn [advance_nth];
    inversion Hex as [? ? Ht | ? ? Hrest]; subst.
  - apply Exists_cons_hd. now apply advance_settled.
  - now apply Exists_cons_tl.
  - now apply Exists_cons_hd.
  - apply Exists_cons_tl. now apply IH.
Qed.

Lemma advance_nth_length env options i tasks :
  length (advance_nth env options i tasks) = length tasks.
Proof.
  rewrite <- (length_map task_pkg), advance_nth_pkgs. apply length_map.
Qed.

Lemma first_settled_Exists tasks :
  first_settled tasks <> None <-> Exists (fun t => is_settled t = true) tasks.
Proof.
  induction tasks as [| t tasks IH]; cbn [first_settled].
  - split; [congruence | intro H; inversion H].
  - unfold is_settled at 1. destruct (task_state t) eqn:E.
    + rewrite IH. split; [now apply Exists_cons_tl |].
      intro H. inversion H as [? ? Ht | ? ? Hrest]; subst; [| exact Hrest].
      unfold is_settled in Ht. rewrite E in Ht. discriminate.
    + rewrite IH. split; [now apply Exists_cons_tl |].
      intro H. inversion H as [? ? Ht | ? ? Hrest]; subst; [| exact Hrest].
      unfold is_settled in Ht. rewrite E in Ht. discriminate.
    + split; [| discriminate]. intros _. apply Exists_cons_hd.
      unfold is_settled. now rewrite E.
Qed.

Lemma await_race_settled env options schedule :
  forall run,
    (Exists (fun t => is_settled t = true) (executing run)
     \/ fst (fst (await_race env options schedule run)) = Resolved tt ->
     Exists (fun t => is_settled t = true)
            (executing (snd (await_race env options schedule run))))
    /\ length (executing (snd (await_race env options schedule run)))
       = length (executing run).
Proof.
  induction schedule as [| i schedule IH]; intro run; cbn [await_race];
    destruct (first_settled (executing run)) as [[r | e] |] eqn:E;
    cbn [fst snd].
  - split; [| reflexivity]. intros _. apply first_settled_Exists. congruence.
  - split; [| reflexivity]. intros _. apply first_settled_Exists. congruence.
  - split; [| reflexivity]. intros [H | H]; [exact H | discriminate].
  - split; [| reflexivity]. intros _. apply first_settled_Exists. congruence.
  - split; [| reflexivity]. intros _. apply first_settled_Exists. congruence.
  - destruct (IH (deliver env options i run)) as [Hex Hlen]. split.
    + intros [H | H]; apply Hex; [left | now right].
      cbn [deliver executing]. now apply advance_nth_settled.
    + rewrite Hlen. cbn [deliver executing]. apply advance_nth_length.
Qed.

Lemma await_all_settled env options schedule :
  forall run,
    (Exists (fun t => is_settled t = true) (executing run) ->
     Exists (fun t => is_settled t = true)
            (executing (snd (await_all env options schedule run))))
    /\ length (executing (snd (await_all env options schedule run)))
       = length (executing run).
Proof.
  induction schedule as [| i schedule IH]; intro run; cbn [await_all];
    destruct (first_rejected (executing run)) as [e |];
    try (split; [tauto | reflexivity]);
    destruct (forallb is_settled (executing run));
    try (split; [tauto | reflexivity]).
  destruct (IH (deliver env options i run)) as [Hex Hlen]. split.
  - intro H. apply Hex. cbn [deliver executing]. now apply advance_nth_settled.
  - rewrite Hlen. cbn [deliver executing]. apply advance_nth_length.
Qed.

(** Either some promise has settled, or no more than the limit (and at
    least one) have been started. *)
Lemma run_items_bound env options (z : Z) items :
  forall schedule run,
    Exists (fun t => is_settled t = true) (executing run)
    \/ (Z.of_nat (length (executing run)) < Z.max z 1)%Z ->
    Exists (fun t => is_settled t = true)
           (executing (snd (run_items env options (Num z) items schedule run)))
    \/ (Z.of_nat (length (executing
                            (snd (run_items env options (Num z) items
                                            schedule run))))
        <= Z.max z 1)%Z.
Proof.
  induction items as [| item rest IH]; intros schedule run Hrun;
    cbn [run_items].
  - destruct (await_all_settled env options schedule run) as [Hex Hlen].
    rewrite Hlen. destruct Hrun as [H | H]; [left; now apply Hex | right; lia].
  - set (run1 := launch env options item run).
    assert (Hlen1 : length (executing run1) = S (length (executing run)))
      by (unfold run1; cbn [launch executing]; rewrite length_app; simpl; lia).
    assert (Hrun1 : Exists (fun t => is_settled t = true) (executing run1)
                    \/ (Z.of_nat (length (executing run1)) <= Z.max z 1)%Z).
    { destruct Hrun as [H | H]; [left | right; lia].
      unfold run1. cbn [launch executing]. apply Exists_app. now left. }
    destruct (at_limit (length (executing run1)) (Num z)) eqn:Hlimit.
    + destruct (await_race_settled env options schedule run1) as [Hex Hlen].
      destruct (await_race env options schedule run1) as [[s schedule'] run2].
      cbn [fst snd] in Hex, Hlen.
      destruct s as [[] | e |]; cbn [snd].
      * apply IH. left. cbn [executing]. rewrite filter_executing_all.
        apply Hex. now right.
      * rewrite Hlen. destruct Hrun1 as [H | H]; [left; apply Hex; now left |].
        now right.
      * rewrite Hlen. destruct Hrun1 as [H | H]; [left; apply Hex; now left |].
        now right.
    + apply IH. destruct Hrun1 as [H | H]; [now left | right].
      cbn [at_limit] in Hlimit. apply Z.leb_gt in Hlimit. lia.
Qed.

(** X15: as long as no promise of a call of [runWithConcurrency] has
    settled, the limit holds: no more than [limit] items (one, when the
    limit is below one) have been started, so no more build invocations
    than that are in flight. *)
Theorem runWithConcurrency_bound_until_first_completion (env : Environment)
  (options : BuildOptions) (items : list PackageInfo) (z : Z)
  (schedule : list nat) :
  first_settled
    (executing (snd (runWithConcurrency env options items (Num z) schedule)))
  = None ->
  (Z.of_nat (length (executing (snd (runWithConcurrency env options items
                                                        (Num z) schedule))))
   <= Z.max z 1)%Z
  /\ (Z.of_nat (in_flight (executing (snd (runWithConcurrency env options items
                                                              (Num z) schedule))))
      <= Z.max z 1)%Z.
Proof.
  intro Hnone. unfold runWithConcurrency in *.
  destruct (run_items_bound env options z items schedule (mkRun [] [] 0))
    as [Hex | Hle].
  - right. cbn [executing length]. lia.
  - apply first_settled_Exists in Hex. contradiction.
  - split; [exact Hle |].
    eapply Z.le_trans; [| exact Hle]. apply Nat2Z.inj_le.
    unfold in_flight. apply List.filter_length_le.
Qed.

Lemma runWithConcurrency_bound_until_first_completion_witness :
  first_settled
    (executing (snd (runWithConcurrency all_succeed (mkOptions true (Some (Num 2)))
                                        (JsMap.values four_packages) (Num 2) [])))
  = None
  /\ in_flight
       (executing (snd (runWithConcurrency all_succeed
                                           (mkOptions true (Some (Num 2)))
                                           (JsMap.values four_packages)
                                           (Num 2) [])))
     = 2
  /\ (Z.of_nat (in_flight
                  (executing (snd (runWithConcurrency all_succeed
                                     (mkOptions true (Some (Num 2)))
                                     (JsMap.values four_packages) (Num 2) []))))
      <= Z.max 2 1)%Z.
Proof.
  split; [reflexivity |]. split; [reflexivity |].
  exact (proj2 (runWithConcurrency_bound_until_first_completion all_succeed
                  (mkOptions true (Some (Num 2))) (JsMap.values four_packages)
                  2 [] eq_refl)).
Defined.

(** *** The results *)

Lemma fulfilled_results_app (l1 l2 : list Task) :
  fulfilled_results (l1 ++ l2) = fulfilled_results l1 ++ fulfilled_results l2.
Proof. unfold fulfilled_results. apply flat_map_app. Qed.

Lemma newly_fulfilled_same (t : Task) : newly_fulfilled t t = [].
Proof. unfold newly_fulfilled. now destruct (task_state t). Qed.

Lemma pushed_same (tasks : list Task) : pushed tasks tasks = [].
Proof.
  induction tasks as [| t tasks IH]; [reflexivity |].
  cbn [pushed]. now rewrite newly_fulfilled_same, IH.
Qed.

Lemma advance_fulfilled env options (t : Task) :
  fulfilled_results [advance env options t]
  = fulfilled_results [t] ++ newly_fulfilled t (advance env options t).
Proof.
  unfold fulfilled_results, newly_fulfilled, advance. cbn [flat_map].
  destruct (task_state t) as [| | c] eqn:E.
  - destruct (needs env (path (task_pkg t))); cbn [task_state]; [reflexivity |].
    now destruct (buildPackage env (task_pkg t) options).
  - cbn [task_state]. now destruct (buildPackage env (task_pkg t) options).
  - rewrite E. destruct c; now rewrite ?app_nil_r.
Qed.

Lemma advance_nth_fulfilled env options i tasks :
  Permutation (fulfilled_results (advance_nth env options i tasks))
              (fulfilled_results tasks
               ++ pushed tasks (advance_nth env options i tasks)).
Proof.
  revert i. induction tasks as [| t tasks IH]; intro i; [now destruct i |].
  destruct i as [| i]; cbn [advance_nth pushed].
  - change (advance env options t :: tasks)
      with ([advance env options t] ++ tasks).
    change (t :: tasks) with ([t] ++ tasks) at 1.
    rewrite !fulfilled_results_app, advance_fulfilled, pushed_same, app_nil_r.
    rewrite <- !app_assoc. apply Permutation_app_head, Permutation_app_comm.
  - rewrite newly_fulfilled_same. cbn [app].
    change (t :: advance_nth env options i tasks)
      with ([t] ++ advance_nth env options i tasks).
    change (t :: tasks) with ([t] ++ tasks) at 1.
    rewrite !fulfilled_results_app, <- app_assoc.
    apply Permutation_app_head, IH.
Qed.

Lemma deliver_results env options i run :
  Permutation (results run) (fulfilled_results (executing run)) ->
  Permutation (results (deliver env options i run))
              (fulfilled_results (executing (deliver env options i run))).
Proof.
  intro Hinv. cbn [deliver results executing].
  rewrite (advance_nth_fulfilled env options i (executing run)).
  now apply Permutation_app_tail.
Qed.

Lemma launch_results env options item run :
  Permutation (results run) (fulfilled_results (executing run)) ->
  Permutation (results (launch env options item run))
              (fulfilled_results (executing (launch env options item run))).
Proof.
  intro Hinv. cbn [launch results executing].
  rewrite fulfilled_results_app. apply Permutation_app; [exact Hinv |].
  unfold fulfilled_results. cbn [flat_map]. now rewrite app_nil_r.
Qed.

Lemma await_race_results env options schedule :
  forall run,
    Permutation (results run) (fulfilled_results (executing run)) ->
    Permutation (results (snd (await_race env options schedule run)))
                (fulfilled_results
                   (executing (snd (await_race env options schedule run)))).
Proof.
  induction schedule as [| i schedule IH]; intros run Hinv; cbn [await_race];
    destruct (first_settled (executing run)) as [[r | e] |]; try exact Hinv.
  apply IH. now apply deliver_results.
Qed.

Lemma await_all_results env options schedule :
  forall run,
    Permutation (results run) (fulfilled_results (executing run)) ->
    Permutation (results (snd (await_all env options schedule run)))
                (fulfilled_results
                   (executing (snd (await_all env options schedule run)))).
Proof.
  induction schedule as [| i schedule IH]; intros run Hinv; cbn [await_all];
    destruct (first_rejected (executing run)) as [e |]; try exact Hinv;
    destruct (forallb is_settled (executing run)); try exact Hinv.
  apply IH. now apply deliver_results.
Qed.

Lemma run_items_results env options limit items :
  forall schedule run,
    Permutation (results run) (fulfilled_results (executing run)) ->
    Permutation (results (snd (run_items env options limit items schedule run)))
                (fulfilled_results
                   (executing (snd (run_items env options limit items
                                              schedule run)))).
Proof.
  induction items as [| item rest IH]; intros schedule run Hinv; cbn [run_items].
  - now apply await_all_results.
  - pose proof (launch_results env options item run Hinv) as Hinv1.
    set (run1 := launch env options item run) in *.
    destruct (at_limit (length (executing run1)) limit); [| now apply IH].
    pose proof (await_race_results env options schedule run1 Hinv1) as Hinv2.
    destruct (await_race env options schedule run1) as [[s schedule'] run2].
    cbn [snd] in Hinv2. destruct s as [[] | e |]; try exact Hinv2.
    apply IH. cbn [results executing]. now rewrite filter_executing_all.
Qed.

(** What fulfilled promises hold, when all of them are fulfilled. *)
Lemma fulfilled_results_all env options (tasks : list Task) :
  tasks_ok env options tasks ->
  (forall t, In t tasks -> exists r, task_state t = Settled (Return r)) ->
  map (@Return BuildResult) (fulfilled_results tasks)
  = map (fun pkg => buildPackage env pkg options) (map task_pkg tasks).
Proof.
  induction tasks as [| t tasks IH]; intros Hok Hall; [reflexivity |].
  change (t :: tasks) with ([t] ++ tasks) at 1.
  rewrite fulfilled_results_app, map_app. cbn [map].
  rewrite IH.
  - destruct (Hall t (or_introl eq_refl)) as [r Hr].
    unfold fulfilled_results. cbn [flat_map]. rewrite Hr. cbn [app map].
    f_equal. now apply (Hok t); [left |].
  - intros t' c Hin. apply Hok. now right.
  - intros t' Hin. apply Hall. now right.
Qed.

(** *** The order of the results

    What a run does with a schedule, it also does with a longer one, up to
    the point where the shorter schedule ends. *)

Lemma await_race_decided env options schedule run c :
  first_settled (executing run) = Some c ->
  await_race env options schedule run
  = (match c with
     | Return _ => Resolved tt
     | Throw e => Rejected e
     end, schedule, run).
Proof.
  intro Hfirst. destruct schedule; cbn [await_race]; rewrite Hfirst;
    now destruct c.
Qed.

Lemma await_race_more env options s1 s2 :
  forall run,
    (fst (fst (await_race env options s1 run)) = Pending ->
     await_race env options (s1 ++ s2) run
     = await_race env options s2 (snd (await_race env options s1 run)))
    /\ (fst (fst (await_race env options s1 run)) <> Pending ->
        await_race env options (s1 ++ s2) run
        = (fst (fst (await_race env options s1 run)),
           snd (fst (await_race env options s1 run)) ++ s2,
           snd (await_race env options s1 run))).
Proof.
  induction s1 as [| i s1 IH]; intro run.
  - cbn [await_race app].
    destruct (first_settled (executing run)) as [c |] eqn:Hfirst.
    + rewrite (await_race_decided env options s2 run c Hfirst).
      destruct c; cbn [fst snd]; split; intro H; try discriminate; reflexivity.
    + cbn [fst snd]. split; [reflexivity | intro H; now contradiction H].
  - cbn [await_race app].
    destruct (first_settled (executing run)) as [[r | e] |] eqn:Hfirst.
    + cbn [fst snd]. split; [discriminate | reflexivity].
    + cbn [fst snd]. split; [discriminate | reflexivity].
    + apply IH.
Qed.

Lemma await_all_decided env options schedule run :
  first_rejected (executing run) <> None
  \/ forallb is_settled (executing run) = true ->
  await_all env options schedule run
  = (match first_rejected (executing run) with
     | Some e => Rejected e
     | None => Resolved tt
     end, schedule, run).
Proof.
  intro Hdone. destruct schedule; cbn [await_all];
    destruct (first_rejected (executing run)) as [e |]; try reflexivity;
    destruct Hdone as [Hrej | Hall]; try (now contradiction Hrej);
    now rewrite Hall.
Qed.

Lemma await_all_more env options s1 s2 :
  forall run,
    (fst (fst (await_all env options s1 run)) = Pending ->
     await_all env options (s1 ++ s2) run
     = await_all env options s2 (snd (await_all env options s1 run)))
    /\ (fst (fst (await_all env options s1 run)) <> Pending ->
        await_all env options (s1 ++ s2) run
        = (fst (fst (await_all env options s1 run)),
           snd (fst (await_all env options s1 run)) ++ s2,
           snd (await_all env options s1 run))).
Proof.
  induction s1 as [| i s1 IH]; intro run.
  - cbn [await_all app].
    destruct (first_rejected (executing run)) as [e |] eqn:Hrej.
    + rewrite (await_all_decided env options s2 run)
        by (left; rewrite Hrej; discriminate).
      rewrite Hrej. cbn [fst snd]. split; [discriminate | reflexivity].
    + destruct (forallb is_settled (executing run)) eqn:Hall.
      * rewrite (await_all_decided env options s2 run) by now right.
        rewrite Hrej. cbn [fst snd]. split; [discriminate | reflexivity].
      * cbn [fst snd]. split; [reflexivity | intro H; now contradiction H].
  - cbn [await_all app].
    destruct (first_rejected (executing run)) as [e |] eqn:Hrej.
    + cbn [fst snd]. split; [discriminate | reflexivity].
    + destruct (forallb is_settled (executing run)) eqn:Hall.
      * cbn [fst snd]. split; [discriminate | reflexivity].
      * apply IH.
Qed.

(** [results] is only ever pushed to. *)
Lemma await_race_grows env options schedule :
  forall run,
    exists later,
      results (snd (await_race env options schedule run))
      = results run ++ later.
Proof.
  induction schedule as [| i schedule IH]; intro run; cbn [await_race];
    destruct (first_settled (executing run)) as [[r | e] |];
    try (exists []; now rewrite app_nil_r).
  destruct (IH (deliver env options i run)) as [later Hlater].
  rewrite Hlater. cbn [deliver results]. rewrite <- app_assoc. eauto.
Qed.

Lemma await_all_grows env options schedule :
  forall run,
    exists later,
      results (snd (await_all env options schedule run))
      = results run ++ later.
Proof.
  induction schedule as [| i schedule IH]; intro run; cbn [await_all];
    destruct (first_rejected (executing run)) as [e |];
    try (exists []; now rewrite app_nil_r);
    destruct (forallb is_settled (executing run));
    try (exists []; now rewrite app_nil_r).
  destruct (IH (deliver env options i run)) as [later Hlater].
  rewrite Hlater. cbn [deliver results]. rewrite <- app_assoc. eauto.
Qed.

Lemma run_items_grows env options limit items :
  forall schedule run,
    exists later,
      results (snd (run_items env options limit items schedule run))
      = results run ++ later.
Proof.
  induction items as [| item rest IH]; intros schedule run; cbn [run_items].
  - apply await_all_grows.
  - set (run1 := launch env options item run).
    assert (Hlaunch : exists later, results run1 = results run ++ later)
      by (unfold run1; cbn [launch results]; eauto).
    destruct Hlaunch as [l1 Hl1].
    destruct (at_limit (length (executing run1)) limit).
    + destruct (await_race_grows env options schedule run1) as [l2 Hl2].
      destruct (await_race env options schedule run1) as [[s schedule'] run2].
      cbn [snd] in Hl2.
      destruct s as [[] | e |].
      * destruct (IH schedule'
                     (mkRun (fst (filter_executing (executing run2)
                                                   (mkReactions [] [])))
                            (results run2) (peak run2))) as [l3 Hl3].
        rewrite Hl3. cbn [results]. rewrite Hl2, Hl1, <- !app_assoc. eauto.
      * cbn [snd]. rewrite Hl2, Hl1, <- app_assoc. eauto.
      * cbn [snd]. rewrite Hl2, Hl1, <- app_assoc. eauto.
    + destruct (IH schedule run1) as [l2 Hl2].
      rewrite Hl2, Hl1, <- app_assoc. eauto.
Qed.

Lemma run_items_more env options limit items :
  forall s1 s2 run,
    exists later,
      results (snd (run_items env options limit items (s1 ++ s2) run))
      = results (snd (run_items env options limit items s1 run)) ++ later.
Proof.
  induction items as [| item rest IH]; intros s1 s2 run; cbn [run_items].
  - destruct (await_all_more env options s1 s2 run) as [Hpending Hdecided].
    destruct (fst (fst (await_all env options s1 run))) as [[] | e |] eqn:Hout.
    + rewrite Hdecided by discriminate. cbn [snd].
      exists []. now rewrite app_nil_r.
    + rewrite Hdecided by discriminate. cbn [snd].
      exists []. now rewrite app_nil_r.
    + rewrite (Hpending eq_refl). apply await_all_grows.
  - set (run1 := launch env options item run).
    destruct (at_limit (length (executing run1)) limit); [| apply IH].
    destruct (await_race_more env options s1 s2 run1) as [Hpending Hdecided].
    destruct (await_race env options s1 run1) as [[s schedule'] run2].
    cbn [fst snd] in Hpending, Hdecided.
    destruct s as [[] | e |].
    + rewrite Hdecided by discriminate. apply IH.
    + rewrite Hdecided by discriminate. cbn [snd].
      exists []. now rewrite app_nil_r.
    + rewrite (Hpending eq_refl). cbn [snd].
      destruct (await_race_grows env options s2 run2) as [l1 Hl1].
      destruct (await_race env options s2 run2) as [[s' schedule''] run3].
      cbn [snd] in Hl1.
      destruct s' as [[] | e |]; try (cbn [snd]; eauto).
      destruct (run_items_grows env options limit rest schedule''
                  (mkRun (fst (filter_executing (executing run3)
                                                (mkReactions [] [])))
                         (results run3) (peak run3))) as [l2 Hl2].
      rewrite Hl2. cbn [results]. rewrite Hl1, <- app_assoc. eauto.
Qed.

(** X16: at every moment of a call of [runWithConcurrency] the array
    [results] holds the values of the promises fulfilled so far, each
    once; when the call resolves it holds one result for each item: what
    [buildPackage] yields for it.  The results are in the order of
    completion: as more pending operations complete, [results] only
    grows at its end, so that a result that is there at one moment stands
    before every result that comes later. *)
Theorem runWithConcurrency_results (env : Environment) (options : BuildOptions)
  (items : list PackageInfo) (limit : number) (schedule : list nat) :
  Permutation
    (results (snd (runWithConcurrency env options items limit schedule)))
    (fulfilled_results
       (executing (snd (runWithConcurrency env options items limit schedule))))
  /\ (fst (fst (runWithConcurrency env options items limit schedule))
      = Resolved tt ->
      Permutation
        (map (@Return BuildResult)
             (results (snd (runWithConcurrency env options items limit
                                               schedule))))
        (map (fun pkg => buildPackage env pkg options) items))
  /\ (forall more,
         exists later,
           results (snd (runWithConcurrency env options items limit
                                            (schedule ++ more)))
           = results (snd (runWithConcurrency env options items limit
                                              schedule))
             ++ later)
  /\ (forall more x y,
         In x (results (snd (runWithConcurrency env options items limit
                                                schedule))) ->
         ~ In y (results (snd (runWithConcurrency env options items limit
                                                  schedule))) ->
         In y (results (snd (runWithConcurrency env options items limit
                                                (schedule ++ more)))) ->
         exists l1 l2 l3,
           results (snd (runWithConcurrency env options items limit
                                            (schedule ++ more)))
           = l1 ++ x :: l2 ++ y :: l3).
Proof.
  unfold runWithConcurrency.
  assert (Hinv : Permutation
                   (results (snd (run_items env options limit items schedule
                                            (mkRun [] [] 0))))
                   (fulfilled_results
                      (executing (snd (run_items env options limit items
                                                 schedule (mkRun [] [] 0))))))
    by (apply run_items_results; constructor).
  split; [exact Hinv |]. split.
  - intro Hresolved.
    destruct (run_items_post env options limit items schedule (mkRun [] [] 0))
      as (Hok & (started & Hp & _ & Hall) & Hres & _).
    { intros t c []. }
    cbn [executing map app] in Hp.
    rewrite (Permutation_map (@Return BuildResult) Hinv).
    rewrite (fulfilled_results_all env options _ Hok (Hres Hresolved)).
    rewrite Hp, (Hall Hresolved). apply Permutation_refl.
  - split; [intro more; apply run_items_more |].
    intros more x y Hx Hny Hy.
    destruct (run_items_more env options limit items schedule more
                (mkRun [] [] 0)) as [later Hlater].
    rewrite Hlater in Hy |- *.
    apply in_app_or in Hy as [Hy | Hy]; [contradiction |].
    apply in_split in Hx as (l1 & l2 & Hx).
    apply in_split in Hy as (l3 & l4 & Hy).
    exists l1, (l2 ++ l3), l4.
    rewrite Hx, Hy, <- !app_assoc. reflexivity.
Qed.
(** ** core/workspace.ts: reading the workspace dependencies *)

Lemma JsMap_set_wf {V : Type} (k : string) (v : V) (m : JsMap.t V) :
  JsMap.wf m -> JsMap.wf (JsMap.set k v m).
Proof.
  intro Hwf. unfold JsMap.wf in *.
  destruct (in_dec string_dec k (JsMap.keys m)) as [Hin | Hnotin].
  - now rewrite JsMap_keys_set_In.
  - rewrite JsMap_set_fresh by assumption.
    unfold JsMap.keys. rewrite map_app. cbn [map fst].
    apply NoDup_app; [exact Hwf | repeat constructor; intros [] |].
    intros a Ha [<- | []]. contradiction.
Qed.

(** [Object.assign]-like copying of the entries [l] into [m], one by one:
    the result is a map, and a key has the value of its entry in [l], or
    else the value it had in [m]. *)
Lemma copy_entries_spec {V : Type} (l : list (string * V)) :
  forall m : JsMap.t V,
    JsMap.wf m -> JsMap.wf l ->
    JsMap.wf (fold_left (fun m entry => JsMap.set (fst entry) (snd entry) m) l m)
    /\ forall n,
        JsMap.get n (fold_left (fun m entry => JsMap.set (fst entry) (snd entry) m)
                               l m)
        = match JsMap.get n l with
          | Some v => Some v
          | None => JsMap.get n m
          end.
Proof.
  induction l as [| [k v] l IH]; intros m Hm Hl; cbn [fold_left fst snd].
  - split; [exact Hm | reflexivity].
  - unfold JsMap.wf in Hl. cbn [JsMap.keys map fst] in Hl.
    inversion Hl as [| ? ? Hnotin Hl']; subst.
    destruct (IH (JsMap.set k v m) (JsMap_set_wf k v m Hm) Hl') as [Hwf Hget].
    split; [exact Hwf |].
    intro n. rewrite Hget. cbn [JsMap.get].
    destruct (String.eqb_spec k n) as [-> | Hne].
    + assert (Hnone : JsMap.get n l = None) by now apply JsMap_get_None.
      rewrite Hnone. apply JsMap_get_set_same.
    + destruct (JsMap.get n l); [reflexivity |].
      now apply JsMap_get_set_other.
Qed.

Lemma insert_indexed_perm {V : Type} (n : N) (entry : string * V)
  (sorted : list (N * (string * V))) :
  Permutation (insert_indexed n entry sorted) ((n, entry) :: sorted).
Proof.
  induction sorted as [| [m e] sorted IH]; cbn [insert_indexed];
    [apply Permutation_refl |].
  destruct (N.leb n m); [apply Permutation_refl |].
  eapply Permutation_trans; [apply perm_skip, IH | apply perm_swap].
Qed.

(** The enumeration of the properties is a rearrangement of the
    properties. *)
Lemma own_properties_perm {V : Type} (created : JsMap.t V) :
  Permutation (own_properties created) created.
Proof.
  unfold own_properties.
  induction created as [| entry created IH]; [constructor |].
  cbn [fold_right filter].
  destruct (array_index (fst entry)) as [n |].
  - rewrite (Permutation_map snd (insert_indexed_perm n entry _)).
    cbn [map snd app]. now apply perm_skip.
  - eapply Permutation_trans; [apply Permutation_sym, Permutation_middle |].
    now apply perm_skip.
Qed.

Lemma JsMap_perm_wf {V : Type} (m m' : JsMap.t V) :
  Permutation m m' -> JsMap.wf m -> JsMap.wf m'.
Proof.
  unfold JsMap.wf, JsMap.keys. intros Hperm Hwf.
  eapply Permutation_NoDup; [apply Permutation_map, Hperm | exact Hwf].
Qed.

Lemma JsMap_perm_get {V : Type} (m m' : JsMap.t V) (n : string) :
  Permutation m m' -> JsMap.wf m -> JsMap.get n m' = JsMap.get n m.
Proof.
  intros Hperm Hwf.
  pose proof (JsMap_perm_wf m m' Hperm Hwf) as Hwf'.
  destruct (JsMap.get n m) as [v |] eqn:Hget.
  - apply JsMap_In_get; [exact Hwf' |].
    eapply Permutation_in; [exact Hperm | now apply JsMap_get_In].
  - apply JsMap_get_None. apply JsMap_get_None in Hget.
    intro Hin. apply Hget. unfold JsMap.keys in *.
    eapply Permutation_in; [apply Permutation_map, Permutation_sym, Hperm |].
    exact Hin.
Qed.

Lemma spread_spec (a b : list (string * JsonValue)) :
  JsMap.wf a -> JsMap.wf b ->
  JsMap.wf (spread a b)
  /\ forall n, JsMap.get n (spread a b)
               = match JsMap.get n b with
                 | Some v => Some v
                 | None => JsMap.get n a
                 end.
Proof.
  intros Ha Hb. unfold spread. rewrite fold_left_app.
  destruct (copy_entries_spec a JsMap.empty) as [Hwfa Hgeta];
    [constructor | exact Ha |].
  destruct (copy_entries_spec b _ Hwfa Hb) as [Hwf Hget].
  pose proof (Permutation_sym (own_properties_perm
                (fold_left (fun m entry => JsMap.set (fst entry) (snd entry) m)
                           b
                           (fold_left (fun m entry =>
                                         JsMap.set (fst entry) (snd entry) m)
                                      a JsMap.empty)))) as Hperm.
  split; [exact (JsMap_perm_wf _ _ Hperm Hwf) |].
  intro n. rewrite (JsMap_perm_get _ _ n Hperm Hwf), Hget, Hgeta.
  cbn [JsMap.get JsMap.empty].
  now destruct (JsMap.get n a).
Qed.

Lemma NoDup_keys_filter {V : Type} (f : string * V -> bool) (m : JsMap.t V) :
  JsMap.wf m -> NoDup (map fst (filter f m)).
Proof.
  unfold JsMap.wf, JsMap.keys. induction m as [| entry m IH]; intro Hwf;
    cbn [filter map]; [constructor |].
  cbn [map] in Hwf. inversion Hwf as [| ? ? Hnotin Hwf']; subst.
  destruct (f entry); [| now apply IH].
  cbn [map]. constructor; [| now apply IH].
  intro Hin. apply Hnotin. apply in_map_iff in Hin as (e & <- & He).
  apply filter_In in He as [He _]. now apply in_map.
Qed.

(** X17: [extractWorkspaceDependencies] lists each name once, and lists
    a name exactly when the version that counts for it starts with
    [workspace:], the version that counts being the one of
    [devDependencies] when the name occurs there and the one of
    [dependencies] otherwise.  So a [workspace:] dependency that
    [devDependencies] overrides with a registry version is not listed. *)
Theorem extractWorkspaceDependencies_spec (packageJson : PackageJsonData) :
  JsMap.wf (dependencies packageJson) ->
  JsMap.wf (devDependencies packageJson) ->
  NoDup (extractWorkspaceDependencies packageJson)
  /\ forall n,
      In n (extractWorkspaceDependencies packageJson)
      <-> match JsMap.get n (devDependencies packageJson) with
          | Some version => is_workspace_version version = true
          | None =>
              exists version,
                JsMap.get n (dependencies packageJson) = Some version
                /\ is_workspace_version version = true
          end.
Proof.
  intros Hdeps Hdev. unfold extractWorkspaceDependencies.
  destruct (spread_spec _ _ Hdeps Hdev) as [Hwf Hget].
  split; [now apply NoDup_keys_filter |].
  intro n. rewrite in_map_iff.
  assert (Hiff : (exists entry,
                     fst entry = n
                     /\ In entry
                          (filter (fun entry => is_workspace_version (snd entry))
                                  (spread (dependencies packageJson)
                                          (devDependencies packageJson))))
                 <-> exists version,
                      JsMap.get n (spread (dependencies packageJson)
                                          (devDependencies packageJson))
                      = Some version
                      /\ is_workspace_version version = true).
  { split.
    - intros ([k version] & Hk & Hin). cbn [fst] in Hk. subst k.
      apply filter_In in Hin as [Hin Hws]. exists version.
      split; [now apply JsMap_In_get | exact Hws].
    - intros (version & Hversion & Hws). exists (n, version).
      split; [reflexivity |]. apply filter_In.
      split; [now apply JsMap_get_In | exact Hws]. }
  rewrite Hiff, Hget.
  destruct (JsMap.get n (devDependencies packageJson)) as [version |].
  - split; [intros (v & Hv & Hws); now injection Hv as <- |].
    intro Hws. now exists version.
  - reflexivity.
Qed.

Lemma extractWorkspaceDependencies_spec_witness :
  extractWorkspaceDependencies
    (mkPackageJson (Some "app") None
       [("a", JString "workspace:*"); ("b", JString "workspace:*");
        ("lodash", JString "^4.0.0")]
       [("b", JString "^1.0.0"); ("c", JString "workspace:^")])
  = ["a"; "c"]
  /\ NoDup (extractWorkspaceDependencies
              (mkPackageJson (Some "app") None
                 [("a", JString "workspace:*"); ("b", JString "workspace:*");
                  ("lodash", JString "^4.0.0")]
                 [("b", JString "^1.0.0"); ("c", JString "workspace:^")])).
Proof.
  split; [reflexivity |].
  refine (proj1 (extractWorkspaceDependencies_spec
                   (mkPackageJson (Some "app") None
                      [("a", JString "workspace:*"); ("b", JString "workspace:*");
                       ("lodash", JString "^4.0.0")]
                      [("b", JString "^1.0.0"); ("c", JString "workspace:^")])
                   _ _)).
  - repeat constructor; simpl; intuition discriminate.
  - repeat constructor; simpl; intuition discriminate.
Defined.

(** ** The workspace root, in core/workspace.ts and in utils/pm.ts *)

Lemma is_above_cons (a : Path) (segment : string) (parent : Path) :
  is_above a (segment :: parent) <-> a = segment :: parent \/ is_above a parent.
Proof.
  unfold is_above. split.
  - intros [[| s below] H]; cbn [app] in H.
    + left. now symmetry.
    + right. injection H as -> ->. now exists below.
  - intros [-> | [below ->]].
    + now exists [].
    + now exists (segment :: below).
Qed.

Section UpwardSearch.

Variable found : Path -> bool.

(** A search that goes from a directory to its parent until [found] holds
    or the root of the file system is reached, as the three [while] loops
    do. *)
Variable search : Path -> option Path.
Hypothesis search_root : search [] = None.
Hypothesis search_step :
  forall segment parent,
    search (segment :: parent)
    = if found (segment :: parent) then Some (segment :: parent)
      else search parent.

Lemma search_spec (p : Path) :
  match search p with
  | Some r => nearest_above found p r
  | None => nowhere_above found p
  end.
Proof.
  induction p as [| segment parent IH].
  - rewrite search_root. intros a [below Ha] Hne.
    symmetry in Ha. apply app_eq_nil in Ha as [_ ->]. contradiction.
  - rewrite search_step. destruct (found (segment :: parent)) eqn:Hfound.
    + split; [discriminate |]. split; [exact Hfound |].
      exists []. split; [reflexivity |].
      intros b1 b2 Hsplit Hne. symmetry in Hsplit.
      apply app_eq_nil in Hsplit as [_ ->]. contradiction.
    + destruct (search parent) as [r |].
      * destruct IH as (Hr & Hfr & below & -> & Hnearest).
        split; [exact Hr |]. split; [exact Hfr |].
        exists (segment :: below). split; [reflexivity |].
        intros b1 b2 Hsplit Hne. destruct b1 as [| s b1]; cbn [app] in Hsplit.
        -- subst b2. exact Hfound.
        -- injection Hsplit as _ Hsplit. now apply (Hnearest b1 b2).
      * intros a Ha Hne. apply is_above_cons in Ha as [-> | Ha];
          [exact Hfound | now apply IH].
Qed.

End UpwardSearch.

Lemma find_workspaces_spec (fs : FileSystem) (p : Path) :
  match find_workspaces fs p with
  | Some r => nearest_above (declares_workspaces fs) p r
  | None => nowhere_above (declares_workspaces fs) p
  end.
Proof.
  apply search_spec; [reflexivity |].
  intros segment parent. cbn [find_workspaces]. unfold declares_workspaces.
  destruct (fs_package_json fs (segment :: parent)) as [packageJson |];
    [| reflexivity].
  now destruct (has_workspaces packageJson).
Qed.

Lemma find_workspace_marker_spec (fs : FileSystem) (p : Path) :
  match Pm.find_workspace_marker fs p with
  | Some r => nearest_above (has_workspace_marker fs) p r
  | None => nowhere_above (has_workspace_marker fs) p
  end.
Proof.
  apply search_spec; [reflexivity |].
  intros segment parent. cbn [Pm.find_workspace_marker].
  unfold has_workspace_marker, declares_workspaces.
  destruct (fs_access fs (path_join (segment :: parent) "pnpm-workspace.yaml"));
    [reflexivity |].
  cbn [orb].
  destruct (fs_package_json fs (segment :: parent)) as [packageInfo |];
    [| reflexivity].
  now destruct (has_workspaces packageInfo).
Qed.

Lemma find_git_spec (fs : FileSystem) (p : Path) :
  match Pm.find_git fs p with
  | Some r => nearest_above (fun a => fs_access fs (path_join a ".git")) p r
  | None => nowhere_above (fun a => fs_access fs (path_join a ".git")) p
  end.
Proof.
  apply (search_spec (fun a => fs_access fs (path_join a ".git")));
    [reflexivity |].
  intros segment parent. reflexivity.
Qed.

Lemma nearest_above_unique (found : Path -> bool) (p r r' : Path) :
  nearest_above found p r -> nearest_above found p r' -> r = r'.
Proof.
  intros (_ & Hf & below & Hp & Hnear) (_ & Hf' & below' & Hp' & Hnear').
  rewrite Hp in Hp'. apply app_eq_app in Hp' as [l [[Hb Hr] | [Hb Hr]]].
  - destruct l as [| s l]; [now rewrite Hr |].
    rewrite Hr in Hf'. rewrite (Hnear below' (s :: l) Hb) in Hf'; discriminate.
  - destruct l as [| s l]; [now rewrite Hr |].
    rewrite Hr in Hf. rewrite (Hnear' below (s :: l) Hb) in Hf; discriminate.
Qed.

(** X18: [findWorkspaceRoot] of core/workspace.ts returns the nearest
    directory, from the start directory upwards, whose [package.json] can
    be read and has a [workspaces] field; the root of the file system is
    never looked at.  Without such a directory it returns the start
    directory. *)
Theorem findWorkspaceRoot_nearest (fs : FileSystem) (startPath : Path) :
  is_above (findWorkspaceRoot fs startPath) startPath
  /\ (nearest_above (declares_workspaces fs) startPath
                    (findWorkspaceRoot fs startPath)
      \/ (findWorkspaceRoot fs startPath = startPath
          /\ nowhere_above (declares_workspaces fs) startPath))
  /\ (forall r, nearest_above (declares_workspaces fs) startPath r ->
                findWorkspaceRoot fs startPath = r).
Proof.
  unfold findWorkspaceRoot.
  pose proof (find_workspaces_spec fs startPath) as Hspec.
  destruct (find_workspaces fs startPath) as [root |].
  - split; [| split].
    + destruct Hspec as (_ & _ & below & Hbelow & _). now exists below.
    + now left.
    + intros r Hr. exact (nearest_above_unique _ _ _ _ Hspec Hr).
  - split; [| split].
    + now exists [].
    + right. now split.
    + intros r (Hne & Hfound & below & Hbelow & _).
      rewrite (Hspec r) in Hfound; [discriminate | now exists below | exact Hne].
Qed.

(** X19: [findWorkspaceRoot] of utils/pm.ts returns the nearest directory
    upwards that holds a [pnpm-workspace.yaml] or a [package.json] with a
    [workspaces] field; only when no directory has one, the nearest
    directory that holds a [.git]; and the start directory when there is
    neither.  A workspace marker far above thus wins over a [.git]
    nearby. *)
Theorem pm_findWorkspaceRoot_spec (fs : FileSystem) (startPath : Path) :
  is_above (Pm.findWorkspaceRoot fs startPath) startPath
  /\ (nearest_above (has_workspace_marker fs) startPath
                    (Pm.findWorkspaceRoot fs startPath)
      \/ (nowhere_above (has_workspace_marker fs) startPath
          /\ nearest_above (fun a => fs_access fs (path_join a ".git"))
                           startPath (Pm.findWorkspaceRoot fs startPath))
      \/ (nowhere_above (has_workspace_marker fs) startPath
          /\ nowhere_above (fun a => fs_access fs (path_join a ".git")) startPath
          /\ Pm.findWorkspaceRoot fs startPath = startPath)).
Proof.
  unfold Pm.findWorkspaceRoot.
  pose proof (find_workspace_marker_spec fs startPath) as Hmarker.
  pose proof (find_git_spec fs startPath) as Hgit.
  destruct (Pm.find_workspace_marker fs startPath) as [root |].
  - split; [| now left].
    destruct Hmarker as (_ & _ & below & Hbelow & _). now exists below.
  - destruct (Pm.find_git fs startPath) as [root |].
    + split; [| right; left; now split].
      destruct Hgit as (_ & _ & below & Hbelow & _). now exists below.
    + split; [now exists [] |]. right. right. now split.
Qed.

(** X20: the two functions named [findWorkspaceRoot] agree whenever no
    [pnpm-workspace.yaml] lies on the way up and either the root found by
    core/workspace.ts has a [workspaces] field or no [.git] lies on the
    way up: the install step and the discovery of the packages then work
    from the same directory. *)
Theorem findWorkspaceRoot_agree (fs : FileSystem) (startPath : Path) :
  nowhere_above (fun a => fs_access fs (path_join a "pnpm-workspace.yaml"))
                startPath ->
  declares_workspaces fs (findWorkspaceRoot fs startPath) = true
  \/ nowhere_above (fun a => fs_access fs (path_join a ".git")) startPath ->
  Pm.findWorkspaceRoot fs startPath = findWorkspaceRoot fs startPath.
Proof.
  intros Hyaml Hsame.
  unfold Pm.findWorkspaceRoot, findWorkspaceRoot in *.
  pose proof (find_workspace_marker_spec fs startPath) as Hmarker.
  pose proof (find_workspaces_spec fs startPath) as Hws.
  pose proof (find_git_spec fs startPath) as Hgit.
  assert (Hsamefound : forall a, is_above a startPath -> a <> [] ->
                                 has_workspace_marker fs a
                                 = declares_workspaces fs a).
  { intros a Ha Hne. unfold has_workspace_marker.
    now rewrite (Hyaml a Ha Hne). }
  destruct (Pm.find_workspace_marker fs startPath) as [root |].
  - destruct Hmarker as (Hne & Hfound & below & Hbelow & Hnear).
    assert (Hroot : nearest_above (declares_workspaces fs) startPath root).
    { split; [exact Hne |]. split.
      - rewrite <- Hsamefound; [exact Hfound | now exists below | exact Hne].
      - exists below. split; [exact Hbelow |].
        intros b1 b2 Hsplit Hb2. rewrite <- Hsamefound.
        + now apply (Hnear b1 b2).
        + exists b1. now rewrite Hbelow, Hsplit, <- app_assoc.
        + destruct b2; [contradiction | discriminate]. }
    destruct (find_workspaces fs startPath) as [root' |].
    + exact (nearest_above_unique _ _ _ _ Hroot Hws).
    + destruct Hroot as (_ & Hfound' & _).
      rewrite (Hws root) in Hfound'; [discriminate | now exists below | exact Hne].
  - destruct (find_workspaces fs startPath) as [root' |].
    + destruct Hws as (Hne & Hfound & below & Hbelow & _).
      rewrite <- Hsamefound in Hfound; [| now exists below | exact Hne].
      rewrite (Hmarker root') in Hfound;
        [discriminate | now exists below | exact Hne].
    + destruct (Pm.find_git fs startPath) as [git |]; [| reflexivity].
      destruct Hgit as (Hne & Hfound & below & Hbelow & _).
      destruct Hsame as [Hdeclares | Hnogit].
      * destruct startPath as [| segment parent].
        -- symmetry in Hbelow. apply app_eq_nil in Hbelow as [_ ->].
           contradiction.
        -- rewrite (Hws (segment :: parent)) in Hdeclares;
             [discriminate | now exists [] | discriminate].
      * rewrite (Hnogit git) in Hfound;
          [discriminate | now exists below | exact Hne].
Qed.

Lemma is_above_root (a : Path) : is_above a [] -> a = [].
Proof.
  intros [below H]. symmetry in H. now apply app_eq_nil in H as [_ ->].
Qed.

Lemma findWorkspaceRoot_agree_witness :
  Pm.findWorkspaceRoot (repo_fs true false true [] None)
                       ["app"; "packages"; "repo"]
  = findWorkspaceRoot (repo_fs true false true [] None)
                      ["app"; "packages"; "repo"]
  /\ findWorkspaceRoot (repo_fs true false true [] None)
                       ["app"; "packages"; "repo"]
     = ["repo"].
Proof.
  split; [| reflexivity].
  apply findWorkspaceRoot_agree.
  - intros a Ha Hne.
    apply is_above_cons in Ha as [-> | Ha]; [reflexivity |].
    apply is_above_cons in Ha as [-> | Ha]; [reflexivity |].
    apply is_above_cons in Ha as [-> | Ha]; [reflexivity |].
    apply is_above_root in Ha. contradiction.
  - left. reflexivity.
Defined.

Lemma is_above_trans (a b c : Path) : is_above a b -> is_above b c -> is_above a c.
Proof.
  intros [below1 ->] [below2 ->]. exists (below2 ++ below1).
  now rewrite app_assoc.
Qed.

(** X30: both functions named [findWorkspaceRoot] return a directory from
    which they return that same directory: started from the root that was
    found, the search finds it again. *)
Theorem findWorkspaceRoot_idempotent (fs : FileSystem) (startPath : Path) :
  findWorkspaceRoot fs (findWorkspaceRoot fs startPath)
  = findWorkspaceRoot fs startPath
  /\ Pm.findWorkspaceRoot fs (Pm.findWorkspaceRoot fs startPath)
     = Pm.findWorkspaceRoot fs startPath.
Proof.
  split.
  - unfold findWorkspaceRoot.
    pose proof (find_workspaces_spec fs startPath) as Hspec.
    destruct (find_workspaces fs startPath) as [root |] eqn:Hfind.
    + destruct Hspec as (Hne & Hfound & _).
      destruct root as [| segment parent]; [contradiction |].
      cbn [find_workspaces]. unfold declares_workspaces in Hfound.
      destruct (fs_package_json fs (segment :: parent)) as [packageJson |];
        [| discriminate].
      now rewrite Hfound.
    + now rewrite Hfind.
  - unfold Pm.findWorkspaceRoot.
    pose proof (find_workspace_marker_spec fs startPath) as Hmarker.
    pose proof (find_git_spec fs startPath) as Hgit.
    destruct (Pm.find_workspace_marker fs startPath) as [root |] eqn:Hfind.
    + destruct Hmarker as (Hne & Hfound & _).
      destruct root as [| segment parent]; [contradiction |].
      cbn [Pm.find_workspace_marker].
      unfold has_workspace_marker, declares_workspaces in Hfound.
      destruct (fs_access fs (path_join (segment :: parent)
                                        "pnpm-workspace.yaml"));
        [reflexivity |].
      cbn [orb] in Hfound.
      destruct (fs_package_json fs (segment :: parent)) as [packageInfo |];
        [| discriminate].
      now rewrite Hfound.
    + destruct (Pm.find_git fs startPath) as [root |] eqn:Hfindgit.
      * destruct Hgit as (Hne & Hfound & below & Hbelow & _).
        assert (Hnone : Pm.find_workspace_marker fs root = None).
        { pose proof (find_workspace_marker_spec fs root) as Hspec.
          destruct (Pm.find_workspace_marker fs root) as [r |]; [| reflexivity].
          destruct Hspec as (Hr & Hfr & below' & Hbelow' & _).
          rewrite (Hmarker r) in Hfr; [discriminate | | exact Hr].
          apply is_above_trans with root; [now exists below' | now exists below]. }
        rewrite Hnone.
        destruct root as [| segment parent]; [contradiction |].
        cbn [Pm.find_git]. now rewrite Hfound.
      * now rewrite Hfind, Hfindgit.
Qed.

(** ** utils/pm.ts: the package manager *)

Lemma first_lock_In (fs : FileSystem) (root : Path)
  (files : list (string * string)) (manager : string) :
  Pm.first_lock fs root files = Some manager ->
  exists file, In (file, manager) files
               /\ fs_access fs (path_join root file) = true.
Proof.
  induction files as [| [file m] files IH]; cbn [Pm.first_lock]; [discriminate |].
  destruct (fs_access fs (path_join root file)) eqn:Haccess.
  - intro H. injection H as <-. exists file. split; [now left | exact Haccess].
  - intro H. destruct (IH H) as (file' & Hin & Hacc).
    exists file'. split; [now right | exact Hacc].
Qed.

(** X21: [detectPackageManager] answers [bun], [pnpm], [yarn] or [npm]
    and nothing else, whatever the [packageManager] field of the
    [package.json] says; the command that [runInstall] runs with its
    answer is one of four fixed command lines. *)
Theorem detectPackageManager_known (fs : FileSystem) (packagePath : Path) :
  In (Pm.detectPackageManager fs packagePath) ["bun"; "pnpm"; "yarn"; "npm"]
  /\ In (Pm.install_command (Pm.detectPackageManager fs packagePath))
        ["bun install"; "pnpm install"; "yarn install"; "npm install"].
Proof.
  assert (Hknown : In (Pm.detectPackageManager fs packagePath)
                      ["bun"; "pnpm"; "yarn"; "npm"]).
  { unfold Pm.detectPackageManager.
    set (root := Pm.findWorkspaceRoot fs packagePath).
    destruct (Pm.checkForWorkspaceDependencies root (fs_tree fs root)).
    - destruct (Pm.first_lock fs root Pm.workspaceLockFiles) as [manager |] eqn:Hlock.
      + apply first_lock_In in Hlock as (file & Hin & _).
        cbn in Hin. destruct Hin as [H | [H | [H | []]]];
          injection H as _ <-; cbn; tauto.
      + cbn; tauto.
    - destruct (Pm.first_lock fs root Pm.lockFiles) as [manager |] eqn:Hlock.
      + apply first_lock_In in Hlock as (file & Hin & _).
        cbn in Hin. destruct Hin as [H | [H | [H | [H | [H | []]]]]];
          injection H as _ <-; cbn; tauto.
      + destruct (fs_package_json fs root) as [packageInfo |]; [| cbn; tauto].
        destruct (file_packageManager packageInfo) as [packageManager |];
          [| cbn; tauto].
        destruct (JsSet.has ["npm"; "yarn"; "pnpm"; "bun"]
                            (Pm.before_at packageManager)) eqn:Hhas;
          [| cbn; tauto].
        apply JsSet_has_In in Hhas. cbn in Hhas. cbn. tauto. }
  split; [exact Hknown |].
  cbn in Hknown. destruct Hknown as [<- | [<- | [<- | [<- | []]]]]; cbn; tauto.
Qed.

(** X22: how [detectPackageManager] weighs what it finds in the workspace
    root.  A [bun.lockb] or [bun.lock] always gives [bun].  When some
    [package.json] of the workspace uses the [workspace:] protocol, the
    answer is [bun] or [pnpm], and [pnpm] without a bun lock file,
    whatever other lock files exist.  Without workspace dependencies the
    answer is the manager of the first lock file that exists, in the order
    [bun.lockb], [bun.lock], [pnpm-lock.yaml], [yarn.lock],
    [package-lock.json]; the [packageManager] field is read only when
    none of the five exists, and then its part before the [@] is the
    answer if it is one of the four managers, and [npm] otherwise. *)
Theorem detectPackageManager_priorities (fs : FileSystem) (packagePath : Path) :
  (fs_access fs (path_join (Pm.findWorkspaceRoot fs packagePath) "bun.lockb")
   = true
   \/ fs_access fs (path_join (Pm.findWorkspaceRoot fs packagePath) "bun.lock")
      = true ->
   Pm.detectPackageManager fs packagePath = "bun")
  /\ (Pm.checkForWorkspaceDependencies
        (Pm.findWorkspaceRoot fs packagePath)
        (fs_tree fs (Pm.findWorkspaceRoot fs packagePath)) = true ->
      (Pm.detectPackageManager fs packagePath = "bun"
       \/ Pm.detectPackageManager fs packagePath = "pnpm")
      /\ (fs_access fs (path_join (Pm.findWorkspaceRoot fs packagePath)
                                  "bun.lockb") = false ->
          fs_access fs (path_join (Pm.findWorkspaceRoot fs packagePath)
                                  "bun.lock") = false ->
          Pm.detectPackageManager fs packagePath = "pnpm"))
  /\ (Pm.checkForWorkspaceDependencies
        (Pm.findWorkspaceRoot fs packagePath)
        (fs_tree fs (Pm.findWorkspaceRoot fs packagePath)) = false ->
      Pm.detectPackageManager fs packagePath
      = if fs_access fs (path_join (Pm.findWorkspaceRoot fs packagePath)
                                   "bun.lockb")
        then "bun"
        else if fs_access fs (path_join (Pm.findWorkspaceRoot fs packagePath)
                                        "bun.lock")
        then "bun"
        else if fs_access fs (path_join (Pm.findWorkspaceRoot fs packagePath)
                                        "pnpm-lock.yaml")
        then "pnpm"
        else if fs_access fs (path_join (Pm.findWorkspaceRoot fs packagePath)
                                        "yarn.lock")
        then "yarn"
        else if fs_access fs (path_join (Pm.findWorkspaceRoot fs packagePath)
                                        "package-lock.json")
        then "npm"
        else
          match fs_package_json fs (Pm.findWorkspaceRoot fs packagePath) with
          | Some packageInfo =>
              match file_packageManager packageInfo with
              | Some packageManager =>
                  if JsSet.has ["npm"; "yarn"; "pnpm"; "bun"]
                               (Pm.before_at packageManager)
                  then Pm.before_at packageManager else "npm"
              | None => "npm"
              end
          | None => "npm"
          end).
Proof.
  unfold Pm.detectPackageManager.
  set (root := Pm.findWorkspaceRoot fs packagePath).
  split; [| split].
  - intros Hbun.
    destruct (Pm.checkForWorkspaceDependencies root (fs_tree fs root));
      cbn [Pm.workspaceLockFiles Pm.lockFiles filter snd String.eqb orb
           Pm.first_lock];
      cbn; destruct (fs_access fs (path_join root "bun.lockb")) eqn:Hb;
      try reflexivity;
      destruct Hbun as [Hbun | Hbun]; try discriminate;
      unfold path_join in *; rewrite Hbun; reflexivity.
  - intro Hcheck. rewrite Hcheck. cbn. unfold path_join.
    destruct (fs_access fs ("bun.lockb" :: root)); [split; [now left | discriminate] |].
    destruct (fs_access fs ("bun.lock" :: root)); [split; [now left | discriminate] |].
    destruct (fs_access fs ("pnpm-lock.yaml" :: root)); split; auto.
  - intro Hcheck. rewrite Hcheck.
    cbn [Pm.lockFiles Pm.first_lock].
    destruct (fs_access fs (path_join root "bun.lockb")); [reflexivity |].
    destruct (fs_access fs (path_join root "bun.lock")); [reflexivity |].
    destruct (fs_access fs (path_join root "pnpm-lock.yaml")); [reflexivity |].
    destruct (fs_access fs (path_join root "yarn.lock")); [reflexivity |].
    destruct (fs_access fs (path_join root "package-lock.json")); reflexivity.
Qed.

(** The test of utils/pm.ts and the extraction of core/workspace.ts read
    the same [package.json] alike. *)
Lemma hasWorkspaceProtocol_extract (packageInfo : PackageJsonFile) :
  Pm.hasWorkspaceProtocol packageInfo = true
  <-> extractWorkspaceDependencies (file_data packageInfo) <> [].
Proof.
  unfold Pm.hasWorkspaceProtocol, extractWorkspaceDependencies, JsMap.values.
  generalize (spread (dependencies (file_data packageInfo))
                     (devDependencies (file_data packageInfo))).
  intro allDeps. induction allDeps as [| [k version] allDeps IH];
    cbn [map existsb filter snd].
  - split; [discriminate | congruence].
  - destruct (is_workspace_version version); cbn [orb map].
    + split; [discriminate | reflexivity].
    + exact IH.
Qed.

Lemma DirTree_tree_ind (P : DirTree -> Prop) :
  (forall content, P (TFile content)) ->
  P TOther ->
  (forall readable entries,
      Forall (fun entry => P (snd entry)) entries -> P (TDir readable entries)) ->
  forall node, P node.
Proof.
  intros Hfile Hother Hdir. fix IH 1.
  intros [content | readable entries |]; [apply Hfile | | apply Hother].
  apply Hdir. induction entries as [| [name child] rest IHrest]; constructor.
  - apply IH.
  - exact IHrest.
Qed.

Lemma findPackageJsonFiles_entry (dir : Path) (name : string) (child : DirTree)
  (rest : list (string * DirTree)) :
  Pm.findPackageJsonFiles dir (TDir true ((name, child) :: rest))
  = match child with
    | TFile content =>
        if String.eqb name "package.json"
        then (path_join dir name, content)
             :: Pm.findPackageJsonFiles dir (TDir true rest)
        else Pm.findPackageJsonFiles dir (TDir true rest)
    | TDir _ _ =>
        if negb (JsSet.has Pm.SKIP_DIRS name)
        then Pm.findPackageJsonFiles (path_join dir name) child
             ++ Pm.findPackageJsonFiles dir (TDir true rest)
        else Pm.findPackageJsonFiles dir (TDir true rest)
    | TOther => Pm.findPackageJsonFiles dir (TDir true rest)
    end.
Proof. destruct child; reflexivity. Qed.

(** X23: every path that [findPackageJsonFiles] reports is a
    [package.json] below the directory it was given, and no directory on
    the way down to it is named [node_modules], [.git], [.next], [dist]
    or [build]. *)
Theorem findPackageJsonFiles_paths (node : DirTree) :
  forall (dir : Path) (p : Path) (content : option PackageJsonFile),
    In (p, content) (Pm.findPackageJsonFiles dir node) ->
    exists below,
      p = "package.json" :: below ++ dir
      /\ forall segment, In segment below ->
                         JsSet.has Pm.SKIP_DIRS segment = false.
Proof.
  induction node as [content' | | readable entries IH] using DirTree_tree_ind;
    intros dir p content Hin; try contradiction.
  destruct readable; [| contradiction].
  induction IH as [| [name child] rest Hchild _ IHrest]; [contradiction |].
  cbn [snd] in Hchild. rewrite findPackageJsonFiles_entry in Hin.
  destruct child as [c | r es |].
  - destruct (String.eqb_spec name "package.json") as [-> | Hne];
      [| now apply IHrest].
    destruct Hin as [Hin | Hin]; [| now apply IHrest].
    injection Hin as <- _. exists []. split; [reflexivity | intros s []].
  - destruct (JsSet.has Pm.SKIP_DIRS name) eqn:Hskip; cbn [negb] in Hin;
      [now apply IHrest |].
    apply in_app_or in Hin as [Hin | Hin]; [| now apply IHrest].
    destruct (Hchild (path_join dir name) p content Hin) as (below & -> & Hbelow).
    exists (below ++ [name]). split.
    + unfold path_join. now rewrite <- app_assoc.
    + intros s Hs. apply in_app_or in Hs as [Hs | [<- | []]];
        [now apply Hbelow | exact Hskip].
  - now apply IHrest.
Qed.

Lemma findPackageJsonFiles_paths_witness :
  map fst (Pm.findPackageJsonFiles ["repo"]
             (fs_tree (repo_fs true false false [] None) ["repo"]))
  = [["package.json"; "repo"]; ["package.json"; "app"; "packages"; "repo"]]
  /\ exists below,
      ["package.json"; "app"; "packages"; "repo"]
      = "package.json" :: below ++ ["repo"]
      /\ forall segment, In segment below ->
                         JsSet.has Pm.SKIP_DIRS segment = false.
Proof.
  split; [reflexivity |].
  apply (findPackageJsonFiles_paths
           (fs_tree (repo_fs true false false [] None) ["repo"]) ["repo"]
           ["package.json"; "app"; "packages"; "repo"]
           (Some (mkFile (manifest "app" ["core"]) None None))).
  right. now left.
Defined.

(** X24: [checkForWorkspaceDependencies] answers [true] exactly when
    [findPackageJsonFiles] reports a [package.json] that can be read and
    from which [extractWorkspaceDependencies] of core/workspace.ts
    extracts at least one name: the two modules agree on what a workspace
    dependency is. *)
Theorem checkForWorkspaceDependencies_iff (workspaceRoot : Path)
  (node : DirTree) :
  Pm.checkForWorkspaceDependencies workspaceRoot node = true
  <-> exists p packageInfo,
      In (p, Some packageInfo) (Pm.findPackageJsonFiles workspaceRoot node)
      /\ extractWorkspaceDependencies (file_data packageInfo) <> [].
Proof.
  unfold Pm.checkForWorkspaceDependencies. rewrite existsb_exists. split.
  - intros ([p content] & Hin & Hhas). cbn [snd] in Hhas.
    destruct content as [packageInfo |]; [| discriminate].
    exists p, packageInfo. split; [exact Hin |].
    now apply hasWorkspaceProtocol_extract.
  - intros (p & packageInfo & Hin & Hdeps).
    exists (p, Some packageInfo). split; [exact Hin |].
    cbn [snd]. now apply hasWorkspaceProtocol_extract.
Qed.

(** ** utils/progress.ts: the spinner *)

Lemma and_then_fst (f g : Progress -> Progress * list Output) (st : Progress) :
  fst (and_then f g st) = fst (g (fst (f st))).
Proof.
  unfold and_then. destruct (f st) as [st1 out1]. cbn [fst].
  now destruct (g st1).
Qed.

Lemma and_then_snd (f g : Progress -> Progress * list Output) (st : Progress) :
  snd (and_then f g st) = snd (f st) ++ snd (g (fst (f st))).
Proof.
  unfold and_then. destruct (f st) as [st1 out1]. cbn [fst snd].
  now destruct (g st1).
Qed.

Lemma progress_run_app (events more : list ProgressEvent) (st : Progress) :
  progress_run (events ++ more) st
  = and_then (progress_run events) (progress_run more) st.
Proof.
  revert st. induction events as [| event events IH]; intro st;
    cbn [app progress_run].
  - unfold and_then. now destruct (progress_run more st).
  - unfold and_then. destruct (progress_step event st) as [st1 out1].
    rewrite IH. unfold and_then.
    destruct (progress_run events st1) as [st2 out2].
    destruct (progress_run more st2) as [st3 out3].
    now rewrite app_assoc.
Qed.

Lemma output_ok_app (out1 out2 : list Output) :
  output_ok out1 -> output_ok out2 -> output_ok (out1 ++ out2).
Proof.
  intros H1 H2 text Hin. apply in_app_or in Hin as [Hin | Hin]; auto.
Qed.

Lemma output_ok_other (out : list Output) :
  (forall o, In o out -> is_stdout_write o = false) -> output_ok out.
Proof.
  intros Hnone text Hin. apply Hnone in Hin. discriminate.
Qed.

Lemma render_ok (st : Progress) :
  progress_ok st ->
  progress_ok (fst (render st)) /\ output_ok (snd (render st)).
Proof.
  intros [Hindex Hint]. unfold render.
  destruct (useTTY st); cbn [negb fst snd].
  - split.
    + split; cbn [spinnerIndex intervals spinnerInterval]; [| exact Hint].
      apply Nat.mod_upper_bound. discriminate.
    + intros text [Heq | []]. injection Heq as <-. right.
      exists (nth (spinnerIndex st) spinnerFrames "undefined"), (currentMessage st).
      split; [now apply nth_In | reflexivity].
  - split; [now split | intros text []].
Qed.

Lemma startSpinner_ok (st : Progress) :
  progress_ok st ->
  progress_ok (fst (startSpinner st)) /\ snd (startSpinner st) = [].
Proof.
  intros Hok. unfold startSpinner.
  destruct (negb (useTTY st)); [now split |].
  destruct (spinnerInterval st) as [handle |] eqn:Hhandle; [now split |].
  destruct Hok as [Hindex Hint]. rewrite Hhandle in Hint.
  cbn [fst snd]. split; [| reflexivity].
  split; cbn [spinnerIndex intervals spinnerInterval]; [exact Hindex |].
  now rewrite Hint.
Qed.

Lemma stopSpinner_ok (st : Progress) :
  progress_ok st ->
  progress_ok (fst (stopSpinner st))
  /\ snd (stopSpinner st) = []
  /\ intervals (fst (stopSpinner st)) = []
  /\ useTTY (fst (stopSpinner st)) = useTTY st.
Proof.
  intros Hok. pose proof Hok as [Hindex Hint]. unfold stopSpinner.
  destruct (spinnerInterval st) as [handle |] eqn:Hhandle; cbn [fst snd].
  - assert (Hnone : filter (fun h => negb (Nat.eqb h handle)) (intervals st) = []).
    { rewrite Hint. cbn [filter]. now rewrite Nat.eqb_refl. }
    split; [| split; [reflexivity | split; [exact Hnone | reflexivity]]].
    split; cbn [spinnerIndex intervals spinnerInterval]; assumption.
  - split; [exact Hok | split; [reflexivity | split; [exact Hint | reflexivity]]].
Qed.

Lemma clearLine_ok (st : Progress) :
  fst (clearLine st) = st /\ output_ok (snd (clearLine st)).
Proof.
  unfold clearLine. destruct (useTTY st); cbn [fst snd].
  - split; [reflexivity |]. intros text [Heq | []]. injection Heq as <-. now left.
  - split; [reflexivity | intros text []].
Qed.

Lemma progress_step_ok (event : ProgressEvent) (st : Progress) :
  progress_ok st ->
  progress_ok (fst (progress_step event st))
  /\ output_ok (snd (progress_step event st)).
Proof.
  intro Hok. destruct event as [enabled | | msg | | msg | handle];
    cbn [progress_step].
  - unfold setStdinMode. destruct enabled; cbn [fst snd].
    + split; [exact Hok | intros text []].
    + split; [exact Hok | intros text []].
  - destruct (clearLine_ok st) as [-> Hout]. now split.
  - unfold writeProgress. cbn [useTTY].
    set (st1 := mkProgress (useTTY st) (spinnerIndex st) (spinnerInterval st)
                           msg (intervals st) (next_handle st)).
    assert (Hok1 : progress_ok st1) by exact Hok.
    destruct (useTTY st).
    + rewrite and_then_fst, and_then_snd.
      destruct (startSpinner_ok st1 Hok1) as [Hok2 ->].
      destruct (render_ok _ Hok2) as [Hok3 Hout]. now split.
    + cbn [fst snd]. split; [exact Hok1 |].
      apply output_ok_other. intros o [<- | []]. reflexivity.
  - unfold writeDone. rewrite and_then_fst, and_then_snd.
    destruct (stopSpinner_ok st Hok) as (Hok1 & -> & _ & _).
    cbn [app]. destruct (useTTY (fst (stopSpinner st))).
    + rewrite and_then_fst, and_then_snd.
      destruct (clearLine_ok (fst (stopSpinner st))) as [-> Hout].
      cbn [fst snd]. split; [exact Hok1 |].
      apply output_ok_app; [exact Hout |].
      apply output_ok_other. intros o [<- | []]. reflexivity.
    + cbn [fst snd]. split; [exact Hok1 |].
      apply output_ok_other. intros o [<- | []]. reflexivity.
  - unfold writeError. rewrite and_then_fst, and_then_snd.
    destruct (stopSpinner_ok st Hok) as (Hok1 & -> & _ & _).
    cbn [app]. rewrite and_then_fst, and_then_snd. cbn [fst snd].
    assert (Hclear : fst (if useTTY (fst (stopSpinner st))
                          then clearLine (fst (stopSpinner st))
                          else (fst (stopSpinner st), []))
                     = fst (stopSpinner st)
                     /\ output_ok (snd (if useTTY (fst (stopSpinner st))
                                        then clearLine (fst (stopSpinner st))
                                        else (fst (stopSpinner st), [])))).
    { destruct (useTTY (fst (stopSpinner st)));
        [apply clearLine_ok | split; [reflexivity | intros text []]]. }
    destruct Hclear as [-> Hout]. split; [exact Hok1 |].
    apply output_ok_app; [exact Hout |].
    apply output_ok_other. intros o [<- | []]. reflexivity.
  - destruct (existsb (Nat.eqb handle) (intervals st));
      [now apply render_ok | split; [exact Hok | intros text []]].
Qed.

Lemma progress_run_ok (events : list ProgressEvent) :
  forall st,
    progress_ok st ->
    progress_ok (fst (progress_run events st))
    /\ output_ok (snd (progress_run events st)).
Proof.
  induction events as [| event events IH]; intros st Hok; cbn [progress_run].
  - split; [exact Hok | intros text []].
  - rewrite and_then_fst, and_then_snd.
    destruct (progress_step_ok event st Hok) as [Hok1 Hout1].
    destruct (IH _ Hok1) as [Hok2 Hout2].
    split; [exact Hok2 | now apply output_ok_app].
Qed.

(** X25: whatever is called on the module and whenever its interval
    fires, the frame index stays within the array of frames, so that
    every text written to the terminal is the erase sequence, alone or
    followed by one of the ten frames and a message; the host holds at
    most one interval, the one [spinnerInterval] names; and after
    [writeDone] or [writeError] no interval is left. *)
Theorem progress_spinner_invariant (tty : bool) (events : list ProgressEvent) :
  (spinnerIndex (fst (progress_run events (progress_init tty)))
   < length spinnerFrames
   /\ intervals (fst (progress_run events (progress_init tty)))
      = match spinnerInterval (fst (progress_run events (progress_init tty))) with
        | Some handle => [handle]
        | None => []
        end)
  /\ (forall text,
         In (StdoutWrite text) (snd (progress_run events (progress_init tty))) ->
         text = ERASE_LINE
         \/ exists frame msg,
             In frame spinnerFrames
             /\ text = (ERASE_LINE ++ frame ++ " " ++ msg)%string)
  /\ intervals (fst (progress_run (events ++ [CallWriteDone])
                                  (progress_init tty))) = []
  /\ (forall msg,
         intervals (fst (progress_run (events ++ [CallWriteError msg])
                                      (progress_init tty))) = []).
Proof.
  assert (Hinit : progress_ok (progress_init tty)).
  { split; cbn; [lia | reflexivity]. }
  destruct (progress_run_ok events _ Hinit) as [Hok Hout].
  split; [exact Hok |]. split; [exact Hout |].
  split.
  - rewrite progress_run_app, and_then_fst. cbn [progress_run].
    rewrite and_then_fst. cbn [fst progress_step].
    unfold writeDone. rewrite and_then_fst.
    destruct (stopSpinner_ok _ Hok) as (_ & _ & Hnone & _).
    destruct (useTTY (fst (stopSpinner
                             (fst (progress_run events (progress_init tty)))))).
    + rewrite and_then_fst.
      destruct (clearLine_ok
                  (fst (stopSpinner
                          (fst (progress_run events (progress_init tty))))))
        as [-> _].
      exact Hnone.
    + exact Hnone.
  - intro msg. rewrite progress_run_app, and_then_fst. cbn [progress_run].
    rewrite and_then_fst. cbn [fst progress_step].
    unfold writeError. rewrite and_then_fst, and_then_fst. cbn [fst].
    destruct (stopSpinner_ok _ Hok) as (_ & _ & Hnone & _).
    destruct (useTTY (fst (stopSpinner
                             (fst (progress_run events (progress_init tty)))))).
    + destruct (clearLine_ok
                  (fst (stopSpinner
                          (fst (progress_run events (progress_init tty))))))
        as [-> _].
      exact Hnone.
    + exact Hnone.
Qed.

(** Without a terminal every event prints its plain line, and the module
    stays without a terminal. *)
Lemma progress_step_plain (event : ProgressEvent) (st : Progress) :
  useTTY st = false ->
  useTTY (fst (progress_step event st)) = false
  /\ snd (progress_step event st) = plain_output event.
Proof.
  intro Hplain. destruct event as [enabled | | msg | | msg | handle];
    cbn [progress_step plain_output].
  - unfold setStdinMode. destruct enabled; cbn [fst snd useTTY]; auto.
  - unfold clearLine. rewrite Hplain. auto.
  - unfold writeProgress. cbn [useTTY]. rewrite Hplain. cbn [fst snd useTTY]. auto.
  - unfold writeDone. rewrite and_then_fst, and_then_snd.
    assert (Hstop : useTTY (fst (stopSpinner st)) = false
                    /\ snd (stopSpinner st) = []).
    { unfold stopSpinner. destruct (spinnerInterval st); cbn [fst snd useTTY]; auto. }
    destruct Hstop as [Htty ->]. rewrite Htty. cbn [fst snd app]. auto.
  - unfold writeError. rewrite and_then_fst, and_then_snd.
    assert (Hstop : useTTY (fst (stopSpinner st)) = false
                    /\ snd (stopSpinner st) = []).
    { unfold stopSpinner. destruct (spinnerInterval st); cbn [fst snd useTTY]; auto. }
    destruct Hstop as [Htty ->]. rewrite and_then_fst, and_then_snd.
    rewrite Htty. cbn [fst snd app]. auto.
  - destruct (existsb (Nat.eqb handle) (intervals st)); [| auto].
    unfold render. rewrite Hplain. cbn [negb fst snd]. auto.
Qed.

(** X26: the switch of [setStdinMode(true)] is permanent.  After it,
    whatever is called (a later [setStdinMode(false)] included) and
    whenever an interval fires, [isTTY()] is [false], nothing is written
    to the terminal, and [writeProgress], [writeDone] and [writeError]
    print exactly one plain line each: the message, [Done], and the
    message on the error stream. *)
Theorem progress_stdin_mode_is_permanent (tty : bool)
  (before after : list ProgressEvent) :
  isTTY (fst (progress_run (before ++ CallSetStdinMode true :: after)
                           (progress_init tty))) = false
  /\ snd (progress_run (before ++ CallSetStdinMode true :: after)
                       (progress_init tty))
     = snd (progress_run before (progress_init tty))
       ++ flat_map plain_output after.
Proof.
  rewrite progress_run_app, and_then_fst, and_then_snd.
  set (st := fst (progress_run before (progress_init tty))).
  cbn [progress_run]. rewrite and_then_fst, and_then_snd.
  cbn [progress_step setStdinMode fst snd app].
  set (st1 := mkProgress false (spinnerIndex st) (spinnerInterval st)
                         (currentMessage st) (intervals st) (next_handle st)).
  assert (Hplain : useTTY st1 = false) by reflexivity.
  clearbody st1. clear st.
  assert (Hrun : useTTY (fst (progress_run after st1)) = false
                 /\ snd (progress_run after st1) = flat_map plain_output after).
  { revert st1 Hplain. induction after as [| event after IH]; intros st1 Hplain;
      cbn [progress_run flat_map]; [auto |].
    rewrite and_then_fst, and_then_snd.
    destruct (progress_step_plain event st1 Hplain) as [Hplain1 ->].
    destruct (IH _ Hplain1) as [Hplain2 ->]. auto. }
  destruct Hrun as [Htty ->]. split; [exact Htty | reflexivity].
Qed.

(** ** core/workspace.ts: discovery of the workspace packages *)

Lemma path_eqb_eq (p q : Path) : path_eqb p q = true <-> p = q.
Proof.
  unfold path_eqb. destruct (list_eq_dec string_dec p q); split; congruence.
Qed.

Lemma seen_In (p : Path) (visited : list Path) :
  existsb (path_eqb p) visited = true <-> In p visited.
Proof.
  rewrite existsb_exists. split.
  - intros (q & Hq & Heq). apply path_eqb_eq in Heq. now subst.
  - intro Hin. exists p. split; [exact Hin | now apply path_eqb_eq].
Qed.

Lemma unseen_mono (universe v v' : list Path) :
  incl v v' -> length (unseen universe v') <= length (unseen universe v).
Proof.
  intro Hincl. unfold unseen. induction universe as [| p universe IH];
    cbn [filter]; [lia |].
  destruct (existsb (path_eqb p) v) eqn:Hv.
  - apply seen_In in Hv. apply Hincl in Hv. apply seen_In in Hv.
    rewrite Hv. cbn [negb]. exact IH.
  - cbn [negb]. destruct (existsb (path_eqb p) v'); cbn [negb length]; lia.
Qed.

Lemma unseen_add (universe v : list Path) (p : Path) :
  In p universe -> ~ In p v ->
  length (unseen universe (v ++ [p])) < length (unseen universe v).
Proof.
  intros Hin Hnew. unfold unseen. induction universe as [| q universe IH];
    [contradiction |].
  cbn [filter].
  assert (Hmono : length (unseen universe (v ++ [p]))
                  <= length (unseen universe v))
    by (apply unseen_mono; intros x Hx; apply in_or_app; now left).
  unfold unseen in Hmono.
  destruct Hin as [-> | Hin].
  - assert (Hv : existsb (path_eqb p) v = false).
    { destruct (existsb (path_eqb p) v) eqn:E; [| reflexivity].
      apply seen_In in E. contradiction. }
    assert (Hv' : existsb (path_eqb p) (v ++ [p]) = true).
    { apply seen_In, in_or_app. right. now left. }
    rewrite Hv, Hv'. cbn [negb length]. lia.
  - specialize (IH Hin).
    destruct (existsb (path_eqb q) v) eqn:Hv.
    + assert (Hv' : existsb (path_eqb q) (v ++ [p]) = true).
      { apply seen_In, in_or_app. left. now apply seen_In. }
      rewrite Hv'. cbn [negb]. exact IH.
    + cbn [negb length].
      destruct (existsb (path_eqb q) (v ++ [p])); cbn [negb length]; lia.
Qed.

Lemma unseen_length (universe v : list Path) :
  length (unseen universe v) <= length universe.
Proof. unfold unseen. apply List.filter_length_le. Qed.

(** A loop whose body keeps an invariant keeps it. *)
Lemma for_each_invariant {A S : Type} (I : S -> Prop) (l : list A)
  (body : A -> S -> Discovery S) :
  (forall x s, In x l -> I s -> exists s', body x s = Found s' /\ I s') ->
  forall s, I s -> exists s', for_each l body s = Found s' /\ I s'.
Proof.
  induction l as [| x l IH]; intros Hbody s Hs; cbn [for_each].
  - now exists s.
  - destruct (Hbody x s (or_introl eq_refl) Hs) as (s1 & -> & Hs1).
    apply IH; [| exact Hs1].
    intros y s' Hy. apply Hbody. now right.
Qed.

Lemma discovered_ok_set (fs : FileSystem) (packages : JsMap.t PackageInfo)
  (dirPath : Path) (packageJson : PackageJsonFile) :
  discovered_ok fs packages ->
  fs_package_json fs dirPath = Some packageJson ->
  discovered_ok fs
    (JsMap.set (name (package_info (file_data packageJson) dirPath))
               (package_info (file_data packageJson) dirPath) packages).
Proof.
  intros [Hwf Hall] Hread. split; [now apply JsMap_set_wf |].
  intros key pkg Hget.
  destruct (string_dec (name (package_info (file_data packageJson) dirPath)) key)
    as [Heq | Hne].
  - rewrite Heq, JsMap_get_set_same in Hget. injection Hget as <-.
    split; [exact Heq |]. split; [reflexivity |].
    now exists dirPath, packageJson.
  - rewrite JsMap_get_set_other in Hget by assumption. now apply Hall.
Qed.

Lemma JsMap_keys_set_incl {V : Type} (k : string) (v : V) (m : JsMap.t V) :
  incl (JsMap.keys m) (JsMap.keys (JsMap.set k v m))
  /\ In k (JsMap.keys (JsMap.set k v m)).
Proof.
  destruct (in_dec string_dec k (JsMap.keys m)) as [Hin | Hnotin].
  - rewrite JsMap_keys_set_In by assumption. split; [apply incl_refl | exact Hin].
  - rewrite JsMap_set_fresh by assumption. unfold JsMap.keys.
    rewrite map_app. cbn [map fst]. split.
    + intros x Hx. apply in_or_app. now left.
    + apply in_or_app. right. now left.
Qed.

Section Discover.

Variable fs : FileSystem.
Variable rootPath : Path.
Variable universe : list Path.
Hypothesis tame : fs_tame fs rootPath universe.

Lemma discover_step_trans (st1 st2 st3 : Discovered) :
  discover_step fs st1 st2 -> discover_step fs st2 st3 -> discover_step fs st1 st3.
Proof.
  intros (_ & Hs12 & Hk12) (Hok & Hs23 & Hk23).
  split; [exact Hok |]. split; eapply incl_tran; eassumption.
Qed.

Lemma processDirectory_returns (fuel : nat) :
  forall dirPath st,
    candidate fs rootPath dirPath ->
    discovered_ok fs (found_packages st) ->
    length (unseen universe (seen st)) < fuel ->
    exists st',
      processDirectory fuel fs dirPath st = Found st'
      /\ discover_step fs st st'
      /\ forall packageJson,
          fs_package_json fs dirPath = Some packageJson ->
          (forall real, fs_realpath fs dirPath = Some real ->
                        ~ In real (seen st)) ->
          In (package_name (file_data packageJson) dirPath)
             (JsMap.keys (found_packages st')).
Proof.
  induction fuel as [| fuel IH]; intros dirPath st Hcand Hok Hfuel; [lia |].
  cbn [processDirectory].
  destruct (tame dirPath Hcand) as [(real & Hreal & Hreal_in) _].
  rewrite Hreal.
  destruct (existsb (path_eqb real) (seen st)) eqn:Hseen.
  - exists st. split; [reflexivity |].
    split; [split; [exact Hok | split; apply incl_refl] |].
    intros packageJson _ Hnew. apply seen_In in Hseen.
    now contradiction (Hnew real eq_refl).
  - assert (Hnew : ~ In real (seen st)).
    { intro Hin. apply seen_In in Hin. congruence. }
    pose proof (unseen_add universe (seen st) real Hreal_in Hnew) as Hless.
    destruct (fs_package_json fs dirPath) as [packageJson |] eqn:Hread.
    + set (info := package_info (file_data packageJson) dirPath).
      set (st1 := mkDiscovered (JsMap.set (name info) info (found_packages st))
                               (seen st ++ [real])).
      assert (Hstep1 : discover_step fs st st1).
      { split; [now apply discovered_ok_set |]. split.
        - intros x Hx. apply in_or_app. now left.
        - apply JsMap_keys_set_incl. }
      destruct (for_each_invariant
                  (fun s => discover_step fs st1 s)
                  (getWorkspacePatterns packageJson)
                  (fun pattern =>
                     for_each (fs_glob fs pattern dirPath)
                       (fun found st =>
                          match fs_is_directory fs found with
                          | None => FsError
                          | Some true => processDirectory fuel fs found st
                          | Some false => Found st
                          end)))
        with (s := st1) as (st' & Hrun & Hstep).
      * intros pattern s _ Hs.
        apply (for_each_invariant (fun s => discover_step fs st1 s));
          [| exact Hs].
        intros found s' Hfound Hs'.
        assert (Hcand' : candidate fs rootPath found)
          by (right; now exists pattern, dirPath).
        destruct (tame found Hcand') as [_ Hstat].
        destruct (fs_is_directory fs found) as [[|] |];
          [| now exists s' | contradiction].
        destruct (IH found s' Hcand') as (s'' & Hrun & Hstep' & _).
        -- apply Hs'.
        -- destruct Hs' as (_ & Hseen' & _).
           pose proof (unseen_mono universe _ _ Hseen') as Hmono.
           cbn [st1 seen] in Hmono. lia.
        -- exists s''. split; [exact Hrun |].
           now apply discover_step_trans with s'.
      * destruct Hstep1 as (Hok1 & _). split; [exact Hok1 |].
        split; apply incl_refl.
      * exists st'. split; [exact Hrun |].
        split; [now apply discover_step_trans with st1 |].
        intros packageJson' Hsame _. injection Hsame as <-.
        destruct Hstep as (_ & _ & Hkeys). apply Hkeys.
        cbn [st1 found_packages]. apply JsMap_keys_set_incl.
    + exists (mkDiscovered (found_packages st) (seen st ++ [real])).
      split; [reflexivity |]. split.
      * split; [exact Hok |]. split; [| apply incl_refl].
        intros x Hx. apply in_or_app. now left.
      * intros packageJson Hsome. discriminate.
Qed.

End Discover.

(** A larger budget changes nothing once the recursion has ended. *)
Lemma for_each_ext {A S : Type} (l : list A) (body body' : A -> S -> Discovery S) :
  (forall x s s', body x s = Found s' -> body' x s = Found s') ->
  forall s s', for_each l body s = Found s' -> for_each l body' s = Found s'.
Proof.
  intro Hext. induction l as [| x l IH]; intros s s' Hrun; cbn [for_each] in *.
  - exact Hrun.
  - destruct (body x s) as [s1 | |] eqn:Hbody; try discriminate.
    rewrite (Hext x s s1 Hbody). now apply IH.
Qed.

Lemma processDirectory_more_fuel (fs : FileSystem) (fuel : nat) :
  forall dirPath st st',
    processDirectory fuel fs dirPath st = Found st' ->
    processDirectory (S fuel) fs dirPath st = Found st'.
Proof.
  induction fuel as [| fuel IH]; intros dirPath st st' Hrun; [discriminate |].
  cbn [processDirectory] in Hrun. change (processDirectory (S (S fuel)) fs dirPath st)
    with (match fs_realpath fs dirPath with
          | None => FsError
          | Some realPath =>
              if existsb (path_eqb realPath) (seen st) then Found st
              else
                match fs_package_json fs dirPath with
                | None => Found (mkDiscovered (found_packages st)
                                              (seen st ++ [realPath]))
                | Some packageJson =>
                    for_each (getWorkspacePatterns packageJson)
                      (fun pattern =>
                         for_each (fs_glob fs pattern dirPath)
                           (fun found st =>
                              match fs_is_directory fs found with
                              | None => FsError
                              | Some true => processDirectory (S fuel) fs found st
                              | Some false => Found st
                              end))
                      (mkDiscovered
                         (JsMap.set
                            (name (package_info (file_data packageJson) dirPath))
                            (package_info (file_data packageJson) dirPath)
                            (found_packages st))
                         (seen st ++ [realPath]))
                end
          end).
  destruct (fs_realpath fs dirPath) as [real |]; [| discriminate].
  destruct (existsb (path_eqb real) (seen st)); [exact Hrun |].
  destruct (fs_package_json fs dirPath) as [packageJson |]; [| exact Hrun].
  revert Hrun. apply for_each_ext. intros pattern s s'.
  apply for_each_ext. intros found s1 s1'.
  destruct (fs_is_directory fs found) as [[|] |]; auto.
Qed.

Lemma processDirectory_any_fuel (fs : FileSystem) (fuel more : nat) :
  forall dirPath st st',
    processDirectory fuel fs dirPath st = Found st' ->
    processDirectory (fuel + more) fs dirPath st = Found st'.
Proof.
  intros dirPath st st' Hrun. induction more as [| more IH].
  - now rewrite Nat.add_0_r.
  - rewrite Nat.add_succ_r. now apply processDirectory_more_fuel.
Qed.

Lemma discover_found (fs : FileSystem) (rootPath : Path)
  (universe : list Path) (fuel : nat) :
  fs_tame fs rootPath universe ->
  length universe < fuel ->
  exists st,
    processDirectory fuel fs rootPath (mkDiscovered JsMap.empty []) = Found st
    /\ discovered_ok fs (found_packages st)
    /\ forall packageJson,
        fs_package_json fs rootPath = Some packageJson ->
        In (package_name (file_data packageJson) rootPath)
           (JsMap.keys (found_packages st)).
Proof.
  intros Htame Hfuel.
  destruct (processDirectory_returns fs rootPath universe Htame fuel rootPath
              (mkDiscovered JsMap.empty []))
    as (st' & Hrun & (Hok & _ & _) & Hroot).
  - now left.
  - split; [constructor | discriminate].
  - pose proof (unseen_length universe []) as Hle. cbn [seen]. lia.
  - exists st'. split; [exact Hrun |]. split; [exact Hok |].
    intros packageJson Hread. apply (Hroot packageJson Hread).
    intros real _ [].
Qed.

(** X27: when [realpath] and [stat] do not throw on the directories that
    the patterns match and the real paths of these directories are
    finitely many, [discoverAllWorkspacePackages] returns, and returns the
    same map for every larger budget.  Each entry of the map is the record
    of a directory whose [package.json] could be read, stored under the
    name of the record (the [name] field, or the base name of the
    directory), with the workspace dependencies that
    [extractWorkspaceDependencies] extracts from that [package.json]; and
    the root package is in the map when the root has a readable
    [package.json]. *)
Theorem discoverAllWorkspacePackages_spec (fs : FileSystem) (rootPath : Path)
  (universe : list Path) (fuel : nat) :
  fs_tame fs rootPath universe ->
  length universe < fuel ->
  exists packages,
    (forall more,
        discoverAllWorkspacePackages (fuel + more) fs rootPath = Found packages)
    /\ discovered_ok fs packages
    /\ forall packageJson,
        fs_package_json fs rootPath = Some packageJson ->
        In (package_name (file_data packageJson) rootPath)
           (JsMap.keys packages).
Proof.
  intros Htame Hfuel.
  destruct (discover_found fs rootPath universe fuel Htame Hfuel)
    as (st & Hrun & Hok & Hroot).
  exists (found_packages st). split; [| split].
  - intro more. unfold discoverAllWorkspacePackages.
    now rewrite (processDirectory_any_fuel fs fuel more _ _ _ Hrun).
  - exact Hok.
  - exact Hroot.
Qed.

Lemma monorepo_tame : fs_tame monorepo_fs ["repo"] monorepo_universe.
Proof.
  intros p Hcand. split; [| discriminate].
  exists p. split; [reflexivity |].
  destruct Hcand as [-> | (pattern & cwd & Hin)]; [now left |].
  cbn [monorepo_fs fs_glob] in Hin.
  destruct (path_eqb cwd ["repo"]); [| contradiction].
  destruct (String.eqb pattern "packages/*").
  - destruct Hin as [<- | [<- | [<- | []]]]; cbn; tauto.
  - destruct (String.eqb pattern "packages/core"); [| contradiction].
    destruct Hin as [<- | []]; cbn; tauto.
Qed.

Lemma discoverAllWorkspacePackages_spec_witness :
  fs_tame monorepo_fs ["repo"] monorepo_universe
  /\ length monorepo_universe < 5
  /\ (exists packages,
         discoverAllWorkspacePackages 5 monorepo_fs ["repo"] = Found packages
         /\ JsMap.keys packages = ["root"; "app"; "core"]
         /\ discovered_ok monorepo_fs packages).
Proof.
  split; [exact monorepo_tame |]. split; [cbn; lia |].
  destruct (discoverAllWorkspacePackages_spec monorepo_fs ["repo"]
              monorepo_universe 5 monorepo_tame)
    as (packages & Hrun & Hok & _); [cbn; lia |].
  exists packages. split; [exact (Hrun 0) |]. split; [| exact Hok].
  specialize (Hrun 0). cbn [Nat.add] in Hrun.
  assert (Hval : discoverAllWorkspacePackages 5 monorepo_fs ["repo"]
                 = Found [("root", package_info
                                     (mkPackageJson (Some "root") None [] [])
                                     ["repo"]);
                          ("app", package_info (manifest "app" ["core"])
                                               ["app"; "packages"; "repo"]);
                          ("core", package_info
                                     (mkPackageJson None (Some "tsc") [] [])
                                     ["core"; "packages"; "repo"])])
    by reflexivity.
  rewrite Hrun in Hval. injection Hval as ->. reflexivity.
Defined.

(** X28: [collectDependencies(cwd)] as a whole.  It rejects when the
    [package.json] of [cwd] cannot be read; it returns the empty map,
    without looking at the workspace, when that file declares no
    workspace dependency; and otherwise, on a file system where
    [discoverAllWorkspacePackages] returns, it returns, of the map
    [allPackages] that [discoverAllWorkspacePackages] returns for the
    workspace root of [cwd], exactly the entries that the declared
    dependencies reach, each with the record and under the name it has in
    [allPackages], and with the dependencies that
    [extractWorkspaceDependencies] extracts from its own [package.json],
    so that every such dependency that was discovered is collected too. *)
Theorem collectDependencies_at_spec (fs : FileSystem) (cwd : Path)
  (fuel : nat) :
  (fs_package_json fs cwd = None -> collectDependencies_at fuel fs cwd = FsError)
  /\ (forall packageJson,
         fs_package_json fs cwd = Some packageJson ->
         extractWorkspaceDependencies (file_data packageJson) = [] ->
         collectDependencies_at fuel fs cwd = Found (Return JsMap.empty))
  /\ (forall cwdJson universe,
         fs_package_json fs cwd = Some cwdJson ->
         fs_tame fs (findWorkspaceRoot fs cwd) universe ->
         length universe < fuel ->
         exists allPackages collected,
           discoverAllWorkspacePackages fuel fs (findWorkspaceRoot fs cwd)
           = Found allPackages
           /\ collectDependencies_at fuel fs cwd = Found (Return collected)
           /\ discovered_ok fs allPackages
           /\ discovered_ok fs collected
           /\ (forall n, In n (JsMap.keys collected)
                         <-> In n (JsMap.keys allPackages)
                             /\ in_closure allPackages
                                  (extractWorkspaceDependencies
                                     (file_data cwdJson)) n)
           /\ (forall n pkg, JsMap.get n collected = Some pkg ->
                             JsMap.get n allPackages = Some pkg)
           /\ (forall key pkg d,
                  JsMap.get key collected = Some pkg ->
                  In d (extractWorkspaceDependencies (packageJson pkg)) ->
                  In d (JsMap.keys allPackages) ->
                  In d (JsMap.keys collected))).
Proof.
  unfold collectDependencies_at. split; [| split].
  - intros ->. reflexivity.
  - intros packageJson -> ->. reflexivity.
  - intros cwdJson universe Hread Htame Hfuel. rewrite Hread.
    destruct (discover_found fs (findWorkspaceRoot fs cwd) universe fuel
                Htame Hfuel) as (st & Hrun & Hok & _).
    unfold discoverAllWorkspacePackages. rewrite Hrun.
    set (allPackages := found_packages st) in *.
    destruct (collectDependencies_closure allPackages (proj1 Hok)
                (file_data cwdJson))
      as (collected & Hcollect & Hwf & Hkeys & Hvalues).
    assert (Hcok : discovered_ok fs collected).
    { split; [exact Hwf |]. intros key pkg Hget.
      apply (proj2 Hok). now apply Hvalues. }
    exists allPackages, collected. split; [reflexivity |]. split.
    { destruct (Nat.eqb (length (extractWorkspaceDependencies
                                   (file_data cwdJson))) 0) eqn:Hnone;
        [| now rewrite Hcollect].
      apply Nat.eqb_eq, length_zero_iff_nil in Hnone.
      unfold collectDependencies in Hcollect. rewrite Hnone in Hcollect.
      cbn in Hcollect. now rewrite Hcollect. }
    split; [exact Hok |]. split; [exact Hcok |]. split; [exact Hkeys |].
    split; [exact Hvalues |].
    intros key pkg d Hget Hdep Hd.
    apply Hkeys. split; [exact Hd |].
    assert (Hkey : In key (JsMap.keys collected))
      by now apply JsMap_get_In_keys in Hget.
    apply Hkeys in Hkey as [_ (root & Hroot & Hreach)].
    exists root. split; [exact Hroot |].
    apply rt_trans with key; [exact Hreach |]. apply rt_step.
    exists pkg. split; [now apply Hvalues |].
    destruct (proj2 Hcok key pkg Hget) as (_ & -> & _). exact Hdep.
Qed.

Lemma collectDependencies_at_spec_witness :
  fs_package_json monorepo_fs ["app"; "packages"; "repo"]
  = Some (mkFile (manifest "app" ["core"]) None None)
  /\ findWorkspaceRoot monorepo_fs ["app"; "packages"; "repo"] = ["repo"]
  /\ collectDependencies_at 5 monorepo_fs ["app"; "packages"; "repo"]
     = Found (Return [("core", package_info
                                 (mkPackageJson None (Some "tsc") [] [])
                                 ["core"; "packages"; "repo"])])
  /\ exists allPackages collected,
      discoverAllWorkspacePackages 5 monorepo_fs ["repo"] = Found allPackages
      /\ collectDependencies_at 5 monorepo_fs ["app"; "packages"; "repo"]
         = Found (Return collected)
      /\ discovered_ok monorepo_fs allPackages
      /\ discovered_ok monorepo_fs collected.
Proof.
  split; [reflexivity |]. split; [reflexivity |]. split; [reflexivity |].
  destruct (proj2 (proj2 (collectDependencies_at_spec monorepo_fs
                            ["app"; "packages"; "repo"] 5))
              (mkFile (manifest "app" ["core"]) None None) monorepo_universe
              eq_refl monorepo_tame)
    as (allPackages & collected & Hdiscover & Hrun & Hall & Hcollected & _);
    [cbn; lia |].
  exists allPackages, collected.
  split; [exact Hdiscover |].
  split; [exact Hrun | split; [exact Hall | exact Hcollected]].
Defined.

(** ** The layers depend on the graph only *)

Lemma expected_layer_ext (layers1 layers2 : list (list string))
  (deps : list string) :
  (forall d, In d deps -> layer_index layers1 d = layer_index layers2 d) ->
  expected_layer layers1 deps = expected_layer layers2 deps.
Proof.
  induction deps as [| d deps IH]; intro Hsame; cbn [expected_layer];
    [reflexivity |].
  rewrite (Hsame d (or_introl eq_refl)), IH; [reflexivity |].
  intros d' Hd'. apply Hsame. now right.
Qed.

Lemma layer_index_nth (layers : list (list string)) (p : string) :
  forall i, layer_index layers p = Some i -> In p (nth i layers []).
Proof.
  induction layers as [| layer layers IH]; intros i Hi; cbn [layer_index] in Hi;
    [discriminate |].
  destruct (JsSet.has layer p) eqn:Hhas.
  - injection Hi as <-. now apply JsSet_has_In.
  - destruct (layer_index layers p) as [j |]; [| discriminate].
    injection Hi as <-. cbn [nth]. now apply IH.
Qed.

Lemma nth_layer_index (layers : list (list string)) (p : string) :
  NoDup (concat layers) ->
  forall i, In p (nth i layers []) -> layer_index layers p = Some i.
Proof.
  induction layers as [| layer layers IH]; intros Hnd i Hin.
  - destruct i; contradiction.
  - cbn [concat] in Hnd. cbn [layer_index]. destruct i as [| i]; cbn [nth] in Hin.
    + apply JsSet_has_In in Hin. now rewrite Hin.
    + assert (Hrest : In p (concat layers)).
      { apply in_concat. exists (nth i layers []). split; [| exact Hin].
        apply nth_In. destruct (Nat.lt_ge_cases i (length layers)) as [Hlt | Hge];
          [exact Hlt |].
        rewrite nth_overflow in Hin by assumption. contradiction. }
      assert (Hnot : JsSet.has layer p = false).
      { apply JsSet_has_not_In. intro Hl.
        exact (NoDup_app_disjoint _ _ p Hnd Hl Hrest). }
      rewrite Hnot, (IH (NoDup_app_remove_l _ _ Hnd) i Hin). reflexivity.
Qed.

Lemma NoDup_nth_layer (layers : list (list string)) (i : nat) :
  NoDup (concat layers) -> NoDup (nth i layers []).
Proof.
  revert i. induction layers as [| layer layers IH]; intros i Hnd.
  - destruct i; constructor.
  - cbn [concat] in Hnd. destruct i as [| i]; cbn [nth].
    + exact (NoDup_app_remove_r _ _ Hnd).
    + apply IH. exact (NoDup_app_remove_l _ _ Hnd).
Qed.

(** The layer of a package, computed from a topological ordering, is
    the same for every topological ordering. *)
Lemma layer_index_determined (graph : DependencyGraph)
  (order1 order2 : list string) (layers1 layers2 : list (list string))
  (assigned1 assigned2 : JsSet.t) :
  (forall p, In p order1 <-> In p order2) ->
  layering_inv order1 graph layers1 assigned1 ->
  layering_inv order2 graph layers2 assigned2 ->
  (forall p, In p order1 -> In p (concat layers1)) ->
  (forall p, In p order2 -> In p (concat layers2)) ->
  forall i p, layer_index layers1 p = Some i -> layer_index layers2 p = Some i.
Proof.
  intros Hsame Hinv1 Hinv2 Hcover1 Hcover2.
  induction i as [i IH] using (well_founded_induction lt_wf).
  intros p Hi.
  assert (Hp2 : In p (concat layers2)).
  { apply Hcover2, Hsame.
    apply (li_incl _ _ _ _ Hinv1), (li_members _ _ _ _ Hinv1).
    now apply layer_index_Some in Hi. }
  apply layer_index_In in Hp2 as [k Hk].
  pose proof (li_index _ _ _ _ Hinv1 p i Hi) as Hexp1.
  pose proof (li_index _ _ _ _ Hinv2 p k Hk) as Hexp2.
  rewrite (expected_layer_ext layers1 layers2) in Hexp1.
  - rewrite Hexp1 in Hexp2. injection Hexp2 as <-. exact Hk.
  - intros d Hd.
    destruct (expected_layer_Some _ _ _ Hexp1 d Hd) as (j & Hj & Hlt).
    rewrite Hj. symmetry. now apply (IH j Hlt).
Qed.

(** X29: the layers do not depend on the topological ordering that
    [getBuildLayers] is given.  For two topological orderings of the same
    graph it returns the same number of layers, every package is in the
    layer of the same index, and each layer holds the same packages (in
    an order that may differ). *)
Theorem getBuildLayers_order_independent (graph : DependencyGraph)
  (order1 order2 : list string) :
  topological_order graph order1 ->
  topological_order graph order2 ->
  exists layers1 layers2,
    getBuildLayers order1 graph = Return layers1
    /\ getBuildLayers order2 graph = Return layers2
    /\ (forall p, layer_index layers1 p = layer_index layers2 p)
    /\ length layers1 = length layers2
    /\ forall i, Permutation (nth i layers1 []) (nth i layers2 []).
Proof.
  intros (Hnd1 & Hall1 & Hbefore1) (Hnd2 & Hall2 & Hbefore2).
  destruct (getBuildLayers_spec graph order1 Hnd1 Hbefore1)
    as (layers1 & assigned1 & Hrun1 & Hinv1 & Hcover1).
  destruct (getBuildLayers_spec graph order2 Hnd2 Hbefore2)
    as (layers2 & assigned2 & Hrun2 & Hinv2 & Hcover2).
  exists layers1, layers2. split; [exact Hrun1 |]. split; [exact Hrun2 |].
  assert (Hsame : forall p, In p order1 <-> In p order2)
    by (intro p; now rewrite Hall1, Hall2).
  assert (Hsame' : forall p, In p order2 <-> In p order1)
    by (intro p; now rewrite Hall1, Hall2).
  assert (H12 : forall i p, layer_index layers1 p = Some i ->
                            layer_index layers2 p = Some i)
    by exact (layer_index_determined graph order1 order2 layers1 layers2
                assigned1 assigned2 Hsame Hinv1 Hinv2 Hcover1 Hcover2).
  assert (H21 : forall i p, layer_index layers2 p = Some i ->
                            layer_index layers1 p = Some i)
    by exact (layer_index_determined graph order2 order1 layers2 layers1
                assigned2 assigned1 Hsame' Hinv2 Hinv1 Hcover2 Hcover1).
  assert (Hindex : forall p, layer_index layers1 p = layer_index layers2 p).
  { intro p. destruct (layer_index layers1 p) as [i |] eqn:H1.
    - symmetry. now apply H12.
    - destruct (layer_index layers2 p) as [k |] eqn:H2; [| reflexivity].
      apply H21 in H2. congruence. }
  split; [exact Hindex |].
  assert (Hlen : forall (la lb : list (list string)),
             NoDup (concat la) ->
             (forall layer, In layer la -> layer <> []) ->
             (forall i p, layer_index la p = Some i -> layer_index lb p = Some i) ->
             length la <= length lb).
  { intros la lb Hnd Hne Hab.
    destruct la as [| l0 la'] eqn:Hla; [cbn; lia |]. rewrite <- Hla in *.
    destruct (exists_last (l := la)) as (front & last & Hlast);
      [rewrite Hla; discriminate |].
    assert (Hin : In last la) by (rewrite Hlast; apply in_or_app; right; now left).
    destruct last as [| p rest]; [now contradiction (Hne [] Hin) |].
    assert (Hp : layer_index la p = Some (length front)).
    { apply nth_layer_index; [exact Hnd |].
      rewrite Hlast, nth_middle. now left. }
    apply Hab, layer_index_Some in Hp as [_ Hlt].
    rewrite Hlast, length_app. cbn [length]. lia. }
  split.
  - apply Nat.le_antisymm.
    + apply Hlen; [apply (li_disjoint _ _ _ _ Hinv1)
                  | apply (li_nonempty _ _ _ _ Hinv1) | exact H12].
    + apply Hlen; [apply (li_disjoint _ _ _ _ Hinv2)
                  | apply (li_nonempty _ _ _ _ Hinv2) | exact H21].
  - intro i. apply NoDup_Permutation.
    + apply NoDup_nth_layer, (li_disjoint _ _ _ _ Hinv1).
    + apply NoDup_nth_layer, (li_disjoint _ _ _ _ Hinv2).
    + intro p. split; intro Hin.
      * apply layer_index_nth, H12, nth_layer_index;
          [apply (li_disjoint _ _ _ _ Hinv1) | exact Hin].
      * apply layer_index_nth, H21, nth_layer_index;
          [apply (li_disjoint _ _ _ _ Hinv2) | exact Hin].
Qed.

Lemma complex_sorted_otherwise :
  topological_order (graph_of complex_packages)
                    ["utils"; "core"; "lib-b"; "lib-a"; "app"].
Proof. apply is_topological_order_sound. vm_compute. reflexivity. Qed.

Lemma getBuildLayers_order_independent_witness :
  topological_order (graph_of complex_packages)
                    ["core"; "utils"; "lib-a"; "lib-b"; "app"]
  /\ topological_order (graph_of complex_packages)
                       ["utils"; "core"; "lib-b"; "lib-a"; "app"]
  /\ getBuildLayers ["utils"; "core"; "lib-b"; "lib-a"; "app"]
                    (graph_of complex_packages)
     = Return [["utils"; "core"]; ["lib-b"; "lib-a"]; ["app"]]
  /\ exists layers1 layers2,
      getBuildLayers ["core"; "utils"; "lib-a"; "lib-b"; "app"]
                     (graph_of complex_packages) = Return layers1
      /\ getBuildLayers ["utils"; "core"; "lib-b"; "lib-a"; "app"]
                        (graph_of complex_packages) = Return layers2
      /\ length layers1 = length layers2.
Proof.
  pose proof complex_sorted_otherwise as Hother.
  split; [exact complex_sorted |]. split; [exact Hother |].
  split; [vm_compute; reflexivity |].
  destruct (getBuildLayers_order_independent (graph_of complex_packages)
              ["core"; "utils"; "lib-a"; "lib-b"; "app"]
              ["utils"; "core"; "lib-b"; "lib-a"; "app"]
              complex_sorted Hother)
    as (layers1 & layers2 & Hrun1 & Hrun2 & _ & Hlen & _).
  exists layers1, layers2.
  split; [exact Hrun1 | split; [exact Hrun2 | exact Hlen]].
Defined.

(** ** core/builder.ts: buildAll with its callback *)

Section CallbackFacts.

Variable env : Environment.
Variable options : BuildOptions.
Variable tty : bool.
Variable total : nat.
Variable names : list string.

(** The callback passes on a rejection of [buildPackage]; when
    [buildPackage] is fulfilled it counts the package, and then either
    passes the result on or, on a terminal with more packages counted than
    [total], throws. *)
Lemma callback_cases (c : Completion BuildResult) (n : nat) :
  match c with
  | Throw e => Builder.callback tty total names c n = (Throw e, n)
  | Return r =>
      (Builder.callback tty total names c n = (Return r, S n)
       /\ (tty = false \/ S n <= total))
      \/ (Builder.callback tty total names c n = (Throw RangeError, S n)
          /\ tty = true /\ total < S n)
  end.
Proof.
  destruct c as [r | e]; [| reflexivity].
  unfold Builder.callback, Builder.progressBar.
  destruct tty; [| left; split; [reflexivity | now left]].
  destruct (Nat.ltb total (S n)) eqn:Hlt.
  - right. apply Nat.ltb_lt in Hlt. auto.
  - left. apply Nat.ltb_ge in Hlt. split; [reflexivity | now right].
Qed.

Lemma started_ok_mono (n n' : nat) (t : Task) :
  n <= n' ->
  started_ok env options tty total n t -> started_ok env options tty total n' t.
Proof.
  intros Hle (Hbuilding & Hchecking & Hsettled).
  split; [exact Hbuilding |]. split; [exact Hchecking |].
  intros c Hc. destruct (Hsettled c Hc) as [-> | (-> & Htty & Hlt & Hr)];
    [now left |].
  right. repeat split; try assumption. lia.
Qed.

Lemma settle_spec (pkg : PackageInfo) (n : nat) :
  forall t' n',
    Builder.settle tty total names pkg (buildPackage env pkg options) n
    = (t', n') ->
    task_pkg t' = pkg /\ is_settled t' = true /\ n <= n' /\ n' <= S n
    /\ started_ok env options tty total n' t'.
Proof.
  intros t' n'. unfold Builder.settle.
  pose proof (callback_cases (buildPackage env pkg options) n) as Hcases.
  destruct (buildPackage env pkg options) as [r | e] eqn:Hbuild.
  - destruct Hcases as [[-> Hfits] | (-> & Htty & Hlt)]; intro H;
      injection H as <- <-; cbn [task_pkg];
      (split; [reflexivity |]); (split; [reflexivity |]);
      (split; [lia |]); (split; [lia |]);
      (split; [discriminate |]); (split; [discriminate |]);
      cbn [task_state task_pkg]; intros c Hc; injection Hc as <-.
    + left. now rewrite Hbuild.
    + right. repeat split; try assumption. exists r. exact Hbuild.
  - rewrite Hcases. intro H. injection H as <- <-. cbn [task_pkg].
    split; [reflexivity |]. split; [reflexivity |].
    split; [lia |]. split; [lia |].
    split; [discriminate |]. split; [discriminate |].
    cbn [task_state task_pkg]. intros c Hc. injection Hc as <-.
    left. now rewrite Hbuild.
Qed.

Lemma start_spec (pkg : PackageInfo) (n : nat) :
  forall t' n',
    Builder.start env options tty total names pkg n = (t', n') ->
    task_pkg t' = pkg /\ n <= n'
    /\ n' <= n + length (filter is_settled [t'])
    /\ started_ok env options tty total n' t'.
Proof.
  intros t' n'. unfold Builder.start.
  destruct (negb (has_build_script pkg)).
  - intro H. destruct (settle_spec pkg n t' n' H) as (Hp & Hs & Hle & Hge & Hok).
    cbn [filter]. rewrite Hs. cbn [length].
    split; [exact Hp |]. split; [exact Hle |]. split; [lia | exact Hok].
  - destruct (force options) eqn:Hforce; intro H; injection H as <- <-;
      cbn [task_pkg]; (split; [reflexivity |]); (split; [lia |]);
      (split; [lia |]); repeat split; cbn [task_state]; try discriminate; auto.
Qed.

Lemma advance_spec (t : Task) (n : nat) :
  forall t' n',
    Builder.advance env options tty total names t n = (t', n') ->
    started_ok env options tty total n t ->
    task_pkg t' = task_pkg t /\ n <= n'
    /\ n' + length (filter is_settled [t])
       <= n + length (filter is_settled [t'])
    /\ started_ok env options tty total n' t'.
Proof.
  intros t' n' Hadvance Hok. unfold Builder.advance in Hadvance.
  cbn [filter]. unfold is_settled at 1.
  destruct (task_state t) as [| | c] eqn:Hstate.
  - destruct (needs env (path (task_pkg t))) eqn:Hneeds.
    + injection Hadvance as <- <-. cbn [task_pkg is_settled task_state length].
      split; [reflexivity |]. split; [lia |]. split; [lia |].
      repeat split; cbn [task_state task_pkg]; try discriminate; auto.
    + destruct (settle_spec (task_pkg t) n t' n' Hadvance)
        as (Hp & Hs & Hle & Hge & Hok').
      rewrite Hs. cbn [length].
      split; [exact Hp |]. split; [exact Hle |]. split; [lia | exact Hok'].
  - destruct (settle_spec (task_pkg t) n t' n' Hadvance)
      as (Hp & Hs & Hle & Hge & Hok').
    rewrite Hs. cbn [length].
    split; [exact Hp |]. split; [exact Hle |]. split; [lia | exact Hok'].
  - injection Hadvance as <- <-. unfold is_settled. rewrite Hstate.
    split; [reflexivity |]. split; [lia |]. split; [lia | exact Hok].
Qed.

Lemma filter_settled_cons (t : Task) (tasks : list Task) :
  length (filter is_settled (t :: tasks))
  = length (filter is_settled [t]) + length (filter is_settled tasks).
Proof. cbn [filter]. now destruct (is_settled t). Qed.

Lemma advance_nth_spec (i : nat) (tasks : list Task) :
  forall n tasks' n',
    Builder.advance_nth env options tty total names i tasks n = (tasks', n') ->
    Forall (started_ok env options tty total n) tasks ->
    map task_pkg tasks' = map task_pkg tasks /\ n <= n'
    /\ n' + length (filter is_settled tasks)
       <= n + length (filter is_settled tasks')
    /\ Forall (started_ok env options tty total n') tasks'.
Proof.
  revert i. induction tasks as [| t tasks IH]; intros i n tasks' n' Hrun Hall.
  - destruct i; injection Hrun as <- <-; repeat split; auto.
  - inversion Hall as [| ? ? Ht Hrest]; subst.
    destruct i as [| i]; cbn [Builder.advance_nth] in Hrun.
    + destruct (Builder.advance env options tty total names t n)
        as [t1 n1] eqn:Hadvance.
      injection Hrun as <- <-.
      destruct (advance_spec t n t1 n1 Hadvance Ht) as (Hp & Hle & Hcount & Hok).
      cbn [map]. rewrite Hp. split; [reflexivity |]. split; [exact Hle |].
      rewrite (filter_settled_cons t), (filter_settled_cons t1).
      split; [lia |]. constructor; [exact Hok |].
      eapply Forall_impl; [| exact Hrest]. intro t'. now apply started_ok_mono.
    + destruct (Builder.advance_nth env options tty total names i tasks n)
        as [rest1 n1] eqn:Hnth.
      injection Hrun as <- <-.
      destruct (IH i n rest1 n1 Hnth Hrest) as (Hp & Hle & Hcount & Hok).
      cbn [map]. rewrite Hp. split; [reflexivity |]. split; [exact Hle |].
      rewrite (filter_settled_cons t tasks), (filter_settled_cons t rest1).
      split; [lia |]. constructor; [now apply started_ok_mono with n | exact Hok].
Qed.

Lemma deliver_inv (base i : nat) (b : Builder.Build) :
  build_inv env options tty total base b ->
  build_inv env options tty total base
            (Builder.deliver env options tty total names i b)
  /\ map task_pkg
         (executing (Builder.build_run
                       (Builder.deliver env options tty total names i b)))
     = map task_pkg (executing (Builder.build_run b)).
Proof.
  intros [Hall Hcount]. unfold Builder.deliver.
  destruct (Builder.advance_nth env options tty total names i
              (executing (Builder.build_run b)) (Builder.build_completed b))
    as [tasks n'] eqn:Hnth.
  destruct (advance_nth_spec i _ _ _ _ Hnth Hall) as (Hp & Hle & Hmore & Hok).
  unfold build_inv. cbn [Builder.build_run Builder.build_completed executing].
  split; [| exact Hp]. split; [exact Hok | lia].
Qed.

Lemma launch_inv (base : nat) (item : PackageInfo) (b : Builder.Build) :
  build_inv env options tty total base b ->
  build_inv env options tty total base
            (Builder.launch env options tty total names item b)
  /\ map task_pkg
         (executing (Builder.build_run
                       (Builder.launch env options tty total names item b)))
     = map task_pkg (executing (Builder.build_run b)) ++ [item].
Proof.
  intros [Hall Hcount]. unfold Builder.launch.
  destruct (Builder.start env options tty total names item
                          (Builder.build_completed b)) as [task n'] eqn:Hstart.
  destruct (start_spec item _ _ _ Hstart) as (Hp & Hle & Hmore & Hok).
  unfold build_inv. cbn [Builder.build_run Builder.build_completed executing].
  split.
  - split.
    + apply Forall_app. split; [| now constructor].
      eapply Forall_impl; [| exact Hall]. intro t'. now apply started_ok_mono.
    + rewrite filter_app, length_app. lia.
  - rewrite map_app. cbn [map]. now rewrite Hp.
Qed.

Lemma first_settled_none (tasks : list Task) :
  first_settled tasks = None ->
  first_rejected tasks = None
  /\ forall t, In t tasks -> is_settled t = false.
Proof.
  induction tasks as [| t tasks IH]; cbn [first_settled first_rejected];
    [intros _; split; [reflexivity | intros t []] |].
  unfold is_settled.
  destruct (task_state t) eqn:Hstate; [| | discriminate]; intro Hnone;
    destruct (IH Hnone) as [Hrej Hall]; (split; [exact Hrej |]);
    intros t' [<- | Hin]; try (now apply Hall); now rewrite Hstate.
Qed.

Lemma not_all_settled (tasks : list Task) :
  forallb is_settled tasks = false ->
  exists t, In t tasks /\ is_settled t = false.
Proof.
  induction tasks as [| t tasks IH]; cbn [forallb]; [discriminate |].
  destruct (is_settled t) eqn:Hs.
  - intro H. destruct (IH H) as (t' & Hin & Hs'). exists t'. split; [now right | exact Hs'].
  - intros _. exists t. split; [now left | exact Hs].
Qed.

Lemma callback_await_race_inv (base : nat) (schedule : list nat) :
  forall b,
    build_inv env options tty total base b ->
    build_inv env options tty total base
              (snd (Builder.await_race env options tty total names schedule b))
    /\ map task_pkg
           (executing
              (Builder.build_run
                 (snd (Builder.await_race env options tty total names
                                          schedule b))))
       = map task_pkg (executing (Builder.build_run b))
    /\ (forall e,
           fst (fst (Builder.await_race env options tty total names schedule b))
           = Rejected e ->
           exists t,
             In t (executing
                     (Builder.build_run
                        (snd (Builder.await_race env options tty total names
                                                 schedule b))))
             /\ task_state t = Settled (Throw e))
    /\ (fst (fst (Builder.await_race env options tty total names schedule b))
        = Pending ->
        first_settled
          (executing
             (Builder.build_run
                (snd (Builder.await_race env options tty total names
                                         schedule b))))
        = None).
Proof.
  induction schedule as [| i schedule IH]; intros b Hinv;
    cbn [Builder.await_race];
    destruct (first_settled (executing (Builder.build_run b)))
      as [[r | e] |] eqn:Hfirst; cbn [fst snd];
    try (split; [exact Hinv |]; split; [reflexivity |];
         split; [| discriminate];
         intros e' He'; try discriminate; injection He' as <-;
         now apply first_settled_In).
  - split; [exact Hinv |]. split; [reflexivity |].
    split; [discriminate | intros _; exact Hfirst].
  - destruct (deliver_inv base i b Hinv) as [Hinv1 Hp1].
    destruct (IH _ Hinv1) as (Hinv2 & Hp2 & Hrej & Hpend).
    split; [exact Hinv2 |]. split; [now rewrite Hp2 |]. now split.
Qed.

Lemma callback_await_all_inv (base : nat) (schedule : list nat) :
  forall b,
    build_inv env options tty total base b ->
    build_inv env options tty total base
              (snd (Builder.await_all env options tty total names schedule b))
    /\ map task_pkg
           (executing
              (Builder.build_run
                 (snd (Builder.await_all env options tty total names
                                         schedule b))))
       = map task_pkg (executing (Builder.build_run b))
    /\ (fst (fst (Builder.await_all env options tty total names schedule b))
        = Resolved tt ->
        forall t,
          In t (executing
                  (Builder.build_run
                     (snd (Builder.await_all env options tty total names
                                             schedule b)))) ->
          exists r, task_state t = Settled (Return r))
    /\ (forall e,
           fst (fst (Builder.await_all env options tty total names schedule b))
           = Rejected e ->
           exists t,
             In t (executing
                     (Builder.build_run
                        (snd (Builder.await_all env options tty total names
                                                schedule b))))
             /\ task_state t = Settled (Throw e))
    /\ (fst (fst (Builder.await_all env options tty total names schedule b))
        = Pending ->
        first_rejected
          (executing
             (Builder.build_run
                (snd (Builder.await_all env options tty total names
                                        schedule b))))
        = None
        /\ exists t,
            In t (executing
                    (Builder.build_run
                       (snd (Builder.await_all env options tty total names
                                               schedule b))))
            /\ is_settled t = false).
Proof.
  induction schedule as [| i schedule IH]; intros b Hinv;
    cbn [Builder.await_all];
    destruct (first_rejected (executing (Builder.build_run b)))
      as [e |] eqn:Hrej; cbn [fst snd];
    try (split; [exact Hinv |]; split; [reflexivity |];
         split; [discriminate |]; split; [| discriminate];
         intros e' He'; injection He' as <-; now apply first_rejected_In);
    destruct (forallb is_settled (executing (Builder.build_run b))) eqn:Hall;
    cbn [fst snd];
    try (split; [exact Hinv |]; split; [reflexivity |];
         split; [intros _; now apply all_fulfilled |];
         split; discriminate).
  - split; [exact Hinv |]. split; [reflexivity |].
    split; [discriminate |]. split; [discriminate |].
    intros _. split; [exact Hrej | now apply not_all_settled].
  - destruct (deliver_inv base i b Hinv) as [Hinv1 Hp1].
    destruct (IH _ Hinv1) as (Hinv2 & Hp2 & Hres & Hrejected & Hpend).
    split; [exact Hinv2 |]. split; [now rewrite Hp2 |].
    split; [exact Hres |]. split; [exact Hrejected | exact Hpend].
Qed.

Lemma callback_run_items_inv (base : nat) (limit : number)
  (items : list PackageInfo) :
  forall schedule b,
    build_inv env options tty total base b ->
    build_inv env options tty total base
              (snd (Builder.run_items env options tty total names limit items
                                      schedule b))
    /\ (exists started rest,
           items = started ++ rest
           /\ map task_pkg
                  (executing
                     (Builder.build_run
                        (snd (Builder.run_items env options tty total names
                                                limit items schedule b))))
              = map task_pkg (executing (Builder.build_run b)) ++ started
           /\ (fst (fst (Builder.run_items env options tty total names limit
                                           items schedule b))
               = Resolved tt -> started = items))
    /\ (fst (fst (Builder.run_items env options tty total names limit items
                                    schedule b))
        = Resolved tt ->
        forall t,
          In t (executing
                  (Builder.build_run
                     (snd (Builder.run_items env options tty total names limit
                                             items schedule b)))) ->
          exists r, task_state t = Settled (Return r))
    /\ (forall e,
           fst (fst (Builder.run_items env options tty total names limit items
                                       schedule b))
           = Rejected e ->
           exists t,
             In t (executing
                     (Builder.build_run
                        (snd (Builder.run_items env options tty total names
                                                limit items schedule b))))
             /\ task_state t = Settled (Throw e))
    /\ (fst (fst (Builder.run_items env options tty total names limit items
                                    schedule b))
        = Pending ->
        first_rejected
          (executing
             (Builder.build_run
                (snd (Builder.run_items env options tty total names limit
                                        items schedule b))))
        = None
        /\ exists t,
            In t (executing
                    (Builder.build_run
                       (snd (Builder.run_items env options tty total names
                                               limit items schedule b))))
            /\ is_settled t = false).
Proof.
  induction items as [| item rest IH]; intros schedule b Hinv;
    cbn [Builder.run_items].
  - destruct (callback_await_all_inv base schedule b Hinv)
      as (Hinv' & Hp & Hres & Hrej & Hpend).
    split; [exact Hinv' |].
    split; [| split; [exact Hres | split; [exact Hrej | exact Hpend]]].
    exists [], []. split; [reflexivity |].
    split; [now rewrite app_nil_r | reflexivity].
  - destruct (launch_inv base item b Hinv) as [Hinv1 Hp1].
    set (b1 := Builder.launch env options tty total names item b) in *.
    destruct (at_limit (length (executing (Builder.build_run b1))) limit).
    + destruct (callback_await_race_inv base schedule b1 Hinv1)
        as (Hinv2 & Hp2 & Hrej2 & Hpend2).
      destruct (Builder.await_race env options tty total names schedule b1)
        as [[s schedule'] b2].
      cbn [fst snd] in Hinv2, Hp2, Hrej2, Hpend2.
      destruct s as [[] | e |].
      * set (b3 := Builder.mkBuild
                     (mkRun (fst (filter_executing
                                    (executing (Builder.build_run b2))
                                    (mkReactions [] [])))
                            (results (Builder.build_run b2))
                            (peak (Builder.build_run b2)))
                     (Builder.build_completed b2)).
        assert (Hexec : executing (Builder.build_run b3)
                        = executing (Builder.build_run b2))
          by apply filter_executing_all.
        assert (Hinv3 : build_inv env options tty total base b3).
        { unfold build_inv. rewrite Hexec. exact Hinv2. }
        destruct (IH schedule' b3 Hinv3)
          as (Hinv' & (started & rest' & Hitems & Hp & Hall) & Hres & Hrej & Hpend).
        split; [exact Hinv' |].
        split; [| split; [exact Hres | split; [exact Hrej | exact Hpend]]].
        exists (item :: started), rest'. split; [now rewrite Hitems |].
        split; [now rewrite Hp, Hexec, Hp2, Hp1, <- app_assoc |].
        intro H. now rewrite (Hall H).
      * cbn [fst snd]. split; [exact Hinv2 |]. split.
        { exists [item], rest. split; [reflexivity |].
          split; [now rewrite Hp2, Hp1 | discriminate]. }
        split; [discriminate |]. split; [exact Hrej2 | discriminate].
      * cbn [fst snd]. split; [exact Hinv2 |]. split.
        { exists [item], rest. split; [reflexivity |].
          split; [now rewrite Hp2, Hp1 | discriminate]. }
        split; [discriminate |]. split; [discriminate |].
        intros _. destruct (first_settled_none _ (Hpend2 eq_refl)) as [Hnone Hall].
        split; [exact Hnone |].
        assert (Hin : In item (map task_pkg (executing (Builder.build_run b2))))
          by (rewrite Hp2, Hp1; apply in_or_app; right; now left).
        apply in_map_iff in Hin as (t & _ & Ht).
        exists t. split; [exact Ht | now apply Hall].
    + destruct (IH schedule b1 Hinv1)
        as (Hinv' & (started & rest' & Hitems & Hp & Hall) & Hres & Hrej & Hpend).
      split; [exact Hinv' |].
      split; [| split; [exact Hres | split; [exact Hrej | exact Hpend]]].
      exists (item :: started), rest'. split; [now rewrite Hitems |].
      split; [now rewrite Hp, Hp1, <- app_assoc |].
      intro H. now rewrite (Hall H).
Qed.

End CallbackFacts.

(** *** The counter and the number of packages *)

Lemma layer_packages_buildable (packages : JsMap.t PackageInfo)
  (layer : list string) :
  forall pkgs,
    layer_packages packages layer = Some pkgs ->
    filter has_build_script pkgs = flat_map (buildable_of packages) layer.
Proof.
  induction layer as [| n rest IH]; intros pkgs Hpkgs;
    cbn [layer_packages] in Hpkgs.
  - now injection Hpkgs as <-.
  - unfold buildable_of at 1. cbn [flat_map].
    destruct (JsMap.get n packages) as [pkg |]; [| discriminate].
    destruct (layer_packages packages rest) as [pkgs' |]; [| discriminate].
    injection Hpkgs as <-. cbn [filter]. rewrite (IH pkgs' eq_refl).
    now destruct (has_build_script pkg).
Qed.

Lemma named_buildable_cons (packages : JsMap.t PackageInfo)
  (layer : list string) (rest : list (list string)) :
  named_buildable packages (layer :: rest)
  = flat_map (buildable_of packages) layer ++ named_buildable packages rest.
Proof. unfold named_buildable. cbn [concat]. apply flat_map_app. Qed.

Lemma buildable_of_skip (k : string) (v : PackageInfo)
  (packages : JsMap.t PackageInfo) (names : list string) :
  ~ In k names ->
  flat_map (buildable_of ((k, v) :: packages)) names
  = flat_map (buildable_of packages) names.
Proof.
  induction names as [| n names IH]; intro Hnot; [reflexivity |].
  cbn [flat_map]. rewrite IH by (intro H; apply Hnot; now right).
  f_equal. unfold buildable_of. cbn [JsMap.get].
  destruct (String.eqb k n) eqn:Heq; [| reflexivity].
  apply String.eqb_eq in Heq. subst. contradiction Hnot. now left.
Qed.

Lemma buildable_of_first (k : string) (v : PackageInfo)
  (packages : JsMap.t PackageInfo) (names : list string) :
  NoDup names ->
  length (flat_map (buildable_of ((k, v) :: packages)) names)
  <= length (filter has_build_script [v])
     + length (flat_map (buildable_of packages) names).
Proof.
  induction names as [| n names IH]; intro Hnodup; [cbn; lia |].
  inversion Hnodup as [| ? ? Hnot Hrest]; subst.
  cbn [flat_map]. rewrite !length_app.
  destruct (String.eqb k n) eqn:Heq.
  - apply String.eqb_eq in Heq. subst n.
    rewrite (buildable_of_skip k v packages names Hnot).
    unfold buildable_of at 1. cbn [JsMap.get]. rewrite String.eqb_refl.
    cbn [filter]. destruct (has_build_script v); cbn [length]; lia.
  - specialize (IH Hrest).
    assert (Hsame : buildable_of ((k, v) :: packages) n
                    = buildable_of packages n)
      by (unfold buildable_of; cbn [JsMap.get]; now rewrite Heq).
    rewrite Hsame. lia.
Qed.

(** Layers that name no package twice name no more packages with a build
    script than [packages] holds. *)
Lemma named_buildable_total (packages : JsMap.t PackageInfo)
  (layers : list (list string)) :
  NoDup (concat layers) ->
  length (named_buildable packages layers) <= Builder.total_buildable packages.
Proof.
  unfold named_buildable, Builder.total_buildable.
  generalize (concat layers) as names. clear layers.
  induction packages as [| [k v] packages IH]; intros names Hnodup.
  - clear Hnodup.
    assert (Hnil : flat_map (buildable_of []) names = [])
      by (induction names as [| n names IHn]; [reflexivity | exact IHn]).
    rewrite Hnil. cbn. lia.
  - pose proof (buildable_of_first k v packages names Hnodup) as Hfirst.
    specialize (IH names Hnodup).
    unfold JsMap.values in *. cbn [map filter snd] in *.
    destruct (has_build_script v); cbn [length] in *; lia.
Qed.

Lemma announce_throws (tty : bool) (completed total : nat)
  (names : list string) (e : JsError) :
  Builder.announce tty completed total names = Throw e ->
  e = RangeError /\ tty = true /\ total < completed.
Proof.
  unfold Builder.announce, Builder.progressBar.
  destruct tty; [| discriminate].
  destruct (Nat.ltb total completed) eqn:Hlt; [| discriminate].
  intro H. injection H as <-. apply Nat.ltb_lt in Hlt. auto.
Qed.

Lemma buildPackage_throws (env : Environment) (pkg : PackageInfo)
  (options : BuildOptions) (e : JsError) :
  buildPackage env pkg options = Throw e -> e = BuildFailed (name pkg).
Proof.
  unfold buildPackage.
  destruct (negb (has_build_script pkg)); [discriminate |].
  destruct (negb (force options) && negb (needs env (path pkg)));
    [discriminate |].
  destruct (succeeds env (path pkg)); [discriminate |].
  intro H. now injection H as <-.
Qed.

Lemma first_rejected_none (tasks : list Task) :
  first_rejected tasks = None ->
  forall t e, In t tasks -> task_state t <> Settled (Throw e).
Proof.
  induction tasks as [| t tasks IH]; cbn [first_rejected]; [intros _ ? ? [] |].
  destruct (task_state t) as [| | [r | e']] eqn:Hstate; try discriminate;
    intros Hnone t' e [<- | Hin]; try (now apply IH);
    rewrite Hstate; discriminate.
Qed.

(** One layer: the call of [runWithConcurrency] that [buildAll] makes for
    the packages of [layer] that have a build script. *)
Lemma callback_layer_run (env : Environment) (options : BuildOptions)
  (cpus : nat) (tty : bool) (total : nat) (packages : JsMap.t PackageInfo)
  (layer : list string) (pkgs : list PackageInfo) (schedule : list nat)
  (completed : nat) :
  layer_packages packages layer = Some pkgs ->
  Builder.build_completed
    (snd (Builder.runWithConcurrency
            env options tty total (map name (filter has_build_script pkgs))
            (filter has_build_script pkgs) (concurrency options cpus)
            schedule completed))
  <= completed + length (flat_map (buildable_of packages) layer)
  /\ (forall t,
         In t (executing
                 (Builder.build_run
                    (snd (Builder.runWithConcurrency
                            env options tty total
                            (map name (filter has_build_script pkgs))
                            (filter has_build_script pkgs)
                            (concurrency options cpus) schedule completed)))) ->
         has_build_script (task_pkg t) = true
         /\ In (task_pkg t) pkgs
         /\ started_ok env options tty total
              (completed + length (flat_map (buildable_of packages) layer)) t)
  /\ (fst (fst (Builder.runWithConcurrency
                  env options tty total
                  (map name (filter has_build_script pkgs))
                  (filter has_build_script pkgs) (concurrency options cpus)
                  schedule completed))
      = Resolved tt ->
      (forall pkg, In pkg pkgs -> has_build_script pkg = true ->
                   exists r, buildPackage env pkg options = Return r)
      /\ forall t,
          In t (executing
                  (Builder.build_run
                     (snd (Builder.runWithConcurrency
                             env options tty total
                             (map name (filter has_build_script pkgs))
                             (filter has_build_script pkgs)
                             (concurrency options cpus) schedule completed)))) ->
          exists r, task_state t = Settled (Return r))
  /\ (forall e,
         fst (fst (Builder.runWithConcurrency
                     env options tty total
                     (map name (filter has_build_script pkgs))
                     (filter has_build_script pkgs) (concurrency options cpus)
                     schedule completed))
         = Rejected e ->
         (e = RangeError /\ tty = true
          /\ total < completed + length (flat_map (buildable_of packages) layer))
         \/ exists t,
             In t (executing
                     (Builder.build_run
                        (snd (Builder.runWithConcurrency
                                env options tty total
                                (map name (filter has_build_script pkgs))
                                (filter has_build_script pkgs)
                                (concurrency options cpus) schedule
                                completed))))
             /\ task_state t = Settled (Throw e)
             /\ In (task_pkg t) pkgs /\ has_build_script (task_pkg t) = true
             /\ buildPackage env (task_pkg t) options = Throw e)
  /\ (fst (fst (Builder.runWithConcurrency
                  env options tty total
                  (map name (filter has_build_script pkgs))
                  (filter has_build_script pkgs) (concurrency options cpus)
                  schedule completed))
      = Pending ->
      (forall t e,
          In t (executing
                  (Builder.build_run
                     (snd (Builder.runWithConcurrency
                             env options tty total
                             (map name (filter has_build_script pkgs))
                             (filter has_build_script pkgs)
                             (concurrency options cpus) schedule completed)))) ->
          task_state t <> Settled (Throw e))
      /\ exists t,
          In t (executing
                  (Builder.build_run
                     (snd (Builder.runWithConcurrency
                             env options tty total
                             (map name (filter has_build_script pkgs))
                             (filter has_build_script pkgs)
                             (concurrency options cpus) schedule completed))))
          /\ is_settled t = false).
Proof.
  intro Hpkgs. unfold Builder.runWithConcurrency.
  set (items := filter has_build_script pkgs).
  set (names := map name items).
  assert (Hinv0 : build_inv env options tty total completed
                            (Builder.mkBuild (mkRun [] [] 0) completed)).
  { split; [constructor | cbn; lia]. }
  destruct (callback_run_items_inv env options tty total names completed
              (concurrency options cpus) items schedule _ Hinv0)
    as ((Hall & Hcount) & (started & rest & Hitems & Hp & Hdone)
        & Hres & Hrej & Hpend).
  destruct (Builder.run_items env options tty total names
              (concurrency options cpus) items schedule
              (Builder.mkBuild (mkRun [] [] 0) completed)) as [[s schedule'] b].
  cbn [fst snd Builder.build_run executing map app] in *.
  assert (Hlen : length (executing (Builder.build_run b)) <= length items).
  { rewrite <- (length_map task_pkg), Hp, Hitems, length_app. lia. }
  assert (Hitems_len : length items
                       = length (flat_map (buildable_of packages) layer)).
  { unfold items. now rewrite (layer_packages_buildable packages layer pkgs). }
  assert (Hbound : Builder.build_completed b
                   <= completed
                      + length (flat_map (buildable_of packages) layer)).
  { pose proof (List.filter_length_le is_settled
                  (executing (Builder.build_run b))). lia. }
  assert (Hstarted : forall t, In t (executing (Builder.build_run b)) ->
                               In (task_pkg t) items).
  { intros t Ht. rewrite Hitems. apply in_or_app. left.
    rewrite <- Hp. now apply in_map. }
  assert (Htasks : forall t,
             In t (executing (Builder.build_run b)) ->
             has_build_script (task_pkg t) = true
             /\ In (task_pkg t) pkgs
             /\ started_ok env options tty total
                  (completed + length (flat_map (buildable_of packages) layer))
                  t).
  { intros t Ht. pose proof (Hstarted t Ht) as Hin.
    unfold items in Hin. apply filter_In in Hin as [Hin Hscript].
    split; [exact Hscript |]. split; [exact Hin |].
    rewrite Forall_forall in Hall.
    eapply started_ok_mono; [exact Hbound | now apply Hall]. }
  split; [exact Hbound |]. split; [exact Htasks |]. split; [| split].
  - intro Hresolved. split; [| now apply Hres].
    intros pkg Hpkg Hscript.
    assert (Hin : In pkg (map task_pkg (executing (Builder.build_run b)))).
    { rewrite Hp, (Hdone Hresolved). unfold items. now apply filter_In. }
    apply in_map_iff in Hin as (t & <- & Ht).
    destruct (Hres Hresolved t Ht) as [r Hr]. exists r.
    destruct (Htasks t Ht) as (_ & _ & _ & _ & Hsettled).
    destruct (Hsettled _ Hr) as [Hbuild | (Hthrow & _)];
      [now symmetry | discriminate].
  - intros e He. destruct (Hrej e He) as (t & Ht & Hstate).
    destruct (Htasks t Ht) as (Hscript & Hin & _ & _ & Hsettled).
    destruct (Hsettled _ Hstate) as [Hbuild | (Hthrow & Htty & Hlt & _)].
    + right. exists t. now repeat split.
    + left. injection Hthrow as ->. now repeat split.
  - intro Hpending. destruct (Hpend Hpending) as [Hnone Hopen].
    split; [| exact Hopen].
    intros t e Ht. now apply (first_rejected_none _ Hnone).
Qed.

(** The loop of [buildAll]: what the runs that it adds to the trace hold,
    and what it settles with. *)
Lemma callback_build_layers_inv (env : Environment) (options : BuildOptions)
  (cpus : nat) (tty : bool) (total : nat) (packages : JsMap.t PackageInfo)
  (layers : list (list string)) :
  forall schedule completed trace,
    exists runs,
      snd (Builder.build_layers env options cpus tty total packages layers
                                schedule completed trace)
      = trace ++ runs
      /\ (forall t,
             In t (tasks_of runs) ->
             has_build_script (task_pkg t) = true
             /\ (exists layer pkgs,
                    In layer layers
                    /\ layer_packages packages layer = Some pkgs
                    /\ In (task_pkg t) pkgs)
             /\ started_ok env options tty total
                  (completed + length (named_buildable packages layers)) t)
      /\ (fst (Builder.build_layers env options cpus tty total packages layers
                                    schedule completed trace)
          = Resolved tt ->
          (forall layer pkgs pkg,
              In layer layers -> layer_packages packages layer = Some pkgs ->
              In pkg pkgs -> has_build_script pkg = true ->
              exists r, buildPackage env pkg options = Return r)
          /\ forall t, In t (tasks_of runs) ->
                       exists r, task_state t = Settled (Return r))
      /\ (forall e,
             fst (Builder.build_layers env options cpus tty total packages
                                       layers schedule completed trace)
             = Rejected e ->
             (e = TypeError
              /\ exists layer,
                  In layer layers /\ layer_packages packages layer = None)
             \/ (e = RangeError /\ tty = true
                 /\ total < completed + length (named_buildable packages layers))
             \/ (exists layer pkgs t,
                    In layer layers
                    /\ layer_packages packages layer = Some pkgs
                    /\ In t (tasks_of runs)
                    /\ task_state t = Settled (Throw e)
                    /\ In (task_pkg t) pkgs
                    /\ has_build_script (task_pkg t) = true
                    /\ buildPackage env (task_pkg t) options = Throw e))
      /\ (fst (Builder.build_layers env options cpus tty total packages layers
                                    schedule completed trace)
          = Pending ->
          (forall t e, In t (tasks_of runs) ->
                       task_state t <> Settled (Throw e))
          /\ exists t, In t (tasks_of runs) /\ is_settled t = false).
Proof.
  induction layers as [| layer rest IH]; intros schedule completed trace;
    cbn [Builder.build_layers].
  - exists []. split; [now rewrite app_nil_r |].
    split; [intros t [] |]. split; [| split; discriminate].
    intros _. split; [intros layer pkgs pkg [] | intros t []].
  - rewrite named_buildable_cons, length_app.
    destruct (layer_packages packages layer) as [pkgs |] eqn:Hpkgs.
    2: { exists []. split; [now rewrite app_nil_r |].
         split; [intros t [] |]. split; [discriminate |].
         split; [| discriminate].
         intros e He. injection He as <-. left. split; [reflexivity |].
         exists layer. split; [now left | exact Hpkgs]. }
    pose proof (layer_packages_buildable packages layer pkgs Hpkgs) as Hnamed.
    destruct (Nat.eqb (length (filter has_build_script pkgs)) 0) eqn:Hnone.
    + apply Nat.eqb_eq in Hnone.
      rewrite <- Hnamed, Hnone. cbn [plus].
      destruct (IH schedule completed trace)
        as (runs & Htrace & Htasks & Hres & Hrej & Hpend).
      exists runs. split; [exact Htrace |]. split; [| split; [| split]].
      * intros t Ht.
        destruct (Htasks t Ht) as (Hscript & (l & ps & Hl & Hps & Hin) & Hok).
        split; [exact Hscript |]. split; [| exact Hok].
        exists l, ps. split; [now right | now split].
      * intro Hresolved. destruct (Hres Hresolved) as [Hall Hdone].
        split; [| exact Hdone].
        intros l ps pkg [<- | Hl] Hps Hpkg Hscript;
          [| now apply (Hall l ps pkg)].
        rewrite Hpkgs in Hps. injection Hps as <-.
        assert (Hin : In pkg (filter has_build_script pkgs))
          by now apply filter_In.
        apply length_zero_iff_nil in Hnone. rewrite Hnone in Hin.
        contradiction.
      * intros e He.
        destruct (Hrej e He)
          as [(-> & l & Hl & Hps) | [Hrange | (l & ps & t & Hl & Hrest)]].
        -- left. split; [reflexivity |]. exists l. split; [now right | exact Hps].
        -- right. left. exact Hrange.
        -- right. right. exists l, ps, t. split; [now right | exact Hrest].
      * exact Hpend.
    + destruct (Builder.announce tty completed total
                  (map name (filter has_build_script pkgs))) as [u | e0] eqn:Hbar.
      2: { exists []. split; [now rewrite app_nil_r |].
           split; [intros t [] |]. split; [discriminate |].
           split; [| discriminate].
           intros e He. injection He as <-.
           apply announce_throws in Hbar as (-> & Htty & Hlt).
           right. left. split; [reflexivity |]. split; [exact Htty | lia]. }
      destruct (callback_layer_run env options cpus tty total packages layer
                  pkgs schedule completed Hpkgs)
        as (Hbound & Hhere & Hresolved & Hrejected & Hpending).
      destruct (Builder.runWithConcurrency
                  env options tty total
                  (map name (filter has_build_script pkgs))
                  (filter has_build_script pkgs) (concurrency options cpus)
                  schedule completed) as [[s schedule'] b].
      cbn [fst snd] in Hbound, Hhere, Hresolved, Hrejected, Hpending.
      assert (Hone : forall t,
                 In t (executing (Builder.build_run b)) ->
                 has_build_script (task_pkg t) = true
                 /\ (exists l ps,
                        In l (layer :: rest)
                        /\ layer_packages packages l = Some ps
                        /\ In (task_pkg t) ps)
                 /\ started_ok env options tty total
                      (completed
                       + (length (flat_map (buildable_of packages) layer)
                          + length (named_buildable packages rest))) t).
      { intros t Ht. destruct (Hhere t Ht) as (Hscript & Hin & Hok).
        split; [exact Hscript |]. split.
        - exists layer, pkgs. split; [now left | now split].
        - eapply started_ok_mono; [| exact Hok]. lia. }
      assert (Hsingle : forall t,
                 In t (tasks_of [Builder.build_run b]) ->
                 In t (executing (Builder.build_run b))).
      { intros t Ht. unfold tasks_of in Ht. cbn [map concat] in Ht.
        now rewrite app_nil_r in Ht. }
      destruct s as [[] | e |].
      * destruct (IH schedule' (Builder.build_completed b)
                     (trace ++ [Builder.build_run b]))
          as (runs & Htrace & Htasks & Hres & Hrej & Hpend).
        exists (Builder.build_run b :: runs).
        split; [now rewrite Htrace, <- app_assoc |].
        assert (Hsplit : forall t,
                   In t (tasks_of (Builder.build_run b :: runs)) ->
                   In t (executing (Builder.build_run b))
                   \/ In t (tasks_of runs)).
        { intros t Ht. unfold tasks_of in Ht. cbn [map concat] in Ht.
          now apply in_app_or in Ht. }
        split; [| split; [| split]].
        -- intros t Ht. destruct (Hsplit t Ht) as [Hnow | Hlater];
             [now apply Hone |].
           destruct (Htasks t Hlater)
             as (Hscript & (l & ps & Hl & Hps & Hin) & Hok).
           split; [exact Hscript |]. split.
           ++ exists l, ps. split; [now right | now split].
           ++ eapply started_ok_mono; [| exact Hok]. lia.
        -- intro Hall. destruct (Hres Hall) as [Hlayers Hdone].
           destruct (Hresolved eq_refl) as [Hlayer Hdone0].
           split.
           ++ intros l ps pkg [<- | Hl] Hps Hpkg Hscript;
                [| now apply (Hlayers l ps pkg)].
              rewrite Hpkgs in Hps. injection Hps as <-. now apply Hlayer.
           ++ intros t Ht. destruct (Hsplit t Ht) as [Hnow | Hlater];
                [now apply Hdone0 | now apply Hdone].
        -- intros e He.
           destruct (Hrej e He)
             as [(-> & l & Hl & Hps)
                | [(-> & Htty & Hlt) | (l & ps & t & Hl & Hps & Ht & Hrest)]].
           ++ left. split; [reflexivity |].
              exists l. split; [now right | exact Hps].
           ++ right. left. split; [reflexivity |]. split; [exact Htty | lia].
           ++ right. right. exists l, ps, t. split; [now right |].
              split; [exact Hps |]. split; [| exact Hrest].
              unfold tasks_of. cbn [map concat]. apply in_or_app. now right.
        -- intro Hwait. destruct (Hpend Hwait) as [Hclean (t & Ht & Hopen)].
           destruct (Hresolved eq_refl) as [_ Hdone0]. split.
           ++ intros t' e Ht'. destruct (Hsplit t' Ht') as [Hnow | Hlater];
                [| now apply Hclean].
              destruct (Hdone0 t' Hnow) as [r ->]. discriminate.
           ++ exists t. split; [| exact Hopen].
              unfold tasks_of. cbn [map concat]. apply in_or_app. now right.
      * cbn [fst snd]. exists [Builder.build_run b]. split; [reflexivity |].
        split; [intros t Ht; now apply Hone, Hsingle |].
        split; [discriminate |]. split; [| discriminate].
        intros e' He'. injection He' as <-.
        destruct (Hrejected e eq_refl)
          as [(-> & Htty & Hlt) | (t & Ht & Hstate & Hpkg & Hscript & Hbuild)].
        -- right. left. split; [reflexivity |]. split; [exact Htty | lia].
        -- right. right. exists layer, pkgs, t.
           split; [now left |]. split; [exact Hpkgs |].
           split; [| now repeat split].
           unfold tasks_of. cbn [map concat]. now rewrite app_nil_r.
      * cbn [fst snd]. exists [Builder.build_run b]. split; [reflexivity |].
        split; [intros t Ht; now apply Hone, Hsingle |].
        split; [discriminate |]. split; [discriminate |].
        intros _. destruct (Hpending eq_refl) as [Hclean (t & Ht & Hopen)].
        split.
        -- intros t' e Ht'. now apply Hclean, Hsingle.
        -- exists t. split; [| exact Hopen].
           unfold tasks_of. cbn [map concat]. now rewrite app_nil_r.
Qed.

(** *** When the progress bar does not throw

    Without a terminal, or as long as the counter stays within [total],
    the callback settles as [buildPackage] does, and [buildAll] does what
    the definitions that follow the promises of [buildPackage] say. *)

Section Quiet.

Variable env : Environment.
Variable options : BuildOptions.
Variable tty : bool.
Variable total : nat.
Variable names : list string.

Lemma never_throws_mono (bound bound' : nat) :
  bound' <= bound ->
  never_throws tty total bound -> never_throws tty total bound'.
Proof. intros Hle [Hno | Hfits]; [now left | right; lia]. Qed.

Lemma callback_quiet (c : Completion BuildResult) (n : nat) :
  never_throws tty total (S n) ->
  exists n', Builder.callback tty total names c n = (c, n') /\ n' <= S n.
Proof.
  intro Hquiet. pose proof (callback_cases tty total names c n) as Hcases.
  destruct c as [r | e].
  - destruct Hcases as [[-> _] | (_ & Htty & Hlt)]; [eauto |].
    destruct Hquiet as [Hno | Hfits]; [congruence | lia].
  - rewrite Hcases. eauto.
Qed.

Lemma settle_quiet (pkg : PackageInfo) (c : Completion BuildResult) (n : nat) :
  never_throws tty total (S n) ->
  exists n',
    Builder.settle tty total names pkg c n = (mkTask pkg (Settled c), n')
    /\ n' <= S n.
Proof.
  intro Hquiet. unfold Builder.settle.
  destruct (callback_quiet c n Hquiet) as (n' & -> & Hle). eauto.
Qed.

Lemma pending_count_cons (t : Task) (tasks : list Task) :
  pending_count (t :: tasks) = pending_count [t] + pending_count tasks.
Proof.
  unfold pending_count. cbn [filter]. now destruct (negb (is_settled t)).
Qed.

Lemma pending_count_app (l1 l2 : list Task) :
  pending_count (l1 ++ l2) = pending_count l1 + pending_count l2.
Proof. unfold pending_count. now rewrite filter_app, length_app. Qed.

Lemma start_quiet (pkg : PackageInfo) (n : nat) :
  never_throws tty total (S n) ->
  exists n',
    Builder.start env options tty total names pkg n
    = (start env options pkg, n')
    /\ n' + pending_count [start env options pkg] <= S n.
Proof.
  intro Hquiet. unfold Builder.start, start.
  destruct (negb (has_build_script pkg)).
  - destruct (settle_quiet pkg (buildPackage env pkg options) n Hquiet)
      as (n' & -> & Hle).
    exists n'. split; [reflexivity |]. cbn. lia.
  - destruct (force options); exists n; (split; [reflexivity |]); cbn; lia.
Qed.

Lemma advance_quiet (t : Task) (n : nat) :
  never_throws tty total (n + pending_count [t]) ->
  exists n',
    Builder.advance env options tty total names t n
    = (advance env options t, n')
    /\ n' + pending_count [advance env options t] <= n + pending_count [t].
Proof.
  unfold Builder.advance, advance, pending_count. cbn [filter].
  unfold is_settled at 1 3.
  destruct (task_state t) as [| | c] eqn:Hstate; cbn [negb length].
  - rewrite Nat.add_1_r. intro Hquiet.
    destruct (needs env (path (task_pkg t))).
    + exists n. split; [reflexivity |]. cbn. lia.
    + destruct (settle_quiet (task_pkg t)
                  (buildPackage env (task_pkg t) options) n Hquiet)
        as (n' & -> & Hle).
      exists n'. split; [reflexivity |]. cbn. lia.
  - rewrite Nat.add_1_r. intro Hquiet.
    destruct (settle_quiet (task_pkg t)
                (buildPackage env (task_pkg t) options) n Hquiet)
      as (n' & -> & Hle).
    exists n'. split; [reflexivity |]. cbn. lia.
  - intros _. exists n. split; [reflexivity |].
    unfold is_settled. rewrite Hstate. cbn. lia.
Qed.

Lemma advance_nth_quiet (i : nat) (tasks : list Task) :
  forall n,
    never_throws tty total (n + pending_count tasks) ->
    exists n',
      Builder.advance_nth env options tty total names i tasks n
      = (advance_nth env options i tasks, n')
      /\ n' + pending_count (advance_nth env options i tasks)
         <= n + pending_count tasks.
Proof.
  revert i. induction tasks as [| t tasks IH]; intros i n Hquiet.
  - destruct i; exists n; (split; [reflexivity | cbn; lia]).
  - rewrite (pending_count_cons t tasks) in Hquiet |- *.
    destruct i as [| i]; cbn [Builder.advance_nth advance_nth].
    + destruct (advance_quiet t n) as (n' & -> & Hle).
      { eapply never_throws_mono; [| exact Hquiet]. lia. }
      exists n'. split; [reflexivity |].
      rewrite (pending_count_cons (advance env options t) tasks). lia.
    + destruct (IH i n) as (n' & -> & Hle).
      { eapply never_throws_mono; [| exact Hquiet]. lia. }
      exists n'. split; [reflexivity |].
      rewrite (pending_count_cons t (advance_nth env options i tasks)). lia.
Qed.

Lemma deliver_quiet (i : nat) (b : Builder.Build) :
  never_throws tty total
    (Builder.build_completed b
     + pending_count (executing (Builder.build_run b))) ->
  Builder.build_run (Builder.deliver env options tty total names i b)
  = deliver env options i (Builder.build_run b)
  /\ Builder.build_completed (Builder.deliver env options tty total names i b)
     + pending_count (executing (deliver env options i (Builder.build_run b)))
     <= Builder.build_completed b
        + pending_count (executing (Builder.build_run b)).
Proof.
  intro Hquiet. unfold Builder.deliver.
  destruct (advance_nth_quiet i _ _ Hquiet) as (n' & -> & Hle).
  cbn [Builder.build_run Builder.build_completed deliver executing].
  split; [reflexivity | exact Hle].
Qed.

Lemma launch_quiet (item : PackageInfo) (b : Builder.Build) :
  never_throws tty total
    (Builder.build_completed b
     + pending_count (executing (Builder.build_run b)) + 1) ->
  Builder.build_run (Builder.launch env options tty total names item b)
  = launch env options item (Builder.build_run b)
  /\ Builder.build_completed (Builder.launch env options tty total names item b)
     + pending_count (executing (launch env options item (Builder.build_run b)))
     <= Builder.build_completed b
        + pending_count (executing (Builder.build_run b)) + 1.
Proof.
  intro Hquiet. unfold Builder.launch.
  destruct (start_quiet item (Builder.build_completed b)) as (n' & -> & Hle).
  { eapply never_throws_mono; [| exact Hquiet]. lia. }
  cbn [Builder.build_run Builder.build_completed launch executing].
  split; [reflexivity |]. rewrite pending_count_app. lia.
Qed.

Lemma await_race_quiet (schedule : list nat) :
  forall b,
    never_throws tty total
      (Builder.build_completed b
       + pending_count (executing (Builder.build_run b))) ->
    fst (Builder.await_race env options tty total names schedule b)
    = fst (await_race env options schedule (Builder.build_run b))
    /\ Builder.build_run
         (snd (Builder.await_race env options tty total names schedule b))
       = snd (await_race env options schedule (Builder.build_run b))
    /\ Builder.build_completed
         (snd (Builder.await_race env options tty total names schedule b))
       + pending_count
           (executing
              (snd (await_race env options schedule (Builder.build_run b))))
       <= Builder.build_completed b
          + pending_count (executing (Builder.build_run b)).
Proof.
  induction schedule as [| i schedule IH]; intros b Hquiet;
    cbn [Builder.await_race await_race];
    destruct (first_settled (executing (Builder.build_run b)))
      as [[r | e] |]; cbn [fst snd]; try (repeat split; lia).
  destruct (deliver_quiet i b Hquiet) as [Hrun Hle].
  destruct (IH (Builder.deliver env options tty total names i b))
    as (Hout & Hrun' & Hle').
  { rewrite Hrun. eapply never_throws_mono; [exact Hle | exact Hquiet]. }
  rewrite Hrun in Hout, Hrun', Hle'.
  split; [exact Hout |]. split; [exact Hrun' | lia].
Qed.

Lemma await_all_quiet (schedule : list nat) :
  forall b,
    never_throws tty total
      (Builder.build_completed b
       + pending_count (executing (Builder.build_run b))) ->
    fst (Builder.await_all env options tty total names schedule b)
    = fst (await_all env options schedule (Builder.build_run b))
    /\ Builder.build_run
         (snd (Builder.await_all env options tty total names schedule b))
       = snd (await_all env options schedule (Builder.build_run b))
    /\ Builder.build_completed
         (snd (Builder.await_all env options tty total names schedule b))
       + pending_count
           (executing
              (snd (await_all env options schedule (Builder.build_run b))))
       <= Builder.build_completed b
          + pending_count (executing (Builder.build_run b)).
Proof.
  induction schedule as [| i schedule IH]; intros b Hquiet;
    cbn [Builder.await_all await_all];
    destruct (first_rejected (executing (Builder.build_run b))) as [e |];
    cbn [fst snd]; try (repeat split; lia);
    destruct (forallb is_settled (executing (Builder.build_run b)));
    cbn [fst snd]; try (repeat split; lia).
  destruct (deliver_quiet i b Hquiet) as [Hrun Hle].
  destruct (IH (Builder.deliver env options tty total names i b))
    as (Hout & Hrun' & Hle').
  { rewrite Hrun. eapply never_throws_mono; [exact Hle | exact Hquiet]. }
  rewrite Hrun in Hout, Hrun', Hle'.
  split; [exact Hout |]. split; [exact Hrun' | lia].
Qed.

Lemma run_items_quiet (limit : number) (items : list PackageInfo) :
  forall schedule b,
    never_throws tty total
      (Builder.build_completed b
       + pending_count (executing (Builder.build_run b)) + length items) ->
    fst (Builder.run_items env options tty total names limit items schedule b)
    = fst (run_items env options limit items schedule (Builder.build_run b))
    /\ Builder.build_run
         (snd (Builder.run_items env options tty total names limit items
                                 schedule b))
       = snd (run_items env options limit items schedule (Builder.build_run b))
    /\ Builder.build_completed
         (snd (Builder.run_items env options tty total names limit items
                                 schedule b))
       <= Builder.build_completed b
          + pending_count (executing (Builder.build_run b)) + length items.
Proof.
  induction items as [| item rest IH]; intros schedule b Hquiet;
    cbn [Builder.run_items run_items].
  - destruct (await_all_quiet schedule b) as (Hout & Hrun & Hle).
    { eapply never_throws_mono; [| exact Hquiet]. lia. }
    split; [exact Hout |]. split; [exact Hrun | lia].
  - cbn [length] in Hquiet |- *.
    destruct (launch_quiet item b) as [Hrun1 Hle1].
    { eapply never_throws_mono; [| exact Hquiet]. lia. }
    remember (Builder.launch env options tty total names item b) as b1
      eqn:Hb1.
    remember (launch env options item (Builder.build_run b)) as run1 eqn:Hr1.
    clear Hb1 Hr1. rewrite Hrun1.
    destruct (at_limit (length (executing run1)) limit).
    + destruct (await_race_quiet schedule b1) as (Hout & Hrun2 & Hle2).
      { rewrite Hrun1. eapply never_throws_mono; [| exact Hquiet]. lia. }
      rewrite Hrun1 in Hout, Hrun2, Hle2.
      destruct (Builder.await_race env options tty total names schedule b1)
        as [[s schedule'] b2].
      destruct (await_race env options schedule run1)
        as [[s0 schedule0] run2].
      cbn [fst snd] in Hout, Hrun2, Hle2. injection Hout as -> ->.
      destruct s0 as [[] | e |]; cbn [fst snd];
        try (split; [reflexivity |]; split; [exact Hrun2 | lia]).
      set (b3 := Builder.mkBuild
                   (mkRun (fst (filter_executing
                                  (executing (Builder.build_run b2))
                                  (mkReactions [] [])))
                          (results (Builder.build_run b2))
                          (peak (Builder.build_run b2)))
                   (Builder.build_completed b2)).
      assert (Hrun3 : Builder.build_run b3
                      = mkRun (fst (filter_executing (executing run2)
                                                     (mkReactions [] [])))
                              (results run2) (peak run2))
        by (unfold b3; cbn [Builder.build_run]; now rewrite Hrun2).
      assert (Hdone3 : Builder.build_completed b3 = Builder.build_completed b2)
        by reflexivity.
      clearbody b3.
      destruct (IH schedule0 b3) as (Hout3 & Hrun' & Hle3).
      { rewrite Hrun3, Hdone3. cbn [executing].
        rewrite filter_executing_all.
        eapply never_throws_mono; [| exact Hquiet]. lia. }
      rewrite Hrun3, Hdone3 in Hle3. rewrite Hrun3 in Hout3, Hrun'.
      split; [exact Hout3 |]. split; [exact Hrun' |].
      cbn [executing] in Hle3. rewrite filter_executing_all in Hle3. lia.
    + destruct (IH schedule b1) as (Hout & Hrun' & Hle').
      { rewrite Hrun1. eapply never_throws_mono; [| exact Hquiet]. lia. }
      rewrite Hrun1 in Hout, Hrun', Hle'.
      split; [exact Hout |]. split; [exact Hrun' | lia].
Qed.

End Quiet.

Lemma announce_quiet (tty : bool) (completed total : nat)
  (names : list string) :
  never_throws tty total completed ->
  Builder.announce tty completed total names = Return tt.
Proof.
  unfold Builder.announce, Builder.progressBar. intros [-> | Hfits];
    [reflexivity |].
  destruct tty; [| reflexivity].
  apply Nat.ltb_ge in Hfits. now rewrite Hfits.
Qed.

Lemma build_layers_quiet (env : Environment) (options : BuildOptions)
  (cpus : nat) (tty : bool) (total : nat) (packages : JsMap.t PackageInfo)
  (layers : list (list string)) :
  forall schedule completed trace,
    never_throws tty total
                 (completed + length (named_buildable packages layers)) ->
    Builder.build_layers env options cpus tty total packages layers schedule
                         completed trace
    = build_layers env options cpus packages layers schedule trace.
Proof.
  induction layers as [| layer rest IH]; intros schedule completed trace Hquiet;
    cbn [Builder.build_layers build_layers]; [reflexivity |].
  rewrite named_buildable_cons, length_app in Hquiet.
  destruct (layer_packages packages layer) as [pkgs |] eqn:Hpkgs;
    [| reflexivity].
  rewrite <- (layer_packages_buildable packages layer pkgs Hpkgs) in Hquiet.
  destruct (Nat.eqb (length (filter has_build_script pkgs)) 0).
  - apply IH. eapply never_throws_mono; [| exact Hquiet]. lia.
  - rewrite announce_quiet
      by (eapply never_throws_mono; [| exact Hquiet]; lia).
    unfold Builder.runWithConcurrency, runWithConcurrency.
    destruct (run_items_quiet env options tty total
                (map name (filter has_build_script pkgs))
                (concurrency options cpus) (filter has_build_script pkgs)
                schedule (Builder.mkBuild (mkRun [] [] 0) completed))
      as (Hout & Hrun & Hle).
    { cbn [Builder.build_completed Builder.build_run executing pending_count
           filter length].
      eapply never_throws_mono; [| exact Hquiet]. cbn. lia. }
    cbn [Builder.build_completed Builder.build_run executing] in Hout, Hrun, Hle.
    destruct (Builder.run_items env options tty total
                (map name (filter has_build_script pkgs))
                (concurrency options cpus) (filter has_build_script pkgs)
                schedule (Builder.mkBuild (mkRun [] [] 0) completed))
      as [[s schedule'] b].
    destruct (run_items env options (concurrency options cpus)
                        (filter has_build_script pkgs) schedule (mkRun [] [] 0))
      as [[s0 schedule0] run].
    cbn [fst snd] in Hout, Hrun, Hle. injection Hout as -> ->. subst run.
    destruct s0 as [[] | e |]; try reflexivity.
    apply IH. eapply never_throws_mono; [| exact Hquiet].
    cbn [pending_count filter length] in Hle. lia.
Qed.

(** Without a terminal, and with layers that name no package twice,
    [buildAll] does what the definitions that follow the promises of
    [buildPackage] say. *)
Lemma buildAll_quiet (tty : bool) (env : Environment) (options : BuildOptions)
  (cpus : nat) (layers : list (list string)) (packages : JsMap.t PackageInfo)
  (schedule : list nat) :
  tty = false \/ NoDup (concat layers) ->
  Builder.buildAll tty env options cpus layers packages schedule
  = buildAll env options cpus layers packages schedule
  /\ Builder.buildAll_tasks tty env options cpus layers packages schedule
     = buildAll_tasks env options cpus layers packages schedule.
Proof.
  intro Hquiet.
  unfold Builder.buildAll, Builder.buildAll_tasks, buildAll, buildAll_tasks.
  rewrite build_layers_quiet; [split; reflexivity |].
  destruct Hquiet as [Hno | Hnodup]; [now left | right].
  cbn [plus]. now apply named_buildable_total.
Qed.

(** What [buildAll] settles with, and what the tasks it started hold. *)
Lemma buildAll_outcomes (tty : bool) (env : Environment)
  (options : BuildOptions) (cpus : nat) (layers : list (list string))
  (packages : JsMap.t PackageInfo) (schedule : list nat) :
  (forall t,
      In t (Builder.buildAll_tasks tty env options cpus layers packages
                                   schedule) ->
      has_build_script (task_pkg t) = true
      /\ started_ok env options tty (Builder.total_buildable packages)
           (length (named_buildable packages layers)) t)
  /\ (Builder.buildAll tty env options cpus layers packages schedule
      = Resolved tt ->
      (forall layer pkgs pkg,
          In layer layers -> layer_packages packages layer = Some pkgs ->
          In pkg pkgs -> has_build_script pkg = true ->
          exists r, buildPackage env pkg options = Return r)
      /\ forall t,
          In t (Builder.buildAll_tasks tty env options cpus layers packages
                                       schedule) ->
          exists r, task_state t = Settled (Return r))
  /\ (forall e,
         Builder.buildAll tty env options cpus layers packages schedule
         = Rejected e ->
         (e = TypeError
          /\ exists layer,
              In layer layers /\ layer_packages packages layer = None)
         \/ (e = RangeError /\ tty = true
             /\ Builder.total_buildable packages
                < length (named_buildable packages layers))
         \/ (exists layer pkgs t,
                In layer layers /\ layer_packages packages layer = Some pkgs
                /\ In t (Builder.buildAll_tasks tty env options cpus layers
                                                packages schedule)
                /\ task_state t = Settled (Throw e)
                /\ In (task_pkg t) pkgs
                /\ has_build_script (task_pkg t) = true
                /\ buildPackage env (task_pkg t) options = Throw e))
  /\ (Builder.buildAll tty env options cpus layers packages schedule
      = Pending ->
      (forall t e,
          In t (Builder.buildAll_tasks tty env options cpus layers packages
                                       schedule) ->
          task_state t <> Settled (Throw e))
      /\ exists t,
          In t (Builder.buildAll_tasks tty env options cpus layers packages
                                       schedule)
          /\ is_settled t = false).
Proof.
  unfold Builder.buildAll, Builder.buildAll_tasks.
  destruct (callback_build_layers_inv env options cpus tty
              (Builder.total_buildable packages) packages layers schedule 0 [])
    as (runs & Htrace & Htasks & Hres & Hrej & Hpend).
  rewrite Htrace. cbn [app plus] in *. fold (tasks_of runs).
  split; [| split; [exact Hres | split; [exact Hrej | exact Hpend]]].
  intros t Ht. destruct (Htasks t Ht) as (Hscript & _ & Hok). now split.
Qed.

(** ** core/builder.ts: buildAll settles once the operations complete *)

Section Liveness.

Variable env : Environment.
Variable options : BuildOptions.
Variable tty : bool.
Variable total : nat.
Variable names : list string.

Lemma settle_settled (pkg : PackageInfo) (c : Completion BuildResult)
  (n : nat) :
  steps_left (fst (Builder.settle tty total names pkg c n)) = 0.
Proof.
  unfold Builder.settle.
  now destruct (Builder.callback tty total names c n) as [c' n'].
Qed.

Lemma callback_advance_steps (t : Task) (n : nat) :
  is_settled t = false ->
  steps_left (fst (Builder.advance env options tty total names t n))
  < steps_left t.
Proof.
  unfold Builder.advance, is_settled, steps_left at 2.
  destruct (task_state t); [| | discriminate]; intros _.
  - destruct (needs env (path (task_pkg t))); [cbn; lia |].
    rewrite settle_settled. lia.
  - rewrite settle_settled. lia.
Qed.

Lemma callback_advance_nth_length (i : nat) (tasks : list Task) :
  forall n,
    length (fst (Builder.advance_nth env options tty total names i tasks n))
    = length tasks.
Proof.
  revert i. induction tasks as [| t tasks IH]; intros i n; [now destruct i |].
  destruct i as [| i]; cbn [Builder.advance_nth].
  - now destruct (Builder.advance env options tty total names t n).
  - specialize (IH i n).
    destruct (Builder.advance_nth env options tty total names i tasks n).
    cbn [fst length] in *. now rewrite IH.
Qed.

Lemma work_left_cons (t : Task) (tasks : list Task) :
  work_left (t :: tasks) = steps_left t + work_left tasks.
Proof. reflexivity. Qed.

Lemma callback_advance_nth_work (tasks : list Task) :
  forall i n,
    first_pending tasks = Some i ->
    work_left (fst (Builder.advance_nth env options tty total names i tasks n))
    < work_left tasks.
Proof.
  induction tasks as [| t tasks IH]; intros i n Hfirst;
    cbn [first_pending] in Hfirst; [discriminate |].
  destruct (is_settled t) eqn:Hsettled.
  - destruct (first_pending tasks) as [j |] eqn:Hj; [| discriminate].
    injection Hfirst as <-. cbn [Builder.advance_nth].
    specialize (IH j n eq_refl).
    destruct (Builder.advance_nth env options tty total names j tasks n).
    cbn [fst] in *. rewrite !work_left_cons. lia.
  - injection Hfirst as <-. cbn [Builder.advance_nth].
    pose proof (callback_advance_steps t n Hsettled) as Hless.
    destruct (Builder.advance env options tty total names t n).
    cbn [fst] in *. rewrite !work_left_cons. lia.
Qed.

Lemma first_pending_some (tasks : list Task) :
  forallb is_settled tasks = false ->
  exists i, first_pending tasks = Some i.
Proof.
  induction tasks as [| t tasks IH]; cbn [forallb first_pending];
    [discriminate |].
  destruct (is_settled t); [| eauto].
  intro H. destruct (IH H) as [i ->]. cbn. eauto.
Qed.

Lemma first_settled_none_pending (tasks : list Task) :
  first_settled tasks = None -> tasks <> [] ->
  forallb is_settled tasks = false.
Proof.
  destruct tasks as [| t tasks]; [intros _ H; now contradiction H |].
  cbn [first_settled forallb]. unfold is_settled.
  destruct (task_state t); [reflexivity | reflexivity | discriminate].
Qed.

Lemma deliver_length (i : nat) (b : Builder.Build) :
  length (executing (Builder.build_run
                       (Builder.deliver env options tty total names i b)))
  = length (executing (Builder.build_run b)).
Proof.
  unfold Builder.deliver.
  pose proof (callback_advance_nth_length i (executing (Builder.build_run b))
                (Builder.build_completed b)) as Hlen.
  destruct (Builder.advance_nth env options tty total names i
              (executing (Builder.build_run b)) (Builder.build_completed b)).
  exact Hlen.
Qed.

Lemma deliver_work (i : nat) (b : Builder.Build) :
  first_pending (executing (Builder.build_run b)) = Some i ->
  work_left (executing (Builder.build_run
                          (Builder.deliver env options tty total names i b)))
  < work_left (executing (Builder.build_run b)).
Proof.
  intro Hfirst. unfold Builder.deliver.
  pose proof (callback_advance_nth_work (executing (Builder.build_run b)) i
                (Builder.build_completed b) Hfirst) as Hless.
  destruct (Builder.advance_nth env options tty total names i
              (executing (Builder.build_run b)) (Builder.build_completed b)).
  exact Hless.
Qed.

(** *** A longer schedule *)

Lemma callback_await_race_decided (schedule : list nat) (b : Builder.Build)
  (c : Completion BuildResult) :
  first_settled (executing (Builder.build_run b)) = Some c ->
  Builder.await_race env options tty total names schedule b
  = (match c with
     | Return _ => Resolved tt
     | Throw e => Rejected e
     end, schedule, b).
Proof.
  intro Hfirst. destruct schedule; cbn [Builder.await_race]; rewrite Hfirst;
    now destruct c.
Qed.

Lemma callback_await_race_more (s1 s2 : list nat) :
  forall b,
    (fst (fst (Builder.await_race env options tty total names s1 b)) = Pending ->
     Builder.await_race env options tty total names (s1 ++ s2) b
     = Builder.await_race env options tty total names s2
         (snd (Builder.await_race env options tty total names s1 b)))
    /\ (fst (fst (Builder.await_race env options tty total names s1 b))
        <> Pending ->
        Builder.await_race env options tty total names (s1 ++ s2) b
        = (fst (fst (Builder.await_race env options tty total names s1 b)),
           snd (fst (Builder.await_race env options tty total names s1 b))
           ++ s2,
           snd (Builder.await_race env options tty total names s1 b))).
Proof.
  induction s1 as [| i s1 IH]; intro b.
  - cbn [Builder.await_race app].
    destruct (first_settled (executing (Builder.build_run b)))
      as [c |] eqn:Hfirst.
    + rewrite (callback_await_race_decided s2 b c Hfirst).
      destruct c; cbn [fst snd]; split; intro H; try discriminate; reflexivity.
    + cbn [fst snd]. split; [reflexivity | intro H; now contradiction H].
  - cbn [Builder.await_race app].
    destruct (first_settled (executing (Builder.build_run b)))
      as [[r | e] |] eqn:Hfirst.
    + cbn [fst snd]. split; [discriminate | reflexivity].
    + cbn [fst snd]. split; [discriminate | reflexivity].
    + apply IH.
Qed.

Lemma callback_await_all_decided (schedule : list nat) (b : Builder.Build) :
  first_rejected (executing (Builder.build_run b)) <> None
  \/ forallb is_settled (executing (Builder.build_run b)) = true ->
  Builder.await_all env options tty total names schedule b
  = (match first_rejected (executing (Builder.build_run b)) with
     | Some e => Rejected e
     | None => Resolved tt
     end, schedule, b).
Proof.
  intro Hdone. destruct schedule; cbn [Builder.await_all];
    destruct (first_rejected (executing (Builder.build_run b))) as [e |];
    try reflexivity;
    destruct Hdone as [Hrej | Hall]; try (now contradiction Hrej);
    now rewrite Hall.
Qed.

Lemma callback_await_all_more (s1 s2 : list nat) :
  forall b,
    (fst (fst (Builder.await_all env options tty total names s1 b)) = Pending ->
     Builder.await_all env options tty total names (s1 ++ s2) b
     = Builder.await_all env options tty total names s2
         (snd (Builder.await_all env options tty total names s1 b)))
    /\ (fst (fst (Builder.await_all env options tty total names s1 b))
        <> Pending ->
        Builder.await_all env options tty total names (s1 ++ s2) b
        = (fst (fst (Builder.await_all env options tty total names s1 b)),
           snd (fst (Builder.await_all env options tty total names s1 b))
           ++ s2,
           snd (Builder.await_all env options tty total names s1 b))).
Proof.
  induction s1 as [| i s1 IH]; intro b.
  - cbn [Builder.await_all app].
    destruct (first_rejected (executing (Builder.build_run b)))
      as [e |] eqn:Hrej.
    + rewrite (callback_await_all_decided s2 b)
        by (left; rewrite Hrej; discriminate).
      rewrite Hrej. cbn [fst snd]. split; [discriminate | reflexivity].
    + destruct (forallb is_settled (executing (Builder.build_run b)))
        eqn:Hall.
      * rewrite (callback_await_all_decided s2 b) by now right.
        rewrite Hrej. cbn [fst snd]. split; [discriminate | reflexivity].
      * cbn [fst snd]. split; [reflexivity | intro H; now contradiction H].
  - cbn [Builder.await_all app].
    destruct (first_rejected (executing (Builder.build_run b)))
      as [e |] eqn:Hrej.
    + cbn [fst snd]. split; [discriminate | reflexivity].
    + destruct (forallb is_settled (executing (Builder.build_run b)))
        eqn:Hall.
      * cbn [fst snd]. split; [discriminate | reflexivity].
      * apply IH.
Qed.

Lemma callback_await_race_length (schedule : list nat) :
  forall b,
    length (executing
              (Builder.build_run
                 (snd (Builder.await_race env options tty total names
                                          schedule b))))
    = length (executing (Builder.build_run b)).
Proof.
  induction schedule as [| i schedule IH]; intro b; cbn [Builder.await_race];
    destruct (first_settled (executing (Builder.build_run b))) as [[r | e] |];
    try reflexivity.
  now rewrite IH, deliver_length.
Qed.

(** *** From any state, some completions settle the awaited promise *)

Lemma await_race_from (n : nat) :
  forall b,
    work_left (executing (Builder.build_run b)) <= n ->
    executing (Builder.build_run b) <> [] ->
    exists more s b',
      s <> Pending
      /\ forall s2,
          Builder.await_race env options tty total names (more ++ s2) b
          = (s, s2, b').
Proof.
  induction n as [| n IH]; intros b Hwork Hsome;
    destruct (first_settled (executing (Builder.build_run b)))
      as [c |] eqn:Hfirst;
    try (exists [], (match c with
                     | Return _ => Resolved tt
                     | Throw e => Rejected e
                     end), b;
         split; [now destruct c |];
         intro s2; now apply callback_await_race_decided).
  - pose proof (first_settled_none_pending _ Hfirst Hsome) as Hopen.
    destruct (first_pending_some _ Hopen) as [i Hi].
    pose proof (deliver_work i b Hi). lia.
  - pose proof (first_settled_none_pending _ Hfirst Hsome) as Hopen.
    destruct (first_pending_some _ Hopen) as [i Hi].
    pose proof (deliver_work i b Hi) as Hless.
    destruct (IH (Builder.deliver env options tty total names i b))
      as (more & s & b' & Hs & Hrun).
    { lia. }
    { intro Hnil. apply Hsome. apply length_zero_iff_nil.
      rewrite <- (deliver_length i b), Hnil. reflexivity. }
    exists (i :: more), s, b'. split; [exact Hs |].
    intro s2. cbn [app Builder.await_race]. rewrite Hfirst. apply Hrun.
Qed.

Lemma await_all_from (n : nat) :
  forall b,
    work_left (executing (Builder.build_run b)) <= n ->
    exists more s b',
      s <> Pending
      /\ forall s2,
          Builder.await_all env options tty total names (more ++ s2) b
          = (s, s2, b').
Proof.
  assert (Hdecided : forall b,
             first_rejected (executing (Builder.build_run b)) <> None
             \/ forallb is_settled (executing (Builder.build_run b)) = true ->
             exists more s b',
               s <> Pending
               /\ forall s2,
                   Builder.await_all env options tty total names (more ++ s2) b
                   = (s, s2, b')).
  { intros b Hdone.
    exists [], (match first_rejected (executing (Builder.build_run b)) with
                | Some e => Rejected e
                | None => Resolved tt
                end), b.
    split; [now destruct (first_rejected (executing (Builder.build_run b))) |].
    intro s2. cbn [app]. now apply callback_await_all_decided. }
  induction n as [| n IH]; intros b Hwork;
    destruct (first_rejected (executing (Builder.build_run b)))
      as [e |] eqn:Hrej;
    try (apply Hdecided; left; rewrite Hrej; discriminate);
    destruct (forallb is_settled (executing (Builder.build_run b))) eqn:Hall;
    try (apply Hdecided; now right).
  - destruct (first_pending_some _ Hall) as [i Hi].
    pose proof (deliver_work i b Hi). lia.
  - destruct (first_pending_some _ Hall) as [i Hi].
    pose proof (deliver_work i b Hi) as Hless.
    destruct (IH (Builder.deliver env options tty total names i b))
      as (more & s & b' & Hs & Hrun); [lia |].
    exists (i :: more), s, b'. split; [exact Hs |].
    intro s2. cbn [app Builder.await_all]. rewrite Hrej, Hall. apply Hrun.
Qed.

(** Every schedule can be made longer so that the awaited promise is
    settled; what is left of the schedule then does not matter. *)
Lemma await_race_settles (schedule : list nat) (b : Builder.Build) :
  executing (Builder.build_run b) <> [] ->
  exists more s left b',
    s <> Pending
    /\ forall s2,
        Builder.await_race env options tty total names
                           (schedule ++ more ++ s2) b
        = (s, left ++ s2, b').
Proof.
  intro Hsome.
  destruct (callback_await_race_more schedule [] b) as [_ Hsame].
  destruct (fst (fst (Builder.await_race env options tty total names
                                         schedule b))) as [[] | e |] eqn:Hout.
  - exists [], (Resolved tt),
      (snd (fst (Builder.await_race env options tty total names schedule b))),
      (snd (Builder.await_race env options tty total names schedule b)).
    split; [discriminate |]. intro s2. cbn [app].
    destruct (callback_await_race_more schedule s2 b) as [_ Hdecided].
    rewrite Hdecided by (rewrite Hout; discriminate). now rewrite Hout.
  - exists [], (Rejected e),
      (snd (fst (Builder.await_race env options tty total names schedule b))),
      (snd (Builder.await_race env options tty total names schedule b)).
    split; [discriminate |]. intro s2. cbn [app].
    destruct (callback_await_race_more schedule s2 b) as [_ Hdecided].
    rewrite Hdecided by (rewrite Hout; discriminate). now rewrite Hout.
  - destruct (await_race_from
                (work_left
                   (executing
                      (Builder.build_run
                         (snd (Builder.await_race env options tty total names
                                                  schedule b)))))
                (snd (Builder.await_race env options tty total names
                                         schedule b)))
      as (more & s & b' & Hs & Hrun); [lia | |].
    { intro Hnil. apply Hsome. apply length_zero_iff_nil.
      rewrite <- (callback_await_race_length schedule b), Hnil. reflexivity. }
    exists more, s, [], b'. split; [exact Hs |]. intro s2.
    destruct (callback_await_race_more schedule (more ++ s2) b)
      as [Hpending _].
    rewrite (Hpending Hout). apply Hrun.
Qed.

Lemma await_all_settles (schedule : list nat) (b : Builder.Build) :
  exists more s left b',
    s <> Pending
    /\ forall s2,
        Builder.await_all env options tty total names
                          (schedule ++ more ++ s2) b
        = (s, left ++ s2, b').
Proof.
  destruct (fst (fst (Builder.await_all env options tty total names
                                        schedule b))) as [[] | e |] eqn:Hout.
  - exists [], (Resolved tt),
      (snd (fst (Builder.await_all env options tty total names schedule b))),
      (snd (Builder.await_all env options tty total names schedule b)).
    split; [discriminate |]. intro s2. cbn [app].
    destruct (callback_await_all_more schedule s2 b) as [_ Hdecided].
    rewrite Hdecided by (rewrite Hout; discriminate). now rewrite Hout.
  - exists [], (Rejected e),
      (snd (fst (Builder.await_all env options tty total names schedule b))),
      (snd (Builder.await_all env options tty total names schedule b)).
    split; [discriminate |]. intro s2. cbn [app].
    destruct (callback_await_all_more schedule s2 b) as [_ Hdecided].
    rewrite Hdecided by (rewrite Hout; discriminate). now rewrite Hout.
  - destruct (await_all_from
                (work_left
                   (executing
                      (Builder.build_run
                         (snd (Builder.await_all env options tty total names
                                                 schedule b)))))
                (snd (Builder.await_all env options tty total names
                                        schedule b)))
      as (more & s & b' & Hs & Hrun); [lia |].
    exists more, s, [], b'. split; [exact Hs |]. intro s2.
    destruct (callback_await_all_more schedule (more ++ s2) b)
      as [Hpending _].
    rewrite (Hpending Hout). apply Hrun.
Qed.

Lemma launch_some (item : PackageInfo) (b : Builder.Build) :
  executing (Builder.build_run
               (Builder.launch env options tty total names item b)) <> [].
Proof.
  unfold Builder.launch.
  destruct (Builder.start env options tty total names item
                          (Builder.build_completed b)) as [task n].
  cbn [Builder.build_run executing]. intro H.
  now apply app_eq_nil in H as [_ H].
Qed.

Lemma run_items_settles (limit : number) (items : list PackageInfo) :
  forall schedule b,
    exists more s left b',
      s <> Pending
      /\ forall s2,
          Builder.run_items env options tty total names limit items
                            (schedule ++ more ++ s2) b
          = (s, left ++ s2, b').
Proof.
  induction items as [| item rest IH]; intros schedule b;
    cbn [Builder.run_items].
  - apply await_all_settles.
  - set (b1 := Builder.launch env options tty total names item b).
    destruct (at_limit (length (executing (Builder.build_run b1))) limit);
      [| apply IH].
    destruct (await_race_settles schedule b1 (launch_some item b))
      as (more & s & left & b2 & Hs & Hrace).
    destruct s as [[] | e |]; [| | now contradiction Hs].
    + destruct (IH left
                   (Builder.mkBuild
                      (mkRun (fst (filter_executing
                                     (executing (Builder.build_run b2))
                                     (mkReactions [] [])))
                             (results (Builder.build_run b2))
                             (peak (Builder.build_run b2)))
                      (Builder.build_completed b2)))
        as (more' & s' & left' & b' & Hs' & Hrest).
      exists (more ++ more'), s', left', b'. split; [exact Hs' |].
      intro s2. rewrite <- app_assoc, (Hrace (more' ++ s2)). apply Hrest.
    + exists more, (Rejected e), left, b2. split; [discriminate |].
      intro s2. now rewrite (Hrace s2).
Qed.

End Liveness.

(** Every schedule can be made longer so that [buildAll] has settled. *)
Lemma build_layers_settles (env : Environment) (options : BuildOptions)
  (cpus : nat) (tty : bool) (total : nat) (packages : JsMap.t PackageInfo)
  (layers : list (list string)) :
  forall schedule completed trace,
    exists more,
      fst (Builder.build_layers env options cpus tty total packages layers
                                (schedule ++ more) completed trace)
      <> Pending.
Proof.
  induction layers as [| layer rest IH]; intros schedule completed trace;
    cbn [Builder.build_layers].
  - exists []. discriminate.
  - destruct (layer_packages packages layer) as [pkgs |];
      [| exists []; discriminate].
    destruct (Nat.eqb (length (filter has_build_script pkgs)) 0);
      [apply IH |].
    destruct (Builder.announce tty completed total
                (map name (filter has_build_script pkgs)));
      [| exists []; discriminate].
    unfold Builder.runWithConcurrency.
    destruct (run_items_settles env options tty total
                (map name (filter has_build_script pkgs))
                (concurrency options cpus) (filter has_build_script pkgs)
                schedule (Builder.mkBuild (mkRun [] [] 0) completed))
      as (more & s & left & b & Hs & Hrun).
    destruct s as [[] | e |]; [| | now contradiction Hs].
    + destruct (IH left (Builder.build_completed b)
                   (trace ++ [Builder.build_run b])) as [more' Hrest].
      exists (more ++ more'). now rewrite (Hrun more').
    + exists more. rewrite <- (app_nil_r more), (Hrun []). discriminate.
Qed.
(** ** core/builder.ts: what buildAll settles with *)

Lemma named_buildable_repeats (packages : JsMap.t PackageInfo)
  (layers : list (list string)) :
  Builder.total_buildable packages < length (named_buildable packages layers) ->
  ~ NoDup (concat layers).
Proof.
  intros Hlt Hnodup.
  pose proof (named_buildable_total packages layers Hnodup). lia.
Qed.

(** C5, amended.  [buildPackage] settles in one of four ways: it returns
    one result whose status is [skipped] (no build step), [unchanged] or
    [built], or it throws "Build failed for <name>" when the build command
    fails; there is no outcome value for a failure.  When a build
    invocation fails, the run ends in failure: as soon as the promise of
    a package that [buildAll] started is rejected, [buildAll] is rejected;
    it is pending only while an operation that it started has not
    completed, and whatever has completed so far, it settles once enough
    further operations complete; it resolves, with no value, only if
    every buildable package of every layer was fulfilled, so that with a
    package whose build fails among the layers it ends up rejected.  When
    it rejects it rejects with one error: that of one failed package, the
    [TypeError] of a layer that names an unknown package, or, on a
    terminal and only with layers that name some package more than once,
    the [RangeError] of the progress bar.  Without a terminal, and with
    layers that name no package twice, the progress bar plays no part. *)
Theorem buildAll_fails_with_one_error :
  (forall env pkg options,
      (has_build_script pkg = false
       /\ buildPackage env pkg options = Return (mkResult (name pkg) skipped))
      \/ (has_build_script pkg = true
          /\ force options = false /\ needs env (path pkg) = false
          /\ buildPackage env pkg options
             = Return (mkResult (name pkg) unchanged))
      \/ (has_build_script pkg = true
          /\ (force options = true \/ needs env (path pkg) = true)
          /\ succeeds env (path pkg) = true
          /\ buildPackage env pkg options = Return (mkResult (name pkg) built))
      \/ (has_build_script pkg = true
          /\ (force options = true \/ needs env (path pkg) = true)
          /\ succeeds env (path pkg) = false
          /\ buildPackage env pkg options = Throw (BuildFailed (name pkg))))
  /\ (forall tty env options cpus layers packages schedule,
         (Builder.buildAll tty env options cpus layers packages schedule
          = Resolved tt ->
          forall layer pkgs pkg,
            In layer layers -> layer_packages packages layer = Some pkgs ->
            In pkg pkgs -> has_build_script pkg = true ->
            exists r, buildPackage env pkg options = Return r)
         /\ (forall e,
                Builder.buildAll tty env options cpus layers packages schedule
                = Rejected e ->
                (e = TypeError
                 /\ exists layer,
                     In layer layers /\ layer_packages packages layer = None)
                \/ (e = RangeError /\ tty = true /\ ~ NoDup (concat layers))
                \/ (exists layer pkgs t,
                       In layer layers
                       /\ layer_packages packages layer = Some pkgs
                       /\ In t (Builder.buildAll_tasks tty env options cpus
                                                       layers packages schedule)
                       /\ task_state t = Settled (Throw e)
                       /\ In (task_pkg t) pkgs
                       /\ has_build_script (task_pkg t) = true
                       /\ buildPackage env (task_pkg t) options = Throw e
                       /\ e = BuildFailed (name (task_pkg t))))
         /\ (forall t e,
                In t (Builder.buildAll_tasks tty env options cpus layers
                                             packages schedule) ->
                task_state t = Settled (Throw e) ->
                exists e',
                  Builder.buildAll tty env options cpus layers packages
                                   schedule
                  = Rejected e')
         /\ (Builder.buildAll tty env options cpus layers packages schedule
             = Pending ->
             exists t,
               In t (Builder.buildAll_tasks tty env options cpus layers
                                            packages schedule)
               /\ (task_state t = Checking \/ task_state t = Building))
         /\ (exists more,
                Builder.buildAll tty env options cpus layers packages
                                 (schedule ++ more)
                <> Pending)
         /\ (forall layer pkgs pkg e,
                In layer layers -> layer_packages packages layer = Some pkgs ->
                In pkg pkgs -> has_build_script pkg = true ->
                buildPackage env pkg options = Throw e ->
                exists more e',
                  Builder.buildAll tty env options cpus layers packages
                                   (schedule ++ more)
                  = Rejected e'))
  /\ (forall tty env options cpus layers packages schedule,
         tty = false \/ NoDup (concat layers) ->
         Builder.buildAll tty env options cpus layers packages schedule
         = buildAll env options cpus layers packages schedule
         /\ Builder.buildAll_tasks tty env options cpus layers packages
                                   schedule
            = buildAll_tasks env options cpus layers packages schedule).
Proof.
  split; [exact buildPackage_cases |].
  split; [| exact buildAll_quiet].
  intros tty env options cpus layers packages schedule.
  destruct (buildAll_outcomes tty env options cpus layers packages schedule)
    as (_ & Hres & Hrej & Hpend).
  split; [intro Hresolved; now apply (Hres Hresolved) |].
  split; [| split; [| split; [| split]]].
  - intros e He.
    destruct (Hrej e He)
      as [Hunknown
         | [(-> & Htty & Hlt)
           | (layer & pkgs & t & Hl & Hp & Ht & Hstate & Hin & Hs & Hthrow)]].
    + now left.
    + right. left. split; [reflexivity |]. split; [exact Htty |].
      now apply (named_buildable_repeats packages).
    + right. right. exists layer, pkgs, t.
      repeat split; try assumption.
      now apply (buildPackage_throws env (task_pkg t) options).
  - intros t e Ht Hstate.
    destruct (Builder.buildAll tty env options cpus layers packages schedule)
      as [[] | e' |] eqn:Hout.
    + destruct (Hres eq_refl) as [_ Hdone].
      destruct (Hdone t Ht) as [r Hr]. congruence.
    + now exists e'.
    + destruct (Hpend eq_refl) as [Hclean _].
      contradiction (Hclean t e Ht Hstate).
  - intro Hwait. destruct (Hpend Hwait) as [_ (t & Ht & Hopen)].
    exists t. split; [exact Ht |].
    unfold is_settled in Hopen.
    destruct (task_state t); [now left | now right | discriminate].
  - apply build_layers_settles.
  - intros layer pkgs pkg e Hl Hp Hin Hs Hthrow.
    destruct (build_layers_settles env options cpus tty
                (Builder.total_buildable packages) packages layers schedule 0 [])
      as [more Hmore].
    exists more. fold (Builder.buildAll tty env options cpus layers packages
                                        (schedule ++ more)) in Hmore.
    destruct (buildAll_outcomes tty env options cpus layers packages
                                (schedule ++ more)) as (_ & Hres' & _).
    destruct (Builder.buildAll tty env options cpus layers packages
                               (schedule ++ more)) as [[] | e' |];
      [| now exists e' | now contradiction Hmore].
    destruct (Hres' eq_refl) as [Hall _].
    destruct (Hall layer pkgs pkg Hl Hp Hin Hs) as [r Hr]. congruence.
Qed.

Lemma buildAll_fails_with_one_error_witness :
  Builder.buildAll true a_fails (mkOptions true (Some (Num 2))) 8
                   [["b"; "a"; "c"]] four_packages [0; 1; 2]
  = Rejected (BuildFailed "a")
  /\ Builder.buildAll true all_succeed (mkOptions true None) 8
                      [["a"]; ["a"]; ["a"]] two_packages [0; 0; 0]
     = Rejected RangeError
  /\ Builder.buildAll false all_succeed (mkOptions true None) 8
                      [["a"]; ["a"]; ["a"]] two_packages [0; 0; 0]
     = Resolved tt
  /\ ((BuildFailed "a" = TypeError
       /\ exists layer,
           In layer [["b"; "a"; "c"]]
           /\ layer_packages four_packages layer = None)
      \/ (BuildFailed "a" = RangeError /\ true = true
          /\ ~ NoDup (concat [["b"; "a"; "c"]]))
      \/ (exists layer pkgs t,
             In layer [["b"; "a"; "c"]]
             /\ layer_packages four_packages layer = Some pkgs
             /\ In t (Builder.buildAll_tasks
                        true a_fails (mkOptions true (Some (Num 2))) 8
                        [["b"; "a"; "c"]] four_packages [0; 1; 2])
             /\ task_state t = Settled (Throw (BuildFailed "a"))
             /\ In (task_pkg t) pkgs
             /\ has_build_script (task_pkg t) = true
             /\ buildPackage a_fails (task_pkg t)
                             (mkOptions true (Some (Num 2)))
                = Throw (BuildFailed "a")
             /\ BuildFailed "a" = BuildFailed (name (task_pkg t)))).
Proof.
  assert (Hrun : Builder.buildAll true a_fails (mkOptions true (Some (Num 2))) 8
                                  [["b"; "a"; "c"]] four_packages [0; 1; 2]
                 = Rejected (BuildFailed "a"))
    by (vm_compute; reflexivity).
  split; [exact Hrun |].
  split; [vm_compute; reflexivity |].
  split; [vm_compute; reflexivity |].
  destruct buildAll_fails_with_one_error as (_ & Hall & _).
  destruct (Hall true a_fails (mkOptions true (Some (Num 2))) 8
                 [["b"; "a"; "c"]] four_packages [0; 1; 2])
    as (_ & Hrejected & _).
  exact (Hrejected (BuildFailed "a") Hrun).
Defined.

(** X10: during a run of [buildAll], at every moment and whatever the
    order in which the pending operations complete, every package that
    was started has a build script; a build invocation is in flight only
    for a package that is stale or forced; a staleness check is pending
    only when the build is not forced; and a promise that has settled
    holds what [buildPackage] yields for its package, which is never the
    [skipped] status.  The one exception is on a terminal with layers that
    name some package more than once: there a promise can be rejected
    with the [RangeError] of the progress bar although [buildPackage] was
    fulfilled. *)
Theorem buildAll_runs_only_what_it_must (tty : bool) (env : Environment)
  (options : BuildOptions) (cpus : nat) (layers : list (list string))
  (packages : JsMap.t PackageInfo) (schedule : list nat) (t : Task) :
  In t (Builder.buildAll_tasks tty env options cpus layers packages schedule) ->
  has_build_script (task_pkg t) = true
  /\ (task_state t = Building ->
      force options = true \/ needs env (path (task_pkg t)) = true)
  /\ (task_state t = Checking -> force options = false)
  /\ (forall c, task_state t = Settled c ->
                (c = buildPackage env (task_pkg t) options
                 /\ c <> Return (mkResult (name (task_pkg t)) skipped))
                \/ (c = Throw RangeError /\ tty = true
                    /\ ~ NoDup (concat layers)
                    /\ exists r,
                        buildPackage env (task_pkg t) options = Return r)).
Proof.
  intro Hin.
  destruct (buildAll_outcomes tty env options cpus layers packages schedule)
    as (Htasks & _).
  destruct (Htasks t Hin) as (Hscript & Hbuilding & Hchecking & Hsettled).
  split; [exact Hscript |]. split; [exact Hbuilding |].
  split; [exact Hchecking |].
  intros c Hc.
  destruct (Hsettled c Hc) as [Hbuild | (-> & Htty & Hlt & Hr)].
  - left. split; [exact Hbuild |].
    rewrite Hbuild. unfold buildPackage. rewrite Hscript. cbn [negb].
    destruct (negb (force options) && negb (needs env (path (task_pkg t))));
      [discriminate |].
    destruct (succeeds env (path (task_pkg t))); discriminate.
  - right. split; [reflexivity |]. split; [exact Htty |].
    split; [now apply (named_buildable_repeats packages) | exact Hr].
Qed.

Lemma buildAll_runs_only_what_it_must_witness :
  In (mkTask (createPackage "a" []) Building)
     (Builder.buildAll_tasks true all_succeed (mkOptions false None) 8
                             [["a"; "b"]] four_packages [0])
  /\ In (mkTask (createPackage "b" []) Checking)
        (Builder.buildAll_tasks true all_succeed (mkOptions false None) 8
                                [["a"; "b"]] four_packages [0])
  /\ In (mkTask (createPackage "a" []) (Settled (Throw RangeError)))
        (Builder.buildAll_tasks true all_succeed (mkOptions true None) 8
                                [["a"]; ["a"]; ["a"]] two_packages [0; 0; 0])
  /\ (force (mkOptions false None) = true
      \/ needs all_succeed (path (createPackage "a" [])) = true).
Proof.
  assert (Hin : In (mkTask (createPackage "a" []) Building)
                   (Builder.buildAll_tasks true all_succeed
                                           (mkOptions false None) 8
                                           [["a"; "b"]] four_packages [0]))
    by (now left).
  split; [exact Hin |]. split; [right; now left |].
  split; [right; right; now left |].
  destruct (buildAll_runs_only_what_it_must true all_succeed
              (mkOptions false None) 8 [["a"; "b"]] four_packages [0]
              (mkTask (createPackage "a" []) Building) Hin)
    as (_ & Hbuilding & _).
  now apply Hbuilding.
Defined.
